(** * From a deployment blueprint to a dependency graph

    A shallow embedding of
    [packages/@aws-cdk/pipelines/lib/bp-codepipeline/_graph-from-blueprint.ts]
    (class [GraphFromBlueprint]) and of
    [packages/@aws-cdk/pipelines/lib/bp-main/pipeline.ts] (class [Pipeline]),
    with the properties their specification states about them.

    TypeScript objects are compared by reference, and the compiler mutates
    graph nodes in place, so the graph lives in an explicit object store
    ([heap]) and nodes, Steps, stacks and file sets are references. *)

From stdpp Require Import base option list gmap strings pretty.

Local Open Scope string_scope.
Local Open Scope nat_scope.

(** ** The blueprint layer (read-only input objects) *)

(** Objects are compared by reference; a reference is a number. *)
Abbreviation StepRef := nat (only parsing).
Abbreviation FileSetRef := nat (only parsing).
Abbreviation StackRef := nat (only parsing).
Abbreviation NodeRef := nat (only parsing).

Inductive AssetType := FILE | DOCKER_IMAGE.

Record StackAsset := {
  assetId : string;
  assetSelector : string;
  assetType : AssetType }.

(** A [Step]; [isCodePipelineSource] is [step instanceof CodePipelineSource]. *)
Record Step := {
  step_id : string;
  isCodePipelineSource : bool;
  dependencySteps : list StepRef;
  primaryOutput : option FileSetRef }.

(** A [FileSet] is itself a file-set producer, hence its own optional
    [primaryOutput], read by [synthStep.primaryOutput?.primaryOutput]. *)
Record FileSet := {
  producer : StepRef;
  fileSetPrimaryOutput : option FileSetRef }.

Record StackDeployment := {
  stackName : string;
  customCloudAssembly : option FileSetRef;
  requiredAssets : list StackAsset;
  dependsOnStacks : list StackRef }.

Record StageDeployment := {
  stageName : string;
  stacks : list StackRef;
  stage_pre : list StepRef;
  stage_post : list StepRef }.

Record Wave := {
  wave_id : string;
  stages : list StageDeployment;
  wave_pre : list StepRef;
  wave_post : list StepRef }.

Record Blueprint := {
  synthStep : StepRef;
  waves : list Wave }.

(** The objects the references of a blueprint point to. Dependency lists may
    be cyclic, which is why Steps and stacks are not inductive trees. *)
Record Objects := {
  step : StepRef → Step;
  fileSet : FileSetRef → FileSet;
  stack : StackRef → StackDeployment }.

Record GraphFromBlueprintProps := { selfMutation : bool }.

(** ** Graph nodes and their annotations *)

Inductive GraphAnnotation :=
| AGroup
| AStackGroup (s : StackRef)
| APublishAssets (assets : list StackAsset)
| AStep (s : StepRef) (isBuildStep : bool)
| ASelfUpdate
| APrepare (s : StackRef)
| AExecute (s : StackRef).

(** The [type] tag of an annotation. *)
Inductive AnnotationType :=
| TGroup | TStackGroup | TPublishAssets | TStep | TSelfUpdate | TPrepare | TExecute.

Definition annotationType (a : GraphAnnotation) : AnnotationType :=
  match a with
  | AGroup => TGroup
  | AStackGroup _ => TStackGroup
  | APublishAssets _ => TPublishAssets
  | AStep _ _ => TStep
  | ASelfUpdate => TSelfUpdate
  | APrepare _ => TPrepare
  | AExecute _ => TExecute
  end.

(** One record for [GraphNode] and its subclass [Graph]: a plain node has no
    children. *)
Record GNode := {
  n_id : string;
  n_data : option GraphAnnotation;
  n_dependencies : list NodeRef;
  n_children : list (string * NodeRef) }.

Definition noNode : GNode :=
  {| n_id := ""; n_data := None; n_dependencies := []; n_children := [] |}.

(** ** The compiler's state: the fields of [GraphFromBlueprint] and the store *)

Record GraphFromBlueprint := {
  heap : list GNode;
  graph : NodeRef;
  cloudAssemblyFileSet : option FileSetRef;
  added : gmap StepRef NodeRef;
  assetNodes : gmap string NodeRef;
  synthNode : option NodeRef;
  selfMutateNode : option NodeRef;
  lastPreparationNode : option NodeRef;
  _fileAssetCtr : nat;
  _dockerAssetCtr : nat }.

Inductive Error :=
| MissingCloudAssembly (synth : StepRef)
| WrongDataType (node : NodeRef) (ty : option AnnotationType)
| DuplicateChild (parent : NodeRef) (name : string)
| TypeError.

(** ** A state and exception monad, with [Diverge] for exhausted fuel *)

Inductive Outcome (A : Type) :=
| Ok (a : A) (st : GraphFromBlueprint)
| Throw (e : Error)
| Diverge.
Arguments Ok {A} a st.
Arguments Throw {A} e.
Arguments Diverge {A}.

Definition M (A : Type) := GraphFromBlueprint → Outcome A.

Definition ret {A} (a : A) : M A := λ st, Ok a st.
Definition bind {A B} (m : M A) (f : A → M B) : M B :=
  λ st, match m st with
        | Ok a st' => f a st'
        | Throw e => Throw e
        | Diverge => Diverge
        end.
Definition throw {A} (e : Error) : M A := λ _, Throw e.
Definition gets {A} (f : GraphFromBlueprint → A) : M A := λ st, Ok (f st) st.
Definition modify (f : GraphFromBlueprint → GraphFromBlueprint) : M unit :=
  λ st, Ok tt (f st).

Declare Scope gfb_scope.
Delimit Scope gfb_scope with gfb.
Notation "'let*' x ':=' m 'in' k" := (bind m (λ x, k))
  (at level 10, x name, m at level 100, k at level 200) : gfb_scope.
Notation "m ;;; k" := (bind m (λ _, k))
  (at level 100, right associativity) : gfb_scope.
Local Open Scope gfb_scope.

Fixpoint forEach {A} (f : A → M unit) (l : list A) : M unit :=
  match l with
  | [] => ret tt
  | x :: l' => f x ;;; forEach f l'
  end.

Fixpoint mapM {A B} (f : A → M B) (l : list A) : M (list B) :=
  match l with
  | [] => ret []
  | x :: l' => let* y := f x in let* ys := mapM f l' in ret (y :: ys)
  end.

Fixpoint foldM {A B} (f : B → A → M B) (b : B) (l : list A) : M B :=
  match l with
  | [] => ret b
  | x :: l' => let* b' := f b x in foldM f b' l'
  end.

(** Field updates. *)
Definition set_heap (h : list GNode) (st : GraphFromBlueprint) :=
  {| heap := h; graph := graph st;
     cloudAssemblyFileSet := cloudAssemblyFileSet st; added := added st;
     assetNodes := assetNodes st; synthNode := synthNode st;
     selfMutateNode := selfMutateNode st;
     lastPreparationNode := lastPreparationNode st;
     _fileAssetCtr := _fileAssetCtr st; _dockerAssetCtr := _dockerAssetCtr st |}.
Definition set_added (a : gmap StepRef NodeRef) (st : GraphFromBlueprint) :=
  {| heap := heap st; graph := graph st;
     cloudAssemblyFileSet := cloudAssemblyFileSet st; added := a;
     assetNodes := assetNodes st; synthNode := synthNode st;
     selfMutateNode := selfMutateNode st;
     lastPreparationNode := lastPreparationNode st;
     _fileAssetCtr := _fileAssetCtr st; _dockerAssetCtr := _dockerAssetCtr st |}.
Definition set_assetNodes (a : gmap string NodeRef) (st : GraphFromBlueprint) :=
  {| heap := heap st; graph := graph st;
     cloudAssemblyFileSet := cloudAssemblyFileSet st; added := added st;
     assetNodes := a; synthNode := synthNode st;
     selfMutateNode := selfMutateNode st;
     lastPreparationNode := lastPreparationNode st;
     _fileAssetCtr := _fileAssetCtr st; _dockerAssetCtr := _dockerAssetCtr st |}.
Definition set_cloudAssemblyFileSet (f : option FileSetRef) (st : GraphFromBlueprint) :=
  {| heap := heap st; graph := graph st;
     cloudAssemblyFileSet := f; added := added st;
     assetNodes := assetNodes st; synthNode := synthNode st;
     selfMutateNode := selfMutateNode st;
     lastPreparationNode := lastPreparationNode st;
     _fileAssetCtr := _fileAssetCtr st; _dockerAssetCtr := _dockerAssetCtr st |}.
Definition set_synthNode (n : option NodeRef) (st : GraphFromBlueprint) :=
  {| heap := heap st; graph := graph st;
     cloudAssemblyFileSet := cloudAssemblyFileSet st; added := added st;
     assetNodes := assetNodes st; synthNode := n;
     selfMutateNode := selfMutateNode st;
     lastPreparationNode := lastPreparationNode st;
     _fileAssetCtr := _fileAssetCtr st; _dockerAssetCtr := _dockerAssetCtr st |}.
Definition set_selfMutateNode (n : option NodeRef) (st : GraphFromBlueprint) :=
  {| heap := heap st; graph := graph st;
     cloudAssemblyFileSet := cloudAssemblyFileSet st; added := added st;
     assetNodes := assetNodes st; synthNode := synthNode st;
     selfMutateNode := n;
     lastPreparationNode := lastPreparationNode st;
     _fileAssetCtr := _fileAssetCtr st; _dockerAssetCtr := _dockerAssetCtr st |}.
Definition set_lastPreparationNode (n : option NodeRef) (st : GraphFromBlueprint) :=
  {| heap := heap st; graph := graph st;
     cloudAssemblyFileSet := cloudAssemblyFileSet st; added := added st;
     assetNodes := assetNodes st; synthNode := synthNode st;
     selfMutateNode := selfMutateNode st;
     lastPreparationNode := n;
     _fileAssetCtr := _fileAssetCtr st; _dockerAssetCtr := _dockerAssetCtr st |}.
Definition set_fileAssetCtr (c : nat) (st : GraphFromBlueprint) :=
  {| heap := heap st; graph := graph st;
     cloudAssemblyFileSet := cloudAssemblyFileSet st; added := added st;
     assetNodes := assetNodes st; synthNode := synthNode st;
     selfMutateNode := selfMutateNode st;
     lastPreparationNode := lastPreparationNode st;
     _fileAssetCtr := c; _dockerAssetCtr := _dockerAssetCtr st |}.
Definition set_dockerAssetCtr (c : nat) (st : GraphFromBlueprint) :=
  {| heap := heap st; graph := graph st;
     cloudAssemblyFileSet := cloudAssemblyFileSet st; added := added st;
     assetNodes := assetNodes st; synthNode := synthNode st;
     selfMutateNode := selfMutateNode st;
     lastPreparationNode := lastPreparationNode st;
     _fileAssetCtr := _fileAssetCtr st; _dockerAssetCtr := c |}.

(** ** The graph container ([../private/graph]) *)

(** Reading a node; a reference outside the store reads as [noNode]. *)
Definition node (st : GraphFromBlueprint) (r : NodeRef) : GNode :=
  default noNode (heap st !! r).
Definition deps (st : GraphFromBlueprint) (r : NodeRef) : list NodeRef :=
  n_dependencies (node st r).
Definition children (st : GraphFromBlueprint) (r : NodeRef) : list (string * NodeRef) :=
  n_children (node st r).
Definition data (st : GraphFromBlueprint) (r : NodeRef) : option GraphAnnotation :=
  n_data (node st r).

(** [parent.nodes]: the direct children, in insertion order. *)
Definition nodes (st : GraphFromBlueprint) (r : NodeRef) : list NodeRef :=
  (children st r).*2.

Definition lookupChild (name : string) (cs : list (string * NodeRef)) : option NodeRef :=
  snd <$> List.find (λ c, String.eqb (fst c) name) cs.

(** Modelled from the spec: [Graph.tryGetChild] of the graph container, which
    is not among the sources (section 4.1, [getChildByName]): lookup of a
    direct child by name, without creation. *)
Definition tryGetChild (st : GraphFromBlueprint) (g : NodeRef) (name : string)
  : option NodeRef :=
  lookupChild name (children st g).

(** A new object gets the next free reference. *)
Definition alloc_st (n : GNode) (st : GraphFromBlueprint) : GraphFromBlueprint :=
  set_heap (heap st ++ [n]) st.
Definition alloc (n : GNode) : M NodeRef :=
  λ st, Ok (length (heap st)) (alloc_st n st).

(** Mutation in place of the object at [r]. *)
Definition update_st (r : NodeRef) (f : GNode → GNode) (st : GraphFromBlueprint)
  : GraphFromBlueprint :=
  set_heap (alter f r (heap st)) st.
Definition updateNode (r : NodeRef) (f : GNode → GNode) : M unit :=
  modify (update_st r f).

(** Modelled from the spec: [GraphNode.of(id, data)] of the graph container:
    a new node with an immutable name and an annotation, no dependency yet. *)
Definition GraphNode_of (id : string) (d : GraphAnnotation) : M NodeRef :=
  alloc {| n_id := id; n_data := Some d; n_dependencies := []; n_children := [] |}.

(** Modelled from the spec: [new Graph(name)] of the graph container: a new
    group without annotation and without children. *)
Definition Graph_new (name : string) : M NodeRef :=
  alloc {| n_id := name; n_data := None; n_dependencies := []; n_children := [] |}.

Definition add_child (c : string * NodeRef) (n : GNode) : GNode :=
  {| n_id := n_id n; n_data := n_data n; n_dependencies := n_dependencies n;
     n_children := n_children n ++ [c] |}.

(** Modelled from the spec: [Graph.add] of the graph container (section 4.1,
    [addChild]): attaches a node under a parent and fails if the name collides
    with an existing sibling. *)
Definition Graph_add (parent child : NodeRef) : M unit :=
  λ st,
    let name := n_id (node st child) in
    match tryGetChild st parent name with
    | Some _ => Throw (DuplicateChild parent name)
    | None => updateNode parent (add_child (name, child)) st
    end.

(** Modelled from the spec: [Graph.of(id, data, nodes)] of the graph
    container: a new group with an annotation, to which the given nodes are
    added in order. *)
Definition Graph_of (id : string) (d : GraphAnnotation) (ns : list NodeRef) : M NodeRef :=
  let* g := GraphNode_of id d in
  forEach (Graph_add g) ns ;;;
  ret g.

Definition add_dependencies (ds : list NodeRef) (n : GNode) : GNode :=
  {| n_id := n_id n; n_data := n_data n;
     n_dependencies := n_dependencies n ++ ds; n_children := n_children n |}.

(** Modelled from the spec: [GraphNode.dependOn] of the graph container
    (section 4.1): records that the node waits for each of the given nodes;
    no cycle detection. An absent ([undefined]) dependency records nothing. *)
Definition dependOn (n : NodeRef) (ds : list (option NodeRef)) : M unit :=
  updateNode n (add_dependencies (omap id ds)).

(** Modelled from the spec: [GraphNodeCollection.dependOn] of the graph
    container: every member of the collection depends on the given node. *)
Definition collection_dependOn (ns : list NodeRef) (d : NodeRef) : M unit :=
  forEach (λ n, dependOn n [Some d]) ns.

Definition set_data (d : option GraphAnnotation) (n : GNode) : GNode :=
  {| n_id := n_id n; n_data := d; n_dependencies := n_dependencies n;
     n_children := n_children n |}.

(** ** The compiler *)

Section Compiler.
Context (O : Objects).

Definition topLevelGraph (name : string) : M NodeRef :=
  let* root := gets graph in
  let* ret0 := gets (λ st, tryGetChild st root name) in
  match ret0 with
  | Some r => ret r
  | None =>
      let* r := Graph_new name in
      Graph_add root r ;;;
      ret r
  end.

(** [fuel] bounds the depth of the recursion; a memo hit needs none. *)
Fixpoint addAndRecurse (fuel : nat) (s : StepRef) (parent : NodeRef) : M NodeRef :=
  let* previous := gets (λ st, added st !! s) in
  match previous with
  | Some previous => ret previous
  | None =>
      match fuel with
      | 0 => λ _, Diverge
      | S fuel' =>
          let* n := GraphNode_of (step_id (step O s)) (AStep s false) in
          let* parent := (if isCodePipelineSource (step O s)
                    then topLevelGraph "Source" else ret parent) in
          Graph_add parent n ;;;
          modify (λ st, set_added (<[s := n]> (added st)) st) ;;;
          forEach (λ dep,
                     let* producerNode := addAndRecurse fuel' dep parent in
                     dependOn n [Some producerNode])
                  (dependencySteps (step O s)) ;;;
          ret n
      end
  end.

(** The part of [addAndRecurse] that runs for a Step without a node, with the
    recursive call as a parameter; [addAndRecurse (S fuel)] runs
    [addNew (addAndRecurse fuel)] (lemma [addAndRecurse_S]). Only used to
    compare runs with different fuel. *)
Definition addNew (rec : StepRef → NodeRef → M NodeRef) (s : StepRef)
    (parent : NodeRef) : M NodeRef :=
  let* n := GraphNode_of (step_id (step O s)) (AStep s false) in
  let* parent := (if isCodePipelineSource (step O s)
                  then topLevelGraph "Source" else ret parent) in
  Graph_add parent n ;;;
  modify (λ st, set_added (<[s := n]> (added st)) st) ;;;
  forEach (λ dep,
             let* producerNode := rec dep parent in
             dependOn n [Some producerNode])
          (dependencySteps (step O s)) ;;;
  ret n.

(** [isSynthNode(node)]: reference equality with the [synthNode] field. *)
Definition isSynthNode (st : GraphFromBlueprint) (n : NodeRef) : bool :=
  bool_decide (synthNode st = Some n).

Definition addBuildStep (fuel : nat) (s : StepRef) : M NodeRef :=
  let* parent := topLevelGraph "Build" in
  addAndRecurse fuel s parent.

Definition addPrePost (fuel : nat) (pre post : list StepRef) (parent : NodeRef)
  : M unit :=
  let* currentNodes := gets (λ st, nodes st parent) in
  forEach (λ p,
             let* preNode := addAndRecurse fuel p parent in
             collection_dependOn currentNodes preNode) pre ;;;
  forEach (λ p,
             let* postNode := addAndRecurse fuel p parent in
             dependOn postNode (Some <$> currentNodes)) post.

Definition nextAssetName (a : StackAsset) : M string :=
  match assetType a with
  | FILE =>
      modify (λ st, set_fileAssetCtr (S (_fileAssetCtr st)) st) ;;;
      let* c := gets _fileAssetCtr in
      ret ("FileAsset" +:+ pretty c)
  | DOCKER_IMAGE =>
      modify (λ st, set_dockerAssetCtr (S (_dockerAssetCtr st)) st) ;;;
      let* c := gets _dockerAssetCtr in
      ret ("DockerAsset" +:+ pretty c)
  end.

Definition publishAsset (stackAsset : StackAsset) : M NodeRef :=
  let* assetsGraph := topLevelGraph "Assets" in
  let* assetNode := gets (λ st, assetNodes st !! assetId stackAsset) in
  match assetNode with
  | Some assetNode =>
      let* d := gets (λ st, data st assetNode) in
      match d with
      | Some (APublishAssets assets) =>
          if existsb (λ a, String.eqb (assetSelector a) (assetSelector stackAsset)) assets
          then ret tt
          else updateNode assetNode
                 (set_data (Some (APublishAssets (assets ++ [stackAsset]))))
      | _ => throw (WrongDataType assetNode (annotationType <$> d))
      end
  | None => ret tt
  end ;;;
  let* id := nextAssetName stackAsset in
  let* newNode := GraphNode_of id (APublishAssets [stackAsset]) in
  modify (λ st, set_assetNodes (<[assetId stackAsset := newNode]> (assetNodes st)) st) ;;;
  Graph_add assetsGraph newNode ;;;
  let* lp := gets lastPreparationNode in
  dependOn newNode [lp] ;;;
  ret newNode.

(** The stack-scoped group of [addStage]'s first loop with its two nodes:
    [Graph.of(stack.stackName, ...)], ['Prepare'], ['Deploy'],
    [stackGraph.add(prepare, deploy)] and [deploy.dependOn(prepare)]. *)
Definition newStackGraph (s : StackRef) : M (NodeRef * NodeRef * NodeRef) :=
  let* stackGraph := Graph_of (stackName (stack O s)) (AStackGroup s) [] in
  let* prepare := GraphNode_of "Prepare" (APrepare s) in
  let* deploy := GraphNode_of "Deploy" (AExecute s) in
  Graph_add stackGraph prepare ;;;
  Graph_add stackGraph deploy ;;;
  dependOn deploy [Some prepare] ;;;
  ret (stackGraph, prepare, deploy).

(** [stack.customCloudAssembly?.primaryOutput ?? this.cloudAssemblyFileSet] *)
Definition cloudAssemblyOf (s : StackRef) (shared : option FileSetRef)
  : option FileSetRef :=
  match customCloudAssembly (stack O s) with
  | Some c =>
      match fileSetPrimaryOutput (fileSet O c) with
      | Some f => Some f
      | None => shared
      end
  | None => shared
  end.

(** The body of the first loop of [addStage] for one stack; returns the
    updated [stackGraphs] map. *)
Definition addStack (fuel : nat) (retGraph : NodeRef)
    (stackGraphs : gmap StackRef NodeRef) (s : StackRef)
  : M (gmap StackRef NodeRef) :=
  let* g := newStackGraph s in
  let stackGraph := g.1.1 in
  let prepare := g.1.2 in
  let* shared := gets cloudAssemblyFileSet in
  match cloudAssemblyOf s shared with
  | None => throw TypeError
  | Some cloudAssembly =>
      let* producerNode := addAndRecurse fuel (producer (fileSet O cloudAssembly)) retGraph in
      dependOn prepare [Some producerNode] ;;;
      forEach (λ asset,
                 let* assetNode := publishAsset asset in
                 dependOn prepare [Some assetNode])
              (requiredAssets (stack O s)) ;;;
      ret (<[s := stackGraph]> stackGraphs)
  end.

(** The second loop of [addStage]. *)
Definition addStackDependencies (stackGraphs : gmap StackRef NodeRef)
    (ss : list StackRef) : M unit :=
  forEach (λ s,
             forEach (λ dep,
                        match stackGraphs !! s with
                        | Some g => dependOn g [stackGraphs !! dep]
                        | None => ret tt
                        end)
                     (dependsOnStacks (stack O s)))
          ss.

Definition addStage (fuel : nat) (stage : StageDeployment) : M NodeRef :=
  let* retGraph := Graph_of (stageName stage) AGroup [] in
  let* stackGraphs := foldM (addStack fuel retGraph) ∅ (stacks stage) in
  addStackDependencies stackGraphs (stacks stage) ;;;
  addPrePost fuel (stage_pre stage) (stage_post stage) retGraph ;;;
  ret retGraph.

Definition addWave (fuel : nat) (wave : Wave) : M NodeRef :=
  let* retGraph := match stages wave with
             | [stage] => addStage fuel stage
             | ss =>
                 let* gs := mapM (addStage fuel) ss in
                 Graph_of (wave_id wave) AGroup gs
             end in
  addPrePost fuel (wave_pre wave) (wave_post wave) retGraph ;;;
  let* lp := gets lastPreparationNode in
  dependOn retGraph [lp] ;;;
  ret retGraph.

Definition markBuildStep (n : GNode) : GNode :=
  match n_data n with
  | Some (AStep s _) => set_data (Some (AStep s true)) n
  | _ => n
  end.

(** [for (let i = 1; i < waves.length; i++) waves[i].dependOn(waves[i - 1])] *)
Definition deploySequentially (ws : list NodeRef) : M unit :=
  forEach (λ i,
             match ws !! i with
             | Some w => dependOn w [ws !! (i - 1)]
             | None => throw TypeError
             end)
          (seq 1 (length ws - 1)).

(** The state of the field initialisers: the root group is the only node. *)
Definition initial : GraphFromBlueprint :=
  {| heap := [ {| n_id := ""; n_data := Some AGroup;
                  n_dependencies := []; n_children := [] |} ];
     graph := 0;
     cloudAssemblyFileSet := None; added := ∅; assetNodes := ∅;
     synthNode := None; selfMutateNode := None; lastPreparationNode := None;
     _fileAssetCtr := 0; _dockerAssetCtr := 0 |}.

(** The constructor body; its value is the local [waves]. *)
Definition construct (fuel : nat) (blueprint : Blueprint)
    (props : GraphFromBlueprintProps) : M (list NodeRef) :=
  let* sn := addBuildStep fuel (synthStep blueprint) in
  modify (set_synthNode (Some sn)) ;;;
  updateNode sn markBuildStep ;;;
  modify (set_lastPreparationNode (Some sn)) ;;;
  match
    match primaryOutput (step O (synthStep blueprint)) with
    | Some f => fileSetPrimaryOutput (fileSet O f)
    | None => None
    end
  with
  | None => throw (MissingCloudAssembly (synthStep blueprint))
  | Some cloudAssembly =>
      modify (set_cloudAssemblyFileSet (Some cloudAssembly)) ;;;
      (if selfMutation props
       then
         let* root := gets graph in
         let* stage := Graph_of "UpdatePipeline" AGroup [] in
         Graph_add root stage ;;;
         let* sm := GraphNode_of "SelfMutate" ASelfUpdate in
         modify (set_selfMutateNode (Some sm)) ;;;
         Graph_add stage sm ;;;
         dependOn sm [Some sn] ;;;
         modify (set_lastPreparationNode (Some sm))
       else ret tt) ;;;
      let* ws := mapM (addWave fuel) (waves blueprint) in
      deploySequentially ws ;;;
      ret ws
  end.

(** The block [if (props.selfMutation) { ... }] of the constructor, as it
    stands in [construct], for the synth node [sn]. *)
Definition addSelfMutation (sn : NodeRef) : M unit :=
  let* root := gets graph in
  let* stage := Graph_of "UpdatePipeline" AGroup [] in
  Graph_add root stage ;;;
  let* sm := GraphNode_of "SelfMutate" ASelfUpdate in
  modify (set_selfMutateNode (Some sm)) ;;;
  Graph_add stage sm ;;;
  dependOn sm [Some sn] ;;;
  modify (set_lastPreparationNode (Some sm)).

(** [new GraphFromBlueprint(blueprint, props)] *)
Definition new_GraphFromBlueprint (fuel : nat) (blueprint : Blueprint)
    (props : GraphFromBlueprintProps) : Outcome (list NodeRef) :=
  construct fuel blueprint props initial.

End Compiler.

(** * How an operation may change the state *)

(** The annotation of a node keeps its variant and its subject; only the
    asset list of a publish node and the [isBuildStep] flag may change. *)
Definition data_stable (d d' : option GraphAnnotation) : Prop :=
  match d, d' with
  | Some (APublishAssets _), Some (APublishAssets _) => True
  | Some (AStep s _), Some (AStep s' _) => s = s'
  | _, _ => d = d'
  end.

Record node_le (n n' : GNode) : Prop := {
  le_id : n_id n' = n_id n;
  le_data : data_stable (n_data n) (n_data n');
  le_deps : n_dependencies n `prefix_of` n_dependencies n';
  le_children : n_children n `prefix_of` n_children n' }.

(** The nodes whose dependency list an operation entered in state [st0] may
    extend: the nodes it creates, the nodes of Steps, and the nodes [B] of a
    barrier. *)
Definition touched (B : list NodeRef) (st0 : GraphFromBlueprint) (r : NodeRef) : Prop :=
  length (heap st0) ≤ r ∨ (∃ s, added st0 !! s = Some r) ∨ r ∈ B.

Record mods (B : list NodeRef) (st0 st : GraphFromBlueprint) : Prop := {
  m_graph : graph st = graph st0;
  m_lp : lastPreparationNode st = lastPreparationNode st0;
  m_ca : cloudAssemblyFileSet st = cloudAssemblyFileSet st0;
  m_added : ∀ s n, added st0 !! s = Some n → added st !! s = Some n;
  m_added_new : ∀ s n, added st !! s = Some n →
      added st0 !! s = Some n ∨ length (heap st0) ≤ n < length (heap st);
  m_heap : ∀ r nd, heap st0 !! r = Some nd →
      ∃ nd', heap st !! r = Some nd' ∧ node_le nd nd';
  m_children_new : ∀ r c, c ∈ children st r →
      c ∈ children st0 r ∨ length (heap st0) ≤ c.2 < length (heap st);
  m_frame : ∀ r, ¬ touched B st0 r → deps st r = deps st0 r }.

(** Objects are never removed, and an object only gains dependencies and
    children. *)
Definition grows (st0 st : GraphFromBlueprint) : Prop :=
  ∀ r nd, heap st0 !! r = Some nd →
    ∃ nd', heap st !! r = Some nd' ∧ node_le nd nd'.

(** Well-formed states: every reference held points into the store. *)
Record wf (st : GraphFromBlueprint) : Prop := {
  wf_graph : graph st < length (heap st);
  wf_added : ∀ s n, added st !! s = Some n → n < length (heap st);
  wf_children : ∀ r c, c ∈ children st r → c.2 < length (heap st);
  wf_lp : ∀ n, lastPreparationNode st = Some n → n < length (heap st) }.

(** ** Stack groups *)

(** [sg] is the stack-scoped group of stack [s]: it holds the stack's
    "Prepare" node [p] and "Deploy" node [d], and [d] depends on [p]. *)
Definition stackGroup (st : GraphFromBlueprint) (s : StackRef) (sg p d : NodeRef)
  : Prop :=
  data st sg = Some (AStackGroup s) ∧
  ("Prepare", p) ∈ children st sg ∧ ("Deploy", d) ∈ children st sg ∧
  data st p = Some (APrepare s) ∧ data st d = Some (AExecute s) ∧
  p ∈ deps st d ∧
  sg < length (heap st) ∧ p < length (heap st) ∧ d < length (heap st).

(** ** Where a dependency edge comes from *)

(** An edge declared by a Step: [x] is the node of a Step one of whose
    [dependencySteps] has node [y]. *)
Definition stepEdge (O : Objects) (a : gmap StepRef NodeRef) (x y : NodeRef) : Prop :=
  ∃ s d, a !! s = Some x ∧ d ∈ dependencySteps (step O s) ∧ a !! d = Some y.

(** The edges of a pre/post barrier around the nodes [base]: a Step's declared
    edge, an edge from a [base] node to the node of a [pre] Step, or an edge
    from the node of a [post] Step to a [base] node. *)
Definition barrierEdge (O : Objects) (base : list NodeRef) (pre post : list StepRef)
    (a : gmap StepRef NodeRef) (x y : NodeRef) : Prop :=
  stepEdge O a x y ∨
  (x ∈ base ∧ ∃ p, p ∈ pre ∧ a !! p = Some y) ∨
  ((∃ p, p ∈ post ∧ a !! p = Some x) ∧ y ∈ base).

(** Every edge of [st] was there in [st0] or is of kind [P]. *)
Definition provenance (P : gmap StepRef NodeRef → NodeRef → NodeRef → Prop)
    (st0 st : GraphFromBlueprint) : Prop :=
  ∀ x y, y ∈ deps st x → y ∈ deps st0 x ∨ P (added st) x y.

(** ** The asset memo and the fatal errors *)

(** Every node registered in the asset memo carries the asset-publish
    annotation. *)
Definition asset_memo_ok (st : GraphFromBlueprint) : Prop :=
  ∀ k n, assetNodes st !! k = Some n →
    ∃ assets, data st n = Some (APublishAssets assets).

(** The two errors the compiler itself raises; the others come from the
    graph container or from the language. *)
Definition fatal (e : Error) : Prop :=
  match e with
  | MissingCloudAssembly _ | WrongDataType _ _ => True
  | DuplicateChild _ _ | TypeError => False
  end.

(** An operation that keeps the asset memo in order and raises neither fatal
    error. *)
Definition safe {A} (m : M A) : Prop :=
  ∀ st, asset_memo_ok st →
    match m st with
    | Ok _ st' => asset_memo_ok st'
    | Throw e => ¬ fatal e
    | Diverge => True
    end.

(** ** Finite sets of Steps *)

(** [U] contains every Step its members depend on. *)
Definition steps_closed (O : Objects) (U : list StepRef) : Prop :=
  ∀ s, s ∈ U → ∀ d, d ∈ dependencySteps (step O s) → d ∈ U.

(** The Steps of [U] that have no node yet (counted with multiplicity). *)
Definition unvisited (U : list StepRef) (st : GraphFromBlueprint) : nat :=
  length (filter (λ s, added st !! s = None) U).

(** ** Invariants of the store *)

(** The annotation of a node when it is created: a publish node starts with
    one asset, a Step node without the [isBuildStep] mark. *)
Definition new_data (d : option GraphAnnotation) : Prop :=
  match d with
  | Some (APublishAssets l) => ∃ a, l = [a]
  | Some (AStep _ b) => b = false
  | _ => True
  end.

(** A node as the compiler creates it: no dependency and no child yet. *)
Record new_node (nd : GNode) : Prop := {
  new_dependencies : n_dependencies nd = [];
  new_children : n_children nd = [];
  new_annotation : new_data (n_data nd) }.

(** A state predicate that every update made while Steps, assets, stacks,
    stages and waves are compiled keeps: the creation of a node, a new
    child, new dependencies, an asset with a new selector appended to a
    publish node, the registration of a fresh Step node or publish node in
    its memo, and a new counter value. *)
Record stable (I : GraphFromBlueprint → Prop) : Prop := {
  stable_alloc : ∀ st nd, I st → new_node nd → I (alloc_st nd st);
  stable_add_child : ∀ st p c, I st → I (update_st p (add_child c) st);
  stable_add_dependencies : ∀ st r ds, I st →
    I (update_st r (add_dependencies ds) st);
  stable_push : ∀ st r l a, I st →
    data st r = Some (APublishAssets l) →
    existsb (λ x, String.eqb (assetSelector x) (assetSelector a)) l = false →
    I (update_st r (set_data (Some (APublishAssets (l ++ [a])))) st);
  stable_added : ∀ st s n, I st →
    added st !! s = None → data st n = Some (AStep s false) →
    I (set_added (<[s := n]> (added st)) st);
  stable_assetNodes : ∀ st a n, I st →
    data st n = Some (APublishAssets [a]) →
    I (set_assetNodes (<[assetId a := n]> (assetNodes st)) st);
  stable_fileAssetCtr : ∀ st c, I st → I (set_fileAssetCtr c st);
  stable_dockerAssetCtr : ∀ st c, I st → I (set_dockerAssetCtr c st) }.

(** The same without the registration of a Step node, which only
    [addAndRecurse] makes: for what holds between its calls but not
    within them. *)
Record settled (I : GraphFromBlueprint → Prop) : Prop := {
  settled_new : ∀ st nd, I st → new_node nd → I (alloc_st nd st);
  settled_child : ∀ st p c, I st → I (update_st p (add_child c) st);
  settled_deps : ∀ st r ds, I st → I (update_st r (add_dependencies ds) st);
  settled_push : ∀ st r l a, I st →
    data st r = Some (APublishAssets l) →
    existsb (λ x, String.eqb (assetSelector x) (assetSelector a)) l = false →
    I (update_st r (set_data (Some (APublishAssets (l ++ [a])))) st);
  settled_register : ∀ st a n, I st →
    data st n = Some (APublishAssets [a]) →
    I (set_assetNodes (<[assetId a := n]> (assetNodes st)) st);
  settled_file : ∀ st c, I st → I (set_fileAssetCtr c st);
  settled_docker : ∀ st c, I st → I (set_dockerAssetCtr c st) }.

(** The updates only the constructor body makes: its fields and the
    [isBuildStep] mark. *)
Record stable_fields (I : GraphFromBlueprint → Prop) : Prop := {
  stable_synthNode : ∀ st n, I st → I (set_synthNode n st);
  stable_selfMutateNode : ∀ st n, I st → I (set_selfMutateNode n st);
  stable_lastPreparationNode : ∀ st n, I st → I (set_lastPreparationNode n st);
  stable_cloudAssemblyFileSet : ∀ st f, I st → I (set_cloudAssemblyFileSet f st);
  stable_markBuildStep : ∀ st r, I st → I (update_st r markBuildStep st) }.

(** An operation that keeps [I] and raises no error of [Bad]. *)
Definition guard {A} (I : GraphFromBlueprint → Prop) (Bad : Error → Prop)
    (m : M A) : Prop :=
  ∀ st, I st →
    match m st with
    | Ok _ st' => I st'
    | Throw e => ¬ Bad e
    | Diverge => True
    end.

(** The node registered for a Step carries the annotation of that Step. *)
Definition memo_annotated (st : GraphFromBlueprint) : Prop :=
  ∀ s n, added st !! s = Some n → ∃ b, data st n = Some (AStep s b).

(** No publish node lists two assets with the same selector. *)
Definition selectors_distinct (st : GraphFromBlueprint) : Prop :=
  ∀ n l, data st n = Some (APublishAssets l) → NoDup (assetSelector <$> l).

(** Only the synth node carries the [isBuildStep] mark. *)
Definition build_step_is_synth (st : GraphFromBlueprint) : Prop :=
  ∀ n s, data st n = Some (AStep s true) → synthNode st = Some n.

(** The children of the "Assets" group are named after counter values that
    have been used. *)
Definition asset_names_used (st : GraphFromBlueprint) : Prop :=
  ∀ g name c, tryGetChild st (graph st) "Assets" = Some g →
    (name, c) ∈ children st g →
    (∃ k, name = "FileAsset" +:+ pretty k ∧ k ≤ _fileAssetCtr st) ∨
    (∃ k, name = "DockerAsset" +:+ pretty k ∧ k ≤ _dockerAssetCtr st).

(** What the first loop of [addStage] builds for a stack [s] whose cloud
    assembly is [ca]: the stack group [sg] with "Prepare" [p] and "Deploy"
    [d]; [p] depends on the node of the producer of [ca] and, for every asset
    the stack requires, on a publish node that lists the asset. *)
Definition prepared (O : Objects) (s : StackRef) (ca : FileSetRef)
    (sg p d : NodeRef) (st : GraphFromBlueprint) : Prop :=
  stackGroup st s sg p d ∧
  (∃ pn, added st !! producer (fileSet O ca) = Some pn ∧ pn ∈ deps st p) ∧
  ∀ a, a ∈ requiredAssets (stack O s) →
    ∃ an, an ∈ deps st p ∧ ∃ l, data st an = Some (APublishAssets l) ∧ a ∈ l.

(** ** The Steps a call adds *)

(** [t] is reached from [s] along declared dependencies. *)
Inductive reaches (O : Objects) : StepRef → StepRef → Prop :=
| reaches_here s : reaches O s s
| reaches_next s d t :
    d ∈ dependencySteps (step O s) → reaches O d t → reaches O s t.

(** [t] is reached from [s] along declared dependencies without meeting a
    source Step: none of the Steps on the path, [s] and [t] included, is
    one. *)
Inductive plain_path (O : Objects) : StepRef → StepRef → Prop :=
| plain_here s : isCodePipelineSource (step O s) = false → plain_path O s s
| plain_next s d t :
    isCodePipelineSource (step O s) = false →
    d ∈ dependencySteps (step O s) → plain_path O d t → plain_path O s t.

(** [t] is reached from [s] along declared dependencies through a source
    Step: a Step on the path, possibly [s] or [t] itself, is one. *)
Inductive via_source (O : Objects) : StepRef → StepRef → Prop :=
| via_here s t :
    isCodePipelineSource (step O s) = true → reaches O s t → via_source O s t
| via_next s d t :
    isCodePipelineSource (step O s) = false →
    d ∈ dependencySteps (step O s) → via_source O d t → via_source O s t.

(** Where [addAndRecurse(s, parent)] puts the node [n'] of a Step [s']:
    under [parent], and then [s'] is reached from [s] without meeting a
    source Step, or under the "Source" group of [root], and then [s'] is
    reached from [s] through a source Step. *)
Definition routed (O : Objects) (root : NodeRef) (s : StepRef) (parent : NodeRef)
    (st : GraphFromBlueprint) (s' : StepRef) (n' : NodeRef) : Prop :=
  ((step_id (step O s'), n') ∈ children st parent ∧ plain_path O s s') ∨
  ∃ src, tryGetChild st root "Source" = Some src ∧
         (step_id (step O s'), n') ∈ children st src ∧ via_source O s s'.

(** The node [n] of Step [s] depends on the node of every Step that [s]
    declares as a dependency. *)
Definition linked (O : Objects) (st : GraphFromBlueprint) (s : StepRef) (n : NodeRef)
  : Prop :=
  ∀ d, d ∈ dependencySteps (step O s) →
    ∃ nd, added st !! d = Some nd ∧ nd ∈ deps st n.

(** Every Step with a node is linked. *)
Definition all_linked (O : Objects) (st : GraphFromBlueprint) : Prop :=
  ∀ s n, added st !! s = Some n → linked O st s n.

(** ** What a graph contains *)

(** [x] is in the graph [g]: [g] itself, or a node reached from it through
    [nodes], the children of a group. *)
Inductive inGraph (st : GraphFromBlueprint) (g : NodeRef) : NodeRef → Prop :=
| inGraph_self : inGraph st g g
| inGraph_child r c :
    inGraph st g r → c ∈ children st r → inGraph st g c.2.

(** The groups of the store that have [x] among their [nodes]. *)
Definition parents (st : GraphFromBlueprint) (x : NodeRef) : list NodeRef :=
  filter (λ r, x ∈ nodes st r) (seq 0 (length (heap st))).

(** No group has [x] among its [nodes]. *)
Definition orphan (st : GraphFromBlueprint) (x : NodeRef) : Prop :=
  ∀ r c, c ∈ children st r → c.2 ≠ x.

(** No group but [r] has [x] among its [nodes]. *)
Definition only_parent (st : GraphFromBlueprint) (x r : NodeRef) : Prop :=
  ∀ r' c, c ∈ children st r' → c.2 = x → r' = r.

(** The stack group [sg] of stack [s], with its nodes [p] and [d], is
    attached to nothing: no group holds [sg], and only [sg] holds [p] and
    [d]. *)
Definition detached (st : GraphFromBlueprint) (s : StackRef) (sg p d : NodeRef)
  : Prop :=
  stackGroup st s sg p d ∧ orphan st sg ∧ only_parent st p sg ∧ only_parent st d sg.

(** From [st0] to [st] groups have only gained nodes that did not exist in
    [st0]. *)
Definition fresh_children (st0 st : GraphFromBlueprint) : Prop :=
  length (heap st0) ≤ length (heap st) ∧
  ∀ r c, c ∈ children st r → c ∈ children st0 r ∨ length (heap st0) ≤ c.2.

(** ** Running to the end *)

(** An operation that returns or throws from every state. *)
Definition halts {A} (m : M A) : Prop := ∀ st, m st ≠ Diverge.

(** The Steps a blueprint refers to are in [U]: the synth Step, the
    producers of the file sets, and the pre and post Steps of the waves and
    of their stages. *)
Definition stage_steps_in (U : list StepRef) (stage : StageDeployment) : Prop :=
  (∀ s, s ∈ stage_pre stage → s ∈ U) ∧ (∀ s, s ∈ stage_post stage → s ∈ U).

Definition wave_steps_in (U : list StepRef) (wave : Wave) : Prop :=
  (∀ s, s ∈ wave_pre wave → s ∈ U) ∧ (∀ s, s ∈ wave_post wave → s ∈ U) ∧
  Forall (stage_steps_in U) (stages wave).

Definition blueprint_steps_in (O : Objects) (U : list StepRef) (b : Blueprint) : Prop :=
  synthStep b ∈ U ∧ (∀ f, producer (fileSet O f) ∈ U) ∧
  Forall (wave_steps_in U) (waves b).

(** The errors other than the duplicate-name error of the graph container. *)
Definition unexpected (e : Error) : Prop :=
  match e with
  | DuplicateChild _ _ => False
  | _ => True
  end.

(** * The Pipeline construct ([bp-main/pipeline.ts]) *)

Module Pipeline.
Section Model.
(** The blueprint and the deployment engine are external collaborators.
    [Blueprint.addStage] and [Blueprint.addWave] update the blueprint and
    return a value; [IDeploymentEngine.buildDeployment] may change the
    engine and either returns ([None]) or throws ([Some message]). *)
Context {Blueprint Engine Stage AddStageOptions AddWaveOptions
         StageDeployment Wave : Type}.
Context (blueprint_addStage :
           Stage → option AddStageOptions → Blueprint → Blueprint * StageDeployment).
Context (blueprint_addWave :
           string → option AddWaveOptions → Blueprint → Blueprint * Wave).
Context (buildDeployment : Blueprint → Engine → Engine * option string).

(** The fields of a [Pipeline]; [invocations] and [completions] are ghost
    counters of the calls of [engine.buildDeployment] that were started and
    that returned. *)
Record Pipeline := {
  blueprint : Blueprint;
  engine : Engine;
  built : bool;
  invocations : nat;
  completions : nat }.

Inductive Result (A : Type) :=
| Return (a : A)
| Raise (message : string).
Arguments Return {A} a.
Arguments Raise {A} message.

Definition constructor (b : Blueprint) (e : Engine) : Pipeline :=
  {| blueprint := b; engine := e; built := false;
     invocations := 0; completions := 0 |}.

Definition addStage (stage : Stage) (options : option AddStageOptions)
    (this : Pipeline) : Pipeline * Result StageDeployment :=
  if built this
  then (this, Raise "addStage: can't add Stages anymore after build() has been called")
  else
    let '(b, r) := blueprint_addStage stage options (blueprint this) in
    ({| blueprint := b; engine := engine this; built := built this;
        invocations := invocations this; completions := completions this |},
     Return r).

Definition addWave (id : string) (options : option AddWaveOptions)
    (this : Pipeline) : Pipeline * Result Wave :=
  if built this
  then (this, Raise "addStage: can't add Stages anymore after build() has been called")
  else
    let '(b, r) := blueprint_addWave id options (blueprint this) in
    ({| blueprint := b; engine := engine this; built := built this;
        invocations := invocations this; completions := completions this |},
     Return r).

Definition build (this : Pipeline) : Pipeline * Result unit :=
  if built this
  then (this, Raise "build() has already been called: can only call it once")
  else
    match buildDeployment (blueprint this) (engine this) with
    | (e, None) =>
        ({| blueprint := blueprint this; engine := e; built := true;
            invocations := S (invocations this);
            completions := S (completions this) |},
         Return tt)
    | (e, Some message) =>
        ({| blueprint := blueprint this; engine := e; built := built this;
            invocations := S (invocations this);
            completions := completions this |},
         Raise message)
    end.

Definition prepare (this : Pipeline) : Pipeline * Result unit :=
  if negb (built this) then build this else (this, Return tt).

(** A caller of the public interface; exceptions are caught by the caller,
    who goes on with the next call. *)
Inductive Call :=
| CallAddStage (stage : Stage) (options : option AddStageOptions)
| CallAddWave (id : string) (options : option AddWaveOptions)
| CallBuild
| CallPrepare.

Definition call (c : Call) (this : Pipeline) : Pipeline :=
  match c with
  | CallAddStage stage options => (addStage stage options this).1
  | CallAddWave id options => (addWave id options this).1
  | CallBuild => (build this).1
  | CallPrepare => (prepare this).1
  end.

Definition run (cs : list Call) (this : Pipeline) : Pipeline :=
  foldl (λ p c, call c p) this cs.

(** [built] is set exactly when a call of the engine has returned, which
    happens at most once. *)
Definition built_once (p : Pipeline) : Prop :=
  completions p = (if built p then 1 else 0) ∧ completions p ≤ invocations p.

(** The calls that add to the blueprint, and the blueprint after a sequence
    of calls that were all accepted. *)
Definition adds (c : Call) : bool :=
  match c with
  | CallAddStage _ _ | CallAddWave _ _ => true
  | CallBuild | CallPrepare => false
  end.

Definition blueprint_after (cs : list Call) (b : Blueprint) : Blueprint :=
  foldl (λ b c,
           match c with
           | CallAddStage stage options => (blueprint_addStage stage options b).1
           | CallAddWave id options => (blueprint_addWave id options b).1
           | CallBuild | CallPrepare => b
           end) b cs.
End Model.
Arguments Return {A} a.
Arguments Raise {A} message.
End Pipeline.

(** * Concrete blueprints *)

Definition mkStep (id : string) (source : bool) (ds : list StepRef)
    (out : option FileSetRef) : Step :=
  {| step_id := id; isCodePipelineSource := source; dependencySteps := ds;
     primaryOutput := out |}.

Definition mkStack (name : string) (custom : option FileSetRef)
    (assets : list StackAsset) (ds : list StackRef) : StackDeployment :=
  {| stackName := name; customCloudAssembly := custom;
     requiredAssets := assets; dependsOnStacks := ds |}.

Definition asset1 : StackAsset :=
  {| assetId := "abc"; assetSelector := "abc:us-east-1"; assetType := FILE |}.
Definition asset2 : StackAsset :=
  {| assetId := "abc"; assetSelector := "abc:eu-west-1"; assetType := FILE |}.

(** Steps: 0 "Synth" (depends on the source 1, produces file set 0),
    1 "Source" (a [CodePipelineSource]), 2 and 3 depend on each other,
    4..7 are hook Steps ("A", "B", "C", "D"), 8 "Custom" produces file set 1,
    10 depends on 11 and 12, which both depend on 13. Stack 0 depends on
    stack 1; both require an asset with the same id; stack 2 has a custom
    cloud assembly. *)
Definition demo : Objects :=
  {| step := λ r,
       match r with
       | 0 => mkStep "Synth" false [1] (Some 0)
       | 1 => mkStep "Source" true [] None
       | 2 => mkStep "Ping" false [3] None
       | 3 => mkStep "Pong" false [2] None
       | 4 => mkStep "A" false [] None
       | 5 => mkStep "B" false [] None
       | 6 => mkStep "C" false [] None
       | 7 => mkStep "D" false [] None
       | 8 => mkStep "Custom" false [] (Some 1)
       | 10 => mkStep "Top" false [11; 12] None
       | 11 => mkStep "Left" false [13] None
       | 12 => mkStep "Right" false [13] None
       | _ => mkStep "Leaf" false [] None
       end;
     fileSet := λ r,
       match r with
       | 0 => {| producer := 0; fileSetPrimaryOutput := Some 0 |}
       | _ => {| producer := 8; fileSetPrimaryOutput := Some 1 |}
       end;
     stack := λ r,
       match r with
       | 0 => mkStack "Api" None [asset1] [1]
       | 1 => mkStack "Database" None [asset2] []
       | _ => mkStack "Custom" (Some 1) [] []
       end |}.

Definition demo_stage (name : string) (ss : list StackRef) : StageDeployment :=
  {| stageName := name; stacks := ss; stage_pre := []; stage_post := [] |}.

Definition demo_wave (name : string) (ss : list StageDeployment) : Wave :=
  {| wave_id := name; stages := ss; wave_pre := []; wave_post := [] |}.

(** Three waves: one stage with the two dependent stacks, an empty wave, and
    two stages. *)
Definition demo_blueprint : Blueprint :=
  {| synthStep := 0;
     waves := [ demo_wave "W0" [demo_stage "Prod" [0; 1]];
                demo_wave "W1" [];
                demo_wave "W2" [demo_stage "Eu" []; demo_stage "Us" []] ] |}.

(** A synth Step without output that depends on a Step with the same id. *)
Definition twins : Objects :=
  {| step := λ r,
       match r with
       | 0 => mkStep "Synth" false [1] None
       | _ => mkStep "Synth" false [] None
       end;
     fileSet := λ r, {| producer := 0; fileSetPrimaryOutput := Some r |};
     stack := λ r, mkStack "Stack" None [] [] |}.

Definition twins_blueprint : Blueprint := {| synthStep := 0; waves := [] |}.

(** A source Step with a dependency of its own: 0 "Build" depends on the
    source 1 "Source", which depends on 2 "Fetch". *)
Definition sourced : Objects :=
  {| step := λ r,
       match r with
       | 0 => mkStep "Build" false [1] None
       | 1 => mkStep "Source" true [2] None
       | _ => mkStep "Fetch" false [] None
       end;
     fileSet := λ r, {| producer := 0; fileSetPrimaryOutput := Some r |};
     stack := λ r, mkStack "Stack" None [] [] |}.

(** A state in which stacks can be compiled: the shared cloud assembly is
    file set 0 and the synth Step has its node. *)
Definition demo_state : GraphFromBlueprint :=
  set_cloudAssemblyFileSet (Some 0) initial.

(** An engine that throws on its first call and returns on the later ones;
    its state is the number of calls so far. *)
Definition flaky_engine (b : unit) (calls : nat) : nat * option string :=
  (S calls, match calls with 0 => Some "synth step has no output" | _ => None end).

(** An engine that always returns, and a blueprint without content. *)
Definition steady_engine (b : unit) (calls : nat) : nat * option string :=
  (S calls, None).
Definition unit_addStage (stage : unit) (options : option unit) (b : unit)
  : unit * unit := (b, tt).
Definition unit_addWave (id : string) (options : option unit) (b : unit)
  : unit * unit := (b, tt).

(** A blueprint that lists the names of its stages and waves, and an engine
    that records the blueprints it is given. *)
Definition names_addStage (stage : string) (options : option unit) (b : list string)
  : list string * string := ((b ++ [stage])%list, stage).
Definition names_addWave (id : string) (options : option unit) (b : list string)
  : list string * string := ((b ++ [id])%list, id).
Definition recording_engine (b : list string) (seen : list (list string))
  : list (list string) * option string := ((seen ++ [b])%list, None).

Create HintDb gfb discriminated.
(** * Reasoning about the monad *)

Lemma bind_Ok {A B} (m : M A) (f : A → M B) st b st' :
  bind m f st = Ok b st' ↔ ∃ a st1, m st = Ok a st1 ∧ f a st1 = Ok b st'.
Proof.
  unfold bind. destruct (m st) as [a st1| |]; split.
  - intros H. by exists a, st1.
  - by intros (a' & st1' & [= -> ->] & H).
  - done.
  - by intros (? & ? & ? & ?).
  - done.
  - by intros (? & ? & ? & ?).
Qed.

Lemma ret_Ok {A} (a b : A) st st' : ret a st = Ok b st' → b = a ∧ st' = st.
Proof. by intros [= -> ->]. Qed.

Lemma gets_Ok {A} (f : GraphFromBlueprint → A) st b st' :
  gets f st = Ok b st' → b = f st ∧ st' = st.
Proof. by intros [= <- <-]. Qed.

Lemma modify_Ok f st u st' : modify f st = Ok u st' → st' = f st.
Proof. by intros [= <-]. Qed.

Lemma alloc_Ok nd st r st' :
  alloc nd st = Ok r st' → r = length (heap st) ∧ st' = alloc_st nd st.
Proof. by intros [= <- <-]. Qed.

Lemma updateNode_Ok r f st u st' :
  updateNode r f st = Ok u st' → st' = update_st r f st.
Proof. by intros [= <-]. Qed.

Lemma Graph_add_Ok parent child st u st' :
  Graph_add parent child st = Ok u st' →
  tryGetChild st parent (n_id (node st child)) = None ∧
  st' = update_st parent (add_child (n_id (node st child), child)) st.
Proof.
  unfold Graph_add. destruct (tryGetChild _ _ _); [done|].
  intros ->%updateNode_Ok. done.
Qed.

Lemma Graph_of_nil_Ok id d st g st' :
  Graph_of id d [] st = Ok g st' →
  g = length (heap st) ∧
  st' = alloc_st {| n_id := id; n_data := Some d;
                    n_dependencies := []; n_children := [] |} st.
Proof.
  unfold Graph_of. intros H.
  apply bind_Ok in H as (a & st1 & [-> ->]%alloc_Ok & H).
  apply bind_Ok in H as (u & st2 & [_ ->]%ret_Ok & [-> ->]%ret_Ok). done.
Qed.

(** Decompose a successful run, one statement at a time. *)
Ltac mstep H :=
  cbv beta in H;
  lazymatch type of H with
  | bind _ _ _ = Ok _ _ =>
      let a := fresh "a" in let st := fresh "st" in let H1 := fresh "H" in
      apply bind_Ok in H as (a & st & H1 & H); mstep H1
  | ret _ _ = Ok _ _ => apply ret_Ok in H as [? ?]; subst
  | gets _ _ = Ok _ _ => apply gets_Ok in H as [? ?]; subst
  | modify _ _ = Ok _ _ => apply modify_Ok in H; subst
  | alloc _ _ = Ok _ _ => apply alloc_Ok in H as [? ?]; subst
  | GraphNode_of _ _ _ = Ok _ _ => apply alloc_Ok in H as [? ?]; subst
  | Graph_of _ _ [] _ = Ok _ _ => apply Graph_of_nil_Ok in H as [? ?]; subst
  | Graph_new _ _ = Ok _ _ => apply alloc_Ok in H as [? ?]; subst
  | updateNode _ _ _ = Ok _ _ => apply updateNode_Ok in H; subst
  | dependOn _ _ _ = Ok _ _ => apply updateNode_Ok in H; subst
  | Graph_add _ _ _ = Ok _ _ =>
      let Hn := fresh "Hname" in apply Graph_add_Ok in H as [Hn ?]; subst
  | throw _ _ = Ok _ _ => discriminate H
  | _ => idtac
  end.

Ltac msteps H := repeat (mstep H).

(** Store sizes after a sequence of primitive updates. *)
Ltac solve_len :=
  repeat (simpl; rewrite ?length_alter, ?length_app); simpl; lia.

Lemma forEach_inv {A} (I : GraphFromBlueprint → Prop) (f : A → M unit) (l : list A) :
  (∀ x st u st', x ∈ l → I st → f x st = Ok u st' → I st') →
  ∀ st u st', I st → forEach f l st = Ok u st' → I st'.
Proof.
  induction l as [|x l IH]; intros Hf st u st' HI H; simpl in H.
  - by apply ret_Ok in H as [_ ->].
  - apply bind_Ok in H as (a & st1 & H1 & H).
    eapply IH; [| |exact H].
    + intros y ? ? ? Hy. apply Hf. by right.
    + eapply Hf; [|exact HI|exact H1]. by left.
Qed.

Lemma foldM_inv {A B} (I : B → GraphFromBlueprint → Prop) (f : B → A → M B)
    (l : list A) :
  (∀ x b st b' st', x ∈ l → I b st → f b x st = Ok b' st' → I b' st') →
  ∀ b st b' st', I b st → foldM f b l st = Ok b' st' → I b' st'.
Proof.
  induction l as [|x l IH]; intros Hf b st b' st' HI H; simpl in H.
  - by apply ret_Ok in H as [-> ->].
  - apply bind_Ok in H as (a & st1 & H1 & H).
    eapply IH; [| |exact H].
    + intros y ? ? ? ? Hy. apply Hf. by right.
    + eapply Hf; [|exact HI|exact H1]. by left.
Qed.

(** * The store *)

Lemma node_lookup st r nd : heap st !! r = Some nd → node st r = nd.
Proof. unfold node. by intros ->. Qed.

Lemma node_dangling st r : length (heap st) ≤ r → node st r = noNode.
Proof. unfold node. intros H. by rewrite lookup_ge_None_2. Qed.

Lemma node_alloc st nd r :
  node (alloc_st nd st) r =
  if decide (r = length (heap st)) then nd else node st r.
Proof.
  unfold node. simpl. case_decide as Hr.
  - subst. by rewrite lookup_app_r, Nat.sub_diag.
  - destruct (decide (r < length (heap st))).
    + by rewrite lookup_app_l.
    + rewrite !lookup_ge_None_2; [done|lia|rewrite length_app; simpl; lia].
Qed.

Lemma node_update st f r r' :
  node (update_st r f st) r' =
  if decide (r' = r ∧ r < length (heap st)) then f (node st r) else node st r'.
Proof.
  unfold node. simpl. rewrite list_lookup_alter.
  destruct (decide (r = r')) as [->|Hne].
  - destruct (heap st !! r') as [x|] eqn:E; simpl.
    + apply lookup_lt_Some in E. rewrite decide_True; done.
    + apply lookup_ge_None in E. rewrite decide_False; [done|lia].
  - rewrite decide_False; [done|]. intros [? _]. done.
Qed.

Lemma length_heap_update st f r :
  length (heap (update_st r f st)) = length (heap st).
Proof. simpl. apply length_alter. Qed.

Lemma length_heap_alloc st nd :
  length (heap (alloc_st nd st)) = S (length (heap st)).
Proof. simpl. rewrite length_app. simpl. lia. Qed.

Lemma lookupChild_app name cs cs' :
  lookupChild name (cs ++ cs') =
  match lookupChild name cs with Some r => Some r | None => lookupChild name cs' end.
Proof.
  unfold lookupChild. induction cs as [|c cs IH]; simpl; [done|].
  destruct (String.eqb c.1 name); [done|]. apply IH.
Qed.

Lemma lookupChild_Some name cs r :
  lookupChild name cs = Some r → (name, r) ∈ cs.
Proof.
  unfold lookupChild. induction cs as [|[n c] cs IH]; simpl; [done|].
  destruct (String.eqb n name) eqn:E.
  - apply String.eqb_eq in E as ->. intros [= ->]. by left.
  - intros H. right. by apply IH.
Qed.

Lemma lookupChild_None name cs r :
  lookupChild name cs = None → (name, r) ∉ cs.
Proof.
  unfold lookupChild. induction cs as [|[n c] cs IH]; simpl.
  - intros _ H. inversion H.
  - destruct (String.eqb n name) eqn:E; [done|].
    intros H Hin. apply elem_of_cons in Hin as [[= <- <-]|Hin].
    + by rewrite String.eqb_refl in E.
    + by apply IH.
Qed.

(** * Monotonicity and framing *)

Lemma data_stable_refl d : data_stable d d.
Proof. by destruct d as [[]|]. Qed.

Lemma data_stable_trans d1 d2 d3 :
  data_stable d1 d2 → data_stable d2 d3 → data_stable d1 d3.
Proof.
  destruct d1 as [[]|], d2 as [[]|], d3 as [[]|]; simpl; congruence.
Qed.

Lemma node_le_refl n : node_le n n.
Proof. split; [done|apply data_stable_refl|done|done]. Qed.

Lemma node_le_trans n1 n2 n3 : node_le n1 n2 → node_le n2 n3 → node_le n1 n3.
Proof.
  intros [] []. split.
  - congruence.
  - by eapply data_stable_trans.
  - by etrans.
  - by etrans.
Qed.

Lemma mods_length B st0 st : mods B st0 st → length (heap st0) ≤ length (heap st).
Proof.
  intros Hm. destruct (heap st0) as [|x l] eqn:E using rev_ind; [simpl; lia|].
  clear IHl. destruct (m_heap _ _ _ Hm (length l) x) as (nd' & H & _).
  - rewrite E. by rewrite lookup_app_r, Nat.sub_diag.
  - apply lookup_lt_Some in H. rewrite length_app. simpl. lia.
Qed.

Lemma mods_refl B st : mods B st st.
Proof.
  split; try done.
  - intros; by left.
  - intros r nd H. exists nd. split; [done|apply node_le_refl].
  - intros; by left.
Qed.

Lemma mods_node B st0 st r :
  mods B st0 st → r < length (heap st0) → node_le (node st0 r) (node st r).
Proof.
  intros Hm Hr. destruct (lookup_lt_is_Some_2 _ _ Hr) as [nd Hnd].
  destruct (m_heap _ _ _ Hm r nd Hnd) as (nd' & H' & Hle).
  by rewrite (node_lookup _ _ _ Hnd), (node_lookup _ _ _ H').
Qed.

Lemma mods_trans' B B' st0 st1 st2 :
  mods B st0 st1 → mods B' st1 st2 → (∀ b, b ∈ B' → touched B st0 b) →
  mods B st0 st2.
Proof.
  intros H1 H2 HB.
  pose proof (mods_length _ _ _ H1). pose proof (mods_length _ _ _ H2).
  split.
  - rewrite (m_graph _ _ _ H2). apply H1.
  - rewrite (m_lp _ _ _ H2). apply H1.
  - rewrite (m_ca _ _ _ H2). apply H1.
  - intros s n Hs. by apply H2, H1.
  - intros s n Hs. destruct (m_added_new _ _ _ H2 s n Hs) as [Hs'|?]; [|right; lia].
    destruct (m_added_new _ _ _ H1 s n Hs') as [?|?]; [by left|right; lia].
  - intros r nd Hr. destruct (m_heap _ _ _ H1 r nd Hr) as (nd1 & Hr1 & Hle1).
    destruct (m_heap _ _ _ H2 r nd1 Hr1) as (nd2 & Hr2 & Hle2).
    exists nd2. split; [done|]. by eapply node_le_trans.
  - intros r c Hc. destruct (m_children_new _ _ _ H2 r c Hc) as [Hc'|?]; [|right; lia].
    destruct (m_children_new _ _ _ H1 r c Hc') as [?|?]; [by left|right; lia].
  - intros r Hr. rewrite (m_frame _ _ _ H2), (m_frame _ _ _ H1); [done|done|].
    intros [Hf|[[s Hs]|Hb]].
    + apply Hr. left. lia.
    + destruct (m_added_new _ _ _ H1 s r Hs) as [?|?]; apply Hr.
      * right; left. by exists s.
      * left. lia.
    + by apply Hr, HB.
Qed.

Lemma mods_trans B st0 st1 st2 : mods B st0 st1 → mods [] st1 st2 → mods B st0 st2.
Proof. intros H1 H2. eapply mods_trans'; [done|done|]. by intros b ?%elem_of_nil. Qed.

Lemma mods_weaken B B' st0 st : B ⊆ B' → mods B st0 st → mods B' st0 st.
Proof.
  intros HB []. split; try done.
  intros r Hr. apply m_frame0. intros [?|[?|?]]; apply Hr; [by left|by right; left|].
  right; right. by apply HB.
Qed.

Lemma wf_mods B st0 st : wf st0 → mods B st0 st → wf st.
Proof.
  intros Hw Hm. pose proof (mods_length _ _ _ Hm). split.
  - rewrite (m_graph _ _ _ Hm). pose proof (wf_graph _ Hw). lia.
  - intros s n Hs. destruct (m_added_new _ _ _ Hm s n Hs) as [Hs'|?]; [|lia].
    pose proof (wf_added _ Hw s n Hs'). lia.
  - intros r c Hc. destruct (m_children_new _ _ _ Hm r c Hc) as [Hc'|?]; [|lia].
    pose proof (wf_children _ Hw r c Hc'). lia.
  - intros n Hn. rewrite (m_lp _ _ _ Hm) in Hn. pose proof (wf_lp _ Hw n Hn). lia.
Qed.

Lemma wf_initial : wf initial.
Proof.
  split; simpl; [lia| | |done].
  - intros s n H. by rewrite lookup_empty in H.
  - intros r c H. unfold children, node in H. simpl in H.
    destruct r as [|r]; simpl in H; inversion H.
Qed.

(** ** The effect of the store primitives *)

Lemma mods_alloc B st0 st nd :
  mods B st0 st → n_children nd = [] →
  mods B st0 (alloc_st nd st).
Proof.
  intros Hm Hnd. pose proof (mods_length _ _ _ Hm) as Hlen. split; simpl.
  - apply Hm.
  - apply Hm.
  - apply Hm.
  - apply Hm.
  - intros s n Hs. rewrite length_app. simpl.
    destruct (m_added_new _ _ _ Hm s n Hs); [by left|right; lia].
  - intros r nd0 Hr. destruct (m_heap _ _ _ Hm r nd0 Hr) as (nd1 & Hr1 & Hle).
    exists nd1. split; [|done]. by apply lookup_app_l_Some.
  - intros r c. unfold children. rewrite node_alloc, length_app. simpl.
    case_decide; [rewrite Hnd; by intros ?%elem_of_nil|].
    intros Hc. destruct (m_children_new _ _ _ Hm r c Hc); [by left|right; lia].
  - intros r Hr. unfold deps. rewrite node_alloc. case_decide as Hd.
    + exfalso. apply Hr. left. lia.
    + by apply Hm.
Qed.

Lemma mods_update B st0 st r f :
  mods B st0 st →
  node_le (node st r) (f (node st r)) →
  (∀ c, c ∈ n_children (f (node st r)) →
     c ∈ n_children (node st r) ∨ length (heap st0) ≤ c.2 < length (heap st)) →
  (touched B st0 r ∨ n_dependencies (f (node st r)) = n_dependencies (node st r)) →
  mods B st0 (update_st r f st).
Proof.
  intros Hm Hle Hch Hdeps. split; simpl.
  - apply Hm.
  - apply Hm.
  - apply Hm.
  - apply Hm.
  - intros s n Hs. rewrite length_alter. by apply Hm.
  - intros r0 nd0 Hr. destruct (m_heap _ _ _ Hm r0 nd0 Hr) as (nd1 & Hr1 & Hle1).
    rewrite list_lookup_alter. case_decide; subst.
    + rewrite Hr1. simpl. eexists. split; [done|].
      rewrite (node_lookup _ _ _ Hr1) in Hle. by eapply node_le_trans.
    + by exists nd1.
  - intros r0 c. unfold children. rewrite node_update, length_alter.
    case_decide as Hd.
    + intros Hc. destruct Hd as [-> _].
      destruct (Hch _ Hc) as [Hc'|?]; [|by right].
      by apply (m_children_new _ _ _ Hm).
    + apply (m_children_new _ _ _ Hm).
  - intros r0 Hr0. unfold deps. rewrite node_update. case_decide as Hd.
    + destruct Hd as [-> _]. destruct Hdeps as [?|Hd']; [done|]. rewrite Hd'.
      by apply Hm.
    + by apply Hm.
Qed.

Lemma mods_add_child B st0 st p c :
  mods B st0 st → length (heap st0) ≤ c.2 < length (heap st) →
  mods B st0 (update_st p (add_child c) st).
Proof.
  intros Hm Hc. apply mods_update; [done| | |by right].
  - split; simpl; [done|apply data_stable_refl|done|by apply prefix_app_r].
  - intros c'. simpl. rewrite elem_of_app, list_elem_of_singleton.
    intros [?| ->]; [by left|by right].
Qed.

Lemma mods_add_deps B st0 st r ds :
  mods B st0 st → touched B st0 r →
  mods B st0 (update_st r (add_dependencies ds) st).
Proof.
  intros Hm Hr. apply mods_update; [done| | |by left].
  - split; simpl; [done|apply data_stable_refl|by apply prefix_app_r|done].
  - intros c. simpl. by left.
Qed.

Lemma mods_set_data B st0 st r d :
  mods B st0 st → data_stable (data st r) d →
  mods B st0 (update_st r (set_data d) st).
Proof.
  intros Hm Hd. apply mods_update; [done| | |by right].
  - by split.
  - intros c. by left.
Qed.

Lemma mods_set_added B st0 st s n :
  mods B st0 st → added st !! s = None →
  length (heap st0) ≤ n < length (heap st) →
  mods B st0 (set_added (<[s := n]> (added st)) st).
Proof.
  intros Hm Hs Hn. split; simpl; try apply Hm.
  - intros s' n' H'. apply (m_added _ _ _ Hm) in H'.
    rewrite lookup_insert_ne; [done|]. intros ->. congruence.
  - intros s' n'. rewrite lookup_insert. case_decide; subst.
    + intros [= <-]. by right.
    + apply Hm.
Qed.

Lemma mods_set_assetNodes B st0 st a :
  mods B st0 st → mods B st0 (set_assetNodes a st).
Proof. intros []. by split. Qed.

Lemma mods_set_fileAssetCtr B st0 st c :
  mods B st0 st → mods B st0 (set_fileAssetCtr c st).
Proof. intros []. by split. Qed.

Lemma mods_set_dockerAssetCtr B st0 st c :
  mods B st0 st → mods B st0 (set_dockerAssetCtr c st).
Proof. intros []. by split. Qed.

Lemma touched_fresh B st0 r : length (heap st0) ≤ r → touched B st0 r.
Proof. by left. Qed.

Lemma touched_added B st0 st r s :
  mods B st0 st → added st !! s = Some r → touched B st0 r.
Proof.
  intros Hm Hs. destruct (m_added_new _ _ _ Hm s r Hs) as [?|?].
  - right; left. by exists s.
  - left. lia.
Qed.

#[local] Hint Resolve mods_refl mods_alloc mods_add_child mods_add_deps
  mods_set_added mods_set_assetNodes mods_set_fileAssetCtr
  mods_set_dockerAssetCtr touched_fresh : gfb.

(** Reading a node after a sequence of primitive updates. *)
Ltac node_simpl :=
  repeat (first
    [ rewrite node_update | rewrite node_alloc
    | rewrite length_heap_update | rewrite length_heap_alloc
    | rewrite decide_True by (first [lia | split; lia])
    | rewrite decide_False by (first [lia | intros [? ?]; lia]) ]).

Section CompilerFacts.
Context (O : Objects).

(** ** Lazily created top-level groups *)

Lemma topLevelGraph_Ok name st r st' :
  topLevelGraph name st = Ok r st' →
  (tryGetChild st (graph st) name = Some r ∧ st' = st) ∨
  (tryGetChild st (graph st) name = None ∧ r = length (heap st) ∧
   st' = update_st (graph st) (add_child (name, r))
           (alloc_st {| n_id := name; n_data := None;
                        n_dependencies := []; n_children := [] |} st)).
Proof.
  unfold topLevelGraph. intros H. msteps H.
  destruct (tryGetChild st (graph st) name) as [r0|] eqn:E.
  - mstep H. by left.
  - msteps H. right. split; [done|]. split; [done|].
    rewrite node_alloc, decide_True by done. done.
Qed.

Lemma topLevelGraph_mods name st r st' :
  topLevelGraph name st = Ok r st' → mods [] st st'.
Proof.
  intros [[_ ->]|(_ & -> & ->)]%topLevelGraph_Ok; [apply mods_refl|].
  apply mods_add_child; [apply mods_alloc; [apply mods_refl|done]|].
  rewrite length_heap_alloc. simpl. lia.
Qed.

Lemma topLevelGraph_bound name st r st' :
  wf st → topLevelGraph name st = Ok r st' → r < length (heap st').
Proof.
  intros Hw [[Hc ->]|(_ & -> & ->)]%topLevelGraph_Ok.
  - apply lookupChild_Some in Hc. by apply (wf_children _ Hw) in Hc.
  - rewrite length_heap_update, length_heap_alloc. lia.
Qed.

(** ** Step addition: what it changes *)

Lemma topLevelGraph_added name st r st' :
  topLevelGraph name st = Ok r st' → added st' = added st.
Proof. by intros [[_ ->]|(_ & -> & ->)]%topLevelGraph_Ok. Qed.

Lemma addAndRecurse_mods fuel : ∀ s parent st n st',
  addAndRecurse O fuel s parent st = Ok n st' →
  mods [] st st' ∧ added st' !! s = Some n.
Proof.
  induction fuel as [|fuel IH]; intros s parent st n st' H; simpl in H.
  - mstep H. destruct (added st !! s) eqn:E; [|done].
    mstep H. split; [apply mods_refl|done].
  - mstep H. destruct (added st !! s) eqn:E.
    { mstep H. split; [apply mods_refl|done]. }
    msteps H.
    set (n := length (heap st)) in *.
    assert (mods [] st st0 ∧ n < length (heap st0) ∧ added st0 !! s = None)
      as (Hm0 & Hn & Hs0).
    { match type of H0 with _ ?stA = _ => set (stA' := stA) in * end.
      assert (Hm1 : mods [] st stA') by (apply mods_alloc; [apply mods_refl|done]).
      assert (Hl1 : n < length (heap stA'))
        by (unfold stA'; rewrite length_heap_alloc; lia).
      destruct (isCodePipelineSource (step O s)).
      - pose proof (topLevelGraph_added _ _ _ _ H0) as Ha.
        apply topLevelGraph_mods in H0.
        pose proof (mods_length _ _ _ H0).
        split; [by eapply mods_trans|]. split; [lia|]. by rewrite Ha.
      - mstep H0. done. }
    eapply (forEach_inv (λ x, mods [] st x ∧ added x !! s = Some n));
      [| |exact H1].
    + intros dep st2 u st3 _ [Hm2 Hs2] H2.
      apply bind_Ok in H2 as (p & st2' & Hrec & Hdep). mstep Hdep.
      apply IH in Hrec as [Hm3 Hs3].
      split; [|by apply (m_added _ _ _ Hm3)].
      apply mods_add_deps; [by eapply mods_trans|]. left. unfold n. lia.
    + split; [|simpl; by rewrite lookup_insert_eq].
      apply mods_set_added; [|done|].
      * apply mods_add_child; [done|]. simpl. unfold n. lia.
      * rewrite length_heap_update. unfold n. lia.
Qed.
Lemma addAndRecurse_wf fuel s parent st n st' :
  wf st → addAndRecurse O fuel s parent st = Ok n st' →
  wf st' ∧ n < length (heap st').
Proof.
  intros Hw [Hm Hs]%addAndRecurse_mods.
  assert (wf st') as Hw' by by eapply wf_mods.
  split; [done|]. by apply (wf_added _ Hw' s).
Qed.

Lemma nextAssetName_Ok a st name st' :
  nextAssetName a st = Ok name st' →
  ∃ c, st' = set_fileAssetCtr c st ∨ st' = set_dockerAssetCtr c st.
Proof.
  unfold nextAssetName. intros H. destruct (assetType a); msteps H; eauto.
Qed.

Lemma publishAsset_mods stackAsset st n st' :
  publishAsset stackAsset st = Ok n st' →
  mods [] st st' ∧ length (heap st) ≤ n < length (heap st').
Proof.
  unfold publishAsset. intros H.
  apply bind_Ok in H as (g & st1 & Htop & H).
  apply bind_Ok in H as (an & st1' & Hg & H). mstep Hg.
  apply bind_Ok in H as (u & st2 & Hupd & H).
  apply bind_Ok in H as (name & st3 & Hname & H).
  msteps H.
  assert (Hm1 : mods [] st st1) by (by eapply topLevelGraph_mods).
  assert (Hm2 : mods [] st1 st2).
  { destruct (assetNodes st1 !! _) as [an|]; [|mstep Hupd; apply mods_refl].
    msteps Hupd. destruct (data st1 an) as [[]|] eqn:Ed; try (by mstep Hupd).
    destruct (existsb _ _); mstep Hupd; [apply mods_refl|].
    apply mods_set_data; [apply mods_refl|]. by rewrite Ed. }
  assert (mods [] st2 st3) as Hm3.
  { apply nextAssetName_Ok in Hname as [c [-> | ->]]; auto with gfb. }
  assert (Hm : mods [] st st3) by (do 2 (eapply mods_trans; [|done]); done).
  pose proof (mods_length _ _ _ Hm) as Hlen.
  split; [|solve_len].
  apply mods_add_deps; [|left; lia].
  apply mods_add_child; [|solve_len].
  apply mods_set_assetNodes, mods_alloc; done.
Qed.
(** ** The pre/post barrier: what it changes *)

Lemma collection_dependOn_mods B st0 ns d st u st' :
  mods B st0 st → (∀ n, n ∈ ns → touched B st0 n) →
  collection_dependOn ns d st = Ok u st' → mods B st0 st'.
Proof.
  unfold collection_dependOn. intros Hm Hns H.
  eapply (forEach_inv (mods B st0)); [|exact Hm|exact H].
  intros x st1 u1 st2 Hx H1 H2. mstep H2. apply mods_add_deps; auto.
Qed.

Lemma addPrePost_mods fuel pre post parent st u st' :
  addPrePost O fuel pre post parent st = Ok u st' →
  mods (nodes st parent) st st'.
Proof.
  unfold addPrePost. intros H.
  apply bind_Ok in H as (base & st0 & Hg & H). mstep Hg.
  apply bind_Ok in H as (u1 & st1 & Hpre & Hpost).
  eapply (forEach_inv (mods (nodes st parent) st)); [| |exact Hpost].
  - intros p st2 u2 st3 _ Hm H.
    apply bind_Ok in H as (postNode & st2' & Hrec & H). mstep H.
    apply addAndRecurse_mods in Hrec as [Hm' Hp].
    assert (mods (nodes st parent) st st2') as Hm2 by by eapply mods_trans.
    apply mods_add_deps; [done|]. by eapply touched_added.
  - eapply (forEach_inv (mods (nodes st parent) st)); [|apply mods_refl|exact Hpre].
    intros p st2 u2 st3 _ Hm H.
    apply bind_Ok in H as (preNode & st2' & Hrec & H).
    apply addAndRecurse_mods in Hrec as [Hm' Hp].
    eapply collection_dependOn_mods; [|intros n Hn; by right; right|exact H].
    by eapply mods_trans.
Qed.
(** ** Growth of the store *)

Lemma grows_refl st : grows st st.
Proof. intros r nd H. exists nd. split; [done|apply node_le_refl]. Qed.

Lemma grows_trans st0 st1 st2 : grows st0 st1 → grows st1 st2 → grows st0 st2.
Proof.
  intros H1 H2 r nd Hr. destruct (H1 r nd Hr) as (nd1 & Hr1 & Hle1).
  destruct (H2 r nd1 Hr1) as (nd2 & Hr2 & Hle2).
  exists nd2. split; [done|]. by eapply node_le_trans.
Qed.

Lemma mods_grows B st0 st : mods B st0 st → grows st0 st.
Proof. intros Hm. exact (m_heap _ _ _ Hm). Qed.

Lemma grows_length st0 st : grows st0 st → length (heap st0) ≤ length (heap st).
Proof.
  intros Hg. destruct (heap st0) as [|x l] eqn:E using rev_ind; [simpl; lia|].
  clear IHl. destruct (Hg (length l) x) as (nd' & H & _).
  - rewrite E. by rewrite lookup_app_r, Nat.sub_diag.
  - apply lookup_lt_Some in H. rewrite length_app. simpl. lia.
Qed.

Lemma grows_node st0 st r :
  grows st0 st → r < length (heap st0) → node_le (node st0 r) (node st r).
Proof.
  intros Hg Hr. destruct (lookup_lt_is_Some_2 _ _ Hr) as [nd Hnd].
  destruct (Hg r nd Hnd) as (nd' & H' & Hle).
  by rewrite (node_lookup _ _ _ Hnd), (node_lookup _ _ _ H').
Qed.

Lemma grows_alloc st0 st nd : grows st0 st → grows st0 (alloc_st nd st).
Proof.
  intros Hg r nd0 Hr. destruct (Hg r nd0 Hr) as (nd1 & Hr1 & Hle).
  exists nd1. split; [|done]. by apply lookup_app_l_Some.
Qed.

Lemma grows_update st0 st r f :
  grows st0 st → node_le (node st r) (f (node st r)) →
  grows st0 (update_st r f st).
Proof.
  intros Hg Hle r0 nd0 Hr. destruct (Hg r0 nd0 Hr) as (nd1 & Hr1 & Hle1).
  simpl. rewrite list_lookup_alter. case_decide; subst.
  - rewrite Hr1. simpl. eexists. split; [done|].
    rewrite (node_lookup _ _ _ Hr1) in Hle. by eapply node_le_trans.
  - by exists nd1.
Qed.

Lemma node_le_add_child c n : node_le n (add_child c n).
Proof. split; simpl; [done|apply data_stable_refl|done|by apply prefix_app_r]. Qed.

Lemma node_le_add_dependencies ds n : node_le n (add_dependencies ds n).
Proof. split; simpl; [done|apply data_stable_refl|by apply prefix_app_r|done]. Qed.

Lemma prefix_elem_of {A} (l1 l2 : list A) x : l1 `prefix_of` l2 → x ∈ l1 → x ∈ l2.
Proof. intros [k ->] Hx. apply elem_of_app. by left. Qed.

(** ** Stage compilation: what it changes *)

Lemma newStackGraph_Ok s st g st' :
  newStackGraph O s st = Ok g st' →
  let sg := length (heap st) in
  g = (sg, S sg, S (S sg)) ∧
  mods [] st st' ∧
  length (heap st') = S (S (S sg)) ∧
  node st' sg = {| n_id := stackName (stack O s); n_data := Some (AStackGroup s);
                   n_dependencies := [];
                   n_children := [("Prepare", S sg); ("Deploy", S (S sg))] |} ∧
  node st' (S sg) = {| n_id := "Prepare"; n_data := Some (APrepare s);
                       n_dependencies := []; n_children := [] |} ∧
  node st' (S (S sg)) = {| n_id := "Deploy"; n_data := Some (AExecute s);
                           n_dependencies := [S sg]; n_children := [] |}.
Proof.
  unfold newStackGraph. intros H. msteps H. clear Hname Hname0.
  repeat (rewrite ?length_heap_alloc in * ).
  set (sg := length (heap st)) in *.
  split; [done|]. split.
  { apply mods_add_deps; [|left; lia].
    apply mods_add_child; [|solve_len].
    apply mods_add_child; [|solve_len].
    repeat (apply mods_alloc; [|done]). apply mods_refl. }
  split; [solve_len|].
  repeat split; node_simpl; done.
Qed.
Lemma addStack_Ok fuel retGraph sgs s st sgs' st' :
  addStack O fuel retGraph sgs s st = Ok sgs' st' →
  ∃ st1,
    newStackGraph O s st =
      Ok (length (heap st), S (length (heap st)), S (S (length (heap st)))) st1 ∧
    mods [] st st' ∧ grows st1 st' ∧
    sgs' = <[s := length (heap st)]> sgs.
Proof.
  unfold addStack. intros H.
  apply bind_Ok in H as (g & st1 & Hnew & H).
  destruct (newStackGraph_Ok _ _ _ _ Hnew) as (Hg0 & Hm1 & Hl1 & _). subst g.
  exists st1. split; [done|]. simpl in H.
  apply bind_Ok in H as (shared & ? & Hg & H). mstep Hg.
  destruct (cloudAssemblyOf O s _) as [ca|]; [|done].
  apply bind_Ok in H as (pn & st2 & Hrec & H).
  apply addAndRecurse_mods in Hrec as [Hm2 _].
  apply bind_Ok in H as (u & st3 & Hdep & H). mstep Hdep.
  apply bind_Ok in H as (u' & st4 & Hloop & H). mstep H.
  cut (mods [] st st4 ∧ grows st1 st4); [naive_solver|].
  eapply (forEach_inv (λ x, mods [] st x ∧ grows st1 x)); [| |exact Hloop].
  - intros asset st5 u5 st6 _ [Hm5 Hg5] H5.
    apply bind_Ok in H5 as (an & st5' & Hpub & H5). mstep H5.
    apply publishAsset_mods in Hpub as [Hm6 _]. split.
    + apply mods_add_deps; [by eapply mods_trans|left; lia].
    + apply grows_update; [|apply node_le_add_dependencies].
      eapply grows_trans; [done|by eapply mods_grows].
  - split.
    + apply mods_add_deps; [|left; lia]. do 2 (eapply mods_trans; [|done]).
      apply mods_refl.
    + apply grows_update; [|apply node_le_add_dependencies].
      by eapply mods_grows.
Qed.

Lemma addStackDependencies_mods st0 sgs ss st u st' :
  mods [] st0 st →
  (∀ s g, sgs !! s = Some g → length (heap st0) ≤ g) →
  addStackDependencies O sgs ss st = Ok u st' →
  mods [] st0 st' ∧ grows st st'.
Proof.
  unfold addStackDependencies. intros Hm Hsgs H.
  eapply (forEach_inv (λ x, mods [] st0 x ∧ grows st x));
    [|split; [exact Hm|apply grows_refl]|exact H].
  intros s st1 u1 st2 _ HI H1.
  eapply (forEach_inv (λ x, mods [] st0 x ∧ grows st x)); [|exact HI|exact H1].
  intros dep st3 u3 st4 _ [Hm3 Hg3] H3.
  destruct (sgs !! s) as [g|] eqn:Eg; mstep H3; [|done].
  split.
  - apply mods_add_deps; [done|]. left. by eapply Hsgs.
  - apply grows_update; [done|apply node_le_add_dependencies].
Qed.
Lemma elem_of_nodes st r b : b ∈ nodes st r ↔ ∃ c, c ∈ children st r ∧ c.2 = b.
Proof. unfold nodes. rewrite list_elem_of_fmap. naive_solver. Qed.

Lemma nodes_fresh st0 st g b :
  mods [] st0 st → children st0 g = [] → b ∈ nodes st g →
  length (heap st0) ≤ b < length (heap st).
Proof.
  intros Hm H0 (c & Hc & <-)%elem_of_nodes.
  destruct (m_children_new _ _ _ Hm g c Hc) as [Hc'|?]; [|done].
  rewrite H0 in Hc'. by apply elem_of_nil in Hc'.
Qed.

Lemma addStage_Ok fuel stage st g st' :
  wf st → addStage O fuel stage st = Ok g st' →
  g = length (heap st) ∧ g < length (heap st') ∧ mods [] st st' ∧
  deps st' g = [] ∧
  (∀ s, added st' !! s ≠ Some g) ∧
  (∀ c, c ∈ nodes st' g → g < c).
Proof.
  unfold addStage. intros Hw H.
  apply bind_Ok in H as (g0 & st1 & Hg & H). mstep Hg.
  apply bind_Ok in H as (sgs & st2 & Hfold & H).
  apply bind_Ok in H as (u & st3 & Hdeps & H).
  apply bind_Ok in H as (u' & st4 & Hpp & H). mstep H.
  match type of Hfold with foldM _ _ _ ?x = _ => set (st1 := x) in * end.
  set (g := length (heap st)) in *.
  assert (Hl1 : length (heap st1) = S g) by apply length_heap_alloc.
  assert (Hch1 : children st1 g = []).
  { unfold children, st1. by node_simpl. }
  assert (Hd1 : deps st1 g = []).
  { unfold deps, st1. by node_simpl. }
  assert (Hm01 : mods [] st st1) by (apply mods_alloc; [apply mods_refl|done]).
  assert (mods [] st1 st2 ∧ ∀ s sg, sgs !! s = Some sg → length (heap st1) ≤ sg)
    as [Hm2 Hsgs].
  { eapply (foldM_inv (λ m x, mods [] st1 x ∧
              ∀ s sg, m !! s = Some sg → length (heap st1) ≤ sg));
      [| |exact Hfold].
    - intros s m x m' x' _ [Hmx Hm] Hx.
      apply addStack_Ok in Hx as (x1 & _ & Hmx' & _ & ->).
      split; [by eapply mods_trans|].
      intros s0 sg0. rewrite lookup_insert. case_decide.
      + intros [= <-]. by eapply mods_length.
      + apply Hm.
    - split; [apply mods_refl|]. intros s sg. by rewrite lookup_empty. }
  apply (addStackDependencies_mods st1) in Hdeps as [Hm3 _]; [|done|done].
  apply addPrePost_mods in Hpp.
  assert (Hm4 : mods [] st1 st4).
  { eapply mods_trans'; [exact Hm3|exact Hpp|].
    intros b Hb. left. eapply nodes_fresh in Hb; [|exact Hm3|done]. lia. }
  split; [done|]. split; [apply mods_length in Hm4; lia|].
  split; [by eapply mods_trans|].
  assert (Hadd : ∀ s, added st1 !! s ≠ Some g).
  { intros s Hs. apply (wf_added _ Hw) in Hs. lia. }
  split; [|split].
  - rewrite <-Hd1. apply (m_frame _ _ _ Hm4).
    intros [?|[[s Hs]|Hb]]; [lia|by eapply Hadd|by apply elem_of_nil in Hb].
  - intros s Hs. destruct (m_added_new _ _ _ Hm4 s g Hs) as [?|?]; [|lia].
    by eapply Hadd.
  - intros c Hc. eapply nodes_fresh in Hc; [|exact Hm4|done]. lia.
Qed.
(** ** Wave compilation: what it changes *)

Lemma deps_add_child st p c r : deps (update_st p (add_child c) st) r = deps st r.
Proof. unfold deps. rewrite node_update. by case_decide as H; [destruct H as [-> _]|]. Qed.

Lemma children_add_child st p c r :
  children (update_st p (add_child c) st) r =
  if decide (r = p ∧ p < length (heap st)) then (children st p ++ [c])%list
  else children st r.
Proof. unfold children. rewrite node_update. by case_decide. Qed.

Lemma Graph_of_Ok st0 id d ns st g st' :
  mods [] st0 st →
  Forall (λ c, length (heap st0) ≤ c < length (heap st)) ns →
  Graph_of id d ns st = Ok g st' →
  g = length (heap st) ∧ length (heap st') = S g ∧ mods [] st0 st' ∧
  deps st' g = [] ∧ added st' = added st ∧ (∀ c, c ∈ nodes st' g → c ∈ ns).
Proof.
  unfold Graph_of. intros Hm Hns H.
  apply bind_Ok in H as (g0 & st1 & Hg & H). mstep Hg.
  apply bind_Ok in H as (u & st2 & Hadd & H). mstep H.
  match type of Hadd with forEach _ _ ?x = _ => set (st1 := x) in * end.
  set (g := length (heap st)) in *. split; [done|].
  eapply (forEach_inv (λ x, length (heap x) = S g ∧ mods [] st0 x ∧
            deps x g = [] ∧ added x = added st ∧ ∀ c, c ∈ nodes x g → c ∈ ns));
    [| |exact Hadd].
  - intros c x u1 x' Hc (Hl & Hmx & Hd & Ha & Hch) Hx. mstep Hx.
    rewrite Forall_forall in Hns. specialize (Hns c Hc). split; [|split; [|split; [|split]]].
    + by rewrite length_heap_update.
    + apply mods_add_child; [done|]. simpl. lia.
    + by rewrite deps_add_child.
    + done.
    + intros c'. unfold nodes. rewrite children_add_child.
      case_decide; [|apply Hch]. rewrite fmap_app, elem_of_app. simpl.
      intros [?|Hc'%list_elem_of_singleton]; [by apply Hch|by subst].
  - split; [apply length_heap_alloc|]. split; [by apply mods_alloc|].
    split; [unfold deps, st1; by node_simpl|]. split; [done|].
    intros c. unfold nodes, children, st1. node_simpl. simpl.
    by intros ?%elem_of_nil.
Qed.

Lemma mapM_addStage_Ok fuel ss : ∀ st gs st',
  wf st → mapM (addStage O fuel) ss st = Ok gs st' →
  mods [] st st' ∧ Forall (λ g, length (heap st) ≤ g < length (heap st')) gs.
Proof.
  induction ss as [|stage ss IH]; intros st gs st' Hw H; simpl in H.
  - mstep H. split; [apply mods_refl|done].
  - apply bind_Ok in H as (g & st1 & Hg & H).
    apply bind_Ok in H as (gs' & st2 & Hgs & H). mstep H.
    apply addStage_Ok in Hg as (-> & Hlt & Hm1 & _); [|done].
    apply IH in Hgs as [Hm2 Hgs]; [|by eapply wf_mods].
    pose proof (mods_length _ _ _ Hm1). pose proof (mods_length _ _ _ Hm2).
    split; [by eapply mods_trans|]. constructor; [lia|].
    eapply Forall_impl; [exact Hgs|]. simpl. intros; lia.
Qed.
Lemma addWave_Ok fuel wave st g st' :
  wf st → addWave O fuel wave st = Ok g st' →
  length (heap st) ≤ g < length (heap st') ∧ mods [] st st' ∧
  deps st' g = omap id [lastPreparationNode st] ∧
  (∀ s, added st' !! s ≠ Some g).
Proof.
  unfold addWave. intros Hw H.
  apply bind_Ok in H as (g0 & st1 & Hg & H).
  apply bind_Ok in H as (u & st2 & Hpp & H). msteps H.
  assert (length (heap st) ≤ g0 < length (heap st1) ∧ mods [] st st1 ∧
          deps st1 g0 = [] ∧ (∀ s, added st1 !! s ≠ Some g0) ∧
          (∀ c, c ∈ nodes st1 g0 → length (heap st) ≤ c ∧ c ≠ g0))
    as (Hg0 & Hm1 & Hd1 & Ha1 & Hc1).
  { destruct (stages wave) as [|stage [|stage' ss]].
    - simpl in Hg. apply bind_Ok in Hg as (gs & ? & Hgs & Hg). mstep Hgs.
      apply (Graph_of_Ok st) in Hg as (-> & Hl & Hm & Hd & Ha & Hc);
        [|apply mods_refl|done].
      split; [lia|]. split; [done|]. split; [done|]. split.
      + intros s Hs. rewrite Ha in Hs. apply (wf_added _ Hw) in Hs. lia.
      + intros c Hc'%Hc. by apply elem_of_nil in Hc'.
    - apply addStage_Ok in Hg as (-> & Hl & Hm & Hd & Ha & Hc); [|done].
      split; [lia|]. split; [done|]. split; [done|]. split; [done|].
      intros c Hc'%Hc. lia.
    - apply bind_Ok in Hg as (gs & st0 & Hgs & Hg).
      apply mapM_addStage_Ok in Hgs as [Hm0 Hgs]; [|done].
      pose proof (wf_mods _ _ _ Hw Hm0) as Hw0.
      pose proof (mods_length _ _ _ Hm0).
      apply (Graph_of_Ok st) in Hg as (-> & Hl & Hm & Hd & Ha & Hc);
        [|done|done].
      split; [lia|]. split; [done|]. split; [done|]. split.
      + intros s Hs. rewrite Ha in Hs. apply (wf_added _ Hw0) in Hs. lia.
      + intros c Hc'%Hc. rewrite Forall_forall in Hgs. apply Hgs in Hc'. lia. }
  apply addPrePost_mods in Hpp.
  pose proof (mods_length _ _ _ Hpp).
  assert (Hm2 : mods [] st st2).
  { eapply mods_trans'; [exact Hm1|exact Hpp|].
    intros b Hb%Hc1. left. lia. }
  assert (Hd2 : deps st2 g0 = []).
  { rewrite <-Hd1. apply (m_frame _ _ _ Hpp).
    intros [?|[[s Hs]|Hb%Hc1]]; [lia|by eapply Ha1|lia]. }
  split; [rewrite length_heap_update; lia|].
  split; [apply mods_add_deps; [done|left; lia]|].
  split.
  - unfold deps. node_simpl. simpl. fold (deps st2 g0). rewrite Hd2. simpl.
    by rewrite (m_lp _ _ _ Hm2).
  - intros s Hs. simpl in Hs.
    destruct (m_added_new _ _ _ Hpp s g0 Hs) as [?|?]; [by eapply Ha1|lia].
Qed.
(** ** The constructor *)

Lemma wf_set_lastPreparationNode st n :
  wf st → n < length (heap st) → wf (set_lastPreparationNode (Some n) st).
Proof. intros [] Hn. split; try done. simpl. by intros ? [= <-]. Qed.

Lemma wf_set_synthNode st n : wf st → wf (set_synthNode n st).
Proof. intros []. by split. Qed.

Lemma wf_set_selfMutateNode st n : wf st → wf (set_selfMutateNode n st).
Proof. intros []. by split. Qed.

Lemma wf_set_cloudAssemblyFileSet st f : wf st → wf (set_cloudAssemblyFileSet f st).
Proof. intros []. by split. Qed.

Lemma node_le_markBuildStep n : node_le n (markBuildStep n).
Proof.
  unfold markBuildStep. destruct (n_data n) as [[]|] eqn:E;
    try apply node_le_refl.
  split; simpl; [done|by rewrite E|done|done].
Qed.

Lemma mods_markBuildStep B st0 st r :
  mods B st0 st → mods B st0 (update_st r markBuildStep st).
Proof.
  intros Hm. apply mods_update; [done|apply node_le_markBuildStep| |right].
  - intros c Hc. left. revert Hc. unfold markBuildStep.
    by destruct (n_data _) as [[]|].
  - unfold markBuildStep. by destruct (n_data _) as [[]|].
Qed.

Lemma addBuildStep_Ok fuel s st n st' :
  wf st → addBuildStep O fuel s st = Ok n st' →
  mods [] st st' ∧ wf st' ∧ added st' !! s = Some n ∧ n < length (heap st').
Proof.
  unfold addBuildStep. intros Hw H.
  apply bind_Ok in H as (p & st1 & Hp & H).
  apply topLevelGraph_mods in Hp. apply addAndRecurse_mods in H as [Hm Hs].
  assert (mods [] st st') as Hm' by by eapply mods_trans.
  pose proof (wf_mods _ _ _ Hw Hm') as Hw'.
  split; [done|]. split; [done|]. split; [done|]. by apply (wf_added _ Hw' s).
Qed.

(** The state in which the waves are compiled. *)
Lemma construct_Ok fuel blueprint props ws st :
  construct O fuel blueprint props initial = Ok ws st →
  ∃ st1 st2 lp ca,
    wf st1 ∧ lastPreparationNode st1 = Some lp ∧
    (match primaryOutput (step O (synthStep blueprint)) with
     | Some f => fileSetPrimaryOutput (fileSet O f)
     | None => None
     end) = Some ca ∧
    cloudAssemblyFileSet st1 = Some ca ∧
    mapM (addWave O fuel) (waves blueprint) st1 = Ok ws st2 ∧
    deploySequentially ws st2 = Ok () st.
Proof.
  unfold construct. intros H.
  apply bind_Ok in H as (sn & st1 & Hsn & H).
  apply addBuildStep_Ok in Hsn as (Hm1 & Hw1 & Hs1 & Hn1); [|apply wf_initial].
  msteps H.
  match type of H with match ?x with _ => _ end _ = _ =>
    destruct x as [ca|] eqn:Eca; [|done] end.
  msteps H.
  match type of H0 with _ ?x = _ => set (stB := x) in * end.
  assert (Hw2 : wf stB ∧ length (heap stB) = length (heap st1) ∧
                cloudAssemblyFileSet stB = Some ca).
  { split; [|split; [unfold stB; solve_len|done]].
    apply wf_set_cloudAssemblyFileSet, wf_set_lastPreparationNode;
      [|solve_len].
    eapply (wf_mods []); [apply wf_set_synthNode, Hw1|].
    apply mods_markBuildStep. apply mods_refl. }
  destruct Hw2 as (Hw2 & Hl2 & Hca2).
  assert (∃ lp, wf st0 ∧ lastPreparationNode st0 = Some lp ∧
                cloudAssemblyFileSet st0 = Some ca) as (lp & Hw0 & Hlp & Hca0).
  { destruct (selfMutation props).
    - msteps H0. clear Hname Hname0. eexists. split; [|split; [done|done]].
      apply wf_set_lastPreparationNode; [|solve_len].
      match goal with |- wf ?x => assert (mods [] stB x) as Hm end.
      { apply mods_add_deps; [|left; solve_len].
        apply mods_add_child; [|solve_len].
        assert (∀ B s0 s n, mods B s0 s → mods B s0 (set_selfMutateNode n s)) as Hsm
          by (intros ???? []; by split).
        apply Hsm. apply mods_alloc; [|done].
        apply mods_add_child; [|solve_len].
        apply mods_alloc; [apply mods_refl|done]. }
      by eapply wf_mods.
    - mstep H0. exists sn. done. }
  destruct a5. exists st0, st2, lp, ca. done.
Qed.
Lemma mapM_addWave_Ok fuel ws : ∀ st gs st',
  wf st → mapM (addWave O fuel) ws st = Ok gs st' →
  mods [] st st' ∧ length gs = length ws ∧
  (∀ i g, gs !! i = Some g →
     length (heap st) ≤ g < length (heap st') ∧
     deps st' g = omap id [lastPreparationNode st] ∧
     ∀ s, added st' !! s ≠ Some g) ∧
  (∀ i j gi gj, gs !! i = Some gi → gs !! j = Some gj → i < j → gi < gj).
Proof.
  induction ws as [|w ws IH]; intros st gs st' Hw H; simpl in H.
  - mstep H. split; [apply mods_refl|]. split; [done|]. split; by intros.
  - apply bind_Ok in H as (g & st1 & Hg & H).
    apply bind_Ok in H as (gs' & st2 & Hgs & H). mstep H.
    apply addWave_Ok in Hg as (Hb & Hm1 & Hd & Ha); [|done].
    apply IH in Hgs as (Hm2 & Hlen & Hall & Hsort); [|by eapply wf_mods].
    pose proof (mods_length _ _ _ Hm1). pose proof (mods_length _ _ _ Hm2).
    split; [by eapply mods_trans|]. split; [simpl; by rewrite Hlen|]. split.
    + intros [|i] g'; simpl.
      * intros [= <-]. split; [lia|]. split.
        -- etrans; [|exact Hd]. apply (m_frame _ _ _ Hm2).
           intros [?|[[s Hs]|Hb']]; [lia|by eapply Ha|by apply elem_of_nil in Hb'].
        -- intros s Hs. destruct (m_added_new _ _ _ Hm2 s g Hs) as [?|?]; [|lia].
           by eapply Ha.
      * intros Hi. destruct (Hall i g' Hi) as (? & Hd' & ?).
        split; [lia|]. split; [|done]. etrans; [exact Hd'|].
        by rewrite (m_lp _ _ _ Hm1).
    + intros [|i] [|j] gi gj; simpl; intros Hi Hj Hij; try lia.
      * injection Hi as <-. destruct (Hall j gj Hj) as (? & _). lia.
      * eapply Hsort; [exact Hi|exact Hj|lia].
Qed.

Lemma deps_dependOn st n ds r :
  deps (update_st n (add_dependencies ds) st) r =
  if decide (r = n ∧ n < length (heap st)) then (deps st n ++ ds)%list
  else deps st r.
Proof. unfold deps. rewrite node_update. by case_decide. Qed.

(** Each listed index adds one edge, from its wave to the wave before. *)
Lemma deploySequentially_loop (ws : list nat) idx : ∀ st u st',
  NoDup idx → NoDup ws →
  (∀ w, w ∈ ws → w < length (heap st)) →
  forEach (λ i, match ws !! i with
                | Some w => dependOn w [ws !! (i - 1)]
                | None => throw TypeError
                end) idx st = Ok u st' →
  ∀ k w, ws !! k = Some w →
    deps st' w = (deps st w ++
      (if decide (k ∈ idx) then omap id [ws !! (k - 1)] else []))%list.
Proof.
  induction idx as [|i idx IH]; intros st u st' Hnd Hws Hb H k w Hk; simpl in H.
  - mstep H. rewrite decide_False by apply not_elem_of_nil. by rewrite app_nil_r.
  - apply bind_Ok in H as (u1 & st1 & Hi & H).
    apply NoDup_cons in Hnd as [Hi' Hnd].
    destruct (ws !! i) as [wi|] eqn:Ei; [|done]. mstep Hi.
    rewrite (IH _ _ _ Hnd Hws) with (k := k) (3 := Hk) (2 := H);
      [|intros; rewrite length_heap_update; by apply Hb].
    rewrite deps_dependOn.
    assert (wi < length (heap st)) by (apply Hb; by eapply list_elem_of_lookup_2).
    destruct (decide (k = i)) as [->|Hne].
    + assert (w = wi) as -> by congruence.
      rewrite decide_True by done.
      rewrite (decide_True (P := i ∈ i :: idx)) by by left.
      rewrite decide_False by done. by rewrite app_nil_r.
    + assert (w ≠ wi).
      { intros ->. apply Hne. by eapply NoDup_lookup. }
      rewrite decide_False by (intros [? _]; done). f_equal.
      destruct (decide (k ∈ idx)).
      * rewrite decide_True; [done|by right].
      * rewrite decide_False; [done|]. intros [?|?]%elem_of_cons; done.
Qed.
(** The edges between the wave graphs. After construction, the graph of wave
    [i] depends on the graph of wave [j] exactly when [i = j + 1]: every wave
    waits for the wave before it, and the order of the waves adds no other
    edge between wave graphs (none from wave 2 to wave 0, and none
    backwards). [ws] is the constructor's local [waves], one graph per wave of
    the blueprint; the constructor adds these graphs to no group, so this is
    a fact about the objects in the store, not about [this.graph]. *)
Lemma waves_deploy_sequentially fuel blueprint props ws st :
  new_GraphFromBlueprint O fuel blueprint props = Ok ws st →
  length ws = length (waves blueprint) ∧
  ∀ i j wi wj, ws !! i = Some wi → ws !! j = Some wj →
    (wj ∈ deps st wi ↔ i = S j).
Proof.
  unfold new_GraphFromBlueprint.
  intros (st1 & st2 & lp & ca & Hw1 & Hlp & _ & _ & Hws & Hseq)%construct_Ok.
  apply mapM_addWave_Ok in Hws as (Hm & Hlen & Hall & Hsort); [|done].
  split; [done|].
  assert (Hnd : NoDup ws).
  { apply NoDup_alt. intros i j w Hi Hj.
    destruct (Nat.lt_trichotomy i j) as [Hlt|[?|Hlt]]; [|done|].
    - pose proof (Hsort _ _ _ _ Hi Hj Hlt). lia.
    - pose proof (Hsort _ _ _ _ Hj Hi Hlt). lia. }
  intros i j wi wj Hi Hj.
  unfold deploySequentially in Hseq.
  assert (Hb : ∀ w, w ∈ ws → w < length (heap st2)).
  { intros w (k & Hk)%list_elem_of_lookup_1. by apply (Hall k w Hk). }
  rewrite (deploySequentially_loop ws _ _ _ _ (NoDup_seq _ _) Hnd Hb Hseq i wi Hi).
  destruct (Hall i wi Hi) as (_ & -> & _).
  destruct (Hall j wj Hj) as (Hbj & _ & _).
  pose proof (wf_lp _ Hw1 lp Hlp) as Hlpb.
  rewrite Hlp. simpl. rewrite elem_of_cons.
  pose proof (lookup_lt_Some _ _ _ Hi) as Hilt.
  split.
  - intros [->|Hin]; [lia|].
    case_decide as Hseq'; [|by apply elem_of_nil in Hin].
    apply elem_of_seq in Hseq'.
    destruct (ws !! (i - 1)) as [w'|] eqn:E'; simpl in Hin;
      [|by apply elem_of_nil in Hin].
    apply list_elem_of_singleton in Hin as ->.
    assert (j = i - 1) as -> by by eapply NoDup_lookup. lia.
  - intros ->. right. rewrite decide_True by (apply elem_of_seq; lia).
    replace (S j - 1) with j by lia. rewrite Hj. simpl. by left.
Qed.
(** C2. Step addition is idempotent. Once a call for a Step has returned a
    node, the memo holds that node, and every later call for the same Step,
    from any call site (any parent, any fuel, any later state in which the memo
    has only grown), returns that same node and leaves the state as it is:
    no node is created and the parent argument is not used. A call never
    drops a memo entry, so this covers a Step reached twice within one run. *)
Theorem addAndRecurse_idempotent fuel s parent st n st' :
  addAndRecurse O fuel s parent st = Ok n st' →
  added st' !! s = Some n ∧
  (∀ k v, added st !! k = Some v → added st' !! k = Some v) ∧
  (∀ fuel2 parent2, addAndRecurse O fuel2 s parent2 st' = Ok n st') ∧
  (∀ fuel2 parent2 st2,
     (∀ k v, added st' !! k = Some v → added st2 !! k = Some v) →
     addAndRecurse O fuel2 s parent2 st2 = Ok n st2).
Proof.
  intros [Hm Hs]%addAndRecurse_mods.
  assert (∀ fuel2 parent2 st2, added st2 !! s = Some n →
            addAndRecurse O fuel2 s parent2 st2 = Ok n st2) as Hmemo.
  { intros fuel2 parent2 st2 H2.
    destruct fuel2; simpl; unfold bind, gets; by rewrite H2. }
  split; [done|]. split; [apply (m_added _ _ _ Hm)|].
  split; [by intros; apply Hmemo|].
  intros fuel2 parent2 st2 Hsub. by apply Hmemo, Hsub.
Qed.
(** ** Source steps *)

Lemma children_alloc st nd r :
  n_children nd = [] → children (alloc_st nd st) r = children st r.
Proof.
  intros Hnd. unfold children. rewrite node_alloc. case_decide as Hr; [|done].
  subst. rewrite Hnd. by rewrite node_dangling.
Qed.

Lemma children_dependOn st n ds r :
  children (update_st n (add_dependencies ds) st) r = children st r.
Proof.
  unfold children. rewrite node_update. by case_decide as H; [destruct H as [-> _]|].
Qed.

Lemma tryGetChild_add_child st p c g name r :
  tryGetChild st g name = Some r →
  tryGetChild (update_st p (add_child c) st) g name = Some r.
Proof.
  unfold tryGetChild. rewrite children_add_child. case_decide as H; [|done].
  destruct H as [-> _]. intros H. by rewrite lookupChild_app, H.
Qed.

(** Below an existing "Source" group, step addition only adds children to
    that group. *)
Lemma addAndRecurse_in_source fuel : ∀ s src st n st',
  tryGetChild st (graph st) "Source" = Some src →
  addAndRecurse O fuel s src st = Ok n st' →
  tryGetChild st' (graph st') "Source" = Some src ∧
  ∀ r, r ≠ src → children st' r = children st r.
Proof.
  induction fuel as [|fuel IH]; intros s src st n st' Hsrc H; simpl in H.
  - mstep H. destruct (added st !! s) eqn:E; [|done]. by mstep H.
  - mstep H. destruct (added st !! s) eqn:E; [by mstep H|].
    apply bind_Ok in H as (n0 & st1 & Hn & H). mstep Hn.
    apply bind_Ok in H as (p & st2 & Hp & H).
    match type of Hp with _ ?x = _ => set (st1 := x) in * end.
    assert (Hsrc1 : tryGetChild st1 (graph st1) "Source" = Some src).
    { unfold tryGetChild, st1. by rewrite children_alloc. }
    assert (p = src ∧ st2 = st1) as [-> ->].
    { destruct (isCodePipelineSource (step O s)); [|by mstep Hp].
      apply topLevelGraph_Ok in Hp as [[Hp ->]|[Hp _]]; [|congruence].
      split; [congruence|done]. }
    clear Hp. msteps H. clear Hname.
    match type of H0 with forEach _ _ ?x = _ => set (st4 := x) in * end.
    assert (tryGetChild st4 (graph st4) "Source" = Some src ∧
            ∀ r, r ≠ src → children st4 r = children st r) as HI.
    { split.
      - unfold st4. by apply (tryGetChild_add_child st1).
      - intros r Hr.
        change (children (update_st src (add_child
          (n_id (node st1 (length (heap st))), length (heap st))) st1) r =
          children st r).
        rewrite children_add_child, decide_False by (intros [? _]; done).
        unfold st1. by rewrite children_alloc. }
    eapply (forEach_inv (λ x, tryGetChild x (graph x) "Source" = Some src ∧
              ∀ r, r ≠ src → children x r = children st r)); [|exact HI|exact H0].
    intros dep x u x' _ [Hx1 Hx2] Hb.
    apply bind_Ok in Hb as (pn & x1 & Hrec & Hdep). mstep Hdep.
    apply IH in Hrec as [Hs1 Hf1]; [|done]. split.
    + unfold tryGetChild. by rewrite children_dependOn.
    + intros r Hr. rewrite children_dependOn, Hf1 by done. by apply Hx2.
Qed.

(** C3. A source-type Step that has not been visited is attached under the
    top-level "Source" group, whatever parent was requested: after the call the
    root has a child group named "Source", the new node is a child of that
    group under the Step's id, and it is not a child of the requested parent
    (unless the requested parent is the "Source" group itself). *)
Theorem addAndRecurse_source_placement fuel s parent st n st' :
  wf st →
  added st !! s = None →
  isCodePipelineSource (step O s) = true →
  addAndRecurse O fuel s parent st = Ok n st' →
  ∃ src,
    tryGetChild st' (graph st') "Source" = Some src ∧
    (step_id (step O s), n) ∈ children st' src ∧
    (parent ≠ src → n ∉ nodes st' parent).
Proof.
  intros Hw Hs Hsrc H. destruct fuel as [|fuel]; simpl in H.
  { mstep H. rewrite Hs in H. done. }
  mstep H. rewrite Hs in H.
  apply bind_Ok in H as (n0 & st1 & Hn & H). mstep Hn.
  apply bind_Ok in H as (src & st2 & Hp & H). rewrite Hsrc in Hp.
  match type of Hp with _ _ ?x = _ => set (st1 := x) in * end.
  set (n0 := length (heap st)) in *.
  assert (Hl1 : length (heap st1) = S n0) by apply length_heap_alloc.
  assert (Hc1 : ∀ r, children st1 r = children st r)
    by (intros; by apply children_alloc).
  assert (Hn1 : node st1 n0 = {| n_id := step_id (step O s);
            n_data := Some (AStep s false); n_dependencies := [];
            n_children := [] |}) by (unfold st1; by node_simpl).
  pose proof (wf_graph _ Hw) as Hroot.
  assert (tryGetChild st2 (graph st2) "Source" = Some src ∧
          src < length (heap st2) ∧ src ≠ n0 ∧
          node st2 n0 = node st1 n0 ∧
          (∀ r c, c ∈ children st2 r → c ∈ children st r ∨ c.2 = src))
    as (Hs2 & Hb2 & Hne2 & Hn2 & Hc2).
  { apply topLevelGraph_Ok in Hp as [[Hp ->]|(Hp & -> & ->)].
    - assert (src < n0).
      { apply lookupChild_Some in Hp. rewrite Hc1 in Hp.
        by apply (wf_children _ Hw) in Hp. }
      split; [done|]. split; [lia|]. split; [lia|]. split; [done|].
      intros r c. rewrite Hc1. by left.
    - fold st1. change (graph st1) with (graph st) in *.
      match goal with |- context [update_st _ _ ?x] => set (stA := x) in * end.
      assert (length (heap stA) = S (S n0)) as HlA
        by (unfold stA; rewrite length_heap_alloc; lia).
      assert (∀ r, children stA r = children st r) as HcA.
      { intros r. unfold stA. rewrite children_alloc by done. apply Hc1. }
      split; [|split; [|split; [|split]]].
      + change (graph (update_st (graph st) (add_child ("Source", length (heap st1))) stA))
          with (graph st).
        unfold tryGetChild. rewrite children_add_child.
        rewrite decide_True by (split; [done|lia]).
        rewrite lookupChild_app. unfold tryGetChild in Hp.
        rewrite HcA, <-Hc1, Hp. simpl. done.
      + rewrite length_heap_update. lia.
      + lia.
      + rewrite node_update. case_decide as Hd; [destruct Hd as [Hd _]; lia|].
        unfold stA. rewrite node_alloc. by rewrite decide_False by lia.
      + intros r c. rewrite children_add_child, !HcA.
        case_decide; [|by left].
        rewrite elem_of_app, list_elem_of_singleton.
        intros [?| ->]; [left; naive_solver|by right]. }
  clear Hp. msteps H. clear Hname.
  match type of H0 with forEach _ _ ?x = Ok _ ?y =>
    set (st4 := x) in *; rename y into stF end.
  set (c := (n_id (node st2 n0), n0)) in *.
  assert (tryGetChild st4 (graph st4) "Source" = Some src ∧
          c ∈ children st4 src ∧ grows st4 st4 ∧
          ∀ r, r ≠ src → children st4 r = children st2 r) as HI.
  { split; [by apply (tryGetChild_add_child st2)|]. split; [|split].
    - change (children st4 src) with (children (update_st src (add_child c) st2) src).
      rewrite children_add_child, decide_True by done.
      apply elem_of_app. right. by left.
    - apply grows_refl.
    - intros r Hr.
      change (children st4 r) with (children (update_st src (add_child c) st2) r).
      by rewrite children_add_child, decide_False by (intros [? _]; done). }
  assert (tryGetChild stF (graph stF) "Source" = Some src ∧
          c ∈ children st4 src ∧ grows st4 stF ∧
          ∀ r, r ≠ src → children stF r = children st2 r)
    as (Hs' & Hc' & Hg' & Hf').
  { eapply (forEach_inv (λ x, tryGetChild x (graph x) "Source" = Some src ∧
              c ∈ children st4 src ∧ grows st4 x ∧
              ∀ r, r ≠ src → children x r = children st2 r));
      [|exact HI|exact H0].
    intros dep x u x' _ (Hx1 & Hx2 & Hx3 & Hx4) Hb.
    apply bind_Ok in Hb as (pn & x1 & Hrec & Hdep). mstep Hdep.
    pose proof (addAndRecurse_mods _ _ _ _ _ _ Hrec) as [Hmx _].
    apply addAndRecurse_in_source in Hrec as [Hs1 Hf1]; [|done].
    split; [|split; [done|split]].
    - unfold tryGetChild. by rewrite children_dependOn.
    - apply grows_update; [|apply node_le_add_dependencies].
      eapply grows_trans; [done|by eapply mods_grows].
    - intros r Hr. rewrite children_dependOn, Hf1 by done. by apply Hx4. }
  exists src. split; [done|]. split.
  - assert (src < length (heap st4)) as Hb4 by (unfold st4; solve_len).
    pose proof (grows_node _ _ _ Hg' Hb4) as Hle.
    unfold c in Hc'. rewrite Hn2, Hn1 in Hc'. simpl in Hc'.
    eapply prefix_elem_of; [apply (le_children _ _ Hle)|done].
  - intros Hne (c' & Hin & Hc2')%elem_of_nodes.
    rewrite Hf' in Hin by done. apply Hc2 in Hin as [Hin|Hin].
    + apply (wf_children _ Hw) in Hin. lia.
    + congruence.
Qed.
(** ** Termination of step addition *)

Lemma unvisited_le U st : unvisited U st ≤ length U.
Proof. apply length_filter. Qed.

Lemma unvisited_mono U st st' :
  (∀ s n, added st !! s = Some n → added st' !! s = Some n) →
  unvisited U st' ≤ unvisited U st.
Proof.
  intros Hsub. unfold unvisited. induction U as [|x U IH]; [done|].
  rewrite !filter_cons. destruct (decide (added st' !! x = None)) as [Hx'|Hx'].
  - destruct (decide (added st !! x = None)) as [Hx|Hx]; [simpl; lia|].
    destruct (added st !! x) as [n|] eqn:E; [|done].
    apply Hsub in E. congruence.
  - destruct (decide (added st !! x = None)); simpl; lia.
Qed.

Lemma unvisited_insert U st s n :
  s ∈ U → added st !! s = None →
  unvisited U (set_added (<[s := n]> (added st)) st) < unvisited U st.
Proof.
  intros Hin Hs. unfold unvisited. simpl.
  induction U as [|x U IH]; [by apply elem_of_nil in Hin|].
  rewrite !filter_cons.
  destruct (decide (x = s)) as [->|Hne].
  - rewrite decide_False by (by rewrite lookup_insert_eq).
    rewrite decide_True by done. simpl.
    pose proof (unvisited_mono U st (set_added (<[s := n]> (added st)) st)) as Hm.
    unfold unvisited in Hm. simpl in Hm.
    assert (∀ s0 n0, added st !! s0 = Some n0 →
              <[s:=n]> (added st) !! s0 = Some n0) as Hsub.
    { intros s0 n0 H0. rewrite lookup_insert_ne; [done|]. intros ->. congruence. }
    specialize (Hm Hsub). lia.
  - apply elem_of_cons in Hin as [?|Hin]; [congruence|].
    specialize (IH Hin). rewrite lookup_insert_ne by done.
    destruct (decide (added st !! x = None)); simpl; lia.
Qed.

Lemma topLevelGraph_terminates name st : topLevelGraph name st ≠ Diverge.
Proof.
  unfold topLevelGraph, bind, gets. simpl.
  destruct (tryGetChild st (graph st) name); [done|].
  unfold Graph_new, alloc, Graph_add. simpl.
  by destruct (tryGetChild _ _ _).
Qed.

Lemma Graph_add_terminates p c st : Graph_add p c st ≠ Diverge.
Proof. unfold Graph_add. by destruct (tryGetChild _ _ _). Qed.

Lemma bind_terminates {A B} (m : M A) (f : A → M B) st :
  m st ≠ Diverge → (∀ a st1, m st = Ok a st1 → f a st1 ≠ Diverge) →
  bind m f st ≠ Diverge.
Proof. unfold bind. intros Hm Hf. destruct (m st) eqn:E; [by eapply Hf|done|done]. Qed.

Lemma forEach_terminates {A} (I : GraphFromBlueprint → Prop) (f : A → M unit) l :
  (∀ x st, x ∈ l → I st →
     f x st ≠ Diverge ∧ ∀ u st', f x st = Ok u st' → I st') →
  ∀ st, I st → forEach f l st ≠ Diverge.
Proof.
  induction l as [|x l IH]; intros Hf st HI; simpl; [done|].
  destruct (Hf x st) as [Hnd Hok]; [by left|done|].
  apply bind_terminates; [done|]. intros u st1 H1. apply IH.
  - intros y st2 Hy. apply Hf. by right.
  - by eapply Hok.
Qed.

Lemma addAndRecurse_fuel U fuel : ∀ s parent st,
  steps_closed O U → s ∈ U → unvisited U st ≤ fuel →
  addAndRecurse O fuel s parent st ≠ Diverge.
Proof.
  induction fuel as [|fuel IH]; intros s parent st HU Hs Hfuel.
  - simpl. unfold bind, gets. destruct (added st !! s) eqn:E; [done|].
    exfalso. pose proof (unvisited_insert U st s 0 Hs E). lia.
  - simpl. unfold bind at 1. unfold gets at 1.
    destruct (added st !! s) eqn:E; [done|].
    apply bind_terminates; [done|]. intros n st1 Hn. mstep Hn.
    apply bind_terminates.
    { destruct (isCodePipelineSource _); [apply topLevelGraph_terminates|done]. }
    intros p st2 Hp.
    assert (added st2 = added st) as Ha2.
    { destruct (isCodePipelineSource _); [|by mstep Hp].
      by apply topLevelGraph_added in Hp. }
    apply bind_terminates; [apply Graph_add_terminates|].
    intros u st3 H3. mstep H3.
    apply bind_terminates; [done|]. intros u' st4 H4. mstep H4.
    apply bind_terminates; [|done].
    apply (forEach_terminates (λ x, unvisited U x ≤ fuel)).
    + intros dep x Hdep Hx. split.
      * apply bind_terminates; [|done]. apply IH; [done| |done].
        by eapply HU.
      * intros u1 x' Hb. apply bind_Ok in Hb as (pn & x1 & Hrec & Hb). mstep Hb.
        apply addAndRecurse_mods in Hrec as [Hm _].
        pose proof (unvisited_mono U x x1 (m_added _ _ _ Hm)) as Hle.
        unfold unvisited in *. simpl. lia.
    + match goal with |- unvisited U (set_added _ ?x) ≤ _ =>
        pose proof (unvisited_insert U x s (length (heap st)) Hs) as Hlt end.
      simpl in Hlt. rewrite Ha2 in Hlt. specialize (Hlt E).
      unfold unvisited in *. simpl in *. rewrite Ha2 in *. lia.
Qed.
Lemma bind_ext_terminating {A B} (m : M A) (f g : A → M B) st :
  bind m g st ≠ Diverge →
  (∀ a st1, m st = Ok a st1 → g a st1 ≠ Diverge → f a st1 = g a st1) →
  bind m f st = bind m g st.
Proof.
  unfold bind. intros Hnd Hfg. destruct (m st) as [a st1| |] eqn:E; [|done|done].
  by apply Hfg.
Qed.

Lemma forEach_ext_terminating {A} (f g : A → M unit) l : ∀ st,
  (∀ x st, x ∈ l → g x st ≠ Diverge → f x st = g x st) →
  forEach g l st ≠ Diverge → forEach f l st = forEach g l st.
Proof.
  induction l as [|x l IH]; intros st Hfg Hnd; simpl in *; [done|].
  assert (g x st ≠ Diverge) as Hx.
  { intros Hx. apply Hnd. unfold bind. by rewrite Hx. }
  unfold bind in *. rewrite (Hfg x st) by (by left || done).
  destruct (g x st) as [u st1| |]; [|done|done].
  apply IH; [|done]. intros y st2 Hy. apply Hfg. by right.
Qed.

Lemma addAndRecurse_S fuel s parent st :
  addAndRecurse O (S fuel) s parent st =
  match added st !! s with
  | Some previous => Ok previous st
  | None => addNew O (addAndRecurse O fuel) s parent st
  end.
Proof. simpl. unfold bind at 1, gets. by destruct (added st !! s). Qed.

Lemma addNew_ext_terminating (f g : nat → nat → M nat) s parent st :
  (∀ d p x, g d p x ≠ Diverge → f d p x = g d p x) →
  addNew O g s parent st ≠ Diverge →
  addNew O f s parent st = addNew O g s parent st.
Proof.
  intros Hfg Hnd. unfold addNew in *.
  apply bind_ext_terminating; [done|]. intros n st1 _ Hnd1.
  apply bind_ext_terminating; [done|]. intros p st2 _ Hnd2.
  apply bind_ext_terminating; [done|]. intros u st3 _ Hnd3.
  apply bind_ext_terminating; [done|]. intros u' st4 _ Hnd4.
  unfold bind in Hnd4 |- *.
  rewrite (forEach_ext_terminating
    (λ dep, let* producerNode := f dep p in dependOn n [Some producerNode])
    (λ dep, let* producerNode := g dep p in dependOn n [Some producerNode]));
    [done| |].
  - intros dep x _ Hx. unfold bind in *. rewrite Hfg; [done|].
    intros Hd. by rewrite Hd in Hx.
  - by destruct (forEach _ _ st4).
Qed.

(** More fuel does not change a result that was reached. *)
Lemma addAndRecurse_fuel_S fuel : ∀ s parent st,
  addAndRecurse O fuel s parent st ≠ Diverge →
  addAndRecurse O (S fuel) s parent st = addAndRecurse O fuel s parent st.
Proof.
  induction fuel as [|fuel IH]; intros s parent st Hnd.
  - simpl in *. unfold bind, gets in *. by destruct (added st !! s).
  - rewrite (addAndRecurse_S (S fuel)). rewrite addAndRecurse_S in Hnd |- *.
    destruct (added st !! s); [done|].
    apply addNew_ext_terminating; [|done]. intros d p x. apply IH.
Qed.

Lemma addAndRecurse_fuel_le fuel fuel' s parent st :
  addAndRecurse O fuel s parent st ≠ Diverge → fuel ≤ fuel' →
  addAndRecurse O fuel' s parent st = addAndRecurse O fuel s parent st.
Proof.
  intros Hnd Hle. induction Hle as [|fuel' Hle IH]; [done|].
  rewrite addAndRecurse_fuel_S; [done|]. by rewrite IH.
Qed.

(** C8. Step addition terminates on every finite, dependency-closed set [U]
    of Steps, cyclic or not: a recursion depth ([fuel]) of the number of Steps
    is enough for the call to finish (with a node, or with the container's
    duplicate-name error), from any state and for any parent; and the result
    is the same for every larger depth. *)
Theorem addAndRecurse_terminates U fuel s parent st :
  steps_closed O U → s ∈ U → length U ≤ fuel →
  addAndRecurse O fuel s parent st ≠ Diverge ∧
  ∀ fuel', fuel ≤ fuel' →
    addAndRecurse O fuel' s parent st = addAndRecurse O fuel s parent st.
Proof.
  intros HU Hs Hfuel.
  assert (addAndRecurse O fuel s parent st ≠ Diverge) as Hnd.
  { apply (addAndRecurse_fuel U); [done|done|].
    pose proof (unvisited_le U st). lia. }
  split; [done|]. intros fuel' Hle. by apply addAndRecurse_fuel_le.
Qed.
(** ** The asset memo invariant *)

Lemma safe_ret {A} (a : A) : safe (ret a).
Proof. by intros st H. Qed.

Lemma safe_gets {A} (f : GraphFromBlueprint → A) : safe (gets f).
Proof. by intros st H. Qed.

Lemma safe_throw {A} e : ¬ fatal e → safe (throw (A := A) e).
Proof. by intros He st H. Qed.

Lemma safe_bind {A B} (m : M A) (f : A → M B) :
  safe m → (∀ a, safe (f a)) → safe (bind m f).
Proof.
  intros Hm Hf st H. unfold bind. specialize (Hm st H).
  destruct (m st) as [a st1| |]; [by apply Hf|done|done].
Qed.

Lemma safe_forEach {A} (f : A → M unit) l : (∀ x, safe (f x)) → safe (forEach f l).
Proof.
  intros Hf. induction l as [|x l IH]; simpl; [apply safe_ret|].
  apply safe_bind; [apply Hf|done].
Qed.

Lemma safe_mapM {A B} (f : A → M B) l : (∀ x, safe (f x)) → safe (mapM f l).
Proof.
  intros Hf. induction l as [|x l IH]; simpl; [apply safe_ret|].
  apply safe_bind; [apply Hf|]. intros y.
  apply safe_bind; [done|]. intros ys. apply safe_ret.
Qed.

Lemma safe_foldM {A B} (f : B → A → M B) l :
  (∀ b x, safe (f b x)) → ∀ b, safe (foldM f b l).
Proof.
  intros Hf. induction l as [|x l IH]; intros b; simpl; [apply safe_ret|].
  apply safe_bind; [apply Hf|done].
Qed.

Lemma asset_memo_ok_alloc st nd :
  asset_memo_ok st → asset_memo_ok (alloc_st nd st).
Proof.
  intros H k n Hk. destruct (H k n Hk) as [assets Hd]. exists assets.
  unfold data in *. rewrite node_alloc. case_decide; [|done]. subst.
  by rewrite node_dangling in Hd.
Qed.

Lemma asset_memo_ok_update st r f :
  (∀ n assets, n_data n = Some (APublishAssets assets) →
     ∃ assets', n_data (f n) = Some (APublishAssets assets')) →
  asset_memo_ok st → asset_memo_ok (update_st r f st).
Proof.
  intros Hf H k n Hk. destruct (H k n Hk) as [assets Hd].
  unfold data in *. rewrite node_update. case_decide as Hc; [|by exists assets].
  destruct Hc as [-> _]. by eapply Hf.
Qed.

Lemma safe_alloc nd : safe (alloc nd).
Proof. intros st H. by apply asset_memo_ok_alloc. Qed.

Lemma safe_updateNode r f :
  (∀ n assets, n_data n = Some (APublishAssets assets) →
     ∃ assets', n_data (f n) = Some (APublishAssets assets')) →
  safe (updateNode r f).
Proof. intros Hf st H. by apply asset_memo_ok_update. Qed.

Lemma safe_dependOn n ds : safe (dependOn n ds).
Proof. apply safe_updateNode. intros; simpl; eauto. Qed.

Lemma safe_Graph_add p c : safe (Graph_add p c).
Proof.
  intros st H. unfold Graph_add. destruct (tryGetChild _ _ _); [by intros []|].
  apply asset_memo_ok_update; [|done]. intros; simpl; eauto.
Qed.

Lemma safe_modify f :
  (∀ st, heap (f st) = heap st ∧ assetNodes (f st) = assetNodes st) →
  safe (modify f).
Proof.
  intros Hf st H k n. simpl. destruct (Hf st) as [Hh ->]. intros Hk.
  destruct (H k n Hk) as [assets Hd]. exists assets.
  unfold data, node in *. by rewrite Hh.
Qed.

#[local] Hint Resolve safe_ret safe_gets safe_alloc safe_dependOn
  safe_Graph_add : gfb.

Lemma safe_Graph_of id d ns : safe (Graph_of id d ns).
Proof.
  unfold Graph_of. apply safe_bind; [apply safe_alloc|]. intros g.
  apply safe_bind; [|intros; apply safe_ret].
  apply safe_forEach. intros; apply safe_Graph_add.
Qed.

Lemma safe_topLevelGraph name : safe (topLevelGraph name).
Proof.
  unfold topLevelGraph. apply safe_bind; [apply safe_gets|]. intros root.
  apply safe_bind; [apply safe_gets|]. intros [r|]; [apply safe_ret|].
  apply safe_bind; [apply safe_alloc|]. intros r.
  apply safe_bind; [apply safe_Graph_add|]. intros; apply safe_ret.
Qed.

Lemma safe_addAndRecurse fuel : ∀ s parent, safe (addAndRecurse O fuel s parent).
Proof.
  induction fuel as [|fuel IH]; intros s parent; simpl.
  - apply safe_bind; [apply safe_gets|]. intros [p|]; [apply safe_ret|]. by intros st H.
  - apply safe_bind; [apply safe_gets|]. intros [p|]; [apply safe_ret|].
    apply safe_bind; [apply safe_alloc|]. intros n.
    apply safe_bind.
    { destruct (isCodePipelineSource _); [apply safe_topLevelGraph|apply safe_ret]. }
    intros p. apply safe_bind; [apply safe_Graph_add|]. intros _.
    apply safe_bind; [by apply safe_modify|]. intros _.
    apply safe_bind; [|intros; apply safe_ret].
    apply safe_forEach. intros dep. apply safe_bind; [apply IH|].
    intros; apply safe_dependOn.
Qed.

Lemma safe_addPrePost fuel pre post parent : safe (addPrePost O fuel pre post parent).
Proof.
  unfold addPrePost. apply safe_bind; [apply safe_gets|]. intros base.
  apply safe_bind.
  - apply safe_forEach. intros p. apply safe_bind; [apply safe_addAndRecurse|].
    intros n. apply safe_forEach. intros; apply safe_dependOn.
  - intros _. apply safe_forEach. intros p.
    apply safe_bind; [apply safe_addAndRecurse|]. intros; apply safe_dependOn.
Qed.

Lemma safe_nextAssetName a : safe (nextAssetName a).
Proof.
  unfold nextAssetName. destruct (assetType a);
    (apply safe_bind; [by apply safe_modify|]; intros _;
     apply safe_bind; [apply safe_gets|]; intros; apply safe_ret).
Qed.

Lemma safe_register k l (rest : nat → M nat) :
  (∀ n, safe (rest n)) →
  safe (let* newNode := GraphNode_of k.1 (APublishAssets l) in
        modify (λ st, set_assetNodes (<[k.2 := newNode]> (assetNodes st)) st) ;;;
        rest newNode).
Proof.
  intros Hrest st H. unfold bind, GraphNode_of, alloc, modify.
  apply Hrest. intros k' n. simpl. rewrite lookup_insert. case_decide.
  - intros [= <-]. eexists. unfold data.
    match goal with |- context [node (set_assetNodes ?a ?x) ?r] =>
      change (node (set_assetNodes a x) r) with (node x r) end.
    rewrite node_alloc. by rewrite decide_True by done.
  - intros Hk. by apply (asset_memo_ok_alloc st _ H k').
Qed.

Lemma safe_publishAsset a : safe (publishAsset a).
Proof.
  unfold publishAsset. apply safe_bind; [apply safe_topLevelGraph|]. intros g.
  intros st H. unfold bind at 1. unfold gets at 1. unfold bind at 1.
  assert (∀ st', asset_memo_ok st' →
    match (let* id := nextAssetName a in
           let* newNode := GraphNode_of id (APublishAssets [a]) in
           modify (λ st, set_assetNodes (<[assetId a := newNode]> (assetNodes st)) st) ;;;
           Graph_add g newNode ;;;
           let* lp := gets lastPreparationNode in
           dependOn newNode [lp] ;;; ret newNode) st' with
    | Ok _ st'' => asset_memo_ok st''
    | Throw e => ¬ fatal e
    | Diverge => True
    end) as Hrest.
  { apply safe_bind; [apply safe_nextAssetName|]. intros id.
    apply (safe_register (id, assetId a)). intros n.
    apply safe_bind; [apply safe_Graph_add|]. intros _.
    apply safe_bind; [apply safe_gets|]. intros lp.
    apply safe_bind; [apply safe_dependOn|]. intros; apply safe_ret. }
  destruct (assetNodes st !! assetId a) as [n|] eqn:En; [|by apply Hrest].
  destruct (H _ _ En) as [assets Hd].
  unfold bind at 1. unfold gets at 1. rewrite Hd.
  destruct (existsb _ _); [by apply Hrest|].
  apply Hrest. apply asset_memo_ok_update; [|done]. intros; simpl; eauto.
Qed.

Lemma safe_newStackGraph s : safe (newStackGraph O s).
Proof.
  unfold newStackGraph. apply safe_bind; [apply safe_Graph_of|]. intros sg.
  apply safe_bind; [apply safe_alloc|]. intros p.
  apply safe_bind; [apply safe_alloc|]. intros d.
  apply safe_bind; [apply safe_Graph_add|]. intros _.
  apply safe_bind; [apply safe_Graph_add|]. intros _.
  apply safe_bind; [apply safe_dependOn|]. intros; apply safe_ret.
Qed.

Lemma safe_addStack fuel g sgs s : safe (addStack O fuel g sgs s).
Proof.
  unfold addStack. apply safe_bind; [apply safe_newStackGraph|]. intros x.
  apply safe_bind; [apply safe_gets|]. intros shared.
  destruct (cloudAssemblyOf O s shared); [|apply safe_throw; by intros []].
  apply safe_bind; [apply safe_addAndRecurse|]. intros pn.
  apply safe_bind; [apply safe_dependOn|]. intros _.
  apply safe_bind; [|intros; apply safe_ret].
  apply safe_forEach. intros asset.
  apply safe_bind; [apply safe_publishAsset|]. intros; apply safe_dependOn.
Qed.

Lemma safe_addStackDependencies sgs ss : safe (addStackDependencies O sgs ss).
Proof.
  unfold addStackDependencies. apply safe_forEach. intros s.
  apply safe_forEach. intros dep.
  destruct (sgs !! s); [apply safe_dependOn|apply safe_ret].
Qed.

Lemma safe_addStage fuel stage : safe (addStage O fuel stage).
Proof.
  unfold addStage. apply safe_bind; [apply safe_Graph_of|]. intros g.
  apply safe_bind; [apply safe_foldM; intros; apply safe_addStack|]. intros sgs.
  apply safe_bind; [apply safe_addStackDependencies|]. intros _.
  apply safe_bind; [apply safe_addPrePost|]. intros; apply safe_ret.
Qed.

Lemma safe_addWave fuel wave : safe (addWave O fuel wave).
Proof.
  unfold addWave. apply safe_bind.
  - destruct (stages wave) as [|stage [|stage' ss]].
    + apply safe_bind; [apply safe_ret|]. intros; apply safe_Graph_of.
    + apply safe_addStage.
    + apply safe_bind; [apply safe_mapM; intros; apply safe_addStage|].
      intros; apply safe_Graph_of.
  - intros g. apply safe_bind; [apply safe_addPrePost|]. intros _.
    apply safe_bind; [apply safe_gets|]. intros lp.
    apply safe_bind; [apply safe_dependOn|]. intros; apply safe_ret.
Qed.

Lemma safe_deploySequentially ws : safe (deploySequentially ws).
Proof.
  unfold deploySequentially. apply safe_forEach. intros i.
  destruct (ws !! i); [apply safe_dependOn|apply safe_throw; by intros []].
Qed.

Lemma safe_addBuildStep fuel s : safe (addBuildStep O fuel s).
Proof.
  unfold addBuildStep. apply safe_bind; [apply safe_topLevelGraph|].
  intros; apply safe_addAndRecurse.
Qed.

Lemma asset_memo_ok_initial : asset_memo_ok initial.
Proof. intros k n H. simpl in H. by rewrite lookup_empty in H. Qed.
Lemma topLevelGraph_total name st : ∃ g st', topLevelGraph name st = Ok g st'.
Proof.
  unfold topLevelGraph, bind, gets.
  destruct (tryGetChild st (graph st) name) as [r|] eqn:E; [by eexists _, _|].
  unfold Graph_new, alloc, Graph_add.
  assert (tryGetChild (alloc_st {| n_id := name; n_data := None;
            n_dependencies := []; n_children := [] |} st)
            (graph st) name = None) as E'.
  { unfold tryGetChild. by rewrite children_alloc. }
  rewrite node_alloc, decide_True by done. simpl.
  change (graph (alloc_st _ st)) with (graph st). rewrite E'.
  by eexists _, _.
Qed.

Lemma topLevelGraph_data name st g st' r :
  topLevelGraph name st = Ok g st' →
  data st' r = data st r ∧ assetNodes st' = assetNodes st.
Proof.
  intros [[_ ->]|(_ & -> & ->)]%topLevelGraph_Ok; [done|]. split; [|done].
  unfold data. rewrite node_update.
  assert (n_data (node (alloc_st {| n_id := name; n_data := None;
            n_dependencies := []; n_children := [] |} st) r) = n_data (node st r)).
  { rewrite node_alloc. case_decide; [|done]. subst. by rewrite node_dangling. }
  case_decide as Hc; [|done]. destruct Hc as [-> _]. done.
Qed.

(** After the memo lookup, [publishAsset] can only fail in [Graph.add]. *)
Lemma publishAsset_tail_error a g st e :
  (let* id := nextAssetName a in
   let* newNode := GraphNode_of id (APublishAssets [a]) in
   modify (λ st, set_assetNodes (<[assetId a := newNode]> (assetNodes st)) st) ;;;
   Graph_add g newNode ;;;
   let* lp := gets lastPreparationNode in
   dependOn newNode [lp] ;;; ret newNode) st = Throw e →
  ∃ p name, e = DuplicateChild p name.
Proof.
  unfold nextAssetName, bind, GraphNode_of, alloc, modify, gets, Graph_add,
    dependOn, updateNode, modify, ret.
  destruct (assetType a); simpl; destruct (tryGetChild _ _ _); intros [= <-]; eauto.
Qed.

(** A construction keeps the asset memo in order; the only fatal error it can
    raise is the missing-output error, for the synth Step, when that Step has
    no output. *)
Lemma construct_safe fuel blueprint props :
  match construct O fuel blueprint props initial with
  | Ok _ st => asset_memo_ok st
  | Throw e =>
      fatal e →
      e = MissingCloudAssembly (synthStep blueprint) ∧
      match primaryOutput (step O (synthStep blueprint)) with
      | Some f => fileSetPrimaryOutput (fileSet O f)
      | None => None
      end = None
  | Diverge => True
  end.
Proof.
  unfold construct.
  pose proof (safe_addBuildStep fuel (synthStep blueprint) initial
                asset_memo_ok_initial) as H1.
  unfold bind at 1.
  destruct (addBuildStep O fuel (synthStep blueprint) initial)
    as [sn st1|e|]; [|done|done].
  unfold bind at 1. unfold modify at 1.
  unfold bind at 1. unfold updateNode at 1. unfold modify at 1.
  unfold bind at 1. unfold modify at 1.
  destruct (match primaryOutput (step O (synthStep blueprint)) with
            | Some f => fileSetPrimaryOutput (fileSet O f)
            | None => None
            end) as [ca|]; [|done].
  match goal with |- match bind _ ?k ?x with _ => _ end =>
    assert (asset_memo_ok x) as H2; [|assert (safe (bind (modify
      (set_cloudAssemblyFileSet (Some ca))) k)) as H3] end.
  { intros k n Hk. destruct (H1 k n Hk) as [assets Hd0].
    unfold data in *.
    match goal with |- context [node (set_lastPreparationNode ?a ?x) ?r] =>
      change (node (set_lastPreparationNode a x) r) with (node x r) end.
    rewrite node_update. case_decide as Hc; [|by exists assets].
    destruct Hc as [-> _]. unfold markBuildStep.
    change (node (set_synthNode (Some sn) st1) sn) with (node st1 sn).
    rewrite Hd0. by exists assets. }
  { apply safe_bind; [by apply safe_modify|]. intros _.
    apply safe_bind.
    - destruct (selfMutation props); [|apply safe_ret].
      apply safe_bind; [apply safe_gets|]. intros root.
      apply safe_bind; [apply safe_Graph_of|]. intros stage.
      apply safe_bind; [apply safe_Graph_add|]. intros _.
      apply safe_bind; [apply safe_alloc|]. intros sm.
      apply safe_bind; [by apply safe_modify|]. intros _.
      apply safe_bind; [apply safe_Graph_add|]. intros _.
      apply safe_bind; [apply safe_dependOn|]. intros _.
      by apply safe_modify.
    - intros _. apply safe_bind; [apply safe_mapM; intros; apply safe_addWave|].
      intros ws. apply safe_bind; [apply safe_deploySequentially|].
      intros; apply safe_ret. }
  specialize (H3 _ H2).
  match goal with |- match ?m with _ => _ end =>
    destruct m as [ws st|e|]; [done| |done] end.
  intros He. by apply H3 in He.
Qed.

(** C9. [publishAsset] raises the wrong-annotation error exactly when the
    asset memo maps the asset's id to a node whose annotation is not the
    asset-publish variant, and the error carries that node and its actual
    variant. The branch is dead code: every operation keeps the invariant that
    all nodes in the asset memo carry the asset-publish annotation, so neither
    [publishAsset] in such a state nor a whole construction ever raises the
    error, and the invariant holds in the compiled graph. *)
Theorem publishAsset_wrong_data_type :
  (∀ a st n ty,
     publishAsset a st = Throw (WrongDataType n ty) ↔
     assetNodes st !! assetId a = Some n ∧
     ty = annotationType <$> data st n ∧ ty ≠ Some TPublishAssets) ∧
  (∀ a st, asset_memo_ok st →
     (∀ n ty, publishAsset a st ≠ Throw (WrongDataType n ty)) ∧
     (∀ n st', publishAsset a st = Ok n st' → asset_memo_ok st')) ∧
  (∀ fuel blueprint props,
     (∀ n ty, new_GraphFromBlueprint O fuel blueprint props
                ≠ Throw (WrongDataType n ty)) ∧
     (∀ ws st, new_GraphFromBlueprint O fuel blueprint props = Ok ws st →
               asset_memo_ok st)).
Proof.
  split; [|split].
  - intros a st n ty. unfold publishAsset.
    destruct (topLevelGraph_total "Assets" st) as (g & st1 & Htop).
    unfold bind at 1. rewrite Htop. unfold bind at 1. unfold gets at 1.
    unfold bind at 1.
    pose proof (λ r, topLevelGraph_data _ _ _ _ r Htop) as Hd.
    destruct (Hd 0) as [_ ->].
    destruct (assetNodes st !! assetId a) as [n0|] eqn:En.
    + unfold bind at 1. unfold gets at 1. destruct (Hd n0) as [-> _].
      destruct (data st n0) as [d|] eqn:Ed.
      * destruct d; simpl;
          try (split; [intros [= <- <-]; by rewrite Ed
                      |intros ([= <-] & -> & _); by rewrite Ed]).
        split; [|intros ([= <-] & -> & Hne); by rewrite Ed in Hne].
        intros H. exfalso.
        destruct (existsb _ _);
          apply publishAsset_tail_error in H as (? & ? & ?); done.
      * simpl. split; [intros [= <- <-]; by rewrite Ed
                      |intros ([= <-] & -> & _); by rewrite Ed].
    + split; [|by intros [? _]].
      intros H. apply publishAsset_tail_error in H as (? & ? & ?). done.
  - intros a st Hok. pose proof (safe_publishAsset a st Hok) as Hs. split.
    + intros n ty H. rewrite H in Hs. by apply Hs.
    + intros n st' H. by rewrite H in Hs.
  - intros fuel blueprint props. unfold new_GraphFromBlueprint.
    pose proof (construct_safe fuel blueprint props) as Hc. split.
    + intros n ty H. rewrite H in Hc. by destruct Hc.
    + intros ws st H. by rewrite H in Hc.
Qed.
(** ** Errors of the synth step *)

(** Adding a Step can only fail in [Graph.add]. *)
Lemma topLevelGraph_error name st e : topLevelGraph name st ≠ Throw e.
Proof. destruct (topLevelGraph_total name st) as (g & st' & ->). done. Qed.

Lemma bind_Throw {A B} (m : M A) (f : A → M B) st e :
  bind m f st = Throw e →
  m st = Throw e ∨ ∃ a st1, m st = Ok a st1 ∧ f a st1 = Throw e.
Proof. unfold bind. destruct (m st) as [a st1|e'|]; [eauto|intros [= ->]; eauto|done]. Qed.

Lemma forEach_Throw {A} (f : A → M unit) l : ∀ st e,
  forEach f l st = Throw e → ∃ x st1, x ∈ l ∧ f x st1 = Throw e.
Proof.
  induction l as [|x l IH]; intros st e H; simpl in H; [done|].
  apply bind_Throw in H as [H|(u & st1 & _ & H)].
  - exists x, st. split; [by left|done].
  - apply IH in H as (y & st2 & Hy & H). exists y, st2. split; [by right|done].
Qed.

Lemma addAndRecurse_error fuel : ∀ s parent st e,
  addAndRecurse O fuel s parent st = Throw e → ∃ p name, e = DuplicateChild p name.
Proof.
  induction fuel as [|fuel IH]; intros s parent st e H.
  - simpl in H. unfold bind, gets in H. by destruct (added st !! s).
  - rewrite addAndRecurse_S in H. destruct (added st !! s); [done|].
    unfold addNew in H.
    apply bind_Throw in H as [H|(n & st1 & _ & H)]; [done|].
    apply bind_Throw in H as [H|(p & st2 & _ & H)].
    { destruct (isCodePipelineSource _); [by apply topLevelGraph_error in H|done]. }
    apply bind_Throw in H as [H|(u & st3 & _ & H)].
    { unfold Graph_add in H. destruct (tryGetChild _ _ _); [|done].
      injection H as <-. eauto. }
    apply bind_Throw in H as [H|(u' & st4 & _ & H)]; [done|].
    apply bind_Throw in H as [H|(u'' & st5 & _ & H)]; [|done].
    apply forEach_Throw in H as (dep & x & _ & H).
    apply bind_Throw in H as [H|(pn & x1 & _ & H)]; [by eapply IH|done].
Qed.

Lemma addBuildStep_error fuel s st e :
  addBuildStep O fuel s st = Throw e → ∃ p name, e = DuplicateChild p name.
Proof.
  unfold addBuildStep. intros [H|(p & st1 & _ & H)]%bind_Throw.
  - by apply topLevelGraph_error in H.
  - by eapply addAndRecurse_error.
Qed.

Lemma addBuildStep_terminates U fuel s st :
  steps_closed O U → s ∈ U → length U ≤ fuel →
  addBuildStep O fuel s st ≠ Diverge.
Proof.
  intros HU Hs Hfuel. unfold addBuildStep.
  apply bind_terminates; [apply topLevelGraph_terminates|]. intros p st1 _.
  apply (addAndRecurse_fuel U); [done|done|]. pose proof (unvisited_le U st1). lia.
Qed.

Lemma deploySequentially_cloudAssembly ws st u st' :
  deploySequentially ws st = Ok u st' →
  cloudAssemblyFileSet st' = cloudAssemblyFileSet st.
Proof.
  unfold deploySequentially. intros H.
  eapply (forEach_inv (λ x, cloudAssemblyFileSet x = cloudAssemblyFileSet st));
    [|done|exact H].
  intros i x u1 x' _ Hx Hi. cbv beta in Hi. destruct (ws !! i); [|done].
  by mstep Hi.
Qed.

(** C7, as the code has it. The output check runs after the synth Step has
    been added. For a synth Step without output the constructor never returns
    a graph: it raises the missing-output error, which names the synth Step,
    whenever adding the synth Step succeeded, and otherwise the error of that
    addition, which is the container's duplicate-name error; with a recursion
    depth of the number of Steps it does fail rather than run out of depth.
    For a synth Step with an output the missing-output error is never raised
    and a constructed compiler has that output as its cloud-assembly file
    set. *)
Theorem construct_missing_output fuel blueprint props :
  let out := match primaryOutput (step O (synthStep blueprint)) with
             | Some f => fileSetPrimaryOutput (fileSet O f)
             | None => None
             end in
  let result := new_GraphFromBlueprint O fuel blueprint props in
  (out = None →
     (∀ ws st, result ≠ Ok ws st) ∧
     (∀ sn st1, addBuildStep O fuel (synthStep blueprint) initial = Ok sn st1 →
        result = Throw (MissingCloudAssembly (synthStep blueprint))) ∧
     (∀ e, addBuildStep O fuel (synthStep blueprint) initial = Throw e →
        result = Throw e ∧ ∃ p name, e = DuplicateChild p name) ∧
     (∀ U, steps_closed O U → synthStep blueprint ∈ U → length U ≤ fuel →
        result ≠ Diverge)) ∧
  (∀ ca, out = Some ca →
     (∀ s, result ≠ Throw (MissingCloudAssembly s)) ∧
     (∀ ws st, result = Ok ws st → cloudAssemblyFileSet st = Some ca)).
Proof.
  intros out result. split.
  - intros Hout.
    assert (∀ sn st1, addBuildStep O fuel (synthStep blueprint) initial = Ok sn st1 →
              result = Throw (MissingCloudAssembly (synthStep blueprint))) as Hok.
    { intros sn st1 H. unfold result, new_GraphFromBlueprint, construct.
      unfold bind at 1. rewrite H. unfold bind, modify, updateNode, modify.
      fold out. by rewrite Hout. }
    assert (∀ e, addBuildStep O fuel (synthStep blueprint) initial = Throw e →
              result = Throw e) as Herr.
    { intros e H. unfold result, new_GraphFromBlueprint, construct.
      unfold bind at 1. by rewrite H. }
    split; [|split; [done|split]].
    + intros ws st H. 
      destruct (addBuildStep O fuel (synthStep blueprint) initial) as [sn st1|e|] eqn:E.
      * rewrite (Hok _ _ eq_refl) in H. done.
      * rewrite (Herr _ eq_refl) in H. done.
      * unfold result, new_GraphFromBlueprint, construct in H.
        unfold bind at 1 in H. by rewrite E in H.
    + intros e H. split; [by apply Herr|]. by eapply addBuildStep_error.
    + intros U HU Hs Hfuel H.
      pose proof (addBuildStep_terminates U fuel _ initial HU Hs Hfuel) as Hnd.
      destruct (addBuildStep O fuel (synthStep blueprint) initial) as [sn st1|e|] eqn:E.
      * rewrite (Hok _ _ eq_refl) in H. done.
      * rewrite (Herr _ eq_refl) in H. done.
      * done.
  - intros ca Hout. split.
    + intros s H. pose proof (construct_safe fuel blueprint props) as Hc.
      unfold result, new_GraphFromBlueprint in H. rewrite H in Hc.
      destruct Hc as [_ Hc]; [done|]. unfold out in *. congruence.
    + intros ws st (st1 & st2 & lp & ca' & Hw1 & _ & Hca & Hca1 & Hws & Hseq)%construct_Ok.
      assert (ca' = ca) as -> by (unfold out in *; congruence).
      apply deploySequentially_cloudAssembly in Hseq. rewrite Hseq.
      apply mapM_addWave_Ok in Hws as (Hm & _); [|done].
      by rewrite (m_ca _ _ _ Hm).
Qed.
(** ** Provenance of dependency edges *)

Lemma provenance_refl P st : provenance P st st.
Proof. intros x y H. by left. Qed.

Lemma provenance_trans (P : gmap nat nat → nat → nat → Prop) st0 st1 st2 :
  (∀ a a' x y, (∀ k v, a !! k = Some v → a' !! k = Some v) → P a x y → P a' x y) →
  (∀ k v, added st1 !! k = Some v → added st2 !! k = Some v) →
  provenance P st0 st1 → provenance P st1 st2 → provenance P st0 st2.
Proof.
  intros HP Hsub H1 H2 x y Hy. destruct (H2 x y Hy) as [Hy1|?]; [|by right].
  destruct (H1 x y Hy1) as [?|?]; [by left|right]. by eapply HP.
Qed.

Lemma stepEdge_mono a a' x y :
  (∀ k v, a !! k = Some v → a' !! k = Some v) → stepEdge O a x y → stepEdge O a' x y.
Proof. intros Hsub (s & d & Hs & Hd & Hd'). exists s, d. eauto. Qed.

Lemma barrierEdge_mono base pre post a a' x y :
  (∀ k v, a !! k = Some v → a' !! k = Some v) →
  barrierEdge O base pre post a x y → barrierEdge O base pre post a' x y.
Proof.
  intros Hsub [H|[[Hx (p & Hp & Hy)]|[(p & Hp & Hx) Hy]]].
  - left. by eapply stepEdge_mono.
  - right; left. split; [done|]. exists p. eauto.
  - right; right. split; [|done]. exists p. eauto.
Qed.

Lemma deps_alloc st nd r :
  n_dependencies nd = [] → deps (alloc_st nd st) r = deps st r.
Proof.
  intros Hnd. unfold deps. rewrite node_alloc. case_decide as Hr; [|done].
  subst. rewrite Hnd. by rewrite node_dangling.
Qed.

Lemma topLevelGraph_deps name st g st' r :
  topLevelGraph name st = Ok g st' → deps st' r = deps st r.
Proof.
  intros [[_ ->]|(_ & -> & ->)]%topLevelGraph_Ok; [done|].
  by rewrite deps_add_child, deps_alloc.
Qed.

Lemma addAndRecurse_edges fuel : ∀ s parent st n st',
  addAndRecurse O fuel s parent st = Ok n st' →
  provenance (stepEdge O) st st'.
Proof.
  induction fuel as [|fuel IH]; intros s parent st n st' H.
  - simpl in H. mstep H. destruct (added st !! s); [|done]. mstep H.
    apply provenance_refl.
  - rewrite addAndRecurse_S in H. destruct (added st !! s) eqn:E.
    { injection H as <- <-. apply provenance_refl. }
    unfold addNew in H.
    apply bind_Ok in H as (n0 & st1 & Hn & H). mstep Hn.
    apply bind_Ok in H as (p & st2 & Hp & H).
    assert (∀ r, deps st2 r = deps st r) as Hd2.
    { intros r. destruct (isCodePipelineSource _).
      - rewrite (topLevelGraph_deps _ _ _ _ _ Hp). by apply deps_alloc.
      - mstep Hp. by apply deps_alloc. }
    clear Hp.
    apply bind_Ok in H as (u & st3 & Hadd & H). mstep Hadd. clear Hname.
    apply bind_Ok in H as (u' & st4 & Hset & H). mstep Hset.
    apply bind_Ok in H as (u'' & st5 & Hloop & H). mstep H.
    set (n0 := length (heap st)) in *.
    cut (provenance (stepEdge O) st st5 ∧ added st5 !! s = Some n0);
      [by intros []|].
    eapply (forEach_inv (λ x, provenance (stepEdge O) st x ∧
                              added x !! s = Some n0)); [| |exact Hloop].
    + intros dep x v x' Hdep [Hpx Hsx] Hb.
      apply bind_Ok in Hb as (pn & x1 & Hrec & Hb). mstep Hb.
      pose proof (addAndRecurse_mods _ _ _ _ _ _ Hrec) as [Hm Hpn].
      apply IH in Hrec.
      assert (provenance (stepEdge O) st x1) as Hp1.
      { eapply provenance_trans; [apply stepEdge_mono|apply (m_added _ _ _ Hm)|done|done]. }
      split; [|by apply (m_added _ _ _ Hm)].
      intros r y. rewrite deps_dependOn. case_decide as Hc; [|apply Hp1].
      destruct Hc as [-> _]. rewrite elem_of_app. intros [Hy|Hy]; [by apply Hp1|].
      simpl in Hy. apply list_elem_of_singleton in Hy as ->. right.
      exists s, dep. split; [by apply (m_added _ _ _ Hm)|done].
    + split; [|simpl; by rewrite lookup_insert_eq].
      intros r y Hy. left. rewrite <-Hd2.
      revert Hy. match goal with |- context [update_st ?q ?f st2] =>
        change (y ∈ deps (update_st q f st2) r → y ∈ deps st2 r) end.
      by rewrite deps_add_child.
Qed.

Lemma omap_id_Some {A} (l : list A) : omap id (Some <$> l) = l.
Proof. induction l as [|x l IH]; [done|]. rewrite fmap_cons. simpl. by f_equal. Qed.

Lemma addPrePost_edges fuel pre post parent st u st' :
  addPrePost O fuel pre post parent st = Ok u st' →
  provenance (barrierEdge O (nodes st parent) pre post) st st'.
Proof.
  unfold addPrePost. intros H.
  apply bind_Ok in H as (base & st0 & Hg & H). mstep Hg.
  apply bind_Ok in H as (u1 & st1 & Hpre & Hpost).
  set (base := nodes st parent) in *.
  set (P := barrierEdge O base pre post).
  assert (∀ x x1 n s0 p0, addAndRecurse O fuel s0 p0 x = Ok n x1 →
            provenance P st x → provenance P st x1 ∧ added x1 !! s0 = Some n) as Hrec.
  { intros x x1 n s0 p0 Hr Hx.
    pose proof (addAndRecurse_mods _ _ _ _ _ _ Hr) as [Hm Hn]. split; [|done].
    eapply provenance_trans;
      [apply barrierEdge_mono|apply (m_added _ _ _ Hm)|done|].
    intros r y Hy. destruct (addAndRecurse_edges _ _ _ _ _ _ Hr r y Hy);
      [by left|right; by left]. }
  eapply (forEach_inv (provenance P st)); [| |exact Hpost].
  - intros p x v x' Hp Hx Hb.
    apply bind_Ok in Hb as (pn & x1 & Hr & Hb). mstep Hb.
    destruct (Hrec _ _ _ _ _ Hr Hx) as [Hx1 Hpn].
    intros r y. rewrite deps_dependOn. case_decide as Hc; [|apply Hx1].
    destruct Hc as [-> _]. rewrite elem_of_app, omap_id_Some.
    intros [Hy|Hy]; [by apply Hx1|]. right. right; right.
    split; [|done]. by exists p.
  - eapply (forEach_inv (provenance P st)); [|apply provenance_refl|exact Hpre].
    intros p x v x' Hp Hx Hb.
    apply bind_Ok in Hb as (pn & x1 & Hr & Hb).
    destruct (Hrec _ _ _ _ _ Hr Hx) as [Hx1 Hpn].
    unfold collection_dependOn in Hb.
    cut (provenance P st x' ∧ added x' = added x1); [by intros []|].
    eapply (forEach_inv (λ z, provenance P st z ∧ added z = added x1));
      [|done|exact Hb].
    intros b z w z' Hb' [Hz Hza] Hz'. mstep Hz'. split; [|done].
    intros r y. rewrite deps_dependOn. case_decide as Hc; [|apply Hz].
    destruct Hc as [-> _]. rewrite elem_of_app. intros [Hy|Hy]; [by apply Hz|].
    simpl in Hy. apply list_elem_of_singleton in Hy as ->. right. right; left.
    split; [done|]. exists p. split; [done|]. simpl. by rewrite Hza.
Qed.
(** ** The pre/post barrier *)

Lemma forEach_each {A} (I : GraphFromBlueprint → Prop)
    (Q : A → GraphFromBlueprint → Prop) (f : A → M unit) l :
  (∀ x st u st', x ∈ l → I st → f x st = Ok u st' → I st' ∧ Q x st') →
  (∀ x y st u st', y ∈ l → I st → Q x st → f y st = Ok u st' → Q x st') →
  ∀ st u st', I st → forEach f l st = Ok u st' → I st' ∧ ∀ x, x ∈ l → Q x st'.
Proof.
  induction l as [|y l IH]; intros Hf Hst st u st' HI H; simpl in H.
  - mstep H. split; [done|]. by intros x ?%elem_of_nil.
  - apply bind_Ok in H as (v & st1 & Hy & H).
    destruct (Hf y st v st1) as [HI1 HQ1]; [by left|done|done|].
    assert (I st' ∧ Q y st') as [HI' HQy].
    { eapply (forEach_inv (λ s, I s ∧ Q y s)); [|split; [exact HI1|exact HQ1]|exact H].
      intros z s w s' Hz [HIs HQs] Hfz. split.
      - eapply (Hf z); [by right|done|done].
      - eapply (Hst y z); [by right|done|done|done]. }
    split; [done|]. intros x [->|Hx]%elem_of_cons; [done|].
    eapply IH; [| |exact HI1|exact H|done].
    + intros x' ? ? ? Hx'. apply Hf. by right.
    + intros x' y' ? ? ? Hy'. apply Hst. by right.
Qed.

(** Later states keep the memo entries and the edges of earlier ones. *)
Lemma later_deps st st' b n :
  grows st st' → b < length (heap st) → n ∈ deps st b → n ∈ deps st' b.
Proof.
  intros Hg Hb Hn. pose proof (grows_node _ _ _ Hg Hb) as Hle.
  eapply prefix_elem_of; [apply (le_deps _ _ Hle)|done].
Qed.

(** C5. The pre/post barrier around the baseline (the direct children of the
    parent when the procedure starts). After it has run: every baseline node
    depends on the node of every pre Step; the node of every post Step depends
    on every baseline node; and a post Step's node outside the baseline gains
    no other edges than those to baseline nodes and those declared by Steps
    ([stepEdge]), so between the nodes of two hook Steps outside the baseline
    (post to post, post to pre) it gains only declared Step dependencies. *)
Theorem addPrePost_barrier fuel pre post parent st u st' :
  wf st →
  addPrePost O fuel pre post parent st = Ok u st' →
  let baseline := nodes st parent in
  (∀ p, p ∈ pre →
     ∃ n, added st' !! p = Some n ∧ ∀ b, b ∈ baseline → n ∈ deps st' b) ∧
  (∀ p, p ∈ post →
     ∃ n, added st' !! p = Some n ∧ ∀ b, b ∈ baseline → b ∈ deps st' n) ∧
  (∀ p n, p ∈ post → added st' !! p = Some n → n ∉ baseline →
     ∀ m, m ∈ deps st' n →
       m ∈ deps st n ∨ m ∈ baseline ∨ stepEdge O (added st') n m) ∧
  (∀ p q n m, p ∈ post → q ∈ (pre ++ post)%list →
     added st' !! p = Some n → added st' !! q = Some m →
     n ∉ baseline → m ∉ baseline →
     m ∈ deps st' n → m ∈ deps st n ∨ stepEdge O (added st') n m).
Proof.
  intros Hw H baseline.
  pose proof (addPrePost_edges _ _ _ _ _ _ _ H) as Hprov. fold baseline in Hprov.
  assert (Hc : ∀ p n, p ∈ post → added st' !! p = Some n → n ∉ baseline →
     ∀ m, m ∈ deps st' n →
       m ∈ deps st n ∨ m ∈ baseline ∨ stepEdge O (added st') n m).
  { intros p n Hp Hn Hnb m Hm.
    destruct (Hprov n m Hm) as [?|[?|[[? _]|[_ ?]]]]; [by left|by right; right|done|].
    right; by left. }
  assert (Hbase : ∀ b, b ∈ baseline → b < length (heap st)).
  { intros b (c & Hc' & <-)%elem_of_nodes. by apply (wf_children _ Hw) in Hc'. }
  unfold addPrePost in H.
  apply bind_Ok in H as (base & st0 & Hg & H). mstep Hg. fold baseline in H.
  apply bind_Ok in H as (u1 & st1 & Hpre & Hpost).
  set (I := λ x : GraphFromBlueprint, mods baseline st x).
  (* the loop over the pre Steps *)
  assert (I st1 ∧ ∀ p, p ∈ pre →
            ∃ n, added st1 !! p = Some n ∧ ∀ b, b ∈ baseline → n ∈ deps st1 b)
    as [HI1 Ha1].
  { eapply (forEach_each I (λ p x, ∃ n, added x !! p = Some n ∧
              ∀ b, b ∈ baseline → n ∈ deps x b)); [| |apply mods_refl|exact Hpre].
    - intros p x v x' Hp HIx Hb.
      apply bind_Ok in Hb as (pn & x1 & Hr & Hb).
      apply addAndRecurse_mods in Hr as [Hm Hpn].
      assert (mods baseline st x1) as Hm1 by by eapply mods_trans.
      unfold collection_dependOn in Hb.
      assert (mods baseline st x' ∧ added x' = added x1 ∧
              ∀ b, b ∈ baseline → pn ∈ deps x' b) as (Hm' & Ha' & Hd').
      { cut ((mods baseline st x' ∧ added x' = added x1) ∧
               ∀ b, b ∈ baseline → pn ∈ deps x' b); [naive_solver|].
        eapply (forEach_each (λ z, mods baseline st z ∧ added z = added x1)
                  (λ b z, pn ∈ deps z b)); [| |split; [exact Hm1|done]|exact Hb].
        - intros b z w z' Hb' [Hz Hza] Hz'. mstep Hz'. split.
          + split; [|done]. apply mods_add_deps; [done|]. by right; right.
          + rewrite deps_dependOn, decide_True.
            * apply elem_of_app. right. simpl. by left.
            * split; [done|]. pose proof (mods_length _ _ _ Hz).
              specialize (Hbase b Hb'). lia.
        - intros b b' z w z' Hb' [Hz Hza] Hq Hz'. mstep Hz'.
          rewrite deps_dependOn. case_decide as Hc'; [|done].
          destruct Hc' as [-> _]. apply elem_of_app. by left. }
      split; [done|]. exists pn. split; [by rewrite Ha'|done].
    - intros p q x v x' Hq HIx (n & Hn & Hd) Hb.
      apply bind_Ok in Hb as (pn & x1 & Hr & Hb).
      apply addAndRecurse_mods in Hr as [Hm Hpn].
      assert (mods baseline st x1) as Hm1 by by eapply mods_trans.
      unfold collection_dependOn in Hb.
      assert (grows x1 x' ∧ added x' = added x1) as [Hg' Ha'].
      { eapply (forEach_inv (λ z, grows x1 z ∧ added z = added x1));
          [|split; [apply grows_refl|done]|exact Hb].
        intros b z w z' _ [Hz Hza] Hz'. mstep Hz'. split; [|done].
        apply grows_update; [done|apply node_le_add_dependencies]. }
      exists n. split; [rewrite Ha'; by apply (m_added _ _ _ Hm)|].
      intros b Hb'. specialize (Hbase b Hb').
      pose proof (mods_length _ _ _ HIx). pose proof (mods_length _ _ _ Hm).
      eapply later_deps; [exact Hg'|lia|].
      eapply (later_deps x x1); [exact (mods_grows _ _ _ Hm)|lia|by apply Hd]. }
  (* the loop over the post Steps *)
  assert (I st' ∧ ∀ p, p ∈ post →
            ∃ n, added st' !! p = Some n ∧ ∀ b, b ∈ baseline → b ∈ deps st' n)
    as [HI' Hb'].
  { eapply (forEach_each I (λ p x, ∃ n, added x !! p = Some n ∧
              ∀ b, b ∈ baseline → b ∈ deps x n)); [| |exact HI1|exact Hpost].
    - intros p x v x' Hp HIx Hb.
      apply bind_Ok in Hb as (pn & x1 & Hr & Hb). mstep Hb.
      pose proof (wf_mods _ _ _ Hw HIx) as Hwx.
      pose proof (addAndRecurse_wf _ _ _ _ _ _ Hwx Hr) as [_ Hpnb].
      apply addAndRecurse_mods in Hr as [Hm Hpn].
      assert (mods baseline st x1) as Hm1 by by eapply mods_trans.
      split; [apply mods_add_deps; [done|by eapply touched_added]|].
      exists pn. split; [done|]. intros b Hb0.
      rewrite deps_dependOn, decide_True by done. rewrite omap_id_Some.
      apply elem_of_app. by right.
    - intros p q x v x' Hq HIx (n & Hn & Hd) Hb.
      apply bind_Ok in Hb as (pn & x1 & Hr & Hb). mstep Hb.
      pose proof (wf_mods _ _ _ Hw HIx) as Hwx.
      apply addAndRecurse_mods in Hr as [Hm Hpn].
      exists n. split; [by apply (m_added _ _ _ Hm)|]. intros b Hb0.
      pose proof (wf_added _ Hwx _ _ Hn) as Hnb.
      pose proof (mods_length _ _ _ Hm).
      eapply later_deps with (st := x1);
        [apply grows_update; [apply grows_refl|apply node_le_add_dependencies]|lia|].
      eapply (later_deps x x1); [exact (mods_grows _ _ _ Hm)|done|by apply Hd]. }
  split; [|split; [done|split; [done|]]].
  - intros p Hp. destruct (Ha1 p Hp) as (n & Hn & Hd).
    assert (grows st1 st' ∧ ∀ k v, added st1 !! k = Some v → added st' !! k = Some v)
      as [Hg' Hsub'].
    { eapply (forEach_inv (λ z, grows st1 z ∧
                ∀ k v, added st1 !! k = Some v → added z !! k = Some v));
        [|split; [apply grows_refl|done]|exact Hpost].
      intros q z w z' _ [Hz Hza] Hz'.
      apply bind_Ok in Hz' as (pn & z1 & Hr & Hz'). mstep Hz'.
      apply addAndRecurse_mods in Hr as [Hm _]. split.
      - apply grows_update; [|apply node_le_add_dependencies].
        eapply grows_trans; [done|by eapply mods_grows].
      - intros k v Hk. by apply (m_added _ _ _ Hm), Hza. }
    exists n. split; [by apply Hsub'|]. intros b Hb0.
    pose proof (mods_length _ _ _ HI1). specialize (Hbase b Hb0).
    eapply later_deps; [done|lia|by apply Hd].
  - intros p q n m Hp Hq Hn Hm Hnb Hmb Hin.
    destruct (Hc p n Hp Hn Hnb m Hin) as [?|[?|?]]; [by left|done|by right].
Qed.
(** ** Cross-stack ordering *)

Lemma grows_data st st' r d :
  grows st st' → r < length (heap st) → data st r = Some d →
  (∀ l, d ≠ APublishAssets l) → (∀ s b, d ≠ AStep s b) →
  data st' r = Some d.
Proof.
  intros Hg Hr Hd Hp Hs. pose proof (le_data _ _ (grows_node _ _ _ Hg Hr)) as Hle.
  unfold data in *. rewrite Hd in Hle.
  destruct d; simpl in Hle; try done; [by edestruct Hp|by edestruct Hs].
Qed.

Lemma grows_children st st' r c :
  grows st st' → r < length (heap st) → c ∈ children st r → c ∈ children st' r.
Proof.
  intros Hg Hr Hc. pose proof (grows_node _ _ _ Hg Hr) as Hle.
  eapply prefix_elem_of; [apply (le_children _ _ Hle)|done].
Qed.

Lemma stackGroup_grows st st' s sg p d :
  grows st st' → stackGroup st s sg p d → stackGroup st' s sg p d.
Proof.
  intros Hg (H1 & H2 & H3 & H4 & H5 & H6 & H7 & H8 & H9).
  pose proof (grows_length _ _ Hg).
  repeat split; try lia.
  - by eapply grows_data.
  - by eapply grows_children.
  - by eapply grows_children.
  - by eapply grows_data.
  - by eapply grows_data.
  - by eapply later_deps.
Qed.

Lemma newStackGraph_stackGroup s st sg p d st' :
  newStackGraph O s st = Ok (sg, p, d) st' → stackGroup st' s sg p d.
Proof.
  intros H. destruct (newStackGraph_Ok _ _ _ _ H) as (Hg & _ & Hl & Hsg & Hp & Hd).
  injection Hg as -> -> ->. unfold stackGroup, data, children, deps.
  rewrite Hsg, Hp, Hd, Hl. simpl.
  repeat split; try lia; try done.
  - by left.
  - right; by left.
  - by left.
Qed.

(** The first pass: every stack of the stage gets a stack group. *)
Lemma addStack_pass fuel g l : ∀ sgs0 st sgs st',
  foldM (addStack O fuel g) sgs0 l st = Ok sgs st' →
  (∀ s sg, sgs0 !! s = Some sg → ∃ p d, stackGroup st s sg p d) →
  grows st st' ∧
  (∀ s sg, sgs !! s = Some sg → ∃ p d, stackGroup st' s sg p d) ∧
  (∀ s, s ∈ l ∨ is_Some (sgs0 !! s) → is_Some (sgs !! s)).
Proof.
  induction l as [|s l IH]; intros sgs0 st sgs st' H H0; simpl in H.
  - mstep H. split; [apply grows_refl|]. split; [done|]. intros s [?%elem_of_nil|?]; done.
  - apply bind_Ok in H as (sgs1 & st1 & Hs & H).
    apply addStack_Ok in Hs as (x & Hnew & Hm & Hgx & ->).
    apply newStackGraph_stackGroup in Hnew.
    pose proof (mods_grows _ _ _ Hm) as Hg1.
    apply IH in H as (Hg2 & Hall & Hdom).
    + split; [by eapply grows_trans|]. split; [done|].
      intros s' [[->|?]%elem_of_cons|[sg' Hs']]; apply Hdom.
      * right. rewrite lookup_insert_eq. by eexists.
      * by left.
      * right. rewrite lookup_insert. case_decide; by eexists.
    + intros s' sg'. rewrite lookup_insert. case_decide.
      * intros [= <-]. subst. eexists _, _.
        eapply stackGroup_grows; [exact Hgx|exact Hnew].
      * intros (p & d & Hsg)%H0. exists p, d.
        eapply stackGroup_grows; [exact Hg1|exact Hsg].
Qed.

(** The second pass: every declared stack dependency becomes an edge between
    the two stack groups. *)
Lemma addStackDependencies_edges sgs ss st u st' :
  (∀ s sg, sgs !! s = Some sg → sg < length (heap st)) →
  addStackDependencies O sgs ss st = Ok u st' →
  grows st st' ∧
  ∀ s dep g gd, s ∈ ss → dep ∈ dependsOnStacks (stack O s) →
    sgs !! s = Some g → sgs !! dep = Some gd → gd ∈ deps st' g.
Proof.
  intros Hb H. unfold addStackDependencies in H.
  pose proof (forEach_each (grows st)
    (λ s x, ∀ dep g gd, dep ∈ dependsOnStacks (stack O s) →
       sgs !! s = Some g → sgs !! dep = Some gd → gd ∈ deps x g)) as Hlem.
  assert (∀ dep s x v x', grows st x →
    (match sgs !! s with
     | Some g => dependOn g [sgs !! dep]
     | None => ret ()
     end) x = Ok v x' →
    grows x x' ∧ ∀ g gd, sgs !! s = Some g → sgs !! dep = Some gd → gd ∈ deps x' g)
    as Hbody.
  { intros dep s x v x' Hgx Hx. destruct (sgs !! s) as [g|] eqn:Eg; mstep Hx;
      [|split; [apply grows_refl|done]].
    split; [apply grows_update; [apply grows_refl|apply node_le_add_dependencies]|].
    intros g' gd [= <-] Egd. rewrite deps_dependOn, decide_True.
    - rewrite Egd. apply elem_of_app. right. simpl. by left.
    - split; [done|]. pose proof (grows_length _ _ Hgx). specialize (Hb _ _ Eg). lia. }
  assert (∀ s x v x', grows st x →
    forEach (λ dep, match sgs !! s with
                    | Some g => dependOn g [sgs !! dep]
                    | None => ret ()
                    end) (dependsOnStacks (stack O s)) x = Ok v x' →
    grows x x' ∧ ∀ dep g gd, dep ∈ dependsOnStacks (stack O s) →
       sgs !! s = Some g → sgs !! dep = Some gd → gd ∈ deps x' g) as Hinner.
  { intros s x v x' Hgx Hx.
    assert ((grows st x' ∧ grows x x') ∧ ∀ dep, dep ∈ dependsOnStacks (stack O s) →
              ∀ g gd, sgs !! s = Some g → sgs !! dep = Some gd → gd ∈ deps x' g)
      as [[_ Hg'] HQ].
    { eapply (forEach_each (λ z, grows st z ∧ grows x z)
        (λ dep z, ∀ g gd, sgs !! s = Some g → sgs !! dep = Some gd → gd ∈ deps z g));
        [| |split; [done|apply grows_refl]|exact Hx].
      - intros dep z w z' _ [Hz1 Hz2] Hz. destruct (Hbody _ _ _ _ _ Hz1 Hz) as [Hg' Hq].
        split; [|done]. split; by eapply grows_trans.
      - intros dep dep' z w z' _ [Hz1 Hz2] Hq Hz g gd Eg Egd.
        destruct (Hbody _ _ _ _ _ Hz1 Hz) as [Hg' _].
        eapply later_deps; [exact Hg'| |by eapply Hq].
        pose proof (grows_length _ _ Hz1). specialize (Hb _ _ Eg). lia. }
    split; [done|]. intros dep g gd Hdep. by apply HQ. }
  eapply Hlem in H as [Hg' HQ]; [| | |apply grows_refl].
  - split; [done|]. intros s dep g gd Hs. by apply HQ.
  - intros s x v x' _ Hgx Hx. destruct (Hinner _ _ _ _ Hgx Hx) as [Hg' Hq].
    split; [by eapply grows_trans|done].
  - intros s s' x v x' _ Hgx Hq Hx dep g gd Hdep Eg Egd.
    destruct (Hinner _ _ _ _ Hgx Hx) as [Hg' _].
    eapply later_deps; [exact Hg'| |by eapply Hq].
    pose proof (grows_length _ _ Hgx). specialize (Hb _ _ Eg). lia.
Qed.

(** The edges between the stack groups of a stage. If stack [s2] of the stage
    declares a dependency on stack [s1] of the stage, whatever their order in
    the stage, then after stage compilation there are stack groups [sg1] for
    [s1] and [sg2] for [s2], each with its "Prepare" and "Deploy" node, and
    [sg2] depends on [sg1]. The edge is added once all groups exist.
    [addStage] adds the stack groups to no group, so this is a fact about the
    objects in the store, not about the stage graph it returns. *)
Lemma addStage_stack_order fuel stage st g st' s1 s2 :
  addStage O fuel stage st = Ok g st' →
  s1 ∈ stacks stage → s2 ∈ stacks stage →
  s1 ∈ dependsOnStacks (stack O s2) →
  ∃ sg1 p1 d1 sg2 p2 d2,
    stackGroup st' s1 sg1 p1 d1 ∧ stackGroup st' s2 sg2 p2 d2 ∧
    sg1 ∈ deps st' sg2.
Proof.
  unfold addStage. intros H Hs1 Hs2 Hdep.
  apply bind_Ok in H as (g0 & st1 & Hg & H). mstep Hg.
  apply bind_Ok in H as (sgs & st2 & Hfold & H).
  apply bind_Ok in H as (u & st3 & Hdeps & H).
  apply bind_Ok in H as (u' & st4 & Hpp & H). mstep H.
  apply addStack_pass in Hfold as (_ & Hall & Hdom);
    [|intros s sg; by rewrite lookup_empty].
  destruct (Hdom s1) as [sg1 E1]; [by left|].
  destruct (Hdom s2) as [sg2 E2]; [by left|].
  destruct (Hall _ _ E1) as (p1 & d1 & Hg1).
  destruct (Hall _ _ E2) as (p2 & d2 & Hg2).
  apply addStackDependencies_edges in Hdeps as [Hg3 Hedge].
  2:{ intros s sg (p & d & Hsg)%Hall. apply Hsg. }
  apply addPrePost_mods, mods_grows in Hpp.
  exists sg1, p1, d1, sg2, p2, d2.
  split; [|split].
  - eapply stackGroup_grows; [|exact Hg1]. by eapply grows_trans.
  - eapply stackGroup_grows; [|exact Hg2]. by eapply grows_trans.
  - eapply later_deps; [exact Hpp| |by eapply Hedge].
    pose proof (grows_length _ _ Hg3). destruct Hg2 as (_&_&_&_&_&_&?&_). lia.
Qed.
End CompilerFacts.

(** * The claims on concrete blueprints *)

Lemma steps_closed_demo_cycle : steps_closed demo [2; 3].
Proof.
  intros s Hs d Hd. repeat (apply elem_of_cons in Hs as [->|Hs]);
    [| |by apply elem_of_nil in Hs]; simpl in Hd;
    apply list_elem_of_singleton in Hd as ->; set_solver.
Qed.

Lemma wf_demo_state : wf demo_state.
Proof. apply wf_set_cloudAssemblyFileSet, wf_initial. Qed.

(** C2 on the diamond 10 -> {11, 12} -> 13: Step 13 is reached twice and has
    one node; asking again, under another parent, returns it. *)
Lemma addAndRecurse_idempotent_witness :
  ∃ n st',
    addAndRecurse demo 4 10 0 initial = Ok n st' ∧
    length (heap st') = 5 ∧
    added st' !! 10 = Some n ∧
    (∀ fuel2 parent2, addAndRecurse demo fuel2 10 parent2 st' = Ok n st') ∧
    addAndRecurse demo 0 13 7 st' = Ok 3 st'.
Proof.
  destruct (addAndRecurse demo 4 10 0 initial) as [n st'| |] eqn:E.
  - exists n, st'. split; [reflexivity|].
    destruct (addAndRecurse_idempotent demo 4 10 0 initial n st' E)
      as (Hs & _ & Hrep & _).
    vm_compute in E. injection E as <- <-.
    split; [reflexivity|]. split; [exact Hs|]. split; [exact Hrep|].
    vm_compute. reflexivity.
  - vm_compute in E. discriminate E.
  - vm_compute in E. discriminate E.
Defined.

(** C3 on the source Step 1, asked for under the root group. *)
Lemma addAndRecurse_source_placement_witness :
  ∃ n st' src,
    added initial !! 1 = None ∧
    isCodePipelineSource (step demo 1) = true ∧
    addAndRecurse demo 1 1 0 initial = Ok n st' ∧
    tryGetChild st' (graph st') "Source" = Some src ∧
    (step_id (step demo 1), n) ∈ children st' src ∧
    (0 ≠ src → n ∉ nodes st' 0).
Proof.
  destruct (addAndRecurse demo 1 1 0 initial) as [n st'| |] eqn:E.
  - destruct (addAndRecurse_source_placement demo 1 1 0 initial n st'
               wf_initial eq_refl eq_refl E) as (src & H1 & H2 & H3).
    exists n, st', src.
    split; [reflexivity|]. split; [reflexivity|]. split; [reflexivity|].
    split; [exact H1|]. split; [exact H2|exact H3].
  - vm_compute in E. discriminate E.
  - vm_compute in E. discriminate E.
Defined.

(** The edges between the wave graphs of [demo_blueprint]. *)
Lemma waves_deploy_sequentially_witness :
  ∃ ws st,
    new_GraphFromBlueprint demo 3 demo_blueprint {| selfMutation := false |}
      = Ok ws st ∧
    length ws = 3 ∧
    ∀ i j wi wj, ws !! i = Some wi → ws !! j = Some wj →
      (wj ∈ deps st wi ↔ i = S j).
Proof.
  destruct (new_GraphFromBlueprint demo 3 demo_blueprint {| selfMutation := false |})
    as [ws st| |] eqn:E.
  - exists ws, st. split; [reflexivity|].
    exact (waves_deploy_sequentially demo 3 demo_blueprint _ ws st E).
  - vm_compute in E. discriminate E.
  - vm_compute in E. discriminate E.
Defined.

(** C5 on a stage group whose baseline is the node of the custom synth Step,
    with pre Steps 4 and 5 ("A", "B") and post Steps 6 and 7 ("C", "D"). *)
Lemma addPrePost_barrier_witness :
  ∃ g st u st',
    addStage demo 3 (demo_stage "Stage" [2]) demo_state = Ok g st ∧
    nodes st g = [5] ∧
    addPrePost demo 3 [4; 5] [6; 7] g st = Ok u st' ∧
    (∀ p, p ∈ [4; 5] →
       ∃ n, added st' !! p = Some n ∧ ∀ b, b ∈ nodes st g → n ∈ deps st' b) ∧
    (∀ p, p ∈ [6; 7] →
       ∃ n, added st' !! p = Some n ∧ ∀ b, b ∈ nodes st g → b ∈ deps st' n) ∧
    (∀ p q n m, p ∈ [6; 7] → q ∈ [4; 5; 6; 7] →
       added st' !! p = Some n → added st' !! q = Some m →
       n ∉ nodes st g → m ∉ nodes st g →
       m ∈ deps st' n → m ∈ deps st n ∨ stepEdge demo (added st') n m).
Proof.
  destruct (addStage demo 3 (demo_stage "Stage" [2]) demo_state)
    as [g st| |] eqn:E; [|vm_compute in E; discriminate E..].
  destruct (addPrePost demo 3 [4; 5] [6; 7] g st) as [u st'| |] eqn:E';
    [|vm_compute in E; injection E as <- <-; vm_compute in E'; discriminate E'..].
  assert (wf st) as Hw.
  { destruct (addStage_Ok demo _ _ _ _ _ wf_demo_state E) as (_ & _ & Hm & _).
    exact (wf_mods _ _ _ wf_demo_state Hm). }
  destruct (addPrePost_barrier demo 3 [4; 5] [6; 7] g st u st' Hw E')
    as (Ha & Hb & _ & Hc).
  exists g, st, u, st'. split; [reflexivity|].
  split; [vm_compute in E; injection E as <- <-; reflexivity|].
  split; [exact E'|]. split; [exact Ha|]. split; [exact Hb|exact Hc].
Defined.

(** The edge between the stack groups of stacks 0 ("Api") and 1
    ("Database"): 0 depends on 1 and comes first in the stage. *)
Lemma addStage_stack_order_witness :
  ∃ g st' sg1 p1 d1 sg2 p2 d2,
    addStage demo 3 (demo_stage "Prod" [0; 1]) demo_state = Ok g st' ∧
    1 ∈ dependsOnStacks (stack demo 0) ∧
    stackGroup st' 1 sg1 p1 d1 ∧ stackGroup st' 0 sg2 p2 d2 ∧
    sg1 ∈ deps st' sg2.
Proof.
  destruct (addStage demo 3 (demo_stage "Prod" [0; 1]) demo_state)
    as [g st'| |] eqn:E; [|vm_compute in E; discriminate E..].
  assert (1 ∈ stacks (demo_stage "Prod" [0; 1])) as H1
    by (simpl; apply list_elem_of_further, list_elem_of_here).
  assert (0 ∈ stacks (demo_stage "Prod" [0; 1])) as H0
    by (simpl; apply list_elem_of_here).
  assert (1 ∈ dependsOnStacks (stack demo 0)) as Hd
    by (simpl; apply list_elem_of_here).
  destruct (addStage_stack_order demo 3 _ demo_state g st' 1 0 E H1 H0 Hd)
    as (sg1 & p1 & d1 & sg2 & p2 & d2 & Hg1 & Hg2 & Hedge).
  exists g, st', sg1, p1, d1, sg2, p2, d2.
  split; [reflexivity|]. split; [exact Hd|]. split; [exact Hg1|].
  split; [exact Hg2|exact Hedge].
Defined.

(** C7 on [demo_blueprint], whose synth Step has an output. *)
Lemma construct_missing_output_witness :
  ∃ ws st,
    new_GraphFromBlueprint demo 3 demo_blueprint {| selfMutation := true |}
      = Ok ws st ∧
    cloudAssemblyFileSet st = Some 0.
Proof.
  destruct (new_GraphFromBlueprint demo 3 demo_blueprint {| selfMutation := true |})
    as [ws st| |] eqn:E.
  - exists ws, st. split; [reflexivity|].
    exact (proj2 (proj2 (construct_missing_output demo 3 demo_blueprint
                           {| selfMutation := true |}) 0 eq_refl) ws st E).
  - vm_compute in E. discriminate E.
  - vm_compute in E. discriminate E.
Defined.

(** The claim C7 as stated fails: a synth Step without output whose
    dependency Step has the same id makes the constructor fail in [Graph.add],
    before the output is looked at. *)
Lemma missing_output_counterexample :
  primaryOutput (step twins (synthStep twins_blueprint)) = None ∧
  new_GraphFromBlueprint twins 2 twins_blueprint {| selfMutation := false |}
    = Throw (DuplicateChild 1 "Synth") ∧
  new_GraphFromBlueprint twins 2 twins_blueprint {| selfMutation := false |}
    ≠ Throw (MissingCloudAssembly (synthStep twins_blueprint)).
Proof. split; [reflexivity|]. split; [vm_compute; reflexivity|]. vm_compute. discriminate. Qed.

(** C8 on the cycle 2 <-> 3. *)
Lemma addAndRecurse_terminates_witness :
  steps_closed demo [2; 3] ∧
  addAndRecurse demo 2 2 0 initial ≠ Diverge ∧
  (∀ fuel', 2 ≤ fuel' →
     addAndRecurse demo fuel' 2 0 initial = addAndRecurse demo 2 2 0 initial).
Proof.
  split; [exact steps_closed_demo_cycle|].
  apply (addAndRecurse_terminates demo [2; 3] 2 2 0 initial steps_closed_demo_cycle).
  - set_solver.
  - simpl. lia.
Defined.

(** C9 in the initial state. *)
Lemma publishAsset_wrong_data_type_witness :
  asset_memo_ok initial ∧
  ∀ n ty, publishAsset asset1 initial ≠ Throw (WrongDataType n ty).
Proof.
  split; [exact asset_memo_ok_initial|].
  exact (proj1 (proj1 (proj2 (publishAsset_wrong_data_type demo))
                  asset1 initial asset_memo_ok_initial)).
Defined.

(** C1 fails on the code. Two stacks of one stage require the same asset id
    with different selectors: the compiled graph has two publish nodes, the
    file-asset counter is 2, and the memo holds the second node, whose asset
    list has only the second selector. *)
Lemma publishAsset_same_id_twice :
  ∃ ws st assets n1 n2,
    new_GraphFromBlueprint demo 3 demo_blueprint {| selfMutation := false |}
      = Ok ws st ∧
    requiredAssets (stack demo 0) = [asset1] ∧
    requiredAssets (stack demo 1) = [asset2] ∧
    assetId asset1 = assetId asset2 ∧
    tryGetChild st (graph st) "Assets" = Some assets ∧
    children st assets = [("FileAsset1", n1); ("FileAsset2", n2)] ∧
    n1 ≠ n2 ∧
    _fileAssetCtr st = 2 ∧
    assetNodes st !! assetId asset2 = Some n2 ∧
    data st n2 = Some (APublishAssets [asset2]).
Proof.
  eexists _, _, _, _, _. split; [vm_compute; reflexivity|].
  vm_compute. repeat split; try reflexivity. discriminate.
Qed.

(** * The Pipeline construct builds at most once *)

Section PipelineFacts.
Import Pipeline.
Context {Blueprint Engine Stage AddStageOptions AddWaveOptions
         StageDeployment Wave : Type}.
Context (blueprint_addStage :
           Stage → option AddStageOptions → Blueprint → Blueprint * StageDeployment).
Context (blueprint_addWave :
           string → option AddWaveOptions → Blueprint → Blueprint * Wave).
Context (buildDeployment : Blueprint → Engine → Engine * option string).

Abbreviation addStage := (Pipeline.addStage blueprint_addStage (Engine := Engine)).
Abbreviation addWave := (Pipeline.addWave blueprint_addWave (Engine := Engine)).
Abbreviation build := (Pipeline.build buildDeployment).
Abbreviation prepare := (Pipeline.prepare buildDeployment).
Abbreviation call := (Pipeline.call blueprint_addStage blueprint_addWave buildDeployment).
Abbreviation run := (Pipeline.run blueprint_addStage blueprint_addWave buildDeployment).

Lemma built_once_call c p : built_once p → built_once (call c p).
Proof.
  unfold built_once. intros [Hc Hi]. destruct c; simpl.
  - unfold Pipeline.addStage. destruct (built p) eqn:E; [simpl; by rewrite E|].
    destruct (blueprint_addStage _ _ _). simpl. rewrite ?E. split; lia.
  - unfold Pipeline.addWave. destruct (built p) eqn:E; [simpl; by rewrite E|].
    destruct (blueprint_addWave _ _ _). simpl. rewrite ?E. split; lia.
  - unfold Pipeline.build. destruct (built p) eqn:E; [simpl; by rewrite E|].
    destruct (buildDeployment _ _) as [e [msg|]]; simpl; rewrite ?E; lia.
  - unfold Pipeline.prepare, Pipeline.build.
    destruct (built p) eqn:E; [simpl; by rewrite E|]. simpl.
    destruct (buildDeployment _ _) as [e [msg|]]; simpl; rewrite ?E; lia.
Qed.

Lemma built_once_run cs : ∀ p, built_once p → built_once (run cs p).
Proof.
  induction cs as [|c cs IH]; intros p Hp; [done|].
  simpl. apply IH. by apply built_once_call.
Qed.

Lemma invocations_call c p :
  (∀ b e, (buildDeployment b e).2 = None) →
  invocations p = completions p →
  invocations (call c p) = completions (call c p).
Proof.
  intros Hnothrow Hp. destruct c; simpl.
  - unfold Pipeline.addStage. destruct (built p); [done|].
    by destruct (blueprint_addStage _ _ _).
  - unfold Pipeline.addWave. destruct (built p); [done|].
    by destruct (blueprint_addWave _ _ _).
  - unfold Pipeline.build. destruct (built p); [done|].
    specialize (Hnothrow (blueprint p) (engine p)).
    destruct (buildDeployment _ _) as [e [msg|]]; simpl in *; [done|lia].
  - unfold Pipeline.prepare, Pipeline.build. destruct (built p); [done|]. simpl.
    specialize (Hnothrow (blueprint p) (engine p)).
    destruct (buildDeployment _ _) as [e [msg|]]; simpl in *; [done|lia].
Qed.

Lemma invocations_run cs : ∀ p,
  (∀ b e, (buildDeployment b e).2 = None) →
  invocations p = completions p →
  invocations (run cs p) = completions (run cs p).
Proof.
  induction cs as [|c cs IH]; intros p Hnothrow Hp; [done|].
  simpl. apply IH; [done|]. by apply invocations_call.
Qed.

(** C10, as the code has it. [built] is set when [engine.buildDeployment]
    has returned, not when [build()] was entered. After any sequence of calls
    on a new Pipeline: at most one engine call has returned, and [built] tells
    whether one has; once [built] is set, [build] raises its error, [addStage]
    and [addWave] raise theirs, all without touching the Pipeline, and
    [prepare] does nothing; while [built] is not set, [prepare] is [build];
    and an engine that never throws has been invoked at most once. *)
Theorem Pipeline_builds_at_most_once (cs : list Call) (b : Blueprint) (e : Engine) :
  let p := run cs (constructor b e) in
  completions p ≤ 1 ∧
  (built p = true ↔ completions p = 1) ∧
  (built p = true →
     build p = (p, Raise "build() has already been called: can only call it once") ∧
     (∀ stage options,
        addStage stage options p =
        (p, Raise "addStage: can't add Stages anymore after build() has been called")) ∧
     (∀ id options,
        addWave id options p =
        (p, Raise "addStage: can't add Stages anymore after build() has been called")) ∧
     prepare p = (p, Return tt)) ∧
  (built p = false → prepare p = build p) ∧
  ((∀ b e, (buildDeployment b e).2 = None) → invocations p ≤ 1).
Proof.
  intros p.
  assert (built_once p) as [Hc Hi].
  { apply built_once_run. split; simpl; lia. }
  split; [destruct (built p); lia|]. split; [destruct (built p); split; (done || lia)|].
  split; [|split].
  - intros Hb. unfold Pipeline.build, Pipeline.addStage, Pipeline.addWave,
      Pipeline.prepare. rewrite Hb. done.
  - intros Hb. unfold Pipeline.prepare. by rewrite Hb.
  - intros Hnothrow.
    assert (invocations p = completions p) as ->
      by (by apply invocations_run).
    destruct (built p); lia.
Qed.

End PipelineFacts.

(** C10 with an engine that never throws: two calls of [build] and one of
    [prepare], one call of the engine. *)
Lemma Pipeline_builds_at_most_once_witness :
  (∀ b e, (steady_engine b e).2 = None) ∧
  Pipeline.built
    (Pipeline.run unit_addStage unit_addWave steady_engine
       [Pipeline.CallBuild; Pipeline.CallPrepare; Pipeline.CallBuild]
       (Pipeline.constructor tt 0)) = true ∧
  Pipeline.invocations
    (Pipeline.run unit_addStage unit_addWave steady_engine
       [Pipeline.CallBuild; Pipeline.CallPrepare; Pipeline.CallBuild]
       (Pipeline.constructor tt 0)) ≤ 1.
Proof.
  destruct (Pipeline_builds_at_most_once unit_addStage unit_addWave steady_engine
              [Pipeline.CallBuild; Pipeline.CallPrepare; Pipeline.CallBuild] tt 0)
    as (_ & _ & _ & _ & Hinv).
  split; [reflexivity|]. split; [reflexivity|]. apply Hinv. reflexivity.
Defined.

(** The claim C10 as stated fails when the engine throws: [build()] has been
    called, yet a second [build()] does not raise the already-called error,
    [addStage] still works, and the engine has been invoked twice. *)
Lemma Pipeline_build_twice_counterexample :
  (Pipeline.build flaky_engine (Pipeline.constructor tt 0)).2
    = Pipeline.Raise "synth step has no output" ∧
  (Pipeline.addStage unit_addStage tt None
     (Pipeline.build flaky_engine (Pipeline.constructor tt 0)).1).2
    = Pipeline.Return tt ∧
  (Pipeline.build flaky_engine
     (Pipeline.build flaky_engine (Pipeline.constructor tt 0)).1).2
    = Pipeline.Return tt ∧
  Pipeline.invocations
    (Pipeline.run unit_addStage unit_addWave flaky_engine
       [Pipeline.CallBuild; Pipeline.CallBuild] (Pipeline.constructor tt 0)) = 2.
Proof. repeat split. Qed.

(** * Invariants kept by the compiler *)

Section GuardSettled.
Context (O : Objects).
Context (I : GraphFromBlueprint → Prop) (Bad : Error → Prop).
Hypothesis I_settled : settled I.
Hypothesis I_step : ∀ fuel s parent, guard I Bad (addAndRecurse O fuel s parent).
Hypothesis Bad_duplicate : ∀ p name, ¬ Bad (DuplicateChild p name).
Hypothesis Bad_wrong : ∀ st n ty, I st → Bad (WrongDataType n ty) → asset_memo_ok st.
Hypothesis Bad_type : ∀ st, I st → Bad TypeError → cloudAssemblyFileSet st ≠ None.

Lemma guard_ret {A} (a : A) : guard I Bad (ret a).
Proof. by intros st H. Qed.

Lemma guard_gets {A} (f : GraphFromBlueprint → A) : guard I Bad (gets f).
Proof. by intros st H. Qed.

Lemma guard_bind {A B} (m : M A) (f : A → M B) :
  guard I Bad m → (∀ a, guard I Bad (f a)) → guard I Bad (bind m f).
Proof.
  intros Hm Hf st H. unfold bind. specialize (Hm st H).
  destruct (m st) as [a st1| |]; [by apply Hf|done|done].
Qed.

Lemma guard_forEach {A} (f : A → M unit) l :
  (∀ x, guard I Bad (f x)) → guard I Bad (forEach f l).
Proof.
  intros Hf. induction l as [|x l IH]; simpl; [apply guard_ret|].
  apply guard_bind; [apply Hf|done].
Qed.

Lemma guard_mapM {A B} (f : A → M B) l :
  (∀ x, guard I Bad (f x)) → guard I Bad (mapM f l).
Proof.
  intros Hf. induction l as [|x l IH]; simpl; [apply guard_ret|].
  apply guard_bind; [apply Hf|]. intros y.
  apply guard_bind; [done|]. intros ys. apply guard_ret.
Qed.

Lemma guard_foldM {A B} (f : B → A → M B) l :
  (∀ b x, guard I Bad (f b x)) → ∀ b, guard I Bad (foldM f b l).
Proof.
  intros Hf. induction l as [|x l IH]; intros b; simpl; [apply guard_ret|].
  apply guard_bind; [apply Hf|done].
Qed.

Lemma settled_alloc nd : new_node nd → guard I Bad (alloc nd).
Proof. intros ? st H. by apply (settled_new I I_settled). Qed.

Lemma settled_GraphNode_of id d :
  new_data (Some d) → guard I Bad (GraphNode_of id d).
Proof. intros Hd. apply settled_alloc. by split. Qed.

Lemma settled_dependOn n ds : guard I Bad (dependOn n ds).
Proof. intros st H. by apply (settled_deps I I_settled). Qed.

Lemma settled_Graph_add p c : guard I Bad (Graph_add p c).
Proof.
  intros st H. unfold Graph_add.
  destruct (tryGetChild _ _ _); [apply Bad_duplicate|].
  by apply (settled_child I I_settled).
Qed.

Lemma settled_Graph_of id d ns :
  new_data (Some d) → guard I Bad (Graph_of id d ns).
Proof.
  intros Hd. unfold Graph_of. apply guard_bind; [by apply settled_GraphNode_of|].
  intros g. apply guard_bind; [|intros; apply guard_ret].
  apply guard_forEach. intros; apply settled_Graph_add.
Qed.

Lemma settled_topLevelGraph name : guard I Bad (topLevelGraph name).
Proof.
  unfold topLevelGraph. apply guard_bind; [apply guard_gets|]. intros root.
  apply guard_bind; [apply guard_gets|]. intros [r|]; [apply guard_ret|].
  apply guard_bind; [apply settled_alloc; by split|]. intros r.
  apply guard_bind; [apply settled_Graph_add|]. intros; apply guard_ret.
Qed.

Lemma data_add_child st p c r :
  data (update_st p (add_child c) st) r = data st r.
Proof.
  unfold data. rewrite node_update. case_decide as Hc; [|done].
  by destruct Hc as [-> _].
Qed.

Lemma data_add_dependencies st p ds r :
  data (update_st p (add_dependencies ds) st) r = data st r.
Proof.
  unfold data. rewrite node_update. case_decide as Hc; [|done].
  by destruct Hc as [-> _].
Qed.

Lemma data_alloc st nd r :
  data (alloc_st nd st) r =
  if decide (r = length (heap st)) then n_data nd else data st r.
Proof. unfold data. rewrite node_alloc. by case_decide. Qed.

Lemma settled_addPrePost fuel pre post parent :
  guard I Bad (addPrePost O fuel pre post parent).
Proof.
  unfold addPrePost. apply guard_bind; [apply guard_gets|]. intros base.
  apply guard_bind.
  - apply guard_forEach. intros p. apply guard_bind; [apply I_step|].
    intros n. apply guard_forEach. intros; apply settled_dependOn.
  - intros _. apply guard_forEach. intros p.
    apply guard_bind; [apply I_step|]. intros; apply settled_dependOn.
Qed.

Lemma settled_nextAssetName a : guard I Bad (nextAssetName a).
Proof.
  unfold nextAssetName. destruct (assetType a).
  - apply guard_bind; [|intros _; apply guard_bind; [apply guard_gets|]; intros; apply guard_ret].
    intros st H. by apply (settled_file I I_settled).
  - apply guard_bind; [|intros _; apply guard_bind; [apply guard_gets|]; intros; apply guard_ret].
    intros st H. by apply (settled_docker I I_settled).
Qed.

Lemma settled_publishAsset a : guard I Bad (publishAsset a).
Proof.
  unfold publishAsset. apply guard_bind; [apply settled_topLevelGraph|]. intros g.
  intros st H. unfold bind at 1. unfold gets at 1. unfold bind at 1.
  assert (∀ st', I st' →
    match (let* id := nextAssetName a in
           let* newNode := GraphNode_of id (APublishAssets [a]) in
           modify (λ st, set_assetNodes (<[assetId a := newNode]> (assetNodes st)) st) ;;;
           Graph_add g newNode ;;;
           let* lp := gets lastPreparationNode in
           dependOn newNode [lp] ;;; ret newNode) st' with
    | Ok _ st'' => I st''
    | Throw e => ¬ Bad e
    | Diverge => True
    end) as Hrest.
  { apply guard_bind; [apply settled_nextAssetName|]. intros id.
    intros st1 H1. unfold bind at 1, GraphNode_of at 1, alloc at 1.
    unfold bind at 1, modify at 1.
    match goal with |- match bind _ _ ?x with _ => _ end =>
      assert (I x) as H3; [|revert H3; generalize x] end.
    { apply (settled_register I I_settled).
      - apply (settled_new I I_settled); [done|]. split; [done|done|]. by eexists.
      - rewrite data_alloc. by rewrite decide_True. }
    apply guard_bind; [apply settled_Graph_add|]. intros _.
    apply guard_bind; [apply guard_gets|]. intros lp.
    apply guard_bind; [apply settled_dependOn|]. intros; apply guard_ret. }
  destruct (assetNodes st !! assetId a) as [n|] eqn:En; [|by apply Hrest].
  unfold bind at 1. unfold gets at 1.
  destruct (data st n) as [[]|] eqn:Hd;
    try (intros Hb; apply (Bad_wrong st _ _ H) in Hb;
         destruct (Hb _ _ En) as [l Hl]; congruence).
  destruct (existsb _ _) eqn:Ex; [by apply Hrest|].
  apply Hrest. by apply (settled_push I I_settled).
Qed.

Lemma settled_newStackGraph s : guard I Bad (newStackGraph O s).
Proof.
  unfold newStackGraph. apply guard_bind; [by apply settled_Graph_of|]. intros sg.
  apply guard_bind; [by apply settled_GraphNode_of|]. intros p.
  apply guard_bind; [by apply settled_GraphNode_of|]. intros d.
  apply guard_bind; [apply settled_Graph_add|]. intros _.
  apply guard_bind; [apply settled_Graph_add|]. intros _.
  apply guard_bind; [apply settled_dependOn|]. intros; apply guard_ret.
Qed.

Lemma settled_addStack fuel g sgs s : guard I Bad (addStack O fuel g sgs s).
Proof.
  unfold addStack. apply guard_bind; [apply settled_newStackGraph|]. intros x.
  intros st H. unfold bind at 1, gets at 1.
  destruct (cloudAssemblyOf O s (cloudAssemblyFileSet st)) eqn:Ec.
  - revert st H Ec. intros st H _. revert st H.
    apply guard_bind; [apply I_step|]. intros pn.
    apply guard_bind; [apply settled_dependOn|]. intros _.
    apply guard_bind; [|intros; apply guard_ret].
    apply guard_forEach. intros asset.
    apply guard_bind; [apply settled_publishAsset|]. intros; apply settled_dependOn.
  - intros Hb. apply (Bad_type st H) in Hb.
    unfold cloudAssemblyOf in Ec.
    destruct (cloudAssemblyFileSet st); [|done].
    destruct (customCloudAssembly _); [|done].
    by destruct (fileSetPrimaryOutput _).
Qed.

Lemma settled_addStackDependencies sgs ss : guard I Bad (addStackDependencies O sgs ss).
Proof.
  unfold addStackDependencies. apply guard_forEach. intros s.
  apply guard_forEach. intros dep.
  destruct (sgs !! s); [apply settled_dependOn|apply guard_ret].
Qed.

Lemma settled_addStage fuel stage : guard I Bad (addStage O fuel stage).
Proof.
  unfold addStage. apply guard_bind; [by apply settled_Graph_of|]. intros g.
  apply guard_bind; [apply guard_foldM; intros; apply settled_addStack|]. intros sgs.
  apply guard_bind; [apply settled_addStackDependencies|]. intros _.
  apply guard_bind; [apply settled_addPrePost|]. intros; apply guard_ret.
Qed.

Lemma settled_addWave fuel wave : guard I Bad (addWave O fuel wave).
Proof.
  unfold addWave. apply guard_bind.
  - destruct (stages wave) as [|stage [|stage' ss]].
    + apply guard_bind; [apply guard_ret|]. intros; by apply settled_Graph_of.
    + apply settled_addStage.
    + apply guard_bind; [apply guard_mapM; intros; apply settled_addStage|].
      intros; by apply settled_Graph_of.
  - intros g. apply guard_bind; [apply settled_addPrePost|]. intros _.
    apply guard_bind; [apply guard_gets|]. intros lp.
    apply guard_bind; [apply settled_dependOn|]. intros; apply guard_ret.
Qed.

Lemma settled_deploySequentially ws : guard I Bad (deploySequentially ws).
Proof.
  unfold deploySequentially.
  assert (∀ l, (∀ i, i ∈ l → i < length ws) →
    guard I Bad (forEach (λ i, match ws !! i with
                               | Some w => dependOn w [ws !! (i - 1)]
                               | None => throw TypeError
                               end) l)) as Hl.
  { induction l as [|i l IH]; intros Hin; simpl; [apply guard_ret|].
    apply guard_bind.
    - destruct (ws !! i) eqn:Ei; [apply settled_dependOn|].
      apply lookup_ge_None_1 in Ei.
      assert (i < length ws) by (apply Hin; left). lia.
    - intros _. apply IH. intros j Hj. apply Hin. by right. }
  apply Hl. intros i [? ?]%elem_of_seq. lia.
Qed.

Lemma settled_addBuildStep fuel s : guard I Bad (addBuildStep O fuel s).
Proof.
  unfold addBuildStep. apply guard_bind; [apply settled_topLevelGraph|].
  intros; apply I_step.
Qed.

End GuardSettled.

(** An invariant that is also kept by the registration of a Step node is
    kept by [addAndRecurse], and so by everything. *)

Lemma stable_settled I : stable I → settled I.
Proof. intros []. by split. Qed.

Section Guard.
Context (O : Objects).
Context (I : GraphFromBlueprint → Prop) (Bad : Error → Prop).
Hypothesis I_stable : stable I.
Hypothesis Bad_duplicate : ∀ p name, ¬ Bad (DuplicateChild p name).
Hypothesis Bad_wrong : ∀ st n ty, I st → Bad (WrongDataType n ty) → asset_memo_ok st.
Hypothesis Bad_type : ∀ st, I st → Bad TypeError → cloudAssemblyFileSet st ≠ None.

Lemma guard_alloc nd : new_node nd → guard I Bad (alloc nd).
Proof.
  intros; apply settled_alloc; try done; try apply stable_settled; try done.
Qed.

Lemma guard_GraphNode_of id d :
  new_data (Some d) → guard I Bad (GraphNode_of id d).
Proof.
  intros; apply settled_GraphNode_of; try done; try apply stable_settled; try done.
Qed.

Lemma guard_dependOn n ds : guard I Bad (dependOn n ds).
Proof.
  intros; apply settled_dependOn; try done; try apply stable_settled; try done.
Qed.

Lemma guard_Graph_add p c : guard I Bad (Graph_add p c).
Proof.
  intros; apply settled_Graph_add; try done; try apply stable_settled; try done.
Qed.

Lemma guard_Graph_of id d ns :
  new_data (Some d) → guard I Bad (Graph_of id d ns).
Proof.
  intros; apply settled_Graph_of; try done; try apply stable_settled; try done.
Qed.

Lemma guard_topLevelGraph name : guard I Bad (topLevelGraph name).
Proof.
  intros; apply settled_topLevelGraph; try done; try apply stable_settled; try done.
Qed.

Lemma guard_addAndRecurse fuel : ∀ s parent, guard I Bad (addAndRecurse O fuel s parent).
Proof.
  induction fuel as [|fuel IH]; intros s parent st H; simpl.
  - unfold bind at 1, gets at 1. by destruct (added st !! s).
  - unfold bind at 1, gets at 1. destruct (added st !! s) as [p|] eqn:Es; [done|].
    unfold bind at 1, GraphNode_of at 1, alloc at 1.
    set (nd := {| n_id := step_id (step O s); n_data := Some (AStep s false);
                  n_dependencies := []; n_children := [] |}).
    assert (I (alloc_st nd st)) as H1.
    { apply (stable_alloc I I_stable); [done|by split]. }
    assert (data (alloc_st nd st) (length (heap st)) = Some (AStep s false)) as Hd1.
    { rewrite data_alloc. by rewrite decide_True. }
    unfold bind at 1.
    assert (∀ n p st2, I st2 → data st2 n = Some (AStep s false) →
              added st2 !! s = None →
      match (Graph_add p n ;;;
             modify (λ x, set_added (<[s := n]> (added x)) x) ;;;
             forEach (λ dep,
               let* producerNode := addAndRecurse O fuel dep p in
               dependOn n [Some producerNode])
               (dependencySteps (step O s)) ;;;
             ret n) st2 with
      | Ok _ st' => I st'
      | Throw e => ¬ Bad e
      | Diverge => True
      end) as Hrest.
    { intros n p st2 H2 Hd2 Ha2. unfold bind at 1, Graph_add at 1.
      destruct (tryGetChild _ _ _); [apply Bad_duplicate|].
      unfold updateNode, modify at 1. unfold bind at 1, modify at 1.
      match goal with |- match bind _ _ ?x with _ => _ end =>
        assert (I x) as H3; [|revert H3; generalize x] end.
      { apply (stable_added I I_stable).
        - by apply (stable_add_child I I_stable).
        - exact Ha2.
        - by rewrite data_add_child. }
      apply guard_bind; [|intros; apply guard_ret].
      apply guard_forEach. intros dep. apply guard_bind; [apply IH|].
      intros; apply guard_dependOn. }
    destruct (isCodePipelineSource (step O s)).
    + pose proof (guard_topLevelGraph "Source" _ H1) as Ht.
      destruct (topLevelGraph "Source" (alloc_st nd st)) as [g st2| |] eqn:Et;
        [|done|done].
      apply Hrest; [done| |].
      * apply (topLevelGraph_data _ _ _ _ (length (heap st))) in Et as [-> _]. done.
      * apply topLevelGraph_added in Et. by rewrite Et.
    + unfold ret at 1. by apply Hrest.
Qed.

Lemma guard_addPrePost fuel pre post parent :
  guard I Bad (addPrePost O fuel pre post parent).
Proof.
  intros; apply settled_addPrePost; try done; try apply stable_settled; try done; try apply guard_addAndRecurse.
Qed.

Lemma guard_nextAssetName a : guard I Bad (nextAssetName a).
Proof.
  intros; apply settled_nextAssetName; try done; try apply stable_settled; try done.
Qed.

Lemma guard_publishAsset a : guard I Bad (publishAsset a).
Proof.
  intros; apply settled_publishAsset; try done; try apply stable_settled; try done.
Qed.

Lemma guard_newStackGraph s : guard I Bad (newStackGraph O s).
Proof.
  intros; apply settled_newStackGraph; try done; try apply stable_settled; try done.
Qed.

Lemma guard_addStack fuel g sgs s : guard I Bad (addStack O fuel g sgs s).
Proof.
  intros; apply settled_addStack; try done; try apply stable_settled; try done; try apply guard_addAndRecurse.
Qed.

Lemma guard_addStackDependencies sgs ss : guard I Bad (addStackDependencies O sgs ss).
Proof.
  intros; apply settled_addStackDependencies; try done; try apply stable_settled; try done.
Qed.

Lemma guard_addStage fuel stage : guard I Bad (addStage O fuel stage).
Proof.
  intros; apply settled_addStage; try done; try apply stable_settled; try done; try apply guard_addAndRecurse.
Qed.

Lemma guard_addWave fuel wave : guard I Bad (addWave O fuel wave).
Proof.
  intros; apply settled_addWave; try done; try apply stable_settled; try done; try apply guard_addAndRecurse.
Qed.

Lemma guard_deploySequentially ws : guard I Bad (deploySequentially ws).
Proof.
  intros; apply settled_deploySequentially; try done; try apply stable_settled; try done.
Qed.

Lemma guard_addBuildStep fuel s : guard I Bad (addBuildStep O fuel s).
Proof.
  intros; apply settled_addBuildStep; try done; try apply stable_settled; try done; try apply guard_addAndRecurse.
Qed.

End Guard.

(** * Further properties of the compiler *)

Section LayoutFacts.
Context (O : Objects).

Lemma topLevelGraph_hit name st g :
  tryGetChild st (graph st) name = Some g → topLevelGraph name st = Ok g st.
Proof. intros H. unfold topLevelGraph, bind, gets. by rewrite H. Qed.

Lemma lookupChild_singleton name other (r : nat) :
  lookupChild other [(name, r)] = if decide (name = other) then Some r else None.
Proof.
  unfold lookupChild. simpl. case_decide as Hn.
  - subst. by rewrite String.eqb_refl.
  - destruct (String.eqb name other) eqn:E; [|done].
    by apply String.eqb_eq in E.
Qed.

(** X1. [topLevelGraph] never fails. It returns the child of the root with
    the given name; if there is none, that child is a new group without
    annotation, children and dependencies. Asking again gives the same group
    and changes nothing, and the root's children of other names stay as they
    are. *)
Theorem topLevelGraph_lazy name st :
  graph st < length (heap st) →
  ∃ g st', topLevelGraph name st = Ok g st' ∧
    tryGetChild st' (graph st') name = Some g ∧
    topLevelGraph name st' = Ok g st' ∧
    (∀ other, other ≠ name →
       tryGetChild st' (graph st') other = tryGetChild st (graph st) other) ∧
    (∀ g0, tryGetChild st (graph st) name = Some g0 → g = g0 ∧ st' = st) ∧
    (tryGetChild st (graph st) name = None →
       g = length (heap st) ∧ data st' g = None ∧
       children st' g = [] ∧ deps st' g = []).
Proof.
  intros Hroot. destruct (tryGetChild st (graph st) name) as [g0|] eqn:E.
  - exists g0, st. pose proof (topLevelGraph_hit _ _ _ E) as Hhit.
    split; [done|]. split; [done|]. split; [done|]. split; [done|].
    split; [by intros ? [= <-]|done].
  - destruct (topLevelGraph_total name st) as (g & st' & Ht).
    exists g, st'. split; [done|].
    pose proof Ht as [[Hc _]|(_ & -> & ->)]%topLevelGraph_Ok; [congruence|].
    set (nd := {| n_id := name; n_data := None; n_dependencies := [];
                  n_children := [] |}) in *.
    set (st1 := alloc_st nd st) in *.
    assert (∀ other, tryGetChild (update_st (graph st) (add_child (name, length (heap st))) st1)
                       (graph st) other =
                     match tryGetChild st (graph st) other with
                     | Some r => Some r
                     | None => if decide (name = other) then Some (length (heap st)) else None
                     end) as Hlook.
    { intros other. unfold tryGetChild. rewrite children_add_child.
      rewrite decide_True by (split; [done|unfold st1; rewrite length_heap_alloc; lia]).
      rewrite lookupChild_app. unfold st1. rewrite children_alloc by done.
      by rewrite lookupChild_singleton. }
    change (graph (update_st (graph st) (add_child (name, length (heap st))) st1))
      with (graph st).
    assert (tryGetChild (update_st (graph st) (add_child (name, length (heap st))) st1)
              (graph st) name = Some (length (heap st))) as Hname.
    { rewrite Hlook, E. by rewrite decide_True. }
    split; [done|]. split; [by apply topLevelGraph_hit|].
    split.
    { intros other Hne. rewrite Hlook. destruct (tryGetChild st (graph st) other); [done|].
      by rewrite decide_False. }
    split; [done|]. intros _. split; [done|].
    assert (length (heap st) ≠ graph st) as Hne by lia.
    split; [|split].
    + rewrite data_add_child. unfold st1. rewrite data_alloc. by rewrite decide_True.
    + rewrite children_add_child. rewrite decide_False by (intros []; lia).
      unfold children, st1. rewrite node_alloc. by rewrite decide_True.
    + rewrite deps_add_child. unfold deps, st1. rewrite node_alloc. by rewrite decide_True.
Qed.

End LayoutFacts.

Lemma topLevelGraph_lazy_witness :
  graph initial < length (heap initial) ∧
  ∃ g st', topLevelGraph "Build" initial = Ok g st' ∧
    tryGetChild st' (graph st') "Build" = Some g ∧
    topLevelGraph "Build" st' = Ok g st' ∧
    (∀ other, other ≠ "Build" →
       tryGetChild st' (graph st') other = tryGetChild initial (graph initial) other) ∧
    (∀ g0, tryGetChild initial (graph initial) "Build" = Some g0 → g = g0 ∧ st' = initial) ∧
    (tryGetChild initial (graph initial) "Build" = None →
       g = length (heap initial) ∧ data st' g = None ∧
       children st' g = [] ∧ deps st' g = []).
Proof.
  split; [simpl; lia|]. apply (topLevelGraph_lazy "Build" initial). simpl; lia.
Defined.

(** ** Facts that stay true once they hold *)

Lemma guard_Ok {A} I Bad (m : M A) st a st' :
  guard I Bad m → I st → m st = Ok a st' → I st'.
Proof. intros Hg H E. specialize (Hg st H). by rewrite E in Hg. Qed.

Lemma data_push st r d n :
  data (update_st r (set_data d) st) n =
  if decide (n = r ∧ r < length (heap st)) then d else data st n.
Proof. unfold data. rewrite node_update. by case_decide. Qed.

Lemma data_Some_allocated st n d : data st n = Some d → n < length (heap st).
Proof.
  intros H. destruct (decide (n < length (heap st))); [done|].
  unfold data in H. rewrite node_dangling in H by lia. done.
Qed.

Lemma stable_and I J : stable I → stable J → stable (λ st, I st ∧ J st).
Proof.
  intros HI HJ. split.
  - intros st nd [] ?. split; by apply stable_alloc.
  - intros st p c []. split; by apply stable_add_child.
  - intros st r ds []. split; by apply stable_add_dependencies.
  - intros st r l a [] ??. split; by apply stable_push.
  - intros st s n [] ??. split; by apply stable_added.
  - intros st a n [] ?. split; by apply stable_assetNodes.
  - intros st c []. split; by apply stable_fileAssetCtr.
  - intros st c []. split; by apply stable_dockerAssetCtr.
Qed.

Lemma stable_allocated n : stable (λ st, n < length (heap st)).
Proof.
  split; try done.
  - intros st nd H _. rewrite length_heap_alloc. lia.
  - intros st p c H. by rewrite length_heap_update.
  - intros st r ds H. by rewrite length_heap_update.
  - intros st r l a H _ _. by rewrite length_heap_update.
Qed.

(** The annotation of a node that is not a publish node. *)
Lemma stable_data n d :
  (∀ l, d ≠ APublishAssets l) → stable (λ st, data st n = Some d).
Proof.
  intros Hd. split; try done.
  - intros st nd H _. rewrite data_alloc. case_decide; [|done]. subst.
    apply data_Some_allocated in H. lia.
  - intros st p c H. by rewrite data_add_child.
  - intros st r ds H. by rewrite data_add_dependencies.
  - intros st r l a H Hr _. rewrite data_push. case_decide as Hc; [|done].
    destruct Hc as [-> _]. rewrite H in Hr. injection Hr as ->. by destruct (Hd l).
Qed.

Lemma stable_id n id :
  stable (λ st, n < length (heap st) ∧ n_id (node st n) = id).
Proof.
  split; try done.
  - intros st nd [H1 H2] _. rewrite length_heap_alloc, node_alloc.
    split; [lia|]. by rewrite decide_False by lia.
  - intros st p c [H1 H2]. rewrite length_heap_update, node_update.
    split; [done|]. case_decide as Hc; [|done]. by destruct Hc as [-> _].
  - intros st p c [H1 H2]. rewrite length_heap_update, node_update.
    split; [done|]. case_decide as Hc; [|done]. by destruct Hc as [-> _].
  - intros st r l a [H1 H2] _ _. rewrite length_heap_update, node_update.
    split; [done|]. case_decide as Hc; [|done]. by destruct Hc as [-> _].
Qed.

Lemma stable_child p c : stable (λ st, c ∈ children st p).
Proof.
  split; try done.
  - intros st nd H [_ Hc _]. by rewrite children_alloc.
  - intros st q c' H. rewrite children_add_child. case_decide as Hc; [|done].
    destruct Hc as [-> _]. apply elem_of_app. by left.
  - intros st r ds H. by rewrite children_dependOn.
  - intros st r l a H _ _. unfold children. rewrite node_update.
    case_decide as Hc; [|done]. by destruct Hc as [-> _].
Qed.

Lemma stable_dep x y : stable (λ st, y ∈ deps st x).
Proof.
  split; try done.
  - intros st nd H [Hd _ _]. by rewrite deps_alloc.
  - intros st q c' H. by rewrite deps_add_child.
  - intros st r ds H. rewrite deps_dependOn. case_decide as Hc; [|done].
    destruct Hc as [-> _]. apply elem_of_app. by left.
  - intros st r l a H _ _. unfold deps. rewrite node_update.
    case_decide as Hc; [|done]. by destruct Hc as [-> _].
Qed.

Lemma stable_memo s n : stable (λ st, added st !! s = Some n).
Proof.
  split; try done.
  intros st s' n' H Hs' _. simpl. rewrite lookup_insert_ne; [done|].
  intros ->. congruence.
Qed.

(** A publish node keeps the assets it lists. *)
Lemma stable_listed n a :
  stable (λ st, ∃ l, data st n = Some (APublishAssets l) ∧ a ∈ l).
Proof.
  split; try done.
  - intros st nd (l & H & Ha) _. exists l. split; [|done].
    rewrite data_alloc. case_decide; [|done]. subst.
    apply data_Some_allocated in H. lia.
  - intros st p c (l & H & Ha). exists l. by rewrite data_add_child.
  - intros st r ds (l & H & Ha). exists l. by rewrite data_add_dependencies.
  - intros st r l' a' (l & H & Ha) Hr _. rewrite data_push.
    case_decide as Hc; [|by exists l]. destruct Hc as [-> _].
    rewrite H in Hr. injection Hr as ->. eexists. split; [done|].
    apply elem_of_app. by left.
Qed.

Lemma stable_memo_annotated : stable memo_annotated.
Proof.
  split; try done.
  - intros st nd H _ s n Hs. destruct (H s n Hs) as [b Hb]. exists b.
    rewrite data_alloc. case_decide; [|done]. subst.
    apply data_Some_allocated in Hb. lia.
  - intros st p c H s n Hs. destruct (H s n Hs) as [b Hb]. exists b.
    by rewrite data_add_child.
  - intros st p c H s n Hs. destruct (H s n Hs) as [b Hb]. exists b.
    by rewrite data_add_dependencies.
  - intros st r l a H Hr _ s n Hs. destruct (H s n Hs) as [b Hb]. exists b.
    rewrite data_push. case_decide as Hc; [|done]. destruct Hc as [-> _].
    congruence.
  - intros st s n H Hs Hn s' n'. simpl. rewrite lookup_insert. case_decide.
    + intros [= <-]. subst. by exists false.
    + apply H.
Qed.

Lemma stable_selectors_distinct : stable selectors_distinct.
Proof.
  split; try done.
  - intros st nd H [_ _ Hnd] n l. rewrite data_alloc. case_decide; [|apply H].
    intros Hl. rewrite Hl in Hnd. destruct Hnd as [a ->]. simpl. apply NoDup_singleton.
  - intros st p c H n l. rewrite data_add_child. apply H.
  - intros st p c H n l. rewrite data_add_dependencies. apply H.
  - intros st r l a H Hr Hex n l'. rewrite data_push.
    case_decide as Hc; [|apply H]. intros [= <-].
    rewrite fmap_app. simpl. apply NoDup_app. split; [by apply (H r)|].
    split; [|apply NoDup_singleton].
    intros x Hx ->%list_elem_of_singleton.
    apply list_elem_of_fmap in Hx as (a' & Ha' & Hin).
    assert (existsb (λ x, String.eqb (assetSelector x) (assetSelector a)) l = true)
      as Ht; [|congruence].
    apply existsb_exists. exists a'. split; [by apply list_elem_of_In|].
    rewrite Ha'. apply String.eqb_refl.
Qed.

Lemma stable_asset_memo_ok : stable asset_memo_ok.
Proof.
  split; try done.
  - intros st nd H _. by apply asset_memo_ok_alloc.
  - intros st p c H. apply asset_memo_ok_update; [|done]. intros; simpl; eauto.
  - intros st p c H. apply asset_memo_ok_update; [|done]. intros; simpl; eauto.
  - intros st r l a H _ _. apply asset_memo_ok_update; [|done]. intros; simpl; eauto.
  - intros st a n H Hn k n'. simpl. rewrite lookup_insert. case_decide.
    + intros [= <-]. by eexists.
    + apply H.
Qed.

Lemma stable_cloudAssembly ca : stable (λ st, cloudAssemblyFileSet st = ca).
Proof. by split. Qed.

Lemma stable_preparation lp : stable (λ st, lastPreparationNode st = lp).
Proof. by split. Qed.

Lemma stable_synthNode_field n : stable (λ st, synthNode st = n).
Proof. by split. Qed.

Lemma stable_selfMutateNode_field n : stable (λ st, selfMutateNode st = n).
Proof. by split. Qed.

(** ** What successful runs keep *)

Ltac no_error :=
  first [ assumption | by intros ? ? [] | by intros ? ? ? _ [] | by intros ? _ [] ].

Section Keeps.
Context (O : Objects) (I : GraphFromBlueprint → Prop).
Hypothesis I_stable : stable I.

Lemma keeps_forEach {A} (f : A → M unit) l st u st' :
  (∀ x, guard I (λ _, False) (f x)) →
  I st → forEach f l st = Ok u st' → I st'.
Proof. intros Hf. apply guard_Ok with (Bad := λ _, False), guard_forEach, Hf. Qed.

Lemma keeps_topLevelGraph name st g st' :
  I st → topLevelGraph name st = Ok g st' → I st'.
Proof. apply guard_Ok with (Bad := λ _, False). apply guard_topLevelGraph; no_error. Qed.

Lemma keeps_addAndRecurse fuel s parent st n st' :
  I st → addAndRecurse O fuel s parent st = Ok n st' → I st'.
Proof. apply guard_Ok with (Bad := λ _, False). apply guard_addAndRecurse; no_error. Qed.

Lemma keeps_addPrePost fuel pre post parent st u st' :
  I st → addPrePost O fuel pre post parent st = Ok u st' → I st'.
Proof. apply guard_Ok with (Bad := λ _, False). apply guard_addPrePost; no_error. Qed.

Lemma keeps_publishAsset a st n st' :
  I st → publishAsset a st = Ok n st' → I st'.
Proof. apply guard_Ok with (Bad := λ _, False). apply guard_publishAsset; no_error. Qed.

Lemma keeps_addStack fuel g sgs s st sgs' st' :
  I st → addStack O fuel g sgs s st = Ok sgs' st' → I st'.
Proof. apply guard_Ok with (Bad := λ _, False). apply guard_addStack; no_error. Qed.

Lemma keeps_addStackDependencies sgs ss st u st' :
  I st → addStackDependencies O sgs ss st = Ok u st' → I st'.
Proof. apply guard_Ok with (Bad := λ _, False). apply guard_addStackDependencies; no_error. Qed.

Lemma keeps_addStage fuel stage st g st' :
  I st → addStage O fuel stage st = Ok g st' → I st'.
Proof. apply guard_Ok with (Bad := λ _, False). apply guard_addStage; no_error. Qed.

Lemma keeps_addWave fuel wave st g st' :
  I st → addWave O fuel wave st = Ok g st' → I st'.
Proof. apply guard_Ok with (Bad := λ _, False). apply guard_addWave; no_error. Qed.

Lemma keeps_waves fuel ws st gs st' :
  I st → mapM (addWave O fuel) ws st = Ok gs st' → I st'.
Proof.
  apply guard_Ok with (Bad := λ _, False). apply guard_mapM. intros w.
  apply guard_addWave; no_error.
Qed.

Lemma keeps_deploySequentially ws st u st' :
  I st → deploySequentially ws st = Ok u st' → I st'.
Proof. apply guard_Ok with (Bad := λ _, False). apply guard_deploySequentially; no_error. Qed.

Lemma keeps_addBuildStep fuel s st n st' :
  I st → addBuildStep O fuel s st = Ok n st' → I st'.
Proof. apply guard_Ok with (Bad := λ _, False). apply guard_addBuildStep; no_error. Qed.

End Keeps.

(** ** A Step that has no node yet *)

Section NewStep.
Context (O : Objects).

Lemma lookupChild_elem name (r : nat) cs :
  (name, r) ∈ cs → is_Some (lookupChild name cs).
Proof.
  induction cs as [|[k v] cs IH]; [by intros ?%elem_of_nil|].
  intros [[= <- <-]|H]%elem_of_cons; unfold lookupChild; simpl.
  - by rewrite String.eqb_refl.
  - destruct (String.eqb k name); [done|]. by apply IH.
Qed.

(** The run of [addAndRecurse] for a Step without a node, up to the loop
    over the Step's dependencies. *)
Lemma addAndRecurse_new fuel s parent st n st' :
  added st !! s = None →
  addAndRecurse O fuel s parent st = Ok n st' →
  ∃ fuel' p st1 u,
    fuel = S fuel' ∧ n = length (heap st) ∧
    (if isCodePipelineSource (step O s)
     then topLevelGraph "Source"
            (alloc_st {| n_id := step_id (step O s); n_data := Some (AStep s false);
                         n_dependencies := []; n_children := [] |} st)
          = Ok p st1
     else p = parent ∧
          st1 = alloc_st {| n_id := step_id (step O s); n_data := Some (AStep s false);
                            n_dependencies := []; n_children := [] |} st) ∧
    tryGetChild st1 p (step_id (step O s)) = None ∧
    forEach (λ dep, let* producerNode := addAndRecurse O fuel' dep p in
                    dependOn n [Some producerNode])
            (dependencySteps (step O s))
            (set_added (<[s := n]> (added st1))
               (update_st p (add_child (step_id (step O s), n)) st1)) = Ok u st' ∧
    n < length (heap st1) ∧ data st1 n = Some (AStep s false) ∧
    n_id (node st1 n) = step_id (step O s) ∧ deps st1 n = [] ∧
    added st1 = added st ∧ length (heap st) < length (heap st1).
Proof.
  intros Hs H. destruct fuel as [|fuel'].
  { simpl in H. mstep H. rewrite Hs in H. done. }
  rewrite addAndRecurse_S, Hs in H. unfold addNew in H.
  apply bind_Ok in H as (n0 & st0 & Hn & H). mstep Hn.
  apply bind_Ok in H as (p & st1 & Hp & H).
  set (nd := {| n_id := step_id (step O s); n_data := Some (AStep s false);
                n_dependencies := []; n_children := [] |}) in *.
  assert (length (heap st) < length (heap st1) ∧
          data st1 (length (heap st)) = Some (AStep s false) ∧
          n_id (node st1 (length (heap st))) = step_id (step O s) ∧
          deps st1 (length (heap st)) = [] ∧ added st1 = added st) as (Hl & Hd & Hid & Hdeps & Ha).
  { assert (length (heap st) < length (heap (alloc_st nd st)) ∧
          data (alloc_st nd st) (length (heap st)) = Some (AStep s false) ∧
          n_id (node (alloc_st nd st) (length (heap st))) = step_id (step O s) ∧
          deps (alloc_st nd st) (length (heap st)) = []) as (Hl & Hd & Hid & Hdeps).
    { rewrite length_heap_alloc, data_alloc. unfold deps. rewrite node_alloc.
      rewrite !decide_True by done. split; [lia|done]. }
    destruct (isCodePipelineSource _); [|by mstep Hp].
    assert (stable (λ x, data x (length (heap st)) = Some (AStep s false) ∧
                         length (heap st) < length (heap x) ∧
                         n_id (node x (length (heap st))) = step_id (step O s)))
      as HJ by (apply stable_and; [by apply stable_data|apply stable_id]).
    pose proof (keeps_topLevelGraph _ HJ _ _ _ _ (conj Hd (conj Hl Hid)) Hp)
      as (? & ? & ?).
    split; [done|]. split; [done|]. split; [done|].
    split; [|by apply topLevelGraph_added in Hp].
    by rewrite (topLevelGraph_deps _ _ _ _ _ Hp). }
  apply bind_Ok in H as (u0 & st2 & Hadd & H). mstep Hadd.
  rewrite Hid in Hname.
  apply bind_Ok in H as (u1 & st3 & Hset & H). mstep Hset.
  apply bind_Ok in H as (u & st4 & Hloop & H). mstep H.
  exists fuel', p, st1, u. rewrite Hid in Hloop.
  split; [done|]. split; [done|]. split.
  { destruct (isCodePipelineSource _); [done|]. by mstep Hp. }
  done.
Qed.

(** The facts about the new node that hold from the point where the loop
    over the dependencies starts. *)
Lemma addAndRecurse_new_kept fuel s parent st n st' :
  added st !! s = None →
  addAndRecurse O fuel s parent st = Ok n st' →
  n = length (heap st) ∧ n < length (heap st') ∧
  n_id (node st' n) = step_id (step O s) ∧
  data st' n = Some (AStep s false) ∧ added st' !! s = Some n ∧
  (isCodePipelineSource (step O s) = false → parent < length (heap st) →
   (step_id (step O s), n) ∈ children st' parent).
Proof.
  intros Hs H.
  destruct (addAndRecurse_new _ _ _ _ _ _ Hs H)
    as (fuel' & p & st1 & u & -> & -> & Hp & Hname & Hloop & Hn & Hd & Hid & Hdeps & Ha & Hl).
  split; [done|].
  set (n := length (heap st)) in *.
  set (st2 := set_added (<[s := n]> (added st1))
                (update_st p (add_child (step_id (step O s), n)) st1)) in *.
  set (J := λ x, (n < length (heap x) ∧ n_id (node x n) = step_id (step O s)) ∧
                 data x n = Some (AStep s false) ∧ added x !! s = Some n ∧
                 ((step_id (step O s), n) ∈ children x p ∨ length (heap st1) ≤ p)).
  assert (stable J) as HJ.
  { apply stable_and; [apply stable_id|].
    apply stable_and; [by apply stable_data|].
    apply stable_and; [apply stable_memo|].
    split; try done.
    - intros x nd [?|?] ?; [left|by right]. by apply (stable_alloc _ (stable_child _ _)).
    - intros x q c [?|?]; [left|by right]. by apply (stable_add_child _ (stable_child _ _)).
    - intros x q c [?|?]; [left|by right]. by apply (stable_add_dependencies _ (stable_child _ _)).
    - intros x q l a [?|?] ? ?; [left|by right]. by apply (stable_push _ (stable_child _ _)). }
  assert (J st2) as H2.
  { unfold J, st2. split; [|split; [|split]].
    - change (n < length (heap (update_st p (add_child (step_id (step O s), n)) st1)) ∧
              n_id (node (update_st p (add_child (step_id (step O s), n)) st1) n)
              = step_id (step O s)).
      by apply (stable_add_child _ (stable_id _ _)).
    - change (data (update_st p (add_child (step_id (step O s), n)) st1) n
              = Some (AStep s false)). by rewrite data_add_child.
    - simpl. by rewrite lookup_insert_eq.
    - destruct (decide (p < length (heap st1))); [left|right; lia].
      change ((step_id (step O s), n) ∈
              children (update_st p (add_child (step_id (step O s), n)) st1) p).
      rewrite children_add_child, decide_True by done.
      apply elem_of_app. right. by left. }
  assert (J st') as ((Hn' & Hid') & Hd' & Ha' & Hc').
  { eapply (keeps_forEach J); [| exact H2 | exact Hloop].
    intros dep. apply guard_bind.
    - apply guard_addAndRecurse; no_error.
    - intros pn. by apply guard_dependOn. }
  split; [done|]. split; [done|]. split; [done|]. split; [done|].
  intros Hsrc Hparent. rewrite Hsrc in Hp. destruct Hp as [-> ->].
  destruct Hc' as [?|Hc']; [done|]. rewrite length_heap_alloc in Hc'. lia.
Qed.

(** X2. A Step without a node that is not a source Step gets a new node,
    named after the Step, annotated with the Step (not marked as build
    step), attached under the given parent and registered for the Step. *)
Theorem addAndRecurse_new_step fuel s parent st n st' :
  parent < length (heap st) →
  added st !! s = None →
  isCodePipelineSource (step O s) = false →
  addAndRecurse O fuel s parent st = Ok n st' →
  n = length (heap st) ∧
  n_id (node st' n) = step_id (step O s) ∧
  data st' n = Some (AStep s false) ∧
  (step_id (step O s), n) ∈ children st' parent ∧
  added st' !! s = Some n.
Proof.
  intros Hp Hs Hsrc H.
  destruct (addAndRecurse_new_kept _ _ _ _ _ _ Hs H) as (? & ? & ? & ? & ? & Hc).
  repeat split; try done. by apply Hc.
Qed.

(** X3. Two different Steps with the same id cannot be attached under the
    same parent: after a Step that is not a source Step was added, adding
    another such Step with the same id under that parent fails with the
    duplicate-name error of the graph container. *)
Theorem addAndRecurse_same_id fuel fuel' s1 s2 parent st n1 st1 :
  parent < length (heap st) →
  added st !! s1 = None →
  isCodePipelineSource (step O s1) = false →
  isCodePipelineSource (step O s2) = false →
  step_id (step O s1) = step_id (step O s2) →
  addAndRecurse O fuel s1 parent st = Ok n1 st1 →
  added st1 !! s2 = None →
  addAndRecurse O (S fuel') s2 parent st1 =
    Throw (DuplicateChild parent (step_id (step O s2))).
Proof.
  intros Hp Hs1 Hsrc1 Hsrc2 Hid H1 Hs2.
  destruct (addAndRecurse_new_kept _ _ _ _ _ _ Hs1 H1) as (_ & _ & _ & _ & _ & Hc).
  specialize (Hc Hsrc1 Hp). rewrite Hid in Hc.
  apply lookupChild_elem in Hc as [c Hc].
  rewrite addAndRecurse_S, Hs2. unfold addNew.
  unfold bind at 1, GraphNode_of at 1, alloc at 1.
  rewrite Hsrc2. unfold bind at 1, ret at 1.
  unfold bind at 1, Graph_add at 1.
  rewrite node_alloc, decide_True by done. simpl.
  unfold tryGetChild. rewrite children_alloc by done.
  by rewrite Hc.
Qed.

End NewStep.

Lemma addAndRecurse_new_step_witness :
  ∃ n st',
    addAndRecurse demo 5 10 0 initial = Ok n st' ∧
    n = length (heap initial) ∧
    n_id (node st' n) = step_id (step demo 10) ∧
    data st' n = Some (AStep 10 false) ∧
    (step_id (step demo 10), n) ∈ children st' 0 ∧
    added st' !! 10 = Some n.
Proof.
  destruct (addAndRecurse demo 5 10 0 initial) as [n st'| |] eqn:E;
    [|vm_compute in E; discriminate E..].
  exists n, st'. split; [reflexivity|].
  apply (addAndRecurse_new_step demo 5 10 0 initial n st');
    [simpl; lia|reflexivity|reflexivity|exact E].
Defined.

Lemma addAndRecurse_same_id_witness :
  ∃ n1 st1,
    addAndRecurse twins 1 1 0 initial = Ok n1 st1 ∧
    addAndRecurse twins 1 2 0 st1 = Throw (DuplicateChild 0 (step_id (step twins 2))).
Proof.
  destruct (addAndRecurse twins 1 1 0 initial) as [n1 st1| |] eqn:E;
    [|vm_compute in E; discriminate E..].
  exists n1, st1. split; [reflexivity|].
  apply (addAndRecurse_same_id twins 1 0 1 2 0 initial n1 st1);
    [simpl; lia|reflexivity|reflexivity|reflexivity|reflexivity|exact E|].
  vm_compute in E. injection E as <- <-. reflexivity.
Defined.

(** ** The dependencies of a new Step node *)

Section StepDependencies.
Context (O : Objects).

Lemma memo_annotated_inj st s1 s2 n :
  memo_annotated st → added st !! s1 = Some n → added st !! s2 = Some n → s1 = s2.
Proof.
  intros H H1 H2. destruct (H _ _ H1) as [b1 Hb1]. destruct (H _ _ H2) as [b2 Hb2].
  congruence.
Qed.

End StepDependencies.

Lemma memo_annotated_initial : memo_annotated initial.
Proof. intros s n H. simpl in H. by rewrite lookup_empty in H. Qed.

(** ** The constructor, step by step *)

Section Constructor.
Context (O : Objects).

Lemma construct_steps fuel blueprint props ws st :
  construct O fuel blueprint props initial = Ok ws st →
  ∃ sn st0 ca st1 st2,
    addBuildStep O fuel (synthStep blueprint) initial = Ok sn st0 ∧
    match primaryOutput (step O (synthStep blueprint)) with
    | Some f => fileSetPrimaryOutput (fileSet O f)
    | None => None
    end = Some ca ∧
    (if selfMutation props then addSelfMutation sn else ret tt)
      (set_cloudAssemblyFileSet (Some ca)
         (set_lastPreparationNode (Some sn)
            (update_st sn markBuildStep (set_synthNode (Some sn) st0)))) = Ok tt st1 ∧
    mapM (addWave O fuel) (waves blueprint) st1 = Ok ws st2 ∧
    deploySequentially ws st2 = Ok tt st.
Proof.
  unfold construct. intros H.
  apply bind_Ok in H as (sn & st0 & Hsn & H).
  apply bind_Ok in H as (u1 & sta & H1 & H). mstep H1.
  apply bind_Ok in H as (u2 & stb & H2 & H). mstep H2.
  apply bind_Ok in H as (u3 & stc & H3 & H). mstep H3.
  match type of H with match ?x with _ => _ end _ = _ =>
    destruct x as [ca|] eqn:Eca; [|done] end.
  apply bind_Ok in H as (u4 & std & H4 & H). mstep H4.
  apply bind_Ok in H as (u5 & st1 & H5 & H).
  apply bind_Ok in H as (ws' & st2 & Hws & H).
  apply bind_Ok in H as (u6 & st3 & Hseq & H). mstep H.
  destruct u5, u6. exists sn, st0, ca, st1, st2. done.
Qed.

Lemma stable_tryGetChild g name r : stable (λ st, tryGetChild st g name = Some r).
Proof.
  split; try done.
  - intros x nd Hx [_ Hnd _]. unfold tryGetChild in *. by rewrite children_alloc.
  - intros x p c Hx. by apply tryGetChild_add_child.
  - intros x p c Hx. unfold tryGetChild in *. by rewrite children_dependOn.
  - intros x q l a Hx _ _. unfold tryGetChild, children in *. rewrite node_update.
    case_decide as Hc'; [|done]. by destruct Hc' as [-> _].
Qed.

Lemma tryGetChild_Build_initial : tryGetChild initial (graph initial) "Build" = None.
Proof. reflexivity. Qed.

(** The synth Step gets the first node after the root and the "Build"
    group, unless it is a source Step. *)
Lemma addBuildStep_initial fuel s sn st0 :
  addBuildStep O fuel s initial = Ok sn st0 →
  wf st0 ∧ memo_annotated st0 ∧ graph st0 = 0 ∧
  tryGetChild st0 0 "Build" = Some 1 ∧
  added st0 !! s = Some sn ∧ data st0 sn = Some (AStep s false) ∧
  n_id (node st0 sn) = step_id (step O s) ∧
  (isCodePipelineSource (step O s) = false → (step_id (step O s), sn) ∈ children st0 1).
Proof.
  intros H. pose proof (addBuildStep_Ok O _ _ _ _ _ wf_initial H) as (Hm & Hw & _).
  assert (memo_annotated st0) as Hmemo.
  { eapply keeps_addBuildStep; [apply stable_memo_annotated| |exact H].
    apply memo_annotated_initial. }
  unfold addBuildStep in H. apply bind_Ok in H as (b & stx & Hb & H).
  pose proof Hb as [[Hc _]|(_ & -> & ->)]%topLevelGraph_Ok; [done|].
  assert (added (update_st (graph initial) (add_child ("Build", length (heap initial)))
            (alloc_st {| n_id := "Build"; n_data := None; n_dependencies := [];
                         n_children := [] |} initial)) !! s = None) as Hs by done.
  pose proof (addAndRecurse_new_kept O _ _ _ _ _ _ Hs H) as (_ & _ & Hid & Hd & Ha & Hc).
  split; [done|]. split; [done|]. split; [by rewrite (m_graph _ _ _ Hm)|].
  split.
  { eapply (keeps_addAndRecurse O (λ x, tryGetChild x 0 "Build" = Some 1));
      [apply stable_tryGetChild| |exact H]. reflexivity. }
  split; [done|]. split; [done|]. split; [done|].
  intros Hsrc. apply Hc; [done|]. simpl. lia.
Qed.

Lemma data_markBuildStep st r n :
  data (update_st r markBuildStep st) n =
  if decide (n = r ∧ r < length (heap st))
  then match data st r with
       | Some (AStep s _) => Some (AStep s true)
       | d => d
       end
  else data st n.
Proof.
  unfold data. rewrite node_update. case_decide as Hc; [|done].
  unfold markBuildStep. destruct (n_data (node st r)) as [[]|] eqn:E; simpl; by rewrite ?E.
Qed.

Lemma children_markBuildStep st r n :
  children (update_st r markBuildStep st) n = children st n.
Proof.
  unfold children. rewrite node_update. case_decide as Hc; [|done].
  destruct Hc as [-> _]. unfold markBuildStep.
  by destruct (n_data (node st r)) as [[]|].
Qed.

Lemma deps_markBuildStep st r n :
  deps (update_st r markBuildStep st) n = deps st n.
Proof.
  unfold deps. rewrite node_update. case_decide as Hc; [|done].
  destruct Hc as [-> _]. unfold markBuildStep.
  by destruct (n_data (node st r)) as [[]|].
Qed.

Lemma stable_graph g : stable (λ st, graph st = g).
Proof. by split. Qed.

(** The self-mutation block keeps what every step keeps, if the two fields
    it sets do not matter. *)
Lemma addSelfMutation_keeps I sn st u st' :
  settled I →
  (∀ x n, I x → I (set_selfMutateNode n x)) →
  (∀ x n, I x → I (set_lastPreparationNode n x)) →
  I st → addSelfMutation sn st = Ok u st' → I st'.
Proof.
  intros HI Hsm Hlp H Hrun. unfold addSelfMutation in Hrun. msteps Hrun.
  apply Hlp. apply (settled_deps _ HI).
  apply (settled_child _ HI). apply Hsm.
  apply (settled_new _ HI); [|by split].
  apply (settled_child _ HI).
  apply (settled_new _ HI); [done|by split].
Qed.

Lemma node_set_selfMutateNode n st r : node (set_selfMutateNode n st) r = node st r.
Proof. done. Qed.

Lemma node_set_lastPreparationNode n st r :
  node (set_lastPreparationNode n st) r = node st r.
Proof. done. Qed.

Ltac node_eval :=
  unfold data, children, deps;
  repeat (first
    [ rewrite node_set_selfMutateNode | rewrite node_set_lastPreparationNode
    | rewrite node_update | rewrite node_alloc
    | rewrite decide_True by (first [solve_len | split; solve_len])
    | rewrite decide_False by (first [solve_len | intros [? ?]; solve_len]) ]).

(** What the self-mutation block builds. *)
Lemma addSelfMutation_Ok sn st u st' :
  graph st < length (heap st) →
  addSelfMutation sn st = Ok u st' →
  let up := length (heap st) in
  let sm := S (length (heap st)) in
  length (heap st') = S (S (length (heap st))) ∧
  added st' = added st ∧
  tryGetChild st' (graph st) "UpdatePipeline" = Some up ∧
  data st' up = Some AGroup ∧
  ("SelfMutate", sm) ∈ children st' up ∧
  data st' sm = Some ASelfUpdate ∧
  deps st' sm = [sn] ∧
  selfMutateNode st' = Some sm ∧
  lastPreparationNode st' = Some sm ∧
  synthNode st' = synthNode st ∧
  cloudAssemblyFileSet st' = cloudAssemblyFileSet st ∧
  mods [] st (set_lastPreparationNode (lastPreparationNode st) st').
Proof.
  intros Hroot Hrun. unfold addSelfMutation in Hrun.
  set (upN := {| n_id := "UpdatePipeline"; n_data := Some AGroup;
                 n_dependencies := []; n_children := [] |}).
  set (smN := {| n_id := "SelfMutate"; n_data := Some ASelfUpdate;
                 n_dependencies := []; n_children := [] |}).
  set (up := length (heap st)). set (sm := S (length (heap st))).
  assert (tryGetChild st (graph st) "UpdatePipeline" = None ∧
          st' = set_lastPreparationNode (Some sm)
                  (update_st sm (add_dependencies [sn])
                     (update_st up (add_child ("SelfMutate", sm))
                        (set_selfMutateNode (Some sm)
                           (alloc_st smN
                              (update_st (graph st) (add_child ("UpdatePipeline", up))
                                 (alloc_st upN st))))))) as [Hnone ->].
  { msteps Hrun. fold upN in Hname, Hname0 |- *. fold smN in Hname0 |- *.
    rewrite node_alloc, decide_True in Hname by done.
    unfold tryGetChild in Hname. rewrite children_alloc in Hname by done.
    split; [done|].
    rewrite !length_heap_update, !length_heap_alloc.
    rewrite (node_alloc st upN), decide_True by done.
    rewrite node_set_selfMutateNode, node_alloc, length_heap_update,
      length_heap_alloc, decide_True by done.
    done. }
  clear Hrun.
  split; [solve_len|]. split; [done|]. split.
  { apply (stable_add_dependencies _ (stable_tryGetChild _ _ _)).
    apply (stable_add_child _ (stable_tryGetChild _ _ _)).
    match goal with |- tryGetChild (set_selfMutateNode _ ?x) ?g ?k = ?r =>
      change (tryGetChild x g k = r) end.
    apply (stable_alloc _ (stable_tryGetChild _ _ _)); [|by split].
    unfold tryGetChild. rewrite children_add_child.
    rewrite decide_True by (split; [done|solve_len]).
    rewrite lookupChild_app, children_alloc by done.
    unfold tryGetChild in Hnone. rewrite Hnone.
    by rewrite lookupChild_singleton, decide_True. }
  split; [by node_eval|].
  split.
  { node_eval. simpl. by left. }
  split; [by node_eval|].
  split; [by node_eval|].
  split; [done|]. split; [done|]. split; [done|]. split; [done|].
  assert (∀ B s0 s n, mods B s0 s → mods B s0 (set_selfMutateNode n s)) as Hmsm
    by (intros ???? []; by split).
  match goal with |- mods [] st (set_lastPreparationNode _ (set_lastPreparationNode _ ?x)) =>
    cut (mods [] st x) end.
  { intros []. by split. }
  apply mods_add_deps; [|left; solve_len].
  apply mods_add_child; [|solve_len].
  apply Hmsm. apply mods_alloc; [|done].
  apply mods_add_child; [|solve_len].
  apply mods_alloc; [apply mods_refl|done].
Qed.

End Constructor.

(** ** The compiled graph *)

Lemma stable_build_step_is_synth : stable build_step_is_synth.
Proof.
  split; try done.
  - intros st nd H [_ _ Hnd] n s. rewrite data_alloc. case_decide; [|apply H].
    intros Hd. rewrite Hd in Hnd. done.
  - intros st p c H n s. rewrite data_add_child. apply H.
  - intros st p c H n s. rewrite data_add_dependencies. apply H.
  - intros st r l a H _ _ n s. rewrite data_push. case_decide; [done|apply H].
Qed.

Lemma build_step_is_synth_initial : build_step_is_synth initial.
Proof. intros [|n] s H; [done|]. unfold data in H. by rewrite node_dangling in H by (simpl; lia). Qed.

Lemma selectors_distinct_initial : selectors_distinct initial.
Proof. intros [|n] l H; [done|]. unfold data in H. by rewrite node_dangling in H by (simpl; lia). Qed.

Lemma deploySequentially_frame ws st u st' r :
  r ∉ ws → deploySequentially ws st = Ok u st' → deps st' r = deps st r.
Proof.
  intros Hr H. unfold deploySequentially in H.
  eapply (forEach_inv (λ x, deps x r = deps st r)); [|done|exact H].
  intros i x u1 x' _ Hx Hi. cbv beta in Hi.
  destruct (ws !! i) as [w|] eqn:Ei; [|done]. mstep Hi.
  rewrite deps_dependOn. case_decide as Hc; [|done]. destruct Hc as [-> _].
  destruct Hr. by eapply list_elem_of_lookup_2.
Qed.

Section Compiled.
Context (O : Objects).

(** The state after the synth Step has been added and marked, and the runs
    that follow it. *)
Lemma construct_prepared fuel blueprint props ws st :
  construct O fuel blueprint props initial = Ok ws st →
  ∃ sn ca stb st1 st2,
    (wf stb ∧ graph stb = 0 ∧ synthNode stb = Some sn ∧
     selfMutateNode stb = None ∧ lastPreparationNode stb = Some sn ∧
     cloudAssemblyFileSet stb = Some ca) ∧
    (added stb !! synthStep blueprint = Some sn ∧
     data stb sn = Some (AStep (synthStep blueprint) true) ∧
     tryGetChild stb 0 "Build" = Some 1 ∧
     (isCodePipelineSource (step O (synthStep blueprint)) = false →
      (step_id (step O (synthStep blueprint)), sn) ∈ children stb 1)) ∧
    (memo_annotated stb ∧ build_step_is_synth stb ∧ selectors_distinct stb ∧
     asset_memo_ok stb) ∧
    (if selfMutation props then addSelfMutation sn else ret tt) stb = Ok tt st1 ∧
    mapM (addWave O fuel) (waves blueprint) st1 = Ok ws st2 ∧
    deploySequentially ws st2 = Ok tt st.
Proof.
  intros (sn & st0 & ca & st1 & st2 & Hsn & Hca & Hblock & Hws & Hseq)%construct_steps.
  pose proof (addBuildStep_initial O _ _ _ _ Hsn)
    as (Hw0 & Hmemo0 & Hg0 & Hb0 & Ha0 & Hd0 & Hid0 & Hc0).
  assert (build_step_is_synth st0) as Hbs0.
  { eapply keeps_addBuildStep; [apply stable_build_step_is_synth| |exact Hsn].
    apply build_step_is_synth_initial. }
  assert (selectors_distinct st0) as Hsel0.
  { eapply keeps_addBuildStep; [apply stable_selectors_distinct| |exact Hsn].
    apply selectors_distinct_initial. }
  assert (asset_memo_ok st0) as Hok0.
  { eapply keeps_addBuildStep; [apply stable_asset_memo_ok| |exact Hsn].
    apply asset_memo_ok_initial. }
  pose proof (wf_added _ Hw0 _ _ Ha0) as Hsn0.
  set (stm := update_st sn markBuildStep (set_synthNode (Some sn) st0)) in *.
  set (stb := set_cloudAssemblyFileSet (Some ca) (set_lastPreparationNode (Some sn) stm)) in *.
  assert (∀ n, data stb n =
               if decide (n = sn) then Some (AStep (synthStep blueprint) true)
               else data st0 n) as Hdata.
  { intros n. change (data stb n) with (data stm n). unfold stm.
    rewrite data_markBuildStep.
    change (data (set_synthNode (Some sn) st0)) with (data st0).
    change (length (heap (set_synthNode (Some sn) st0))) with (length (heap st0)).
    rewrite Hd0. case_decide as Hc; case_decide as Hc'; try done.
    - by destruct Hc.
    - destruct Hc. by split. }
  assert (∀ n, children stb n = children st0 n) as Hchildren.
  { intros n. change (children stb n) with (children stm n). unfold stm.
    by rewrite children_markBuildStep. }
  exists sn, ca, stb, st1, st2. split; [|split; [|split]]; [| | |done].
  - split; [|split; [exact Hg0|split; [done|split; [|done]]]]; cycle 1.
    { change (selfMutateNode st0 = None).
      eapply (keeps_addBuildStep O (λ x, selfMutateNode x = None));
        [apply stable_selfMutateNode_field| |exact Hsn]. done. }
    apply wf_set_cloudAssemblyFileSet, wf_set_lastPreparationNode;
      [|unfold stm; solve_len].
    eapply (wf_mods []); [apply wf_set_synthNode, Hw0|].
    apply mods_markBuildStep. apply mods_refl.
  - split; [done|]. split; [by rewrite Hdata, decide_True|].
    split; [unfold tryGetChild in *; by rewrite Hchildren|].
    intros Hsrc. rewrite Hchildren. by apply Hc0.
  - split; [|split; [|split]].
    + intros s n Hs. change (added st0 !! s = Some n) in Hs.
      rewrite Hdata. case_decide as Hc.
      * subst. rewrite (memo_annotated_inj _ _ _ _ Hmemo0 Hs Ha0). by eexists.
      * by apply Hmemo0.
    + intros n s. rewrite Hdata. case_decide as Hc; [by subst|].
      intros Hn. apply Hbs0 in Hn. simpl.
      assert (synthNode st0 = None) as E; [|congruence].
      eapply (keeps_addBuildStep O (λ x, synthNode x = None));
        [apply stable_synthNode_field| |exact Hsn]. done.
    + intros n l. rewrite Hdata. case_decide; [done|]. apply Hsel0.
    + intros k n Hk. change (assetNodes st0 !! k = Some n) in Hk.
      destruct (Hok0 _ _ Hk) as [l Hl]. exists l. rewrite Hdata.
      case_decide; [|done]. subst. congruence.
Qed.

(** What every step keeps is kept from the marked synth node to the end of
    the construction. *)
Lemma construct_tail_keeps I fuel sn (sm : bool) ws0 stb st1 ws st2 st :
  stable I →
  (∀ x n, I x → I (set_selfMutateNode n x)) →
  (∀ x n, I x → I (set_lastPreparationNode n x)) →
  I stb →
  (if sm then addSelfMutation sn else ret tt) stb = Ok tt st1 →
  mapM (addWave O fuel) ws0 st1 = Ok ws st2 →
  deploySequentially ws st2 = Ok tt st →
  I st1 ∧ I st2 ∧ I st.
Proof.
  intros HI Hsm Hlp Hb Hblock Hws Hseq.
  assert (I st1) as H1.
  { destruct sm; [|by mstep Hblock].
    eapply addSelfMutation_keeps; [by apply stable_settled|done|done|done|done]. }
  assert (I st2) as H2 by by eapply keeps_waves.
  split; [done|]. split; [done|]. by eapply keeps_deploySequentially.
Qed.

(** X5. After construction, the [synthNode] field holds the node registered
    for the synth Step; [isSynthNode] answers true for that node and for no
    other; the node is annotated with the synth Step and is the only node
    with the [isBuildStep] mark; and unless the synth Step is a source Step
    the node is a child of the root's "Build" group. *)
Theorem construct_synth_node fuel blueprint props ws st :
  new_GraphFromBlueprint O fuel blueprint props = Ok ws st →
  ∃ sn,
    synthNode st = Some sn ∧
    (∀ n, isSynthNode st n = true ↔ n = sn) ∧
    added st !! synthStep blueprint = Some sn ∧
    (∀ n s, data st n = Some (AStep s true) ↔ n = sn ∧ s = synthStep blueprint) ∧
    ∃ build, tryGetChild st (graph st) "Build" = Some build ∧
      (isCodePipelineSource (step O (synthStep blueprint)) = false →
       (step_id (step O (synthStep blueprint)), sn) ∈ children st build).
Proof.
  unfold new_GraphFromBlueprint.
  intros (sn & ca & stb & st1 & st2 & (Hw & Hg & Hsyn & _) & (Ha & Hd & Hb & Hc) &
          (_ & Hbs & _) & Hblock & Hws & Hseq)%construct_prepared.
  set (J := λ x, (graph x = 0 ∧ synthNode x = Some sn) ∧
                 (added x !! synthStep blueprint = Some sn ∧
                  data x sn = Some (AStep (synthStep blueprint) true)) ∧
                 tryGetChild x 0 "Build" = Some 1 ∧ build_step_is_synth x).
  assert (stable J) as HJ.
  { apply stable_and; [apply stable_and; [apply stable_graph|apply stable_synthNode_field]|].
    apply stable_and; [apply stable_and; [apply stable_memo|by apply stable_data]|].
    apply stable_and; [apply stable_tryGetChild|apply stable_build_step_is_synth]. }
  assert (J st) as ((Hg' & Hsyn') & (Ha' & Hd') & Hb' & Hbs').
  { eapply (construct_tail_keeps J); [done| | | |exact Hblock|exact Hws|exact Hseq];
      [by intros x n ?|by intros x n ?|done]. }
  exists sn. split; [done|]. split.
  { intros n. unfold isSynthNode. rewrite bool_decide_eq_true, Hsyn'.
    split; [by intros [= ->]|by intros ->]. }
  split; [done|]. split.
  { intros n s. split.
    - intros Hn. pose proof (Hbs' _ _ Hn) as Hn'. rewrite Hsyn' in Hn'.
      injection Hn' as <-. split; [done|]. congruence.
    - by intros [-> ->]. }
  exists 1. rewrite Hg'. split; [done|]. intros Hsrc. specialize (Hc Hsrc).
  eapply (construct_tail_keeps (λ x, _ ∈ children x 1));
    [apply stable_child| | |exact Hc|exact Hblock|exact Hws|exact Hseq];
    by intros x n ?.
Qed.

(** X6. Self-mutation. When it is enabled, the root has a group
    "UpdatePipeline" whose child "SelfMutate" carries the self-update
    annotation and depends on the synth node and on nothing else, and that
    node is the last preparation node; when it is not, there is no
    self-mutation node and the last preparation node is the synth node. *)
Theorem construct_self_mutation fuel blueprint props ws st :
  new_GraphFromBlueprint O fuel blueprint props = Ok ws st →
  ∃ sn, synthNode st = Some sn ∧
    if selfMutation props
    then ∃ up sm,
           tryGetChild st (graph st) "UpdatePipeline" = Some up ∧
           data st up = Some AGroup ∧
           ("SelfMutate", sm) ∈ children st up ∧
           data st sm = Some ASelfUpdate ∧
           deps st sm = [sn] ∧
           selfMutateNode st = Some sm ∧
           lastPreparationNode st = Some sm
    else selfMutateNode st = None ∧ lastPreparationNode st = Some sn.
Proof.
  unfold new_GraphFromBlueprint.
  intros (sn & ca & stb & st1 & st2 & (Hw & Hg & Hsyn & Hsm & Hlp & _) & _ & _ &
          Hblock & Hws & Hseq)%construct_prepared.
  exists sn. split.
  { eapply (construct_tail_keeps (λ x, synthNode x = Some sn));
      [apply stable_synthNode_field| | |exact Hsyn|exact Hblock|exact Hws|exact Hseq];
      by intros x n ?. }
  destruct (selfMutation props).
  - pose proof (addSelfMutation_Ok _ _ _ _ (wf_graph _ Hw) Hblock)
      as (Hlen & Hadd & Hup & Hdup & Hchild & Hdsm & Hdeps & Hsmf & Hlpf & _ & _ & Hm).
    cbv zeta in *.
    set (up := length (heap stb)) in *. set (sm := S (length (heap stb))) in *.
    assert (wf st1) as Hw1.
    { assert (wf (set_lastPreparationNode (lastPreparationNode stb) st1)) as [? ? ? ?]
        by (by eapply wf_mods).
      split; try done. rewrite Hlpf. intros ? [= <-]. lia. }
    pose proof (mapM_addWave_Ok O _ _ _ _ _ Hw1 Hws) as (Hm2 & _ & Hall & _).
    set (J := λ x, (graph x = 0 ∧ tryGetChild x 0 "UpdatePipeline" = Some up) ∧
                   (data x up = Some AGroup ∧ data x sm = Some ASelfUpdate) ∧
                   ("SelfMutate", sm) ∈ children x up ∧
                   selfMutateNode x = Some sm ∧ lastPreparationNode x = Some sm).
    assert (stable J) as HJ.
    { apply stable_and; [apply stable_and; [apply stable_graph|apply stable_tryGetChild]|].
      apply stable_and; [apply stable_and; by apply stable_data|].
      apply stable_and; [apply stable_child|].
      apply stable_and; [apply stable_selfMutateNode_field|apply stable_preparation]. }
    assert (J st1) as H1.
    { unfold J. rewrite <-Hg at 2. split; [split; [|done]|done].
      destruct Hm as [Hmg _ _ _ _ _ _ _]. simpl in Hmg. congruence. }
    assert (J st) as ((Hg' & Hup') & (Hdup' & Hdsm') & Hchild' & Hsmf' & Hlpf').
    { eapply keeps_deploySequentially; [done| |exact Hseq].
      eapply keeps_waves; [done| |exact Hws]. done. }
    exists up, sm. rewrite Hg'. repeat (split; [done|]). split; [|done].
    assert (sm ∉ ws) as Hsmws.
    { intros (i & Hi)%list_elem_of_lookup_1. destruct (Hall _ _ Hi) as (? & _). lia. }
    rewrite (deploySequentially_frame _ _ _ _ _ Hsmws Hseq).
    rewrite (m_frame _ _ _ Hm2); [done|].
    intros [?|[[s Hs]|Hb]]; [lia| |by apply elem_of_nil in Hb].
    rewrite Hadd in Hs. apply (wf_added _ Hw) in Hs. lia.
  - mstep Hblock.
    eapply (keeps_deploySequentially
              (λ x, selfMutateNode x = None ∧ lastPreparationNode x = Some sn));
      [| |exact Hseq].
    { apply stable_and; [apply stable_selfMutateNode_field|apply stable_preparation]. }
    eapply (keeps_waves O (λ x, selfMutateNode x = None ∧ lastPreparationNode x = Some sn));
      [| |exact Hws]; [|done].
    apply stable_and; [apply stable_selfMutateNode_field|apply stable_preparation].
Qed.

(** X7. Every wave waits for the preparation: after construction the graph
    of the first wave depends on the last preparation node (the synth node,
    or "SelfMutate" under self-mutation) and on nothing else, and the graph
    of every later wave depends on that node and on the graph of the wave
    before it, in this order, and on nothing else. *)
Theorem construct_wave_dependencies fuel blueprint props ws st :
  new_GraphFromBlueprint O fuel blueprint props = Ok ws st →
  ∃ lp, lastPreparationNode st = Some lp ∧
    (∀ w, ws !! 0 = Some w → deps st w = [lp]) ∧
    (∀ i w w', ws !! i = Some w → ws !! S i = Some w' → deps st w' = [lp; w]).
Proof.
  unfold new_GraphFromBlueprint. intros H.
  pose proof H as (st1 & st2 & lp & ca & Hw1 & Hlp & _ & _ & Hws & Hseq)%construct_Ok.
  pose proof (mapM_addWave_Ok O _ _ _ _ _ Hw1 Hws) as (Hm & Hlen & Hall & Hsort).
  exists lp. split.
  { eapply (keeps_deploySequentially (λ x, lastPreparationNode x = Some lp));
      [apply stable_preparation| |exact Hseq].
    by rewrite (m_lp _ _ _ Hm). }
  assert (Hnd : NoDup ws).
  { apply NoDup_alt. intros i j w Hi Hj.
    destruct (Nat.lt_trichotomy i j) as [Hlt|[?|Hlt]]; [|done|].
    - pose proof (Hsort _ _ _ _ Hi Hj Hlt). lia.
    - pose proof (Hsort _ _ _ _ Hj Hi Hlt). lia. }
  assert (Hb : ∀ w, w ∈ ws → w < length (heap st2)).
  { intros w (k & Hk)%list_elem_of_lookup_1. by apply (Hall k w Hk). }
  unfold deploySequentially in Hseq.
  pose proof (deploySequentially_loop ws _ _ _ _ (NoDup_seq _ _) Hnd Hb Hseq) as Hdeps.
  split.
  - intros w Hw. rewrite (Hdeps 0 w Hw). destruct (Hall 0 w Hw) as (_ & -> & _).
    rewrite Hlp. rewrite decide_False; [done|]. intros [? ?]%elem_of_seq. lia.
  - intros i w w' Hi Hi'. rewrite (Hdeps (S i) w' Hi').
    destruct (Hall _ _ Hi') as (_ & -> & _). rewrite Hlp.
    pose proof (lookup_lt_Some _ _ _ Hi') as Hlt.
    rewrite decide_True by (apply elem_of_seq; lia).
    replace (S i - 1) with i by lia. by rewrite Hi.
Qed.

(** X8. After construction, the node registered for a Step is annotated
    with that Step, so two different Steps never share a node; and no
    publish node lists two assets with the same selector. *)
Theorem construct_memo_and_selectors fuel blueprint props ws st :
  new_GraphFromBlueprint O fuel blueprint props = Ok ws st →
  (∀ s n, added st !! s = Some n → ∃ b, data st n = Some (AStep s b)) ∧
  (∀ s1 s2 n, added st !! s1 = Some n → added st !! s2 = Some n → s1 = s2) ∧
  (∀ n l, data st n = Some (APublishAssets l) → NoDup (assetSelector <$> l)).
Proof.
  unfold new_GraphFromBlueprint.
  intros (sn & ca & stb & st1 & st2 & _ & _ & (Hmemo & _ & Hsel & _) &
          Hblock & Hws & Hseq)%construct_prepared.
  assert (memo_annotated st ∧ selectors_distinct st) as [Hmemo' Hsel'].
  { eapply (construct_tail_keeps (λ x, memo_annotated x ∧ selectors_distinct x));
      [| | |exact (conj Hmemo Hsel)|exact Hblock|exact Hws|exact Hseq].
    - apply stable_and; [apply stable_memo_annotated|apply stable_selectors_distinct].
    - by intros x n ?.
    - by intros x n ?. }
  split; [done|]. split; [|done].
  intros s1 s2 n. by apply memo_annotated_inj.
Qed.

End Compiled.

Lemma construct_synth_node_witness :
  ∃ ws st,
    new_GraphFromBlueprint demo 3 demo_blueprint {| selfMutation := true |}
      = Ok ws st ∧
    ∃ sn,
      synthNode st = Some sn ∧
      (∀ n, isSynthNode st n = true ↔ n = sn) ∧
      added st !! synthStep demo_blueprint = Some sn ∧
      (∀ n s, data st n = Some (AStep s true) ↔ n = sn ∧ s = synthStep demo_blueprint) ∧
      ∃ build, tryGetChild st (graph st) "Build" = Some build ∧
        (isCodePipelineSource (step demo (synthStep demo_blueprint)) = false →
         (step_id (step demo (synthStep demo_blueprint)), sn) ∈ children st build).
Proof.
  destruct (new_GraphFromBlueprint demo 3 demo_blueprint {| selfMutation := true |})
    as [ws st| |] eqn:E.
  - exists ws, st. split; [reflexivity|].
    exact (construct_synth_node demo 3 demo_blueprint _ ws st E).
  - vm_compute in E. discriminate E.
  - vm_compute in E. discriminate E.
Defined.

Lemma construct_self_mutation_witness :
  ∃ ws st,
    new_GraphFromBlueprint demo 3 demo_blueprint {| selfMutation := true |}
      = Ok ws st ∧
    ∃ sn, synthNode st = Some sn ∧
      ∃ up sm,
        tryGetChild st (graph st) "UpdatePipeline" = Some up ∧
        data st up = Some AGroup ∧
        ("SelfMutate", sm) ∈ children st up ∧
        data st sm = Some ASelfUpdate ∧
        deps st sm = [sn] ∧
        selfMutateNode st = Some sm ∧
        lastPreparationNode st = Some sm.
Proof.
  destruct (new_GraphFromBlueprint demo 3 demo_blueprint {| selfMutation := true |})
    as [ws st| |] eqn:E.
  - exists ws, st. split; [reflexivity|].
    exact (construct_self_mutation demo 3 demo_blueprint {| selfMutation := true |} ws st E).
  - vm_compute in E. discriminate E.
  - vm_compute in E. discriminate E.
Defined.

Lemma construct_wave_dependencies_witness :
  ∃ ws st,
    new_GraphFromBlueprint demo 3 demo_blueprint {| selfMutation := true |}
      = Ok ws st ∧
    ∃ lp, lastPreparationNode st = Some lp ∧
      (∀ w, ws !! 0 = Some w → deps st w = [lp]) ∧
      (∀ i w w', ws !! i = Some w → ws !! S i = Some w' → deps st w' = [lp; w]).
Proof.
  destruct (new_GraphFromBlueprint demo 3 demo_blueprint {| selfMutation := true |})
    as [ws st| |] eqn:E.
  - exists ws, st. split; [reflexivity|].
    exact (construct_wave_dependencies demo 3 demo_blueprint _ ws st E).
  - vm_compute in E. discriminate E.
  - vm_compute in E. discriminate E.
Defined.

Lemma construct_memo_and_selectors_witness :
  ∃ ws st,
    new_GraphFromBlueprint demo 3 demo_blueprint {| selfMutation := false |}
      = Ok ws st ∧
    (∀ s n, added st !! s = Some n → ∃ b, data st n = Some (AStep s b)) ∧
    (∀ s1 s2 n, added st !! s1 = Some n → added st !! s2 = Some n → s1 = s2) ∧
    (∀ n l, data st n = Some (APublishAssets l) → NoDup (assetSelector <$> l)).
Proof.
  destruct (new_GraphFromBlueprint demo 3 demo_blueprint {| selfMutation := false |})
    as [ws st| |] eqn:E.
  - exists ws, st. split; [reflexivity|].
    exact (construct_memo_and_selectors demo 3 demo_blueprint _ ws st E).
  - vm_compute in E. discriminate E.
  - vm_compute in E. discriminate E.
Defined.

(** ** Publishing assets *)

Lemma topLevelGraph_found name st g st' :
  graph st < length (heap st) →
  topLevelGraph name st = Ok g st' →
  graph st' = graph st ∧ tryGetChild st' (graph st) name = Some g ∧
  length (heap st) ≤ length (heap st') ∧
  ((st' = st ∧ tryGetChild st (graph st) name = Some g) ∨
   (g = length (heap st) ∧ g ≠ graph st ∧ children st' g = [] ∧
    tryGetChild st (graph st) name = None)).
Proof.
  intros Hroot [[Hc ->]|(Hnone & -> & ->)]%topLevelGraph_Ok.
  - split; [done|]. split; [done|]. split; [done|]. by left.
  - split; [done|].
    set (nd := {| n_id := name; n_data := None; n_dependencies := [];
                  n_children := [] |}).
    split; [|split; [solve_len|right]].
    + unfold tryGetChild. rewrite children_add_child.
      rewrite decide_True by (split; [done|rewrite length_heap_alloc; lia]).
      rewrite lookupChild_app, children_alloc by done.
      unfold tryGetChild in Hnone. rewrite Hnone.
      by rewrite lookupChild_singleton, decide_True.
    + split; [done|]. split; [lia|]. split; [|done].
      rewrite children_add_child, decide_False by (intros []; lia).
      unfold children. by rewrite node_alloc, decide_True.
Qed.

Lemma children_push st r d n :
  children (update_st r (set_data d) st) n = children st n.
Proof.
  unfold children. rewrite node_update. case_decide as Hc; [|done].
  by destruct Hc as [-> _].
Qed.

Lemma deps_push st r d n : deps (update_st r (set_data d) st) n = deps st n.
Proof.
  unfold deps. rewrite node_update. case_decide as Hc; [|done].
  by destruct Hc as [-> _].
Qed.

Lemma FileAsset_inj (k k' : nat) : "FileAsset" +:+ pretty k = "FileAsset" +:+ pretty k' → k = k'.
Proof. intros H. apply (inj (String.app _)) in H. by apply (inj pretty) in H. Qed.

Lemma DockerAsset_inj (k k' : nat) :
  "DockerAsset" +:+ pretty k = "DockerAsset" +:+ pretty k' → k = k'.
Proof. intros H. apply (inj (String.app _)) in H. by apply (inj pretty) in H. Qed.

Lemma FileAsset_DockerAsset (k k' : nat) :
  "FileAsset" +:+ pretty k ≠ "DockerAsset" +:+ pretty k'.
Proof. intros H. by injection H. Qed.

(** The state in which the new publish node is created ([st2]: the "Assets"
    group exists and the memoized node, if any, has got the asset), and the
    state the call leaves. *)
Lemma publishAsset_steps a st n st' :
  publishAsset a st = Ok n st' →
  ∃ g st1 st2,
    topLevelGraph "Assets" st = Ok g st1 ∧
    (st2 = st1 ∨
     ∃ an l, assetNodes st1 !! assetId a = Some an ∧
             data st1 an = Some (APublishAssets l) ∧
             existsb (λ x, String.eqb (assetSelector x) (assetSelector a)) l = false ∧
             st2 = update_st an (set_data (Some (APublishAssets (l ++ [a])))) st1) ∧
    let st3 := match assetType a with
               | FILE => set_fileAssetCtr (S (_fileAssetCtr st2)) st2
               | DOCKER_IMAGE => set_dockerAssetCtr (S (_dockerAssetCtr st2)) st2
               end in
    let name := match assetType a with
                | FILE => "FileAsset" +:+ pretty (S (_fileAssetCtr st2))
                | DOCKER_IMAGE => "DockerAsset" +:+ pretty (S (_dockerAssetCtr st2))
                end in
    let nd := {| n_id := name; n_data := Some (APublishAssets [a]);
                 n_dependencies := []; n_children := [] |} in
    n = length (heap st2) ∧
    tryGetChild st2 g name = None ∧
    st' = update_st n (add_dependencies (omap id [lastPreparationNode st2]))
            (update_st g (add_child (name, n))
               (set_assetNodes (<[assetId a := n]> (assetNodes st2))
                  (alloc_st nd st3))).
Proof.
  unfold publishAsset. intros H.
  apply bind_Ok in H as (g & st1 & Htop & H).
  apply bind_Ok in H as (an & st1' & Hg & H). mstep Hg.
  apply bind_Ok in H as (u & st2 & Hupd & H).
  apply bind_Ok in H as (name & st3 & Hnm & H).
  exists g, st1, st2. split; [done|]. split.
  { destruct (assetNodes st1 !! _) as [an|] eqn:Ean; [|mstep Hupd; by left].
    msteps Hupd. destruct (data st1 an) as [[]|] eqn:Ed; try (by mstep Hupd).
    destruct (existsb _ _) eqn:Eex; mstep Hupd; [by left|].
    right. by exists an, assets. }
  cbv zeta. clear Hupd Htop.
  assert (∀ m x r, node (set_assetNodes m x) r = node x r) as Hnode by done.
  assert (∀ m x r, children (set_assetNodes m x) r = children x r) as Hch by done.
  unfold nextAssetName in Hnm.
  destruct (assetType a); msteps Hnm; msteps H.
  - rewrite Hnode, node_alloc, decide_True in Hname by done. simpl in Hname.
    unfold tryGetChild in Hname. rewrite Hch, children_alloc in Hname by done.
    split; [done|]. split; [done|].
    rewrite Hnode, node_alloc, decide_True by done. done.
  - rewrite Hnode, node_alloc, decide_True in Hname by done. simpl in Hname.
    unfold tryGetChild in Hname. rewrite Hch, children_alloc in Hname by done.
    split; [done|]. split; [done|].
    rewrite Hnode, node_alloc, decide_True by done. done.
Qed.

Lemma node_set_assetNodes m st r : node (set_assetNodes m st) r = node st r.
Proof. done. Qed.

Lemma node_set_fileAssetCtr c st r : node (set_fileAssetCtr c st) r = node st r.
Proof. done. Qed.

Lemma node_set_dockerAssetCtr c st r : node (set_dockerAssetCtr c st) r = node st r.
Proof. done. Qed.

(** Evaluate a read of a node after a sequence of updates. *)
Ltac node_eval :=
  unfold data, children, deps;
  repeat (first
    [ rewrite node_set_selfMutateNode | rewrite node_set_lastPreparationNode
    | rewrite node_set_assetNodes | rewrite node_set_fileAssetCtr
    | rewrite node_set_dockerAssetCtr
    | rewrite node_update | rewrite node_alloc
    | rewrite decide_True by (first [solve_len | split; solve_len])
    | rewrite decide_False by (first [solve_len | intros [? ?]; solve_len]) ]).

(** X9. [publishAsset] returns a node it has just created: it lists the one
    asset, depends on the last preparation node and on nothing else, is
    registered for the asset's id, and is a child of the "Assets" group
    under a name made of the asset's type and the advanced counter of that
    type; the counter of the other type stays as it is. *)
Theorem publishAsset_new_node a st n st' :
  wf st →
  publishAsset a st = Ok n st' →
  length (heap st) ≤ n ∧
  data st' n = Some (APublishAssets [a]) ∧
  deps st' n = omap id [lastPreparationNode st] ∧
  assetNodes st' = <[assetId a := n]> (assetNodes st) ∧
  (∃ g, tryGetChild st' (graph st') "Assets" = Some g ∧
        (n_id (node st' n), n) ∈ children st' g) ∧
  match assetType a with
  | FILE =>
      n_id (node st' n) = "FileAsset" +:+ pretty (S (_fileAssetCtr st)) ∧
      _fileAssetCtr st' = S (_fileAssetCtr st) ∧
      _dockerAssetCtr st' = _dockerAssetCtr st
  | DOCKER_IMAGE =>
      n_id (node st' n) = "DockerAsset" +:+ pretty (S (_dockerAssetCtr st)) ∧
      _dockerAssetCtr st' = S (_dockerAssetCtr st) ∧
      _fileAssetCtr st' = _fileAssetCtr st
  end.
Proof.
  intros Hw H.
  destruct (publishAsset_steps _ _ _ _ H) as (g & st1 & st2 & Htop & Hst2 & Hn & Hnone & ->).
  cbv zeta in *.
  pose proof (topLevelGraph_found _ _ _ _ (wf_graph _ Hw) Htop) as (Hg1 & Hc1 & Hl1 & _).
  assert (wf st1) as Hw1 by (eapply wf_mods; [done|by eapply topLevelGraph_mods]).
  pose proof (topLevelGraph_bound _ _ _ _ Hw Htop) as Hgb.
  assert (assetNodes st1 = assetNodes st ∧ _fileAssetCtr st1 = _fileAssetCtr st ∧
          _dockerAssetCtr st1 = _dockerAssetCtr st ∧
          lastPreparationNode st1 = lastPreparationNode st) as (Ha1 & Hf1 & Hd1 & Hlp1).
  { by apply topLevelGraph_Ok in Htop as [[_ ->]|(_ & _ & ->)]. }
  assert (length (heap st2) = length (heap st1) ∧ graph st2 = graph st ∧
          assetNodes st2 = assetNodes st ∧ _fileAssetCtr st2 = _fileAssetCtr st ∧
          _dockerAssetCtr st2 = _dockerAssetCtr st ∧
          lastPreparationNode st2 = lastPreparationNode st ∧
          tryGetChild st2 (graph st) "Assets" = Some g)
    as (Hl2 & Hg2 & Ha2 & Hf2 & Hd2 & Hlp2 & Hc2).
  { destruct Hst2 as [->|(an & l & _ & _ & _ & ->)]; [done|].
    rewrite length_heap_update. repeat (split; [done|]).
    unfold tryGetChild. by rewrite children_push. }
  subst n. split; [lia|].
  assert (g ≠ length (heap st2)) as Hgn by lia.
  destruct (assetType a).
  - split; [by node_eval|]. split; [node_eval; simpl; by rewrite Hlp2|].
    split; [simpl; by rewrite Ha2|]. split.
    { exists g. split.
      - match goal with |- tryGetChild ?x (graph ?x) _ = _ =>
          change (graph x) with (graph st2) end.
        rewrite Hg2.
        apply (stable_add_dependencies _ (stable_tryGetChild _ _ _)).
        apply (stable_add_child _ (stable_tryGetChild _ _ _)).
        unfold tryGetChild.
        change (lookupChild "Assets" (children (alloc_st
          {| n_id := "FileAsset" +:+ pretty (S (_fileAssetCtr st2));
             n_data := Some (APublishAssets [a]); n_dependencies := [];
             n_children := [] |} st2) (graph st)) = Some g).
        by rewrite children_alloc.
      - node_eval. simpl. apply elem_of_app. right. by left. }
    split; [node_eval; unfold add_dependencies; cbn [n_id]; by rewrite Hf2|].
    split; [simpl; by rewrite Hf2|done].
  - split; [by node_eval|]. split; [node_eval; simpl; by rewrite Hlp2|].
    split; [simpl; by rewrite Ha2|]. split.
    { exists g. split.
      - match goal with |- tryGetChild ?x (graph ?x) _ = _ =>
          change (graph x) with (graph st2) end.
        rewrite Hg2.
        apply (stable_add_dependencies _ (stable_tryGetChild _ _ _)).
        apply (stable_add_child _ (stable_tryGetChild _ _ _)).
        unfold tryGetChild.
        change (lookupChild "Assets" (children (alloc_st
          {| n_id := "DockerAsset" +:+ pretty (S (_dockerAssetCtr st2));
             n_data := Some (APublishAssets [a]); n_dependencies := [];
             n_children := [] |} st2) (graph st)) = Some g).
        by rewrite children_alloc.
      - node_eval. simpl. apply elem_of_app. right. by left. }
    split; [node_eval; unfold add_dependencies; cbn [n_id]; by rewrite Hd2|].
    split; [simpl; by rewrite Hd2|done].
Qed.

Lemma publishAsset_new_node_witness :
  ∃ n st',
    publishAsset asset1 initial = Ok n st' ∧
    length (heap initial) ≤ n ∧
    data st' n = Some (APublishAssets [asset1]) ∧
    deps st' n = omap id [lastPreparationNode initial] ∧
    assetNodes st' = <[assetId asset1 := n]> (assetNodes initial) ∧
    (∃ g, tryGetChild st' (graph st') "Assets" = Some g ∧
          (n_id (node st' n), n) ∈ children st' g) ∧
    n_id (node st' n) = "FileAsset" +:+ pretty (S (_fileAssetCtr initial)) ∧
    _fileAssetCtr st' = S (_fileAssetCtr initial) ∧
    _dockerAssetCtr st' = _dockerAssetCtr initial.
Proof.
  destruct (publishAsset asset1 initial) as [n st'| |] eqn:E;
    [|vm_compute in E; discriminate E..].
  exists n, st'. split; [reflexivity|].
  exact (publishAsset_new_node asset1 initial n st' wf_initial E).
Defined.

(** ** Asset names never collide *)

Lemma asset_names_used_initial : asset_names_used initial.
Proof. intros g name c H. done. Qed.

(** From the state after the memo lookup, the rest of [publishAsset] returns
    if the children of the "Assets" group are named after used counter
    values. *)
Lemma publishAsset_tail_total a g st :
  (∀ name c, (name, c) ∈ children st g →
     (∃ k, name = "FileAsset" +:+ pretty k ∧ k ≤ _fileAssetCtr st) ∨
     (∃ k, name = "DockerAsset" +:+ pretty k ∧ k ≤ _dockerAssetCtr st)) →
  ∃ n st',
    (let* id := nextAssetName a in
     let* newNode := GraphNode_of id (APublishAssets [a]) in
     modify (λ st, set_assetNodes (<[assetId a := newNode]> (assetNodes st)) st) ;;;
     Graph_add g newNode ;;;
     let* lp := gets lastPreparationNode in
     dependOn newNode [lp] ;;; ret newNode) st = Ok n st'.
Proof.
  intros Hnames.
  unfold nextAssetName, bind, GraphNode_of, alloc, modify, gets, Graph_add,
    dependOn, updateNode, modify, ret.
  destruct (assetType a).
  - rewrite node_set_assetNodes, node_alloc.
    rewrite decide_True by done. cbn [n_id].
    unfold tryGetChild.
    change (children (set_assetNodes ?m ?x) g) with (children x g).
    rewrite children_alloc by done.
    change (children (set_fileAssetCtr ?c st) g) with (children st g).
    destruct (lookupChild _ (children st g)) as [c|] eqn:E; [|by eexists _, _].
    apply lookupChild_Some in E.
    destruct (Hnames _ _ E) as [(k & Hk & Hle)|(k & Hk & Hle)].
    + apply FileAsset_inj in Hk. simpl in Hk. lia.
    + by apply FileAsset_DockerAsset in Hk.
  - rewrite node_set_assetNodes, node_alloc.
    rewrite decide_True by done. cbn [n_id].
    unfold tryGetChild.
    change (children (set_assetNodes ?m ?x) g) with (children x g).
    rewrite children_alloc by done.
    change (children (set_dockerAssetCtr ?c st) g) with (children st g).
    destruct (lookupChild _ (children st g)) as [c|] eqn:E; [|by eexists _, _].
    apply lookupChild_Some in E.
    destruct (Hnames _ _ E) as [(k & Hk & Hle)|(k & Hk & Hle)].
    + symmetry in Hk. by apply FileAsset_DockerAsset in Hk.
    + apply DockerAsset_inj in Hk. simpl in Hk. lia.
Qed.

Lemma publishAsset_total a st :
  graph st < length (heap st) →
  asset_memo_ok st → asset_names_used st →
  ∃ n st', publishAsset a st = Ok n st'.
Proof.
  intros Hroot Hok Hnames.
  destruct (topLevelGraph_total "Assets" st) as (g & st1 & Htop).
  pose proof (topLevelGraph_found _ _ _ _ Hroot Htop) as (Hg1 & Hc1 & Hl1 & Hcase).
  assert (asset_memo_ok st1) as Hok1
    by (eapply keeps_topLevelGraph; [apply stable_asset_memo_ok|done|done]).
  assert (_fileAssetCtr st1 = _fileAssetCtr st ∧
          _dockerAssetCtr st1 = _dockerAssetCtr st) as [Hf1 Hd1].
  { by apply topLevelGraph_Ok in Htop as [[_ ->]|(_ & _ & ->)]. }
  assert (∀ name c, (name, c) ∈ children st1 g →
     (∃ k, name = "FileAsset" +:+ pretty k ∧ k ≤ _fileAssetCtr st1) ∨
     (∃ k, name = "DockerAsset" +:+ pretty k ∧ k ≤ _dockerAssetCtr st1)) as Hn1.
  { intros name c Hc. destruct Hcase as [[-> Hfound]|(_ & _ & Hnil & _)].
    - by eapply Hnames.
    - rewrite Hnil in Hc. by apply elem_of_nil in Hc. }
  unfold publishAsset. unfold bind at 1. rewrite Htop.
  unfold bind at 1, gets at 1. unfold bind at 1.
  destruct (assetNodes st1 !! assetId a) as [an|] eqn:Ean; [|by apply publishAsset_tail_total].
  destruct (Hok1 _ _ Ean) as [l Hl].
  unfold bind at 1, gets at 1. rewrite Hl.
  destruct (existsb _ l); [by apply publishAsset_tail_total|].
  apply publishAsset_tail_total.
  intros name c. rewrite children_push. apply Hn1.
Qed.

Lemma publishAsset_names a st n st' :
  graph st < length (heap st) →
  asset_names_used st →
  publishAsset a st = Ok n st' →
  graph st' = graph st ∧ asset_names_used st'.
Proof.
  intros Hroot Hnames H.
  destruct (publishAsset_steps _ _ _ _ H) as (g & st1 & st2 & Htop & Hst2 & Hn & Hnone & ->).
  cbv zeta in *.
  pose proof (topLevelGraph_found _ _ _ _ Hroot Htop) as (Hg1 & Hc1 & Hl1 & Hcase).
  assert (_fileAssetCtr st1 = _fileAssetCtr st ∧
          _dockerAssetCtr st1 = _dockerAssetCtr st) as [Hf1 Hd1].
  { by apply topLevelGraph_Ok in Htop as [[_ ->]|(_ & _ & ->)]. }
  assert (graph st2 = graph st ∧ _fileAssetCtr st2 = _fileAssetCtr st ∧
          _dockerAssetCtr st2 = _dockerAssetCtr st ∧
          tryGetChild st2 (graph st) "Assets" = Some g ∧
          ∀ r, children st2 r = children st1 r) as (Hg2 & Hf2 & Hd2 & Hc2 & Hch2).
  { destruct Hst2 as [->|(an & l & _ & _ & _ & ->)]; [done|].
    repeat (split; [done|]). split; [|intros r; by rewrite children_push].
    unfold tryGetChild. by rewrite children_push. }
  assert (∀ name c, (name, c) ∈ children st2 g →
     (∃ k, name = "FileAsset" +:+ pretty k ∧ k ≤ _fileAssetCtr st) ∨
     (∃ k, name = "DockerAsset" +:+ pretty k ∧ k ≤ _dockerAssetCtr st)) as Hn2.
  { intros name c. rewrite Hch2. intros Hc.
    destruct Hcase as [[-> Hfound]|(_ & _ & Hnil & _)].
    - by eapply Hnames.
    - rewrite Hnil in Hc. by apply elem_of_nil in Hc. }
  split; [by destruct (assetType a)|].
  intros g' name c.
  destruct (assetType a).
  all: match goal with |- tryGetChild ?x (graph ?x) _ = _ → _ =>
         change (graph x) with (graph st2) end.
  all: rewrite Hg2; intros Hg'.
  all: match type of Hg' with tryGetChild ?x _ _ = _ =>
         assert (tryGetChild x (graph st) "Assets" = Some g) as Hg end.
  1, 3: apply (stable_add_dependencies _ (stable_tryGetChild _ _ _)),
          (stable_add_child _ (stable_tryGetChild _ _ _));
        unfold tryGetChild;
        change (children (set_assetNodes ?m ?x) (graph st)) with (children x (graph st));
        by rewrite children_alloc.
  all: assert (g' = g) as -> by congruence.
  all: rewrite children_dependOn, children_add_child.
  all: change (children (set_assetNodes ?m ?x) g) with (children x g).
  all: rewrite children_alloc by done.
  - change (children (set_fileAssetCtr (S (_fileAssetCtr st2)) st2) g)
      with (children st2 g).
    assert ((name, c) ∈ children st2 g →
      (∃ k, name = "FileAsset" +:+ pretty k ∧ k ≤ S (_fileAssetCtr st2)) ∨
      (∃ k, name = "DockerAsset" +:+ pretty k ∧ k ≤ _dockerAssetCtr st2)) as Hold.
    { intros Hc. destruct (Hn2 _ _ Hc) as [(k & -> & Hk)|(k & -> & Hk)]; [left|right];
        exists k; (split; [done|]); lia. }
    case_decide as Hdec; [|exact Hold].
    intros [Hc|Hc]%elem_of_app; [by apply Hold|].
    apply list_elem_of_singleton in Hc. injection Hc as -> ->.
    left. eexists. split; [done|]. simpl. lia.
  - change (children (set_dockerAssetCtr (S (_dockerAssetCtr st2)) st2) g)
      with (children st2 g).
    assert ((name, c) ∈ children st2 g →
      (∃ k, name = "FileAsset" +:+ pretty k ∧ k ≤ _fileAssetCtr st2) ∨
      (∃ k, name = "DockerAsset" +:+ pretty k ∧ k ≤ S (_dockerAssetCtr st2))) as Hold.
    { intros Hc. destruct (Hn2 _ _ Hc) as [(k & -> & Hk)|(k & -> & Hk)]; [left|right];
        exists k; (split; [done|]); lia. }
    case_decide as Hdec; [|exact Hold].
    intros [Hc|Hc]%elem_of_app; [by apply Hold|].
    apply list_elem_of_singleton in Hc. injection Hc as -> ->.
    right. eexists. split; [done|]. simpl. lia.
Qed.

(** X10. Publishing never fails for a name: in a state where the asset memo
    is in order and the children of the "Assets" group are named after used
    counter values (as in the initial state), any sequence of
    [publishAsset] calls returns, with a new node for every call, and leaves
    such a state. *)
Theorem publishAsset_never_collides assets : ∀ st,
  graph st < length (heap st) →
  asset_memo_ok st → asset_names_used st →
  ∃ ns st',
    mapM publishAsset assets st = Ok ns st' ∧
    length ns = length assets ∧
    Forall (λ n, length (heap st) ≤ n < length (heap st')) ns ∧ NoDup ns ∧
    graph st' < length (heap st') ∧ asset_memo_ok st' ∧ asset_names_used st'.
Proof.
  induction assets as [|a assets IH]; intros st Hroot Hok Hnames.
  { exists [], st. repeat split; try done; constructor. }
  destruct (publishAsset_total a st Hroot Hok Hnames) as (n & st1 & H1).
  pose proof (publishAsset_mods _ _ _ _ H1) as [Hm Hn].
  pose proof (publishAsset_names _ _ _ _ Hroot Hnames H1) as [Hg1 Hnames1].
  assert (asset_memo_ok st1) as Hok1
    by (eapply keeps_publishAsset; [apply stable_asset_memo_ok|done|done]).
  pose proof (mods_length _ _ _ Hm) as Hlen.
  destruct (IH st1) as (ns & st' & Hrun & Hl & Hall & Hnd & Hroot' & Hok' & Hnames');
    [lia|done|done|].
  exists (n :: ns), st'. simpl. unfold bind at 1. rewrite H1.
  unfold bind at 1. rewrite Hrun.
  assert (length (heap st1) ≤ length (heap st')) as Hlen'.
  { destruct ns as [|n0 ns].
    - destruct assets; [|done]. simpl in Hrun. by injection Hrun as <-.
    - apply Forall_cons in Hall as [? _]. lia. }
  split; [done|]. split; [simpl; by rewrite Hl|]. split.
  { constructor; [lia|]. eapply Forall_impl; [exact Hall|]. simpl. lia. }
  split; [|done].
  constructor; [|done]. intros Hin.
  rewrite Forall_forall in Hall. apply Hall in Hin. lia.
Qed.

Lemma publishAsset_never_collides_witness :
  graph initial < length (heap initial) ∧
  asset_memo_ok initial ∧ asset_names_used initial ∧
  ∃ ns st',
    mapM publishAsset [asset1; asset2; asset1] initial = Ok ns st' ∧
    length ns = length [asset1; asset2; asset1] ∧
    Forall (λ n, length (heap initial) ≤ n < length (heap st')) ns ∧ NoDup ns ∧
    graph st' < length (heap st') ∧ asset_memo_ok st' ∧ asset_names_used st'.
Proof.
  split; [simpl; lia|]. split; [apply asset_memo_ok_initial|].
  split; [apply asset_names_used_initial|].
  apply (publishAsset_never_collides [asset1; asset2; asset1] initial);
    [simpl; lia|apply asset_memo_ok_initial|apply asset_names_used_initial].
Defined.

(** ** The graph of a wave *)

Lemma stable_children_prefix g cs : stable (λ st, cs `prefix_of` children st g).
Proof.
  split; try done.
  - intros st nd H [_ Hc _]. by rewrite children_alloc.
  - intros st p c H. rewrite children_add_child. case_decide as Hc; [|done].
    destruct Hc as [-> _]. by apply prefix_app_r.
  - intros st r ds H. by rewrite children_dependOn.
  - intros st r l a H _ _. by rewrite children_push.
Qed.

Lemma Graph_add_all g ns : ∀ st u st',
  g < length (heap st) →
  forEach (Graph_add g) ns st = Ok u st' →
  children st' g = (children st g ++ ((λ c, (n_id (node st c), c)) <$> ns))%list.
Proof.
  induction ns as [|c ns IH]; intros st u st' Hg H; simpl in H.
  - mstep H. by rewrite app_nil_r.
  - apply bind_Ok in H as (u1 & st1 & H1 & H). mstep H1.
    rewrite (IH _ _ _ ltac:(by rewrite length_heap_update) H).
    rewrite children_add_child, decide_True by done.
    rewrite <-app_assoc. f_equal. simpl. f_equal.
    apply list_fmap_ext. intros _ c' _. f_equal.
    rewrite node_update. case_decide as Hc; [|done]. by destruct Hc as [-> _].
Qed.

Lemma stable_forall {A} (I : A → GraphFromBlueprint → Prop) :
  (∀ y, stable (I y)) → stable (λ st, ∀ y, I y st).
Proof.
  intros HI. split.
  - intros st nd H Hnd y. by apply (stable_alloc _ (HI y)).
  - intros st p c H y. by apply (stable_add_child _ (HI y)).
  - intros st r ds H y. by apply (stable_add_dependencies _ (HI y)).
  - intros st r l a H ? ? y. by apply (stable_push _ (HI y)).
  - intros st s n H ? ? y. by apply (stable_added _ (HI y)).
  - intros st a n H ? y. by apply (stable_assetNodes _ (HI y)).
  - intros st c H y. by apply (stable_fileAssetCtr _ (HI y)).
  - intros st c H y. by apply (stable_dockerAssetCtr _ (HI y)).
Qed.

Lemma stable_exist {A} (I : A → GraphFromBlueprint → Prop) :
  (∀ y, stable (I y)) → stable (λ st, ∃ y, I y st).
Proof.
  intros HI. split.
  - intros st nd [y H] Hnd. exists y. by apply (stable_alloc _ (HI y)).
  - intros st p c [y H]. exists y. by apply (stable_add_child _ (HI y)).
  - intros st r ds [y H]. exists y. by apply (stable_add_dependencies _ (HI y)).
  - intros st r l a [y H] ? ?. exists y. by apply (stable_push _ (HI y)).
  - intros st s n [y H] ? ?. exists y. by apply (stable_added _ (HI y)).
  - intros st a n [y H] ?. exists y. by apply (stable_assetNodes _ (HI y)).
  - intros st c [y H]. exists y. by apply (stable_fileAssetCtr _ (HI y)).
  - intros st c [y H]. exists y. by apply (stable_dockerAssetCtr _ (HI y)).
Qed.

Lemma stable_impl (P : Prop) I : stable I → stable (λ st, P → I st).
Proof.
  intros HI. split.
  - intros st nd H Hnd HP. by apply (stable_alloc _ HI); [apply H|].
  - intros st p c H HP. by apply (stable_add_child _ HI), H.
  - intros st r ds H HP. by apply (stable_add_dependencies _ HI), H.
  - intros st r l a H ? ? HP. by apply (stable_push _ HI); [apply H| |].
  - intros st s n H ? ? HP. by apply (stable_added _ HI); [apply H| |].
  - intros st a n H ? HP. by apply (stable_assetNodes _ HI); [apply H|].
  - intros st c H HP. by apply (stable_fileAssetCtr _ HI), H.
  - intros st c H HP. by apply (stable_dockerAssetCtr _ HI), H.
Qed.

Lemma stable_pure (P : Prop) : stable (λ _, P).
Proof. by split. Qed.

Lemma named_children (names : list string) (gs : list nat) st :
  Forall2 (λ name gi, n_id (node st gi) = name) names gs →
  (λ c, (n_id (node st c), c)) <$> gs = zip names gs.
Proof.
  induction 1 as [|name gi names gs Hh Ht IH]; [done|].
  rewrite fmap_cons, IH, Hh. done.
Qed.

Section Waves.
Context (O : Objects).

Lemma addStage_named fuel stage st g st' :
  addStage O fuel stage st = Ok g st' →
  g = length (heap st) ∧
  (g < length (heap st') ∧ n_id (node st' g) = stageName stage) ∧
  data st' g = Some AGroup.
Proof.
  unfold addStage. intros H.
  apply bind_Ok in H as (g0 & st1 & Hg & H). mstep Hg.
  assert (g = length (heap st)) as ->.
  { apply bind_Ok in H as (? & ? & _ & H). apply bind_Ok in H as (? & ? & _ & H).
    apply bind_Ok in H as (? & ? & _ & H). by mstep H. }
  split; [done|].
  set (J := λ x, (length (heap st) < length (heap x) ∧
                  n_id (node x (length (heap st))) = stageName stage) ∧
                 data x (length (heap st)) = Some AGroup).
  assert (stable J) as HJ
    by (apply stable_and; [apply stable_id|by apply stable_data]).
  eapply (guard_Ok J (λ _, False)); [| |exact H].
  - apply guard_bind; [apply guard_foldM; intros; apply guard_addStack; no_error|].
    intros sgs. apply guard_bind; [by apply guard_addStackDependencies|].
    intros _. apply guard_bind; [apply guard_addPrePost; no_error|].
    intros; apply guard_ret.
  - unfold J. rewrite length_heap_alloc, data_alloc, node_alloc.
    rewrite !decide_True by done. split; [split; [lia|done]|done].
Qed.

Lemma mapM_addStage_named fuel ss : ∀ st gs st',
  mapM (addStage O fuel) ss st = Ok gs st' →
  Forall2 (λ stage gi, (gi < length (heap st') ∧ n_id (node st' gi) = stageName stage) ∧
                       data st' gi = Some AGroup) ss gs.
Proof.
  induction ss as [|stage ss IH]; intros st gs st' H; simpl in H.
  - mstep H. constructor.
  - apply bind_Ok in H as (g & st1 & Hg & H).
    apply bind_Ok in H as (gs' & st2 & Hgs & H). mstep H.
    constructor; [|by eapply IH].
    apply addStage_named in Hg as (_ & Hid & Hd).
    eapply (guard_Ok (λ x, (g < length (heap x) ∧ n_id (node x g) = stageName stage) ∧
                           data x g = Some AGroup) (λ _, False));
      [|exact (conj Hid Hd)|exact Hgs].
    apply guard_mapM. intros sg. apply guard_addStage; try no_error.
    apply stable_and; [apply stable_id|by apply stable_data].
Qed.

(** A wave that does not consist of one stage: a group around the graphs of
    its stages. *)
Lemma wave_group_Ok fuel wave ss st g st' :
  wf st →
  (let* retGraph := (let* gs := mapM (addStage O fuel) ss in
                     Graph_of (wave_id wave) AGroup gs) in
   addPrePost O fuel (wave_pre wave) (wave_post wave) retGraph ;;;
   let* lp := gets lastPreparationNode in
   dependOn retGraph [lp] ;;;
   ret retGraph) st = Ok g st' →
  data st' g = Some AGroup ∧
  n_id (node st' g) = wave_id wave ∧
  ∃ gs,
    Forall2 (λ stage gi, n_id (node st' gi) = stageName stage ∧
                         data st' gi = Some AGroup ∧ gi < g) ss gs ∧
    zip (stageName <$> ss) gs `prefix_of` children st' g.
Proof.
  intros Hw H.
  apply bind_Ok in H as (g0 & st2 & Hg & H).
  apply bind_Ok in Hg as (gs & st1 & Hgs & Hg).
  assert (g0 = g) as ->.
  { apply bind_Ok in H as (? & ? & _ & H). by msteps H. }
  pose proof (mapM_addStage_named _ _ _ _ _ Hgs) as Hnamed.
  pose proof (mapM_addStage_Ok O _ _ _ _ _ Hw Hgs) as [Hm1 Hb1].
  unfold Graph_of in Hg. apply bind_Ok in Hg as (g0 & st1' & Halloc & Hg).
  mstep Halloc. apply bind_Ok in Hg as (u & st1'' & Hadd & Hg). mstep Hg.
  set (nd := {| n_id := wave_id wave; n_data := Some AGroup;
                n_dependencies := []; n_children := [] |}) in *.
  set (g := length (heap st1)) in *.
  set (R := λ (stage : StageDeployment) gi x,
              (gi < length (heap x) ∧ n_id (node x gi) = stageName stage) ∧
              data x gi = Some AGroup).
  set (J := λ x, ((g < length (heap x) ∧ n_id (node x g) = wave_id wave) ∧
                  data x g = Some AGroup) ∧
                 ∀ i stage gi, ss !! i = Some stage → gs !! i = Some gi → R stage gi x).
  assert (stable J) as HJ.
  { apply stable_and; [apply stable_and; [apply stable_id|by apply stable_data]|].
    apply stable_forall; intros i. apply stable_forall; intros stage.
    apply stable_forall; intros gi. do 2 apply stable_impl.
    apply stable_and; [apply stable_id|by apply stable_data]. }
  apply Forall2_same_length_lookup in Hnamed as [Hlen Hnamed].
  assert (J (alloc_st nd st1)) as H1'.
  { split.
    - rewrite length_heap_alloc, data_alloc, node_alloc.
      rewrite !decide_True by done. split; [split; [unfold g; lia|done]|done].
    - intros i stage gi Hi Hgi.
      apply (stable_alloc _ (stable_and _ _ (stable_id gi (stageName stage))
                                (stable_data gi AGroup ltac:(done)))); [|by split].
      by eapply Hnamed. }
  assert (J st1'') as H1''.
  { eapply (guard_Ok J (λ _, False)); [|exact H1'|exact Hadd].
    apply guard_forEach. intros c. apply guard_Graph_add; no_error. }
  pose proof (Graph_add_all g gs (alloc_st nd st1) _ _
                ltac:(rewrite length_heap_alloc; unfold g; lia) Hadd) as Hch.
  assert (children (alloc_st nd st1) g = []) as Hnil.
  { unfold children. by rewrite node_alloc, decide_True. }
  rewrite Hnil in Hch. simpl in Hch.
  rewrite (named_children (stageName <$> ss)) in Hch.
  2:{ apply Forall2_same_length_lookup. split; [by rewrite length_fmap|].
      intros i name gi Hi Hgi. rewrite list_lookup_fmap in Hi.
      destruct (ss !! i) as [stage|] eqn:Es; [|done]. injection Hi as <-.
      by destruct (proj2 H1' i stage gi Es Hgi) as [[_ ?] _]. }
  set (K := λ x, J x ∧ zip (stageName <$> ss) gs `prefix_of` children x g).
  assert (stable K) as HK by (apply stable_and; [done|apply stable_children_prefix]).
  assert (K st') as ([[[_ Hid] Hd] Hall] & Hpre).
  { eapply (guard_Ok K (λ _, False)); [| |exact H].
    - apply guard_bind; [apply guard_addPrePost; no_error|]. intros _.
      apply guard_bind; [apply guard_gets|]. intros lp.
      apply guard_bind; [by apply guard_dependOn|]. intros; apply guard_ret.
    - split; [done|]. by rewrite Hch. }
  split; [done|]. split; [done|]. exists gs. split; [|done].
  apply Forall2_same_length_lookup. split; [done|].
  intros i stage gi Hi Hgi. destruct (Hall i stage gi Hi Hgi) as [[_ ?] ?].
  split; [done|]. split; [done|].
  rewrite Forall_forall in Hb1. unfold g.
  apply list_elem_of_lookup_2, Hb1 in Hgi. lia.
Qed.

(** X11. A wave with exactly one stage gets no group of its own: its graph
    is the stage's group, named after the stage, the first node created by
    the call. Any other wave gets a group named after the wave, created
    after the groups of its stages, whose first children are these groups,
    under the names of the stages and in their order. *)
Theorem addWave_graph fuel wave st g st' :
  wf st →
  addWave O fuel wave st = Ok g st' →
  data st' g = Some AGroup ∧
  match stages wave with
  | [stage] => n_id (node st' g) = stageName stage ∧ g = length (heap st)
  | ss =>
      n_id (node st' g) = wave_id wave ∧
      ∃ gs,
        Forall2 (λ stage gi, n_id (node st' gi) = stageName stage ∧
                             data st' gi = Some AGroup ∧ gi < g) ss gs ∧
        zip (stageName <$> ss) gs `prefix_of` children st' g
  end.
Proof.
  intros Hw H. unfold addWave in H.
  destruct (stages wave) as [|stage [|stage' ss]] eqn:Ess.
  - by apply wave_group_Ok in H.
  - apply bind_Ok in H as (g0 & st1 & Hg & H).
    assert (g0 = g) as ->.
    { apply bind_Ok in H as (? & ? & _ & H). by msteps H. }
    apply addStage_named in Hg as (Hg & Hid & Hd).
    assert ((g < length (heap st') ∧ n_id (node st' g) = stageName stage) ∧
            data st' g = Some AGroup) as [[_ ?] ?]; [|done].
    eapply (guard_Ok (λ x, (g < length (heap x) ∧ n_id (node x g) = stageName stage) ∧
                           data x g = Some AGroup) (λ _, False));
      [|exact (conj Hid Hd)|exact H].
    assert (stable (λ x, (g < length (heap x) ∧ n_id (node x g) = stageName stage) ∧
                         data x g = Some AGroup)) as HJ
      by (apply stable_and; [apply stable_id|by apply stable_data]).
    apply guard_bind; [apply guard_addPrePost; no_error|]. intros _.
    apply guard_bind; [apply guard_gets|]. intros lp.
    apply guard_bind; [by apply guard_dependOn|]. intros; apply guard_ret.
  - by apply wave_group_Ok in H.
Qed.

End Waves.

Lemma addWave_graph_witness :
  ∃ g st',
    addWave demo 3 (demo_wave "W2" [demo_stage "Eu" []; demo_stage "Us" []]) demo_state
      = Ok g st' ∧
    data st' g = Some AGroup ∧
    n_id (node st' g) = "W2" ∧
    ∃ gs,
      Forall2 (λ stage gi, n_id (node st' gi) = stageName stage ∧
                           data st' gi = Some AGroup ∧ gi < g)
              [demo_stage "Eu" []; demo_stage "Us" []] gs ∧
      zip (stageName <$> [demo_stage "Eu" []; demo_stage "Us" []]) gs
        `prefix_of` children st' g.
Proof.
  destruct (addWave demo 3 (demo_wave "W2" [demo_stage "Eu" []; demo_stage "Us" []])
              demo_state) as [g st'| |] eqn:E;
    [|vm_compute in E; discriminate E..].
  exists g, st'. split; [reflexivity|].
  exact (addWave_graph demo 3 (demo_wave "W2" [demo_stage "Eu" []; demo_stage "Us" []])
           demo_state g st' wf_demo_state E).
Defined.

(** ** What a stack's "Prepare" node waits for *)

Lemma stable_stackGroup s sg p d : stable (λ st, stackGroup st s sg p d).
Proof.
  unfold stackGroup.
  repeat (apply stable_and;
    [first [by apply stable_data | apply stable_child | apply stable_dep
           | apply stable_allocated]|]).
  apply stable_allocated.
Qed.

Lemma foldM_elem {A B} (f : B → A → M B) x l : ∀ b st b' st',
  x ∈ l → foldM f b l st = Ok b' st' →
  ∃ l1 l2 b0 st0 b1 st1,
    l = (l1 ++ x :: l2)%list ∧ foldM f b l1 st = Ok b0 st0 ∧
    f b0 x st0 = Ok b1 st1 ∧ foldM f b1 l2 st1 = Ok b' st'.
Proof.
  induction l as [|y l IH]; intros b st b' st' Hx H; [by apply elem_of_nil in Hx|].
  simpl in H. apply bind_Ok in H as (b1 & st1 & H1 & H).
  apply elem_of_cons in Hx as [->|Hx].
  - exists [], l, b, st, b1, st1. done.
  - destruct (IH _ _ _ _ Hx H) as (l1 & l2 & b0 & st0 & b2 & st2 & -> & Hl1 & Hf & Hl2).
    exists (y :: l1), l2, b0, st0, b2, st2. split; [done|]. split; [|done].
    simpl. unfold bind. by rewrite H1.
Qed.

Lemma publishAsset_data a st n st' :
  publishAsset a st = Ok n st' → data st' n = Some (APublishAssets [a]).
Proof.
  intros H.
  destruct (publishAsset_steps _ _ _ _ H) as (g & st1 & st2 & _ & _ & Hn & _ & ->).
  cbv zeta. rewrite data_add_dependencies, data_add_child.
  change (data (set_assetNodes ?m ?x) n) with (data x n).
  rewrite data_alloc, decide_True; [done|]. by destruct (assetType a).
Qed.

Section Prepare.
Context (O : Objects).

Lemma stable_prepared s ca sg p d : stable (prepared O s ca sg p d).
Proof.
  unfold prepared. apply stable_and; [apply stable_stackGroup|].
  apply stable_and.
  - apply stable_exist. intros pn. apply stable_and; [apply stable_memo|apply stable_dep].
  - apply stable_forall. intros a. apply stable_impl.
    apply stable_exist. intros an. apply stable_and; [apply stable_dep|].
    apply stable_listed.
Qed.

(** One turn of the first loop. *)
Lemma addStack_prepared fuel g sgs s st sgs' st' :
  addStack O fuel g sgs s st = Ok sgs' st' →
  ∃ sg p d ca,
    cloudAssemblyOf O s (cloudAssemblyFileSet st) = Some ca ∧
    prepared O s ca sg p d st'.
Proof.
  unfold addStack. intros H.
  apply bind_Ok in H as ([[sg p] d] & sta & Hnew & H).
  pose proof (newStackGraph_stackGroup O _ _ _ _ _ _ Hnew) as Hsg.
  assert (cloudAssemblyFileSet sta = cloudAssemblyFileSet st) as Hca.
  { eapply (guard_Ok (λ x, cloudAssemblyFileSet x = cloudAssemblyFileSet st) (λ _, False));
      [| |exact Hnew]; [|reflexivity].
    apply guard_newStackGraph; [apply stable_cloudAssembly|no_error]. }
  apply bind_Ok in H as (shared & sta' & Hs & H). mstep Hs. simpl in H.
  rewrite Hca in H.
  destruct (cloudAssemblyOf O s (cloudAssemblyFileSet st)) as [ca|] eqn:Eca; [|done].
  exists sg, p, d, ca. split; [done|].
  apply bind_Ok in H as (pn & stb & Hrec & H).
  apply bind_Ok in H as (u & stc & Hdep & H). mstep Hdep.
  apply bind_Ok in H as (u' & std & Hloop & H). mstep H.
  pose proof (addAndRecurse_mods O _ _ _ _ _ _ Hrec) as [Hm Hpn].
  assert (stackGroup stb s sg p d) as Hsgb
    by (eapply (keeps_addAndRecurse O (λ x, stackGroup x s sg p d));
        [apply stable_stackGroup|exact Hsg|exact Hrec]).
  assert (p < length (heap stb)) as Hp by (by destruct Hsgb as (_ & _ & _ & _ & _ & _ & _ & ? & _)).
  set (stc := update_st p (add_dependencies (omap id [Some pn])) stb) in *.
  set (J := λ x, stackGroup x s sg p d ∧
                 ∃ pn, added x !! producer (fileSet O ca) = Some pn ∧ pn ∈ deps x p).
  assert (stable J) as HJ.
  { apply stable_and; [apply stable_stackGroup|]. apply stable_exist. intros n.
    apply stable_and; [apply stable_memo|apply stable_dep]. }
  assert (J stc) as Hc.
  { split; [by apply (stable_add_dependencies _ (stable_stackGroup _ _ _ _))|].
    exists pn. split; [done|]. unfold stc. rewrite deps_dependOn, decide_True by done.
    apply elem_of_app. right. by left. }
  eapply (forEach_each J
            (λ a x, ∃ an, an ∈ deps x p ∧
                          ∃ l, data x an = Some (APublishAssets l) ∧ a ∈ l)) in Hloop
    as [[Hsg' Hprod] Hall]; [by split| | |exact Hc].
  - intros a x v x' _ Hx Hb.
    apply bind_Ok in Hb as (an & x1 & Hpub & Hb). mstep Hb.
    assert (J x1) as Hx1 by (by eapply (keeps_publishAsset J)).
    split; [by apply (stable_add_dependencies _ HJ)|].
    exists an. split.
    + rewrite deps_dependOn, decide_True.
      * apply elem_of_app. right. by left.
      * split; [done|]. by destruct Hx1 as [(_ & _ & _ & _ & _ & _ & _ & ? & _) _].
    + exists [a]. split; [|by left]. rewrite data_add_dependencies.
      by eapply publishAsset_data.
  - intros a a' x v x' _ Hx (an & Hin & Hl) Hb. exists an.
    eapply (guard_Ok (λ x, an ∈ deps x p ∧
                           ∃ l, data x an = Some (APublishAssets l) ∧ a ∈ l) (λ _, False));
      [|exact (conj Hin Hl)|exact Hb].
    assert (stable (λ x, an ∈ deps x p ∧
                         ∃ l, data x an = Some (APublishAssets l) ∧ a ∈ l)) as HQ
      by (apply stable_and; [apply stable_dep|apply stable_listed]).
    apply guard_bind; [apply guard_publishAsset; no_error|].
    intros n. by apply guard_dependOn.
Qed.

(** X12. After a stage has been compiled, every stack of the stage has its
    stack group with "Prepare" and "Deploy" ("Deploy" waits for
    "Prepare"); "Prepare" depends on the node of the Step that produces the
    stack's cloud assembly (its custom one if it has an output, the shared
    one otherwise) and, for every asset the stack requires, on a publish
    node that lists this asset. *)
Theorem addStage_prepare fuel stage st g st' s :
  addStage O fuel stage st = Ok g st' →
  s ∈ stacks stage →
  ∃ sg p d ca pn,
    stackGroup st' s sg p d ∧
    cloudAssemblyOf O s (cloudAssemblyFileSet st) = Some ca ∧
    added st' !! producer (fileSet O ca) = Some pn ∧ pn ∈ deps st' p ∧
    ∀ a, a ∈ requiredAssets (stack O s) →
      ∃ an l, an ∈ deps st' p ∧ data st' an = Some (APublishAssets l) ∧ a ∈ l.
Proof.
  unfold addStage. intros H Hs.
  apply bind_Ok in H as (g0 & st1 & Hg & H). mstep Hg.
  apply bind_Ok in H as (sgs & st2 & Hfold & H).
  destruct (foldM_elem _ _ _ _ _ _ _ Hs Hfold)
    as (l1 & l2 & sgs0 & sta & sgs1 & stb & _ & Hl1 & Hstack & Hl2).
  destruct (addStack_prepared _ _ _ _ _ _ _ Hstack) as (sg & p & d & ca & Hca & Hprep).
  assert (cloudAssemblyFileSet sta = cloudAssemblyFileSet st) as Hcaa.
  { eapply (guard_Ok (λ x, cloudAssemblyFileSet x = cloudAssemblyFileSet st) (λ _, False));
      [| |exact Hl1]; [|reflexivity].
    apply guard_foldM. intros. apply guard_addStack; try no_error.
    apply stable_cloudAssembly. }
  rewrite Hcaa in Hca.
  assert (prepared O s ca sg p d st') as (Hsg & (pn & Hpn & Hin) & Hassets).
  { pose proof (stable_prepared s ca sg p d) as HP.
    assert (prepared O s ca sg p d st2) as H2.
    { eapply (guard_Ok _ (λ _, False)); [|exact Hprep|exact Hl2].
      apply guard_foldM. intros. apply guard_addStack; no_error. }
    eapply (guard_Ok _ (λ _, False)); [|exact H2|exact H].
    apply guard_bind; [by apply guard_addStackDependencies|]. intros _.
    apply guard_bind; [apply guard_addPrePost; no_error|].
    intros; apply guard_ret. }
  exists sg, p, d, ca, pn. repeat (split; [done|]).
  intros a Ha. destruct (Hassets a Ha) as (an & ? & l & ? & ?). by exists an, l.
Qed.

End Prepare.

Lemma addStage_prepare_witness :
  ∃ g st' sg p d ca pn,
    addStage demo 3 (demo_stage "Prod" [0; 1]) demo_state = Ok g st' ∧
    stackGroup st' 0 sg p d ∧
    cloudAssemblyOf demo 0 (cloudAssemblyFileSet demo_state) = Some ca ∧
    added st' !! producer (fileSet demo ca) = Some pn ∧ pn ∈ deps st' p ∧
    ∀ a, a ∈ requiredAssets (stack demo 0) →
      ∃ an l, an ∈ deps st' p ∧ data st' an = Some (APublishAssets l) ∧ a ∈ l.
Proof.
  destruct (addStage demo 3 (demo_stage "Prod" [0; 1]) demo_state)
    as [g st'| |] eqn:E; [|vm_compute in E; discriminate E..].
  assert (0 ∈ stacks (demo_stage "Prod" [0; 1])) as H0
    by (simpl; apply list_elem_of_here).
  destruct (addStage_prepare demo 3 _ demo_state g st' 0 E H0)
    as (sg & p & d & ca & pn & H).
  exists g, st', sg, p, d, ca, pn. split; [reflexivity|exact H].
Defined.

(** ** The construction runs to its end *)

Lemma halts_ret {A} (a : A) : halts (ret a).
Proof. by intros st. Qed.

Lemma halts_gets {A} (f : GraphFromBlueprint → A) : halts (gets f).
Proof. by intros st. Qed.

Lemma halts_modify f : halts (modify f).
Proof. by intros st. Qed.

Lemma halts_throw {A} e : halts (throw (A := A) e).
Proof. by intros st. Qed.

Lemma halts_bind {A B} (m : M A) (f : A → M B) :
  halts m → (∀ a, halts (f a)) → halts (bind m f).
Proof.
  intros Hm Hf st. unfold bind. specialize (Hm st).
  destruct (m st) as [a st1| |]; [apply Hf|done|done].
Qed.

Lemma halts_forEach {A} (f : A → M unit) l :
  (∀ x, x ∈ l → halts (f x)) → halts (forEach f l).
Proof.
  induction l as [|x l IH]; intros Hf; simpl; [apply halts_ret|].
  apply halts_bind; [apply Hf; by left|]. intros _. apply IH.
  intros y Hy. apply Hf. by right.
Qed.

Lemma halts_mapM {A B} (f : A → M B) l :
  (∀ x, x ∈ l → halts (f x)) → halts (mapM f l).
Proof.
  induction l as [|x l IH]; intros Hf; simpl; [apply halts_ret|].
  apply halts_bind; [apply Hf; by left|]. intros y.
  apply halts_bind; [|intros; apply halts_ret]. apply IH.
  intros z Hz. apply Hf. by right.
Qed.

Lemma halts_foldM {A B} (f : B → A → M B) l :
  (∀ b x, x ∈ l → halts (f b x)) → ∀ b, halts (foldM f b l).
Proof.
  induction l as [|x l IH]; intros Hf b; simpl; [apply halts_ret|].
  apply halts_bind; [apply Hf; by left|]. intros b'. apply IH.
  intros b'' y Hy. apply Hf. by right.
Qed.

Lemma halts_alloc nd : halts (alloc nd).
Proof. by intros st. Qed.

Lemma halts_dependOn n ds : halts (dependOn n ds).
Proof. by intros st. Qed.

Lemma halts_Graph_add p c : halts (Graph_add p c).
Proof. intros st. apply Graph_add_terminates. Qed.

Lemma halts_Graph_of id d ns : halts (Graph_of id d ns).
Proof.
  unfold Graph_of. apply halts_bind; [apply halts_alloc|]. intros g.
  apply halts_bind; [|intros; apply halts_ret].
  apply halts_forEach. intros; apply halts_Graph_add.
Qed.

Lemma halts_topLevelGraph name : halts (topLevelGraph name).
Proof. intros st. apply topLevelGraph_terminates. Qed.

Lemma halts_publishAsset a : halts (publishAsset a).
Proof.
  unfold publishAsset. apply halts_bind; [apply halts_topLevelGraph|]. intros g.
  apply halts_bind; [apply halts_gets|]. intros an.
  apply halts_bind.
  { destruct an as [an|]; [|apply halts_ret].
    apply halts_bind; [apply halts_gets|]. intros [[]|]; try apply halts_throw.
    destruct (existsb _ _); [apply halts_ret|apply halts_modify]. }
  intros _. apply halts_bind.
  { unfold nextAssetName. destruct (assetType a);
      (apply halts_bind; [apply halts_modify|]; intros _;
       apply halts_bind; [apply halts_gets|]; intros; apply halts_ret). }
  intros name. apply halts_bind; [apply halts_alloc|]. intros n.
  apply halts_bind; [apply halts_modify|]. intros _.
  apply halts_bind; [apply halts_Graph_add|]. intros _.
  apply halts_bind; [apply halts_gets|]. intros lp.
  apply halts_bind; [apply halts_dependOn|]. intros; apply halts_ret.
Qed.

Lemma halts_deploySequentially ws : halts (deploySequentially ws).
Proof.
  unfold deploySequentially. apply halts_forEach. intros i _.
  destruct (ws !! i); [apply halts_dependOn|apply halts_throw].
Qed.

Lemma halts_addSelfMutation sn : halts (addSelfMutation sn).
Proof.
  unfold addSelfMutation. apply halts_bind; [apply halts_gets|]. intros root.
  apply halts_bind; [apply halts_Graph_of|]. intros stage.
  apply halts_bind; [apply halts_Graph_add|]. intros _.
  apply halts_bind; [apply halts_alloc|]. intros sm.
  apply halts_bind; [apply halts_modify|]. intros _.
  apply halts_bind; [apply halts_Graph_add|]. intros _.
  apply halts_bind; [apply halts_dependOn|]. intros _. apply halts_modify.
Qed.

(** Operations that agree on every state. *)
Lemma bind_ext {A B} (m m' : M A) (f f' : A → M B) st :
  m st = m' st → (∀ a st1, f a st1 = f' a st1) → bind m f st = bind m' f' st.
Proof. intros Hm Hf. unfold bind. rewrite Hm. by destruct (m' st). Qed.

Lemma forEach_ext {A} (f f' : A → M unit) l :
  (∀ x st, x ∈ l → f x st = f' x st) → ∀ st, forEach f l st = forEach f' l st.
Proof.
  induction l as [|x l IH]; intros Hf st; simpl; [done|].
  apply bind_ext; [apply Hf; by left|]. intros _ st1. apply IH.
  intros y st2 Hy. apply Hf. by right.
Qed.

Lemma mapM_ext {A B} (f f' : A → M B) l :
  (∀ x st, x ∈ l → f x st = f' x st) → ∀ st, mapM f l st = mapM f' l st.
Proof.
  induction l as [|x l IH]; intros Hf st; simpl; [done|].
  apply bind_ext; [apply Hf; by left|]. intros y st1.
  apply bind_ext; [|done]. apply IH. intros z st2 Hz. apply Hf. by right.
Qed.

Lemma foldM_ext {A B} (f f' : B → A → M B) l :
  (∀ b x st, x ∈ l → f b x st = f' b x st) →
  ∀ b st, foldM f b l st = foldM f' b l st.
Proof.
  induction l as [|x l IH]; intros Hf b st; simpl; [done|].
  apply bind_ext; [apply Hf; by left|]. intros b' st1. apply IH.
  intros b'' y st2 Hy. apply Hf. by right.
Qed.

Section Halting.
Context (O : Objects) (U : list StepRef) (fuel fuel' : nat).
Hypothesis U_closed : steps_closed O U.
Hypothesis U_producers : ∀ f, producer (fileSet O f) ∈ U.
Hypothesis fuel_enough : length U ≤ fuel.
Hypothesis fuel_more : fuel ≤ fuel'.

Lemma halts_addAndRecurse s parent : s ∈ U → halts (addAndRecurse O fuel s parent).
Proof. intros Hs st. by apply (addAndRecurse_terminates O U). Qed.

Lemma fuel_addAndRecurse s parent st :
  s ∈ U → addAndRecurse O fuel' s parent st = addAndRecurse O fuel s parent st.
Proof. intros Hs. by apply (addAndRecurse_terminates O U). Qed.

Lemma halts_addPrePost pre post parent :
  (∀ s, s ∈ pre → s ∈ U) → (∀ s, s ∈ post → s ∈ U) →
  halts (addPrePost O fuel pre post parent).
Proof.
  intros Hpre Hpost. unfold addPrePost.
  apply halts_bind; [apply halts_gets|]. intros base. apply halts_bind.
  - apply halts_forEach. intros p Hp.
    apply halts_bind; [by apply halts_addAndRecurse, Hpre|]. intros n.
    apply halts_forEach. intros; apply halts_dependOn.
  - intros _. apply halts_forEach. intros p Hp.
    apply halts_bind; [by apply halts_addAndRecurse, Hpost|].
    intros; apply halts_dependOn.
Qed.

Lemma fuel_addPrePost pre post parent st :
  (∀ s, s ∈ pre → s ∈ U) → (∀ s, s ∈ post → s ∈ U) →
  addPrePost O fuel' pre post parent st = addPrePost O fuel pre post parent st.
Proof.
  intros Hpre Hpost. unfold addPrePost.
  apply bind_ext; [done|]. intros base st1. apply bind_ext.
  - apply forEach_ext. intros p st2 Hp.
    apply bind_ext; [by apply fuel_addAndRecurse, Hpre|done].
  - intros _ st2. apply forEach_ext. intros p st3 Hp.
    apply bind_ext; [by apply fuel_addAndRecurse, Hpost|done].
Qed.

Lemma halts_newStackGraph s : halts (newStackGraph O s).
Proof.
  unfold newStackGraph. apply halts_bind; [apply halts_Graph_of|]. intros sg.
  apply halts_bind; [apply halts_alloc|]. intros p.
  apply halts_bind; [apply halts_alloc|]. intros d.
  apply halts_bind; [apply halts_Graph_add|]. intros _.
  apply halts_bind; [apply halts_Graph_add|]. intros _.
  apply halts_bind; [apply halts_dependOn|]. intros; apply halts_ret.
Qed.

Lemma halts_addStack g sgs s : halts (addStack O fuel g sgs s).
Proof.
  unfold addStack. apply halts_bind; [apply halts_newStackGraph|]. intros x.
  apply halts_bind; [apply halts_gets|]. intros shared.
  destruct (cloudAssemblyOf O s shared); [|apply halts_throw].
  apply halts_bind; [by apply halts_addAndRecurse|]. intros pn.
  apply halts_bind; [apply halts_dependOn|]. intros _.
  apply halts_bind; [|intros; apply halts_ret].
  apply halts_forEach. intros a _.
  apply halts_bind; [apply halts_publishAsset|]. intros; apply halts_dependOn.
Qed.

Lemma fuel_addStack g sgs s st :
  addStack O fuel' g sgs s st = addStack O fuel g sgs s st.
Proof.
  unfold addStack. apply bind_ext; [done|]. intros x st1.
  apply bind_ext; [done|]. intros shared st2.
  destruct (cloudAssemblyOf O s shared); [|done].
  apply bind_ext; [by apply fuel_addAndRecurse|done].
Qed.

Lemma halts_addStackDependencies sgs ss : halts (addStackDependencies O sgs ss).
Proof.
  unfold addStackDependencies. apply halts_forEach. intros s _.
  apply halts_forEach. intros dep _.
  destruct (sgs !! s); [apply halts_dependOn|apply halts_ret].
Qed.

Lemma halts_addStage stage : stage_steps_in U stage → halts (addStage O fuel stage).
Proof.
  intros [Hpre Hpost]. unfold addStage.
  apply halts_bind; [apply halts_Graph_of|]. intros g.
  apply halts_bind; [apply halts_foldM; intros; apply halts_addStack|]. intros sgs.
  apply halts_bind; [apply halts_addStackDependencies|]. intros _.
  apply halts_bind; [by apply halts_addPrePost|]. intros; apply halts_ret.
Qed.

Lemma fuel_addStage stage st :
  stage_steps_in U stage → addStage O fuel' stage st = addStage O fuel stage st.
Proof.
  intros [Hpre Hpost]. unfold addStage. apply bind_ext; [done|]. intros g st1.
  apply bind_ext; [apply foldM_ext; intros; apply fuel_addStack|]. intros sgs st2.
  apply bind_ext; [done|]. intros _ st3.
  apply bind_ext; [by apply fuel_addPrePost|done].
Qed.

Lemma halts_addWave wave : wave_steps_in U wave → halts (addWave O fuel wave).
Proof.
  intros (Hpre & Hpost & Hstages). unfold addWave. apply halts_bind.
  - assert (halts (let* gs := mapM (addStage O fuel) (stages wave) in
                   Graph_of (wave_id wave) AGroup gs)) as Hgroup.
    { apply halts_bind; [|intros; apply halts_Graph_of].
      apply halts_mapM. intros stage Hin. apply halts_addStage.
      by eapply Forall_forall in Hstages. }
    destruct (stages wave) as [|stage [|stage' ss]]; [done| |done].
    apply halts_addStage. by apply Forall_inv in Hstages.
  - intros g. apply halts_bind; [by apply halts_addPrePost|]. intros _.
    apply halts_bind; [apply halts_gets|]. intros lp.
    apply halts_bind; [apply halts_dependOn|]. intros; apply halts_ret.
Qed.

Lemma fuel_addWave wave st :
  wave_steps_in U wave → addWave O fuel' wave st = addWave O fuel wave st.
Proof.
  intros (Hpre & Hpost & Hstages). unfold addWave. apply bind_ext.
  - assert (∀ x, (let* gs := mapM (addStage O fuel') (stages wave) in
                  Graph_of (wave_id wave) AGroup gs) x =
                 (let* gs := mapM (addStage O fuel) (stages wave) in
                  Graph_of (wave_id wave) AGroup gs) x) as Hgroup.
    { intros x. apply bind_ext; [|done]. apply mapM_ext. intros stage st1 Hin.
      apply fuel_addStage. by eapply Forall_forall in Hstages. }
    destruct (stages wave) as [|stage [|stage' ss]]; [apply Hgroup| |apply Hgroup].
    apply fuel_addStage. by apply Forall_inv in Hstages.
  - intros g st1. apply bind_ext; [by apply fuel_addPrePost|done].
Qed.

(** X13. The construction runs to its end. If the Steps the blueprint
    refers to lie in a finite set [U] that contains the dependencies of its
    members, a recursion depth of the size of [U] is enough: the
    constructor returns or throws, and every larger depth gives the same
    result. *)
Theorem construct_terminates blueprint props :
  blueprint_steps_in O U blueprint →
  new_GraphFromBlueprint O fuel blueprint props ≠ Diverge ∧
  new_GraphFromBlueprint O fuel' blueprint props =
    new_GraphFromBlueprint O fuel blueprint props.
Proof.
  intros (Hsynth & _ & Hwaves). unfold new_GraphFromBlueprint, construct. split.
  - apply halts_bind.
    { unfold addBuildStep. apply halts_bind; [apply halts_topLevelGraph|].
      intros p. by apply halts_addAndRecurse. }
    intros sn. apply halts_bind; [apply halts_modify|]. intros _.
    apply halts_bind; [apply halts_modify|]. intros _.
    apply halts_bind; [apply halts_modify|]. intros _.
    destruct (match primaryOutput _ with Some f => _ | None => None end);
      [|apply halts_throw].
    apply halts_bind; [apply halts_modify|]. intros _.
    apply halts_bind.
    { destruct (selfMutation props); [apply halts_addSelfMutation|apply halts_ret]. }
    intros _. apply halts_bind.
    { apply halts_mapM. intros w Hw. apply halts_addWave.
      by eapply Forall_forall in Hwaves. }
    intros ws. apply halts_bind; [apply halts_deploySequentially|].
    intros; apply halts_ret.
  - apply bind_ext.
    { unfold addBuildStep. apply bind_ext; [done|]. intros p st1.
      by apply fuel_addAndRecurse. }
    intros sn st1. apply bind_ext; [done|]. intros _ st2.
    apply bind_ext; [done|]. intros _ st3.
    apply bind_ext; [done|]. intros _ st4.
    destruct (match primaryOutput _ with Some f => _ | None => None end); [|done].
    apply bind_ext; [done|]. intros _ st5.
    apply bind_ext; [done|]. intros _ st6.
    apply bind_ext; [|done]. apply mapM_ext. intros w st7 Hw.
    apply fuel_addWave. by eapply Forall_forall in Hwaves.
Qed.

End Halting.

Lemma steps_closed_demo_build : steps_closed demo [0; 1; 8].
Proof.
  intros s Hs d Hd.
  apply elem_of_cons in Hs as [->|Hs]; [|apply elem_of_cons in Hs as [->|Hs]];
    [| |apply list_elem_of_singleton in Hs as ->]; simpl in Hd.
  - apply list_elem_of_singleton in Hd as ->. apply list_elem_of_further, list_elem_of_here.
  - by apply elem_of_nil in Hd.
  - by apply elem_of_nil in Hd.
Qed.

Lemma blueprint_steps_in_demo : blueprint_steps_in demo [0; 1; 8] demo_blueprint.
Proof.
  split; [apply list_elem_of_here|]. split.
  - intros [|f]; simpl; [apply list_elem_of_here|].
    apply list_elem_of_further, list_elem_of_further, list_elem_of_here.
  - simpl.
    repeat lazymatch goal with
    | |- Forall _ [] => apply Forall_nil_2
    | |- Forall _ (_ :: _) => apply Forall_cons_2
    | |- wave_steps_in _ _ => split; [|split]; simpl
    | |- stage_steps_in _ _ => split; simpl
    | |- ∀ s, s ∈ [] → _ => intros ? ?%elem_of_nil; done
    end.
Qed.

Lemma construct_terminates_witness :
  new_GraphFromBlueprint demo 3 demo_blueprint {| selfMutation := true |} ≠ Diverge ∧
  new_GraphFromBlueprint demo 5 demo_blueprint {| selfMutation := true |} =
    new_GraphFromBlueprint demo 3 demo_blueprint {| selfMutation := true |}.
Proof.
  apply (construct_terminates demo [0; 1; 8] 3 5 steps_closed_demo_build);
    [by destruct blueprint_steps_in_demo as (_ & ? & _)|simpl; lia|lia|
     apply blueprint_steps_in_demo].
Defined.

(** ** The errors of a construction *)

Lemma guard_modify I Bad f :
  (∀ st, I st → I (f st)) → guard I Bad (modify f).
Proof. intros Hf st H. by apply Hf. Qed.

Lemma asset_memo_ok_markBuildStep st r :
  asset_memo_ok st → asset_memo_ok (update_st r markBuildStep st).
Proof.
  intros H. apply asset_memo_ok_update; [|done].
  intros n assets Hn. unfold markBuildStep. rewrite Hn. by exists assets.
Qed.

Section Errors.
Context (O : Objects).

(** X14. A construction can only fail in two ways: with the duplicate-name
    error of the graph container, or with the missing-output error for the
    synth Step, and then that Step has no output. No other error is raised;
    in particular the cloud assembly of a stack is always defined when its
    producer is looked up. *)
Theorem construct_errors fuel blueprint props e :
  new_GraphFromBlueprint O fuel blueprint props = Throw e →
  (∃ parent name, e = DuplicateChild parent name) ∨
  (e = MissingCloudAssembly (synthStep blueprint) ∧
   match primaryOutput (step O (synthStep blueprint)) with
   | Some f => fileSetPrimaryOutput (fileSet O f)
   | None => None
   end = None).
Proof.
  unfold new_GraphFromBlueprint, construct. intros H.
  apply bind_Throw in H as [H|(sn & st0 & Hsn & H)].
  { left. by eapply addBuildStep_error. }
  assert (asset_memo_ok st0) as Hok0.
  { eapply keeps_addBuildStep; [apply stable_asset_memo_ok| |exact Hsn].
    apply asset_memo_ok_initial. }
  apply bind_Throw in H as [H|(u1 & st1 & H1 & H)]; [done|]. mstep H1.
  apply bind_Throw in H as [H|(u2 & st2 & H2 & H)]; [done|]. mstep H2.
  apply bind_Throw in H as [H|(u3 & st3 & H3 & H)]; [done|]. mstep H3.
  destruct (match primaryOutput _ with Some f => _ | None => None end) as [ca|] eqn:Eca.
  2:{ right. injection H as <-. done. }
  left.
  set (I := λ x, asset_memo_ok x ∧ cloudAssemblyFileSet x = Some ca).
  assert (stable I) as HI
    by (apply stable_and; [apply stable_asset_memo_ok|apply stable_cloudAssembly]).
  assert (∀ x n ty, I x → unexpected (WrongDataType n ty) → asset_memo_ok x) as Hwrong
    by (by intros x n ty [? _] _).
  assert (∀ x, I x → unexpected TypeError → cloudAssemblyFileSet x ≠ None) as Htype
    by (intros x [_ Hx] _; by rewrite Hx).
  assert (∀ parent name, ¬ unexpected (DuplicateChild parent name)) as Hdup
    by (by intros parent name []).
  apply bind_Throw in H as [H|(u4 & st4 & H4 & H)]; [done|]. mstep H4.
  match type of H with ?m ?x = _ =>
    assert (guard I unexpected m) as Hg; [|assert (I x) as Hx] end.
  { apply guard_bind.
    { destruct (selfMutation props); [|apply guard_ret].
      apply guard_bind; [apply guard_gets|]. intros root.
      apply guard_bind; [by apply guard_Graph_of|]. intros stage.
      apply guard_bind; [by apply guard_Graph_add|]. intros _.
      apply guard_bind; [by apply guard_GraphNode_of|]. intros sm.
      apply guard_bind; [by apply guard_modify|]. intros _.
      apply guard_bind; [by apply guard_Graph_add|]. intros _.
      apply guard_bind; [by apply guard_dependOn|]. intros _.
      by apply guard_modify. }
    intros _. apply guard_bind.
    { apply guard_mapM. intros w. by apply guard_addWave. }
    intros ws. apply guard_bind; [by apply guard_deploySequentially|].
    intros; apply guard_ret. }
  { split; [|done].
    assert (asset_memo_ok (update_st sn markBuildStep (set_synthNode (Some sn) st0)))
      as Hm by (by apply asset_memo_ok_markBuildStep).
    intros k n Hk. exact (Hm k n Hk). }
  specialize (Hg _ Hx). rewrite H in Hg.
  destruct e as [| |parent name|]; try (by destruct Hg). by exists parent, name.
Qed.

End Errors.

Lemma construct_errors_witness :
  ∃ e, new_GraphFromBlueprint twins 2 twins_blueprint {| selfMutation := false |}
         = Throw e ∧
       ((∃ parent name, e = DuplicateChild parent name) ∨
        (e = MissingCloudAssembly (synthStep twins_blueprint) ∧
         match primaryOutput (step twins (synthStep twins_blueprint)) with
         | Some f => fileSetPrimaryOutput (fileSet twins f)
         | None => None
         end = None)).
Proof.
  destruct (new_GraphFromBlueprint twins 2 twins_blueprint {| selfMutation := false |})
    as [ws st|e|] eqn:E; [vm_compute in E; discriminate E| |vm_compute in E; discriminate E].
  exists e. split; [reflexivity|].
  exact (construct_errors twins 2 twins_blueprint {| selfMutation := false |} e E).
Defined.

(** * The Pipeline construct: what reaches the engine *)

Section PipelineStages.
Import Pipeline.
Context {Blueprint Engine Stage AddStageOptions AddWaveOptions
         StageDeployment Wave : Type}.
Context (blueprint_addStage :
           Stage → option AddStageOptions → Blueprint → Blueprint * StageDeployment).
Context (blueprint_addWave :
           string → option AddWaveOptions → Blueprint → Blueprint * Wave).
Context (buildDeployment : Blueprint → Engine → Engine * option string).

Abbreviation call' := (Pipeline.call blueprint_addStage blueprint_addWave buildDeployment).
Abbreviation run' := (Pipeline.run blueprint_addStage blueprint_addWave buildDeployment).

Lemma call_built c p : built p = true → call' c p = p.
Proof.
  intros Hb. destruct c; simpl;
    unfold Pipeline.addStage, Pipeline.addWave, Pipeline.build, Pipeline.prepare;
    by rewrite Hb.
Qed.

(** X15. Once a build has succeeded the Pipeline is frozen: whatever is
    called afterwards, in any number and order, the blueprint, the engine
    and the number of engine calls stay as they are. *)
Theorem Pipeline_frozen_once_built (cs : list Call) (p : Pipeline) :
  built p = true → run' cs p = p.
Proof.
  intros Hb. induction cs as [|c cs IH]; [done|].
  simpl. by rewrite call_built.
Qed.

(** X16. The stages and waves added before the first build reach the
    engine: after calls of [addStage] and [addWave] on a new Pipeline no
    build has happened and the engine has not been touched; every such call
    returns what the blueprint returns; and [build] then gives the engine
    the blueprint with all of them added, in the order of the calls. *)
Theorem Pipeline_build_sees_stages (cs : list Call) (b : Blueprint) (e : Engine) :
  forallb adds cs = true →
  let p := run' cs (constructor b e) in
  built p = false ∧ invocations p = 0 ∧ engine p = e ∧
  blueprint p = blueprint_after blueprint_addStage blueprint_addWave cs b ∧
  (∀ stage options,
     (Pipeline.addStage blueprint_addStage stage options p).2
     = Return (blueprint_addStage stage options (blueprint p)).2) ∧
  (∀ id options,
     (Pipeline.addWave blueprint_addWave id options p).2
     = Return (blueprint_addWave id options (blueprint p)).2) ∧
  engine (Pipeline.build buildDeployment p).1 =
    (buildDeployment
       (blueprint_after blueprint_addStage blueprint_addWave cs b) e).1.
Proof.
  intros Hcs. cbv zeta.
  assert (∀ p, built p = false →
            built (run' cs p) = false ∧ invocations (run' cs p) = invocations p ∧
            engine (run' cs p) = engine p ∧
            blueprint (run' cs p) =
              blueprint_after blueprint_addStage blueprint_addWave cs (blueprint p))
    as Hrun.
  { induction cs as [|c cs IH]; intros p Hp; [done|].
    simpl in Hcs. apply andb_prop in Hcs as [Hc Hcs]. simpl.
    destruct c as [stage options|id options| |]; try done; simpl.
    - unfold Pipeline.addStage. rewrite Hp.
      destruct (blueprint_addStage stage options (blueprint p)) as [b' r] eqn:E.
      simpl. destruct (IH Hcs {| blueprint := b'; engine := engine p; built := false;
                                 invocations := invocations p;
                                 completions := completions p |} eq_refl)
        as (? & ? & ? & ?). simpl in *. done.
    - unfold Pipeline.addWave. rewrite Hp.
      destruct (blueprint_addWave id options (blueprint p)) as [b' r] eqn:E.
      simpl. destruct (IH Hcs {| blueprint := b'; engine := engine p; built := false;
                                 invocations := invocations p;
                                 completions := completions p |} eq_refl)
        as (? & ? & ? & ?). simpl in *. done. }
  destruct (Hrun (constructor b e) eq_refl) as (Hb & Hi & He & Hbp).
  split; [done|]. split; [done|]. split; [done|]. split; [done|].
  split; [|split].
  - intros stage options. unfold Pipeline.addStage. rewrite Hb.
    by destruct (blueprint_addStage _ _ _).
  - intros id options. unfold Pipeline.addWave. rewrite Hb.
    by destruct (blueprint_addWave _ _ _).
  - unfold Pipeline.build. rewrite Hb, Hbp, He.
    by destruct (buildDeployment _ _) as [e' [msg|]].
Qed.

End PipelineStages.

Lemma Pipeline_frozen_once_built_witness :
  Pipeline.built
    (Pipeline.build recording_engine (Pipeline.constructor ["Beta"] [])).1 = true ∧
  Pipeline.run names_addStage names_addWave recording_engine
    [Pipeline.CallAddStage "Prod" None; Pipeline.CallBuild;
     Pipeline.CallAddWave "Wave" None; Pipeline.CallPrepare]
    (Pipeline.build recording_engine (Pipeline.constructor ["Beta"] [])).1
  = (Pipeline.build recording_engine (Pipeline.constructor ["Beta"] [])).1.
Proof.
  split; [reflexivity|].
  apply (Pipeline_frozen_once_built names_addStage names_addWave recording_engine).
  reflexivity.
Defined.

Lemma Pipeline_build_sees_stages_witness :
  forallb Pipeline.adds
    [Pipeline.CallAddStage "Beta" (None : option unit);
     Pipeline.CallAddWave "Wave" (None : option unit);
     Pipeline.CallAddStage "Prod" None] = true ∧
  Pipeline.engine
    (Pipeline.build recording_engine
       (Pipeline.run names_addStage names_addWave recording_engine
          [Pipeline.CallAddStage "Beta" None; Pipeline.CallAddWave "Wave" None;
           Pipeline.CallAddStage "Prod" None]
          (Pipeline.constructor [] []))).1
  = [["Beta"; "Wave"; "Prod"]].
Proof.
  split; [reflexivity|].
  destruct (Pipeline_build_sees_stages names_addStage names_addWave recording_engine
              [Pipeline.CallAddStage "Beta" None; Pipeline.CallAddWave "Wave" None;
               Pipeline.CallAddStage "Prod" None] [] [] eq_refl)
    as (_ & _ & _ & _ & _ & _ & H).
  rewrite H. reflexivity.
Defined.

(** ** Every Step a call adds *)

Lemma plain_path_reaches O s t : plain_path O s t → reaches O s t.
Proof.
  induction 1 as [s _|s d t _ Hd _ IH]; [apply reaches_here|].
  by eapply reaches_next.
Qed.

Lemma via_source_reaches O s t : via_source O s t → reaches O s t.
Proof.
  induction 1 as [s t _ H|s d t _ Hd _ IH]; [done|]. by eapply reaches_next.
Qed.

Lemma plain_path_end O s t :
  plain_path O s t → isCodePipelineSource (step O t) = false.
Proof. by induction 1. Qed.

Lemma stable_or I J : stable I → stable J → stable (λ st, I st ∨ J st).
Proof.
  intros HI HJ. split.
  - intros st nd [|] ?; [left|right]; by apply stable_alloc.
  - intros st p c [|]; [left|right]; by apply stable_add_child.
  - intros st r ds [|]; [left|right]; by apply stable_add_dependencies.
  - intros st r l a [|] ??; [left|right]; by apply stable_push.
  - intros st s n [|] ??; [left|right]; by apply stable_added.
  - intros st a n [|] ?; [left|right]; by apply stable_assetNodes.
  - intros st c [|]; [left|right]; by apply stable_fileAssetCtr.
  - intros st c [|]; [left|right]; by apply stable_dockerAssetCtr.
Qed.

(** A node under [parent] or under the "Source" group of [root], with a fact
    [P] or [Q] that does not depend on the state. *)
Lemma stable_placed root parent (c : string * nat) (P Q : Prop) :
  stable (λ st, (c ∈ children st parent ∧ P) ∨
                ∃ src, tryGetChild st root "Source" = Some src ∧
                       c ∈ children st src ∧ Q).
Proof.
  apply stable_or.
  - apply stable_and; [apply stable_child|apply stable_pure].
  - apply stable_exist. intros src. apply stable_and; [apply stable_tryGetChild|].
    apply stable_and; [apply stable_child|apply stable_pure].
Qed.

Lemma stable_linked O s n : stable (λ st, linked O st s n).
Proof.
  unfold linked. apply stable_forall. intros d. apply stable_impl.
  apply stable_exist. intros nd. apply stable_and; [apply stable_memo|apply stable_dep].
Qed.

Section Created.
Context (O : Objects).

(** Every Step that gets its node in a call is routed and linked when the
    call returns. *)
Lemma addAndRecurse_created fuel : ∀ s parent st n st',
  wf st → parent < length (heap st) →
  addAndRecurse O fuel s parent st = Ok n st' →
  ∀ s' n', added st !! s' = None → added st' !! s' = Some n' →
    routed O (graph st) s parent st' s' n' ∧ linked O st' s' n'.
Proof.
  induction fuel as [|fuel IH]; intros s parent st n st' Hw Hparent H s' n' Hs' Hn'.
  { simpl in H. mstep H. destruct (added st !! s) eqn:E; [|done]. mstep H. congruence. }
  destruct (added st !! s) as [m|] eqn:Es.
  { rewrite addAndRecurse_S, Es in H. injection H as <- <-. congruence. }
  destruct (addAndRecurse_new O _ _ _ _ _ _ Es H)
    as (fuel' & p & st1 & u & [= <-] & -> & Hp & Hname & Hloop & Hn1 & Hd1 & Hid1 & _ & Ha1 & Hl1).
  set (n := length (heap st)) in *. set (r := graph st).
  set (nd := {| n_id := step_id (step O s); n_data := Some (AStep s false);
                n_dependencies := []; n_children := [] |}) in *.
  (* the state and the parent after the optional detour over "Source" *)
  assert (mods [] st st1 ∧ p < length (heap st1) ∧
          (isCodePipelineSource (step O s) = false ∧ p = parent ∨
           isCodePipelineSource (step O s) = true ∧
           tryGetChild st1 r "Source" = Some p)) as (Hm1 & Hp1 & Hpcase).
  { destruct (isCodePipelineSource (step O s)).
    - assert (mods [] st (alloc_st nd st)) as Hma by (apply mods_alloc; [apply mods_refl|done]).
      assert (wf (alloc_st nd st)) as Hwa by (by eapply wf_mods).
      split; [eapply mods_trans; [exact Hma|by eapply topLevelGraph_mods]|].
      split; [by eapply topLevelGraph_bound|]. right. split; [done|].
      by destruct (topLevelGraph_found _ _ _ _ (wf_graph _ Hwa) Hp) as (_ & ? & _).
    - destruct Hp as [-> ->]. split; [apply mods_alloc; [apply mods_refl|done]|].
      split; [rewrite length_heap_alloc; lia|by left]. }
  set (st2 := set_added (<[s := n]> (added st1))
                (update_st p (add_child (step_id (step O s), n)) st1)) in *.
  assert (mods [] st st2) as Hm2.
  { apply (mods_set_added [] st (update_st p (add_child (step_id (step O s), n)) st1) s n).
    - apply mods_add_child; [done|]. unfold n. simpl. lia.
    - change (added st1 !! s = None). by rewrite Ha1.
    - rewrite length_heap_update. unfold n. lia. }
  (* where a Step of this call is, seen from the loop: under [p], as [s]
     itself or reached from a dependency of [s] without meeting a source
     Step, or under "Source", reached from a dependency of [s] through one *)
  set (A := λ x s' n',
         ((step_id (step O s'), n') ∈ children x p ∧
          (s' = s ∨ ∃ d, d ∈ dependencySteps (step O s) ∧ plain_path O d s')) ∨
         ∃ src, tryGetChild x r "Source" = Some src ∧
                (step_id (step O s'), n') ∈ children x src ∧
                ∃ d, d ∈ dependencySteps (step O s) ∧ via_source O d s').
  assert (∀ s0 n0, stable (λ x, A x s0 n0)) as HA by (intros; apply stable_placed).
  set (Inv := λ x, (wf x ∧ mods [] st x) ∧
                   (n < length (heap x) ∧ p < length (heap x)) ∧
                   (isCodePipelineSource (step O s) = true →
                    tryGetChild x r "Source" = Some p) ∧
                   added x !! s = Some n ∧
                   ∀ s' n', added st !! s' = None → added x !! s' = Some n' →
                     A x s' n' ∧ (s' ≠ s → linked O x s' n')).
  eapply (forEach_each Inv (λ d x, ∃ nd, added x !! d = Some nd ∧ nd ∈ deps x n))
    in Hloop as [((Hw' & Hm') & _ & Hpc' & Hsn' & Hall) Hdeps].
  - destruct (Hall s' n' Hs' Hn') as [Hatt Hlink]. split.
    + (* from the loop's view to the caller's *)
      unfold routed. fold r.
      destruct Hpcase as [[Hsrc ->]|[Hsrc _]].
      * destruct Hatt as [[Hc [->|(d & Hd & Hpath)]]|(src & Hsrc' & Hc & d & Hd & Hvia)].
        -- left. split; [done|by apply plain_here].
        -- left. split; [done|by eapply plain_next].
        -- right. exists src. split; [done|]. split; [done|by eapply via_next].
      * specialize (Hpc' Hsrc).
        destruct Hatt as [[Hc Hpath]|(src & Hsrc' & Hc & d & Hd & Hvia)]; right.
        -- exists p. split; [done|]. split; [done|]. apply via_here; [done|].
           destruct Hpath as [->|(d & Hd & Hpath)]; [apply reaches_here|].
           eapply reaches_next; [done|by apply plain_path_reaches].
        -- exists src. split; [done|]. split; [done|]. apply via_here; [done|].
           eapply reaches_next; [done|by apply via_source_reaches].
    + destruct (decide (s' = s)) as [->|Hne]; [|by apply Hlink].
      assert (n' = n) as -> by congruence. exact Hdeps.
  - (* one dependency *)
    intros dep x v x' Hdep ((Hwx & Hmx) & (Hnx & Hpx) & Hpcx & Hsx & Hallx) Hb.
    apply bind_Ok in Hb as (pn & x1 & Hrec & Hb). mstep Hb.
    pose proof (addAndRecurse_mods O _ _ _ _ _ _ Hrec) as [Hmr Hpn].
    pose proof (addAndRecurse_wf O _ _ _ _ _ _ Hwx Hrec) as [Hwx1 _].
    pose proof (mods_length _ _ _ Hmr) as Hlx1.
    assert (n < length (heap x1)) as Hnx1 by lia.
    assert (graph x = r) as Hgx by apply (m_graph _ _ _ Hmx).
    split; [split; [split|split; [|split; [|split]]]|].
    + eapply (wf_mods []); [exact Hwx1|].
      apply mods_add_deps; [apply mods_refl|]. right; left.
      exists s. by apply (m_added _ _ _ Hmr).
    + eapply mods_trans; [exact Hmx|]. eapply mods_trans; [exact Hmr|].
      apply mods_add_deps; [apply mods_refl|]. right; left.
      exists s. by apply (m_added _ _ _ Hmr).
    + rewrite length_heap_update. lia.
    + intros Hsrc. specialize (Hpcx Hsrc).
      apply (stable_add_dependencies _ (stable_tryGetChild _ _ _)).
      by eapply (keeps_addAndRecurse O (λ y, tryGetChild y r "Source" = Some p));
        [apply stable_tryGetChild| |exact Hrec].
    + by apply (m_added _ _ _ Hmr).
    + intros s0 n0 Hs0 Hn0. change (added x1 !! s0 = Some n0) in Hn0.
      assert (A x1 s0 n0 ∧ (s0 ≠ s → linked O x1 s0 n0)) as [Hatt Hlink].
      { destruct (added x !! s0) as [m|] eqn:Ex0.
        - assert (m = n0) as -> by (apply (m_added _ _ _ Hmr) in Ex0; congruence).
          destruct (Hallx _ _ Hs0 Ex0) as [Hatt Hlink]. split.
          + by eapply (keeps_addAndRecurse O (λ y, A y s0 n0));
              [apply HA| |exact Hrec].
          + intros Hne.
            by eapply (keeps_addAndRecurse O (λ y, linked O y s0 n0));
              [apply stable_linked|apply Hlink|exact Hrec].
        - destruct (IH _ _ _ _ _ Hwx Hpx Hrec s0 n0 Ex0 Hn0) as [Hatt Hlink].
          unfold routed in Hatt. rewrite Hgx in Hatt. split; [|done].
          destruct Hatt as [[Hc Hpath]|(src & Hsrc & Hc & Hvia)]; [left|right].
          + split; [done|]. right. by exists dep.
          + exists src. split; [done|]. split; [done|]. by exists dep. }
      split.
      * by apply (stable_add_dependencies _ (HA _ _)).
      * intros Hne. by apply (stable_add_dependencies _ (stable_linked _ _ _)), Hlink.
    + exists pn. split; [done|]. rewrite deps_dependOn, decide_True by done.
      apply elem_of_app. right. by left.
  - (* what was linked stays linked *)
    intros d d' x v x' _ _ (nd' & Hnd & Hin) Hb. exists nd'.
    eapply (guard_Ok (λ y, added y !! d = Some nd' ∧ nd' ∈ deps y n) (λ _, False));
      [|exact (conj Hnd Hin)|exact Hb].
    assert (stable (λ y, added y !! d = Some nd' ∧ nd' ∈ deps y n)) as HJ
      by (apply stable_and; [apply stable_memo|apply stable_dep]).
    apply guard_bind; [apply guard_addAndRecurse; no_error|].
    intros pn. by apply guard_dependOn.
  - (* the state in which the loop starts *)
    split; [split; [by eapply wf_mods|done]|].
    split; [unfold st2; simpl; rewrite length_alter; lia|]. split.
    { intros Hsrc. destruct Hpcase as [[? _]|[_ Hsrc']]; [congruence|].
      change (tryGetChild (update_st p (add_child (step_id (step O s), n)) st1) r "Source"
              = Some p).
      by apply tryGetChild_add_child. }
    split; [simpl; by rewrite lookup_insert_eq|].
    intros s0 n0 Hs0. simpl. rewrite Ha1, lookup_insert. case_decide as Hc.
    + intros [= <-]. subst s0. split; [|done]. left. split; [|by left].
      change ((step_id (step O s), n) ∈
              children (update_st p (add_child (step_id (step O s), n)) st1) p).
      rewrite children_add_child, decide_True by done.
      apply elem_of_app. right. by left.
    + congruence.
Qed.

(** X4. Every Step that gets its node in a call of [addAndRecurse] (the
    Step asked for, and the dependencies reached from it that had none)
    depends, when the call returns, on exactly the nodes of the Steps it
    declares as dependencies. This includes Steps that depend on each
    other: the cycle is copied into the graph. *)
Theorem addAndRecurse_dependencies fuel s parent st n st' :
  wf st → memo_annotated st → parent < length (heap st) →
  addAndRecurse O fuel s parent st = Ok n st' →
  ∀ s' n', added st !! s' = None → added st' !! s' = Some n' →
    ∀ y, y ∈ deps st' n' ↔
         ∃ d, d ∈ dependencySteps (step O s') ∧ added st' !! d = Some y.
Proof.
  intros Hw Hmemo Hparent H s' n' Hs' Hn' y.
  destruct (addAndRecurse_created _ _ _ _ _ _ Hw Hparent H s' n' Hs' Hn') as [_ Hlink].
  pose proof (addAndRecurse_mods O _ _ _ _ _ _ H) as [Hm _].
  split.
  - intros Hy. destruct (addAndRecurse_edges O _ _ _ _ _ _ H n' y Hy) as [Hy0|Hy0].
    { destruct (m_added_new _ _ _ Hm _ _ Hn') as [?|[Hfresh _]]; [congruence|].
      unfold deps in Hy0. rewrite node_dangling in Hy0 by done.
      by apply elem_of_nil in Hy0. }
    destruct Hy0 as (s'' & d & Hs'' & Hd & Hdy).
    assert (memo_annotated st') as Hmemo'
      by (eapply keeps_addAndRecurse; [apply stable_memo_annotated|done|done]).
    rewrite (memo_annotated_inj _ _ _ _ Hmemo' Hs'' Hn') in Hd. by exists d.
  - intros (d & Hd & Hdy). destruct (Hlink d Hd) as (nd' & Hnd & Hin). congruence.
Qed.

(** X17. Where [addAndRecurse] attaches the Steps it creates. Every Step
    that gets its node in a call for the Step [s] under [parent] sits, when
    the call returns, in one of two groups. Either under [parent], and then a
    path of declared dependencies leads from [s] to it on which no Step, the
    two ends included, is a source Step. Or under the root's "Source" group,
    and then such a path passes through a source Step. So a source Step is
    under "Source", and so is every Step that is reached from [s] only
    through source Steps, although it is not one itself: the recursion goes
    on with the replaced parent. *)
Theorem addAndRecurse_attaches fuel s parent st n st' :
  wf st → parent < length (heap st) →
  addAndRecurse O fuel s parent st = Ok n st' →
  ∀ s' n', added st !! s' = None → added st' !! s' = Some n' →
    ((step_id (step O s'), n') ∈ children st' parent ∧ plain_path O s s') ∨
    ∃ src, tryGetChild st' (graph st') "Source" = Some src ∧
           (step_id (step O s'), n') ∈ children st' src ∧ via_source O s s'.
Proof.
  intros Hw Hparent H s' n' Hs' Hn'.
  destruct (addAndRecurse_created _ _ _ _ _ _ Hw Hparent H s' n' Hs' Hn') as [Hatt _].
  pose proof (addAndRecurse_mods O _ _ _ _ _ _ H) as [Hm _].
  unfold routed in Hatt. by rewrite (m_graph _ _ _ Hm).
Qed.

(** What follows for the Steps that are not reached without meeting a
    source Step, and for those that are not reached through one. *)
Lemma addAndRecurse_under_Source fuel s parent st n st' :
  wf st → parent < length (heap st) →
  addAndRecurse O fuel s parent st = Ok n st' →
  ∀ s' n', added st !! s' = None → added st' !! s' = Some n' →
    ¬ plain_path O s s' →
    ∃ src, tryGetChild st' (graph st') "Source" = Some src ∧
           (step_id (step O s'), n') ∈ children st' src.
Proof.
  intros Hw Hparent H s' n' Hs' Hn' Hno.
  destruct (addAndRecurse_created _ _ _ _ _ _ Hw Hparent H s' n' Hs' Hn') as [Hatt _].
  pose proof (addAndRecurse_mods O _ _ _ _ _ _ H) as [Hm _].
  unfold routed in Hatt. rewrite <- (m_graph _ _ _ Hm) in Hatt.
  destruct Hatt as [[_ ?]|(src & ? & ? & _)]; [done|by exists src].
Qed.

Lemma addAndRecurse_under_parent fuel s parent st n st' :
  wf st → parent < length (heap st) →
  addAndRecurse O fuel s parent st = Ok n st' →
  ∀ s' n', added st !! s' = None → added st' !! s' = Some n' →
    ¬ via_source O s s' →
    (step_id (step O s'), n') ∈ children st' parent.
Proof.
  intros Hw Hparent H s' n' Hs' Hn' Hno.
  destruct (addAndRecurse_created _ _ _ _ _ _ Hw Hparent H s' n' Hs' Hn') as [Hatt _].
  destruct Hatt as [[? _]|(src & ? & ? & ?)]; done.
Qed.

End Created.

(** Steps 2 and 3 of [demo] depend on each other. *)
Lemma addAndRecurse_dependencies_witness :
  ∃ n st' n3,
    addAndRecurse demo 5 2 0 initial = Ok n st' ∧
    added st' !! 3 = Some n3 ∧
    (∀ y, y ∈ deps st' n ↔
          ∃ d, d ∈ dependencySteps (step demo 2) ∧ added st' !! d = Some y) ∧
    (∀ y, y ∈ deps st' n3 ↔
          ∃ d, d ∈ dependencySteps (step demo 3) ∧ added st' !! d = Some y).
Proof.
  destruct (addAndRecurse demo 5 2 0 initial) as [n st'| |] eqn:E;
    [|vm_compute in E; discriminate E..].
  assert (added st' !! 2 = Some n ∧ added st' !! 3 = Some 2) as [H2 H3]
    by (vm_compute in E; injection E as <- <-; split; reflexivity).
  assert (0 < length (heap initial)) as H0 by (simpl; lia).
  exists n, st', 2. split; [reflexivity|]. split; [exact H3|]. split.
  - exact (addAndRecurse_dependencies demo 5 2 0 initial n st' wf_initial
             memo_annotated_initial H0 E 2 n eq_refl H2).
  - exact (addAndRecurse_dependencies demo 5 2 0 initial n st' wf_initial
             memo_annotated_initial H0 E 3 2 eq_refl H3).
Defined.

(** In [sourced], Step 2 is reached from Step 0 only through the source
    Step 1. *)
Lemma sourced_no_plain_path : ¬ plain_path sourced 0 2.
Proof.
  intros H. inversion H as [|s d t _ Hd Hp]; subst.
  simpl in Hd. apply list_elem_of_singleton in Hd as ->.
  inversion Hp; subst; simpl in *; discriminate.
Qed.

(** X17 on [sourced]: asked for Step 0 under the root group, the call puts
    Step 0 there and the source Step 1 and its dependency 2 under
    "Source". *)
Lemma addAndRecurse_attaches_witness :
  ∃ n st',
    addAndRecurse sourced 3 0 0 initial = Ok n st' ∧
    ∀ s' n', added initial !! s' = None → added st' !! s' = Some n' →
      ((step_id (step sourced s'), n') ∈ children st' 0 ∧ plain_path sourced 0 s') ∨
      ∃ src, tryGetChild st' (graph st') "Source" = Some src ∧
             (step_id (step sourced s'), n') ∈ children st' src ∧
             via_source sourced 0 s'.
Proof.
  destruct (addAndRecurse sourced 3 0 0 initial) as [n st'| |] eqn:E;
    [|vm_compute in E; discriminate E..].
  assert (0 < length (heap initial)) as H0 by (simpl; lia).
  exists n, st'. split; [reflexivity|].
  exact (addAndRecurse_attaches sourced 3 0 0 initial n st' wf_initial H0 E).
Defined.

(** The same run, evaluated: the node of Step 2 is in the "Source" group and
    not among the nodes of the parent that was passed. *)
Lemma addAndRecurse_through_source :
  ∃ n st' src n2,
    addAndRecurse sourced 3 0 0 initial = Ok n st' ∧
    tryGetChild st' (graph st') "Source" = Some src ∧
    added st' !! 2 = Some n2 ∧
    nodes st' 0 = [n; src] ∧ n2 ∈ nodes st' src ∧ n2 ∉ nodes st' 0.
Proof.
  eexists _, _, _, _. split; [vm_compute; reflexivity|].
  split; [vm_compute; reflexivity|]. split; [vm_compute; reflexivity|].
  split; [vm_compute; reflexivity|]. split.
  - apply list_elem_of_In. vm_compute. right. by left.
  - intros H%list_elem_of_In. vm_compute in H. intuition discriminate.
Qed.

(** ** Step dependencies in the compiled graph *)

Lemma settled_all_linked O : settled (all_linked O).
Proof.
  split.
  - intros st nd H Hnd s n Hs.
    apply (stable_alloc _ (stable_linked O s n)); [by apply H|done].
  - intros st p c H s n Hs.
    apply (stable_add_child _ (stable_linked O s n)). by apply H.
  - intros st r ds H s n Hs.
    apply (stable_add_dependencies _ (stable_linked O s n)). by apply H.
  - intros st r l a H ? ? s n Hs.
    apply (stable_push _ (stable_linked O s n)); [by apply H|done|done].
  - intros st a n0 H ? s n Hs.
    apply (stable_assetNodes _ (stable_linked O s n)); [by apply H|done].
  - intros st c H s n Hs.
    apply (stable_fileAssetCtr _ (stable_linked O s n)). by apply H.
  - intros st c H s n Hs.
    apply (stable_dockerAssetCtr _ (stable_linked O s n)). by apply H.
Qed.

Section Linked.
Context (O : Objects).

(** Every Step that gets its node in a call is linked when the call
    returns, whatever the parent. *)
Lemma addAndRecurse_links fuel : ∀ s parent st n st',
  addAndRecurse O fuel s parent st = Ok n st' →
  ∀ s' n', added st !! s' = None → added st' !! s' = Some n' → linked O st' s' n'.
Proof.
  induction fuel as [|fuel IH]; intros s parent st n st' H s' n' Hs' Hn'.
  { simpl in H. mstep H. destruct (added st !! s) eqn:E; [|done]. mstep H. congruence. }
  destruct (added st !! s) as [m|] eqn:Es.
  { rewrite addAndRecurse_S, Es in H. injection H as <- <-. congruence. }
  destruct (addAndRecurse_new O _ _ _ _ _ _ Es H)
    as (fuel' & p & st1 & u & [= <-] & -> & _ & _ & Hloop & Hn1 & _ & _ & _ & Ha1 & _).
  set (n := length (heap st)) in *.
  set (Inv := λ x, n < length (heap x) ∧ added x !! s = Some n ∧
                   ∀ s' n', added st !! s' = None → added x !! s' = Some n' →
                     s' ≠ s → linked O x s' n').
  eapply (forEach_each Inv (λ d x, ∃ nd, added x !! d = Some nd ∧ nd ∈ deps x n))
    in Hloop as [(_ & Hsn' & Hall) Hdeps].
  - destruct (decide (s' = s)) as [->|Hne]; [|by apply Hall].
    assert (n' = n) as -> by congruence. exact Hdeps.
  - intros dep x v x' _ (Hnx & Hsx & Hallx) Hb.
    apply bind_Ok in Hb as (pn & x1 & Hrec & Hb). mstep Hb.
    pose proof (addAndRecurse_mods O _ _ _ _ _ _ Hrec) as [Hmr Hpn].
    pose proof (mods_length _ _ _ Hmr) as Hlx1.
    split; [split; [|split]|].
    + rewrite length_heap_update. lia.
    + by apply (m_added _ _ _ Hmr).
    + intros s0 n0 Hs0 Hn0 Hne. change (added x1 !! s0 = Some n0) in Hn0.
      apply (stable_add_dependencies _ (stable_linked _ _ _)).
      destruct (added x !! s0) as [m|] eqn:Ex0.
      * assert (m = n0) as -> by (apply (m_added _ _ _ Hmr) in Ex0; congruence).
        eapply (keeps_addAndRecurse O (λ y, linked O y s0 n0));
          [apply stable_linked|by apply Hallx|exact Hrec].
      * by eapply IH.
    + exists pn. split; [done|]. rewrite deps_dependOn, decide_True by (split; [done|lia]).
      apply elem_of_app. right. by left.
  - intros d d' x v x' _ _ (nd' & Hnd & Hin) Hb. exists nd'.
    eapply (guard_Ok (λ y, added y !! d = Some nd' ∧ nd' ∈ deps y n) (λ _, False));
      [|exact (conj Hnd Hin)|exact Hb].
    assert (stable (λ y, added y !! d = Some nd' ∧ nd' ∈ deps y n)) as HJ
      by (apply stable_and; [apply stable_memo|apply stable_dep]).
    apply guard_bind; [apply guard_addAndRecurse; no_error|].
    intros pn. by apply guard_dependOn.
  - split; [simpl; by rewrite length_alter|].
    split; [simpl; by rewrite lookup_insert_eq|].
    intros s0 n0 Hs0. simpl. rewrite Ha1, lookup_insert. case_decide; [done|congruence].
Qed.

Lemma all_linked_addAndRecurse fuel s parent :
  guard (all_linked O) (λ _, False) (addAndRecurse O fuel s parent).
Proof.
  intros st H. destruct (addAndRecurse O fuel s parent st) as [n st'|e|] eqn:E;
    [|by intros []|done].
  pose proof (addAndRecurse_mods O _ _ _ _ _ _ E) as [Hm _].
  intros s0 n0 Hn0. destruct (added st !! s0) as [m|] eqn:E0.
  - assert (m = n0) as -> by (apply (m_added _ _ _ Hm) in E0; congruence).
    eapply (keeps_addAndRecurse O (λ y, linked O y s0 n0));
      [apply stable_linked|by apply H|exact E].
  - by eapply addAndRecurse_links.
Qed.

(** X18. The compiled graph respects the dependencies between Steps: after
    construction, for every Step that has a node and every Step it declares
    as a dependency, the dependency has a node as well and the first node
    depends on it. *)
Theorem construct_step_dependencies fuel blueprint props ws st :
  new_GraphFromBlueprint O fuel blueprint props = Ok ws st →
  ∀ s n d, added st !! s = Some n → d ∈ dependencySteps (step O s) →
    ∃ nd, added st !! d = Some nd ∧ nd ∈ deps st n.
Proof.
  unfold new_GraphFromBlueprint.
  intros (sn & st0 & ca & st1 & st2 & Hsn & _ & Hblock & Hws & Hseq)%construct_steps.
  pose proof (settled_all_linked O) as HL.
  assert (∀ (p : nat) (name : string), ¬ (λ _ : Error, False) (DuplicateChild p name))
    as Hdup by (by intros ? ? []).
  assert (∀ x (n : nat) (ty : option AnnotationType), all_linked O x →
            (λ _ : Error, False) (WrongDataType n ty) → asset_memo_ok x)
    as Hwrong by (by intros ? ? ? _ []).
  assert (∀ x, all_linked O x → (λ _ : Error, False) TypeError →
            cloudAssemblyFileSet x ≠ None) as Htype by (by intros ? _ []).
  assert (all_linked O st0) as H0.
  { eapply (guard_Ok _ (λ _, False)); [| |exact Hsn].
    - apply settled_addBuildStep; [done|apply all_linked_addAndRecurse|done].
    - intros s n H. simpl in H. by rewrite lookup_empty in H. }
  assert (all_linked O (set_cloudAssemblyFileSet (Some ca)
            (set_lastPreparationNode (Some sn)
               (update_st sn markBuildStep (set_synthNode (Some sn) st0))))) as Hb.
  { intros s n Hs d Hd. destruct (H0 s n Hs d Hd) as (nd & Hnd & Hin).
    exists nd. split; [done|].
    change (nd ∈ deps (update_st sn markBuildStep (set_synthNode (Some sn) st0)) n).
    by rewrite deps_markBuildStep. }
  assert (all_linked O st1) as H1.
  { destruct (selfMutation props); [|by mstep Hblock].
    eapply addSelfMutation_keeps; [exact HL| | |exact Hb|exact Hblock];
      intros x n H s0 n0 Hs0; exact (H s0 n0 Hs0). }
  assert (all_linked O st2) as H2.
  { eapply (guard_Ok _ (λ _, False)); [|exact H1|exact Hws].
    apply guard_mapM. intros w.
    apply settled_addWave; [done|apply all_linked_addAndRecurse|done..]. }
  assert (all_linked O st) as H.
  { eapply (guard_Ok _ (λ _, False)); [|exact H2|exact Hseq].
    by apply settled_deploySequentially. }
  intros s n d Hs Hd. by apply (H s n Hs d Hd).
Qed.

End Linked.

Lemma construct_step_dependencies_witness :
  ∃ ws st,
    new_GraphFromBlueprint demo 3 demo_blueprint {| selfMutation := true |}
      = Ok ws st ∧
    ∀ s n d, added st !! s = Some n → d ∈ dependencySteps (step demo s) →
      ∃ nd, added st !! d = Some nd ∧ nd ∈ deps st n.
Proof.
  destruct (new_GraphFromBlueprint demo 3 demo_blueprint {| selfMutation := true |})
    as [ws st| |] eqn:E.
  - exists ws, st. split; [reflexivity|].
    exact (construct_step_dependencies demo 3 demo_blueprint _ ws st E).
  - vm_compute in E. discriminate E.
  - vm_compute in E. discriminate E.
Defined.

(** ** What a Step addition leaves alone *)

Section Frame.
Context (O : Objects).

Lemma addAndRecurse_old_nodes fuel : ∀ s parent st n st',
  addAndRecurse O fuel s parent st = Ok n st' →
  ∀ r, r < length (heap st) → deps st' r = deps st r ∧ data st' r = data st r.
Proof.
  induction fuel as [|fuel IH]; intros s parent st n st' H r Hr.
  { simpl in H. mstep H. destruct (added st !! s) eqn:E; [|done]. by mstep H. }
  destruct (added st !! s) as [m|] eqn:Es.
  { rewrite addAndRecurse_S, Es in H. by injection H as <- <-. }
  destruct (addAndRecurse_new O _ _ _ _ _ _ Es H)
    as (fuel' & p & st1 & u & [= <-] & -> & Hp & _ & Hloop & Hn1 & _).
  set (nd := {| n_id := step_id (step O s); n_data := Some (AStep s false);
                n_dependencies := []; n_children := [] |}) in *.
  assert (∀ r, r < length (heap st) →
            deps st1 r = deps st r ∧ data st1 r = data st r) as H1.
  { intros r0 Hr0.
    assert (deps (alloc_st nd st) r0 = deps st r0 ∧
            data (alloc_st nd st) r0 = data st r0) as [Hd Hdata].
    { rewrite deps_alloc by done. rewrite data_alloc, decide_False by lia. done. }
    destruct (isCodePipelineSource (step O s)); [|by destruct Hp as [_ ->]].
    rewrite (topLevelGraph_deps _ _ _ _ r0 Hp).
    by destruct (topLevelGraph_data _ _ _ _ r0 Hp) as [-> _]. }
  eapply (forEach_inv (λ x, length (heap st) < length (heap x) ∧
            ∀ r, r < length (heap st) →
              deps x r = deps st r ∧ data x r = data st r)) in Hloop as [_ Hall].
  - by apply Hall.
  - intros dep x v x' _ [Hlen Hx] Hb.
    apply bind_Ok in Hb as (pn & x1 & Hrec & Hb). mstep Hb.
    pose proof (addAndRecurse_mods O _ _ _ _ _ _ Hrec) as [Hm _].
    pose proof (mods_length _ _ _ Hm) as Hl.
    split; [rewrite length_heap_update; lia|].
    intros r0 Hr0. rewrite deps_dependOn, data_add_dependencies.
    rewrite decide_False by (intros [-> _]; lia).
    destruct (IH _ _ _ _ _ Hrec r0 ltac:(lia)) as [-> ->]. by apply Hx.
  - split; [simpl; rewrite length_alter; lia|].
    intros r0 Hr0.
    change (deps (update_st p (add_child (step_id (step O s), length (heap st))) st1) r0
            = deps st r0 ∧
            data (update_st p (add_child (step_id (step O s), length (heap st))) st1) r0
            = data st r0).
    rewrite deps_add_child, data_add_child. by apply H1.
Qed.

Lemma addAndRecurse_fields fuel : ∀ s parent st n st',
  addAndRecurse O fuel s parent st = Ok n st' →
  assetNodes st' = assetNodes st ∧
  _fileAssetCtr st' = _fileAssetCtr st ∧ _dockerAssetCtr st' = _dockerAssetCtr st ∧
  lastPreparationNode st' = lastPreparationNode st.
Proof.
  induction fuel as [|fuel IH]; intros s parent st n st' H.
  { simpl in H. mstep H. destruct (added st !! s) eqn:E; [|done]. by mstep H. }
  destruct (added st !! s) as [m|] eqn:Es.
  { rewrite addAndRecurse_S, Es in H. by injection H as <- <-. }
  destruct (addAndRecurse_new O _ _ _ _ _ _ Es H)
    as (fuel' & p & st1 & u & [= <-] & -> & Hp & _ & Hloop & _).
  set (J := λ x, assetNodes x = assetNodes st ∧
                 _fileAssetCtr x = _fileAssetCtr st ∧
                 _dockerAssetCtr x = _dockerAssetCtr st ∧
                 lastPreparationNode x = lastPreparationNode st).
  assert (J st1) as H1.
  { destruct (isCodePipelineSource (step O s)); [|by destruct Hp as [_ ->]].
    by apply topLevelGraph_Ok in Hp as [[_ ->]|(_ & _ & ->)]. }
  eapply (forEach_inv J); [| |exact Hloop]; [|exact H1].
  intros dep x v x' _ Hx Hb.
  apply bind_Ok in Hb as (pn & x1 & Hrec & Hb). mstep Hb.
  destruct (IH _ _ _ _ _ Hrec) as (Ha & Hf & Hd & Hl).
  unfold J in *. simpl. rewrite Ha, Hf, Hd, Hl. exact Hx.
Qed.

(** X19. A call of [addAndRecurse] leaves the nodes that existed before it
    as they were: none of them gains or loses a dependency, and none
    changes its annotation; neither the asset memo nor the asset counters
    nor the preparation node change. New dependencies are only put on nodes
    the call creates. *)
Theorem addAndRecurse_frame fuel s parent st n st' :
  addAndRecurse O fuel s parent st = Ok n st' →
  (∀ r, r < length (heap st) → deps st' r = deps st r ∧ data st' r = data st r) ∧
  assetNodes st' = assetNodes st ∧
  _fileAssetCtr st' = _fileAssetCtr st ∧ _dockerAssetCtr st' = _dockerAssetCtr st ∧
  lastPreparationNode st' = lastPreparationNode st.
Proof.
  intros H. split; [by eapply addAndRecurse_old_nodes|by eapply addAndRecurse_fields].
Qed.

End Frame.

Lemma addAndRecurse_frame_witness :
  ∃ st0 n st',
    addStage demo 3 (demo_stage "Prod" [0; 1]) demo_state = Ok 1 st0 ∧
    addAndRecurse demo 5 10 1 st0 = Ok n st' ∧
    (∀ r, r < length (heap st0) → deps st' r = deps st0 r ∧ data st' r = data st0 r) ∧
    assetNodes st' = assetNodes st0 ∧
    _fileAssetCtr st' = _fileAssetCtr st0 ∧ _dockerAssetCtr st' = _dockerAssetCtr st0 ∧
    lastPreparationNode st' = lastPreparationNode st0.
Proof.
  destruct (addStage demo 3 (demo_stage "Prod" [0; 1]) demo_state)
    as [g st0| |] eqn:E0; [|vm_compute in E0; discriminate E0..].
  assert (g = 1) as -> by (vm_compute in E0; injection E0 as <- _; reflexivity).
  destruct (addAndRecurse demo 5 10 1 st0) as [n st'| |] eqn:E;
    [|exfalso; vm_compute in E0; injection E0 as <-; vm_compute in E; discriminate E..].
  exists st0, n, st'. split; [reflexivity|]. split; [exact E|].
  exact (addAndRecurse_frame demo 5 10 1 st0 n st' E).
Defined.

(** * What the compiled graph contains *)

Lemma elem_of_parents st x r : r ∈ parents st x ↔ x ∈ nodes st r.
Proof.
  unfold parents. rewrite list_elem_of_filter, elem_of_seq. split; [by intros []|].
  intros Hx. split; [done|]. split; [lia|]. simpl.
  destruct (decide (r < length (heap st))) as [|Hr]; [done|].
  unfold nodes, children in Hx. rewrite node_dangling in Hx by lia.
  by apply elem_of_nil in Hx.
Qed.

Lemma orphan_parents st x : orphan st x ↔ parents st x = [].
Proof.
  split.
  - intros Hx. apply elem_of_nil_inv. intros r Hr%elem_of_parents.
    apply elem_of_nodes in Hr as (c & Hc & Hcx). by eapply Hx.
  - intros Hp r c Hc Hcx.
    assert (r ∈ parents st x) as Hr
      by (apply elem_of_parents, elem_of_nodes; by exists c).
    rewrite Hp in Hr. by apply elem_of_nil in Hr.
Qed.

(** A node of a graph other than the graph itself has a parent in it. *)
Lemma inGraph_parent st g x :
  inGraph st g x → x = g ∨ ∃ r, r ∈ parents st x ∧ inGraph st g r.
Proof.
  intros H. destruct H as [|r c Hr Hc]; [by left|]. right. exists r.
  split; [|done]. apply elem_of_parents, elem_of_nodes. by exists c.
Qed.

Lemma orphan_not_inGraph st g x : orphan st x → x ≠ g → ¬ inGraph st g x.
Proof.
  intros Hx%orphan_parents Hne [?|(r & Hr & _)]%inGraph_parent; [done|].
  rewrite Hx in Hr. by apply elem_of_nil in Hr.
Qed.

(** ** Nodes that no group holds *)

Lemma fresh_children_refl st : fresh_children st st.
Proof. split; [done|]. intros r c ?. by left. Qed.

Lemma fresh_children_trans st0 st1 st2 :
  fresh_children st0 st1 → fresh_children st1 st2 → fresh_children st0 st2.
Proof.
  intros [Hl1 H1] [Hl2 H2]. split; [lia|]. intros r c Hc.
  destruct (H2 r c Hc) as [Hc1|?]; [|right; lia]. by apply H1.
Qed.

Lemma mods_fresh_children B st0 st : mods B st0 st → fresh_children st0 st.
Proof.
  intros Hm. split; [by eapply mods_length|]. intros r c Hc.
  destruct (m_children_new _ _ _ Hm r c Hc) as [?|?]; [by left|right; lia].
Qed.

Lemma fresh_children_dependOn st0 st n ds :
  fresh_children st0 st → fresh_children st0 (update_st n (add_dependencies ds) st).
Proof.
  intros [Hl H]. split; [by rewrite length_heap_update|].
  intros r c. rewrite children_dependOn. apply H.
Qed.

Lemma orphan_later st0 st x :
  fresh_children st0 st → x < length (heap st0) → orphan st0 x → orphan st x.
Proof.
  intros [_ H] Hx H0 r c Hc. destruct (H r c Hc) as [Hc0|?]; [by eapply H0|lia].
Qed.

Lemma only_parent_later st0 st x r :
  fresh_children st0 st → x < length (heap st0) →
  only_parent st0 x r → only_parent st x r.
Proof.
  intros [_ H] Hx H0 r' c Hc Hcx. destruct (H r' c Hc) as [Hc0|?]; [by eapply H0|lia].
Qed.

Lemma orphan_alloc st nd :
  wf st → n_children nd = [] → orphan (alloc_st nd st) (length (heap st)).
Proof.
  intros Hw Hnd r c. rewrite children_alloc by done.
  intros Hc%(wf_children _ Hw). lia.
Qed.

Lemma only_parent_not_inGraph st g x r :
  only_parent st x r → x ≠ g → ¬ inGraph st g r → ¬ inGraph st g x.
Proof.
  intros Hx Hne Hr [?|(r' & Hr' & Hin)]%inGraph_parent; [done|].
  apply elem_of_parents, elem_of_nodes in Hr' as (c & Hc & Hcx).
  by rewrite (Hx r' c Hc Hcx) in Hin.
Qed.

Section Detached.
Context (O : Objects).

(** The groups after [newStackGraph]: the new group holds the two new nodes,
    the others hold what they held. *)
Lemma newStackGraph_children s st g st' :
  newStackGraph O s st = Ok g st' →
  ∀ r c, c ∈ children st' r →
    c ∈ children st r ∨
    r = length (heap st) ∧
    (c.2 = S (length (heap st)) ∨ c.2 = S (S (length (heap st)))).
Proof.
  unfold newStackGraph. intros H. msteps H. clear Hname Hname0.
  intros r c. rewrite children_dependOn, !children_add_child.
  repeat (rewrite ?length_heap_update, ?length_heap_alloc).
  rewrite !children_alloc by done.
  destruct (decide (r = length (heap st))) as [->|Hr].
  - rewrite !decide_True by (split; [done|lia]).
    unfold children at 1. rewrite node_dangling by done. simpl.
    intros [->|[->|[]%elem_of_nil]%elem_of_cons]%elem_of_cons; right; split;
      try done; [by left|by right].
  - rewrite !decide_False by (intros [? _]; done). by left.
Qed.

Lemma addStackDependencies_fresh sgs ss st u st' :
  addStackDependencies O sgs ss st = Ok u st' → fresh_children st st'.
Proof.
  unfold addStackDependencies. intros H.
  eapply (forEach_inv (fresh_children st)); [|apply fresh_children_refl|exact H].
  intros s x u1 x' _ Hx H1.
  eapply (forEach_inv (fresh_children st)); [|exact Hx|exact H1].
  intros dep y u2 y' _ Hy H2.
  destruct (sgs !! s) as [g|]; mstep H2; [|done].
  by apply fresh_children_dependOn.
Qed.

Lemma detached_later st st' s sg p d :
  grows st st' → fresh_children st st' →
  detached st s sg p d → detached st' s sg p d.
Proof.
  intros Hg Hf (Hsg & Ho & Hp & Hd).
  pose proof Hsg as (_ & _ & _ & _ & _ & _ & ? & ? & ?).
  split; [by eapply stackGroup_grows|].
  split; [by eapply orphan_later|].
  split; by eapply only_parent_later.
Qed.

(** One stack of the first loop of [addStage]: its group holds its two
    nodes, and nothing holds the group. *)
Lemma addStack_detached fuel g sgs s st sgs' st' :
  wf st → addStack O fuel g sgs s st = Ok sgs' st' →
  ∃ sg p d, sg = length (heap st) ∧ sg < p ∧ sg < d ∧
    sgs' = <[s := sg]> sgs ∧ mods [] st st' ∧ detached st' s sg p d.
Proof.
  intros Hw H. pose proof (addStack_Ok O _ _ _ _ _ _ _ H) as (st1 & Hnew & Hm & Hg & ->).
  pose proof (newStackGraph_stackGroup O _ _ _ _ _ _ Hnew) as Hsg.
  pose proof (newStackGraph_children _ _ _ _ Hnew) as Hch.
  destruct (newStackGraph_Ok O _ _ _ _ Hnew) as (_ & Hm1 & Hl1 & _).
  exists (length (heap st)), (S (length (heap st))), (S (S (length (heap st)))).
  split; [done|]. split; [lia|]. split; [lia|].
  split; [done|]. split; [done|].
  (* the rest of the body only adds nodes it creates *)
  assert (fresh_children st1 st') as Hfresh.
  { unfold addStack in H. apply bind_Ok in H as (g0 & x1 & Hnew' & H).
    rewrite Hnew in Hnew'. injection Hnew' as <- <-. simpl in H.
    apply bind_Ok in H as (shared & ? & Hgs & H). mstep Hgs.
    destruct (cloudAssemblyOf O s _) as [ca|]; [|done].
    apply bind_Ok in H as (pn & st2 & Hrec & H).
    apply addAndRecurse_mods in Hrec as [Hm2 _].
    apply bind_Ok in H as (u & st3 & Hdep & H). mstep Hdep.
    apply bind_Ok in H as (u' & st4 & Hloop & H). mstep H.
    eapply (forEach_inv (fresh_children st1)); [| |exact Hloop].
    - intros asset x u5 x' _ Hx H5.
      apply bind_Ok in H5 as (an & x1 & Hpub & H5). mstep H5.
      apply publishAsset_mods in Hpub as [Hm6 _].
      apply fresh_children_dependOn.
      eapply fresh_children_trans; [exact Hx|by eapply mods_fresh_children].
    - apply fresh_children_dependOn. by eapply mods_fresh_children. }
  assert (∀ r c, c ∈ children st r → c.2 < length (heap st)) as Hold
    by (intros r c; apply (wf_children _ Hw)).
  eapply detached_later; [exact Hg|exact Hfresh|].
  split; [exact Hsg|]. split; [|split].
  - intros r c [Hc%Hold|[_ [?|?]]]%Hch; lia.
  - intros r c [Hc%Hold|[? _]]%Hch ?; [lia|done].
  - intros r c [Hc%Hold|[? _]]%Hch ?; [lia|done].
Qed.

(** The first loop of [addStage]: every stack of the stage gets a stack
    group that is attached to nothing. *)
Lemma addStack_pass_detached fuel g l : ∀ sgs0 st sgs st',
  wf st → g < length (heap st) →
  foldM (addStack O fuel g) sgs0 l st = Ok sgs st' →
  (∀ s sg, sgs0 !! s = Some sg →
     g < sg ∧ ∃ p d, sg < p ∧ sg < d ∧ detached st s sg p d) →
  mods [] st st' ∧
  (∀ s sg, sgs !! s = Some sg →
     g < sg ∧ ∃ p d, sg < p ∧ sg < d ∧ detached st' s sg p d) ∧
  (∀ s, s ∈ l ∨ is_Some (sgs0 !! s) → is_Some (sgs !! s)).
Proof.
  induction l as [|s l IH]; intros sgs0 st sgs st' Hw Hg H H0; simpl in H.
  - mstep H. split; [apply mods_refl|]. split; [done|].
    intros s [?%elem_of_nil|?]; done.
  - apply bind_Ok in H as (sgs1 & st1 & Hs & H).
    apply addStack_detached in Hs as (sg & p & d & -> & Hp & Hd & -> & Hm & Hdet);
      [|done].
    pose proof (mods_length _ _ _ Hm) as Hl.
    apply IH in H as (Hm2 & Hall & Hdom); [|by eapply wf_mods|lia|].
    + split; [by eapply mods_trans|]. split; [done|].
      intros s' [[->|?]%elem_of_cons|[sg' Hs']]; apply Hdom.
      * right. rewrite lookup_insert_eq. by eexists.
      * by left.
      * right. rewrite lookup_insert. case_decide; by eexists.
    + intros s' sg'. rewrite lookup_insert. case_decide.
      * intros [= <-]. subst s'. split; [lia|]. by exists p, d.
      * intros [? (p' & d' & ? & ? & Hsg)]%H0. split; [done|]. exists p', d'.
        split; [done|]. split; [done|].
        eapply detached_later; [by eapply mods_grows|by eapply mods_fresh_children|done].
Qed.

(** Stage compilation attaches neither the stage group nor the stack groups:
    nothing holds the group it returns, and every stack of the stage has a
    stack group that nothing holds, whose "Prepare" and "Deploy" nodes only
    that stack group holds. *)
Lemma addStage_detached fuel stage st g st' :
  wf st → addStage O fuel stage st = Ok g st' →
  g = length (heap st) ∧ orphan st' g ∧
  ∀ s, s ∈ stacks stage →
    ∃ sg p d, g < sg ∧ sg < p ∧ sg < d ∧ detached st' s sg p d.
Proof.
  unfold addStage. intros Hw H.
  apply bind_Ok in H as (g0 & st1 & Hg & H). mstep Hg.
  apply bind_Ok in H as (sgs & st2 & Hfold & H).
  apply bind_Ok in H as (u & st3 & Hdeps & H).
  apply bind_Ok in H as (u' & st4 & Hpp & H). mstep H.
  match type of Hfold with foldM _ _ _ ?x = _ => set (st1 := x) in * end.
  set (g := length (heap st)) in *.
  assert (Hl1 : length (heap st1) = S g) by apply length_heap_alloc.
  assert (Hw1 : wf st1).
  { eapply (wf_mods []); [exact Hw|]. apply mods_alloc; [apply mods_refl|done]. }
  assert (Ho1 : orphan st1 g) by by apply orphan_alloc.
  apply addStack_pass_detached in Hfold as (Hm2 & Hall & Hdom);
    [|done|lia|intros s sg; by rewrite lookup_empty].
  pose proof (addStackDependencies_fresh _ _ _ _ _ Hdeps) as Hf3.
  apply addStackDependencies_edges in Hdeps as [Hg3 _].
  2:{ intros s sg [_ (p & d & _ & _ & Hsg & _)]%Hall. apply Hsg. }
  apply addPrePost_mods in Hpp.
  assert (fresh_children st2 st4) as Hf24
    by (eapply fresh_children_trans; [done|by eapply mods_fresh_children]).
  assert (grows st2 st4) as Hg24
    by (eapply grows_trans; [done|by eapply mods_grows]).
  split; [done|]. split.
  - eapply orphan_later; [|rewrite Hl1; lia|exact Ho1].
    eapply fresh_children_trans; [by eapply mods_fresh_children|done].
  - intros s Hs. destruct (Hdom s) as [sg Hsg]; [by left|].
    destruct (Hall s sg Hsg) as [? (p & d & ? & ? & Hdet)]. exists sg, p, d.
    split; [done|]. split; [done|]. split; [done|]. by eapply detached_later.
Qed.

(** The same, in terms of the graphs: after stage compilation the stack
    group of a stack of the stage, its "Prepare" node and its "Deploy" node
    are neither in the stage graph that [addStage] returns nor in the root
    graph. *)
Lemma addStage_stack_groups_out fuel stage st g st' :
  wf st → addStage O fuel stage st = Ok g st' →
  ∀ s, s ∈ stacks stage →
    ∃ sg p d, stackGroup st' s sg p d ∧ parents st' sg = [] ∧
      ∀ x, x ∈ [sg; p; d] → ¬ inGraph st' g x ∧ ¬ inGraph st' (graph st') x.
Proof.
  intros Hw H s Hs.
  destruct (addStage_detached _ _ _ _ _ Hw H) as (-> & Hog & Hall).
  destruct (Hall s Hs) as (sg & p & d & Hsg & Hp & Hd & Hst & Ho & Hop & Hod).
  destruct (addStage_Ok O _ _ _ _ _ Hw H) as (_ & _ & Hm & _).
  pose proof (wf_graph _ Hw) as Hroot. rewrite (m_graph _ _ _ Hm).
  exists sg, p, d. split; [done|]. split; [by apply orphan_parents|].
  assert (∀ g0, g0 ≤ length (heap st) → ¬ inGraph st' g0 sg) as Hout
    by (intros g0 ?; apply orphan_not_inGraph; [done|lia]).
  intros x [->|[->|[->|[]%elem_of_nil]%elem_of_cons]%elem_of_cons]%elem_of_cons.
  - split; apply Hout; lia.
  - split; (eapply only_parent_not_inGraph; [exact Hop|lia|apply Hout; lia]).
  - split; (eapply only_parent_not_inGraph; [exact Hod|lia|apply Hout; lia]).
Qed.

(** ** Wave graphs *)

Lemma Graph_of_orphan id d ns st g st' :
  wf st → Forall (λ c, c < length (heap st)) ns →
  Graph_of id d ns st = Ok g st' → orphan st' g.
Proof.
  unfold Graph_of. intros Hw Hns H.
  apply bind_Ok in H as (g0 & st1 & Hg & H). mstep Hg.
  apply bind_Ok in H as (u & st2 & Hadd & H). mstep H.
  set (g := length (heap st)) in *.
  eapply (forEach_inv (λ x, orphan x g)); [| |exact Hadd].
  - intros c x u1 x' Hc Hx Hx'. mstep Hx'.
    rewrite Forall_forall in Hns. specialize (Hns c Hc).
    intros r c'. rewrite children_add_child. case_decide; [|apply Hx].
    intros [?|Hc'%list_elem_of_singleton]%elem_of_app; [by eapply Hx|].
    subst c'. simpl. unfold g. lia.
  - by apply orphan_alloc.
Qed.

Lemma addWave_orphan fuel wave st g st' :
  wf st → addWave O fuel wave st = Ok g st' → orphan st' g.
Proof.
  intros Hw H. pose proof (addWave_Ok O _ _ _ _ _ Hw H) as (Hb & _).
  unfold addWave in H.
  apply bind_Ok in H as (g0 & st1 & Hg & H).
  apply bind_Ok in H as (u & st2 & Hpp & H). msteps H.
  rewrite length_heap_update in Hb.
  apply addPrePost_mods in Hpp. pose proof (mods_length _ _ _ Hpp).
  assert (g0 < length (heap st1) ∧ orphan st1 g0) as [Hg0 Ho].
  { destruct (stages wave) as [|stage [|stage' ss]].
    - simpl in Hg. apply bind_Ok in Hg as (gs & ? & Hgs & Hg). mstep Hgs.
      pose proof (Graph_of_orphan _ _ _ _ _ _ Hw (Forall_nil_2 _) Hg) as Ho.
      apply (Graph_of_Ok st) in Hg as (-> & Hl & _); [|apply mods_refl|done].
      split; [lia|done].
    - destruct (addStage_detached _ _ _ _ _ Hw Hg) as (_ & Ho & _).
      apply addStage_Ok in Hg as (_ & Hl & _); [|done]. done.
    - apply bind_Ok in Hg as (gs & st0 & Hgs & Hg).
      apply mapM_addStage_Ok in Hgs as [Hm0 Hgs]; [|done].
      pose proof (wf_mods _ _ _ Hw Hm0) as Hw0.
      assert (orphan st1 g0) as Ho.
      { eapply Graph_of_orphan; [exact Hw0| |exact Hg].
        eapply Forall_impl; [exact Hgs|]. simpl. intros; lia. }
      apply (Graph_of_Ok st) in Hg as (-> & Hl & _); [|done|done].
      split; [lia|done]. }
  apply (orphan_later st1); [|done|done].
  apply fresh_children_dependOn. by eapply mods_fresh_children.
Qed.

Lemma mapM_addWave_orphan fuel ws : ∀ st gs st',
  wf st → mapM (addWave O fuel) ws st = Ok gs st' →
  ∀ g, g ∈ gs → orphan st' g.
Proof.
  induction ws as [|w ws IH]; intros st gs st' Hw H; simpl in H.
  - mstep H. by intros g ?%elem_of_nil.
  - apply bind_Ok in H as (g & st1 & Hg & H).
    apply bind_Ok in H as (gs' & st2 & Hgs & H). mstep H.
    pose proof (addWave_orphan _ _ _ _ _ Hw Hg) as Ho.
    apply addWave_Ok in Hg as (Hb & Hm1 & _); [|done].
    pose proof (wf_mods _ _ _ Hw Hm1) as Hw1.
    pose proof (mapM_addWave_Ok O _ _ _ _ _ Hw1 Hgs) as (Hm2 & _).
    intros g' [->|Hg']%elem_of_cons; [|by eapply IH].
    eapply orphan_later; [by eapply mods_fresh_children|lia|done].
Qed.

(** No wave graph is in the graph the constructor leaves in [this.graph]:
    the constructor keeps the wave graphs in its local [waves] and adds them
    to no group. *)
Lemma construct_waves_out fuel blueprint props ws st :
  new_GraphFromBlueprint O fuel blueprint props = Ok ws st →
  ∀ w, w ∈ ws → parents st w = [] ∧ ¬ inGraph st (graph st) w.
Proof.
  unfold new_GraphFromBlueprint.
  intros (st1 & st2 & lp & ca & Hw1 & _ & _ & _ & Hws & Hseq)%construct_Ok w Hw.
  pose proof (mapM_addWave_orphan _ _ _ _ _ Hw1 Hws w Hw) as Ho.
  apply mapM_addWave_Ok in Hws as (Hm & _ & Hall & _); [|done].
  apply list_elem_of_lookup_1 in Hw as [i Hi].
  destruct (Hall i w Hi) as (Hb & _).
  assert (fresh_children st2 st ∧ graph st = graph st2) as [Hf Hg].
  { unfold deploySequentially in Hseq.
    eapply (forEach_inv (λ x, fresh_children st2 x ∧ graph x = graph st2));
      [|split; [apply fresh_children_refl|done]|exact Hseq].
    intros k x u x' _ [Hx Hgx] Hk. cbv beta in Hk.
    destruct (ws !! k) as [wk|]; [|done]. mstep Hk.
    split; [by apply fresh_children_dependOn|done]. }
  assert (orphan st w) as Ho' by (eapply orphan_later; [exact Hf|lia|done]).
  split; [by apply orphan_parents|].
  apply orphan_not_inGraph; [done|].
  rewrite Hg, (m_graph _ _ _ Hm). pose proof (wf_graph _ Hw1). lia.
Qed.

End Detached.

(** ** The compiled graph of [demo_blueprint] *)

Lemma child_not_inGraph st g x r :
  parents st x = [r] → x ≠ g → ¬ inGraph st g r → ¬ inGraph st g x.
Proof.
  intros Hx Hne Hr [?|(r' & Hr' & Hin)]%inGraph_parent; [done|].
  rewrite Hx in Hr'. apply list_elem_of_singleton in Hr' as ->. by apply Hr.
Qed.

(** C4 does not hold of the code: the wave graphs and the edges between them
    are not in the compiled graph. For the three waves of [demo_blueprint]
    the constructor builds the wave graphs [w0], [w1], [w2] and makes [w1]
    depend on [w0] and [w2] on [w1], but it keeps them in its local [waves]
    and adds them to no group, unlike the "UpdatePipeline" group it adds to
    the root a few lines before: when it returns, the root of [this.graph]
    holds the groups "Build", "Source", "UpdatePipeline" and "Assets", no
    group has a wave graph among its nodes, and no wave graph is in
    [this.graph]. *)
Theorem constructor_leaves_waves_out :
  ∃ w0 w1 w2 st,
    new_GraphFromBlueprint demo 3 demo_blueprint {| selfMutation := true |}
      = Ok [w0; w1; w2] st ∧
    (w0 ∈ deps st w1 ∧ w1 ∈ deps st w2) ∧
    (children st (graph st)).*1 = ["Build"; "Source"; "UpdatePipeline"; "Assets"] ∧
    ∀ w, w ∈ [w0; w1; w2] → parents st w = [] ∧ ¬ inGraph st (graph st) w.
Proof.
  eexists _, _, _, _. split; [vm_compute; reflexivity|].
  split; [split; apply list_elem_of_In; vm_compute; tauto|].
  split; [vm_compute; reflexivity|].
  intros w Hw.
  repeat (apply elem_of_cons in Hw as [->|Hw]); [| | |by apply elem_of_nil in Hw].
  all: match goal with |- parents ?s ?x = [] ∧ _ =>
         assert (parents s x = []) as Hp by (vm_compute; reflexivity) end.
  all: split; [exact Hp|].
  all: apply orphan_not_inGraph; [apply orphan_parents; exact Hp|vm_compute; lia].
Qed.

(** C6 does not hold of the code: the stack groups are attached to nothing,
    so the graph has no order between the nodes of two stacks. In the stage
    "Prod" of [demo_blueprint] stack 0 ("Api") declares a dependency on
    stack 1 ("Database"). The constructor builds the stack groups [sg2] of
    stack 0 and [sg1] of stack 1, each with its "Prepare" and "Deploy" node,
    and makes [sg2] depend on [sg1]; the "Prepare" node [p2] of stack 0 has
    no edge to the "Deploy" node [d1] of stack 1. But [addStage] adds the
    stack groups to no group, unlike the two nodes it adds to each stack
    group: when the constructor returns, the stage graph [prod] has no
    nodes, no group holds a stack group, only the stack groups hold the
    "Prepare" and "Deploy" nodes, and none of the six is in the stage graph
    or in [this.graph]. *)
Theorem addStage_leaves_stack_groups_out :
  ∃ prod w1 w2 st sg2 p2 d2 sg1 p1 d1,
    new_GraphFromBlueprint demo 3 demo_blueprint {| selfMutation := true |}
      = Ok [prod; w1; w2] st ∧
    n_id (node st prod) = "Prod" ∧
    1 ∈ dependsOnStacks (stack demo 0) ∧
    stackGroup st 0 sg2 p2 d2 ∧ stackGroup st 1 sg1 p1 d1 ∧
    sg1 ∈ deps st sg2 ∧ d1 ∉ deps st p2 ∧
    nodes st prod = [] ∧
    parents st sg2 = [] ∧ parents st sg1 = [] ∧
    parents st p2 = [sg2] ∧ parents st d1 = [sg1] ∧
    ∀ x, x ∈ [sg2; p2; d2; sg1; p1; d1] →
      ¬ inGraph st prod x ∧ ¬ inGraph st (graph st) x.
Proof.
  eexists _, _, _, _, 8, 9, 10, 13, 14, 15. split; [vm_compute; reflexivity|].
  split; [vm_compute; reflexivity|].
  split; [by left|].
  assert (∀ (x : nat) l, In x l → x ∈ l) as Hin by (intros; by apply list_elem_of_In).
  assert (∀ (x : string * nat) l, In x l → x ∈ l) as Hin2
    by (intros; by apply list_elem_of_In).
  split; [unfold stackGroup; repeat split;
          first [apply Hin; vm_compute; tauto | apply Hin2; vm_compute; tauto
                | vm_compute; first [reflexivity | lia]]|].
  split; [unfold stackGroup; repeat split;
          first [apply Hin; vm_compute; tauto | apply Hin2; vm_compute; tauto
                | vm_compute; first [reflexivity | lia]]|].
  split; [apply Hin; vm_compute; tauto|].
  split; [intros H%list_elem_of_In; vm_compute in H; intuition discriminate|].
  split; [vm_compute; reflexivity|].
  match goal with |- parents ?s 8 = [] ∧ _ =>
    assert (parents s 8 = []) as Hsg2 by (vm_compute; reflexivity);
    assert (parents s 13 = []) as Hsg1 by (vm_compute; reflexivity);
    assert (parents s 9 = [8]) as Hp2 by (vm_compute; reflexivity);
    assert (parents s 10 = [8]) as Hd2 by (vm_compute; reflexivity);
    assert (parents s 14 = [13]) as Hp1 by (vm_compute; reflexivity);
    assert (parents s 15 = [13]) as Hd1 by (vm_compute; reflexivity)
  end.
  split; [exact Hsg2|]. split; [exact Hsg1|]. split; [exact Hp2|]. split; [exact Hd1|].
  apply orphan_parents in Hsg2, Hsg1.
  intros x Hx.
  repeat (apply elem_of_cons in Hx as [->|Hx]); [..|by apply elem_of_nil in Hx].
  all: split.
  all: first
    [ apply orphan_not_inGraph; [assumption|vm_compute; lia]
    | eapply child_not_inGraph;
        [eassumption|vm_compute; lia|
         apply orphan_not_inGraph; [assumption|vm_compute; lia]] ].
Qed.

